(** * Docu-Query: the document indexing and retrieval engine

    A shallow embedding of [ai-service.ts] (class [AIService]) and of
    [document-service.ts] (class [DocumentService]), and the properties of the
    chunker, the embedding fallback, the cosine similarity, the retriever and
    the document lifecycle that the specification states.

    Conventions of the embedding:
    - a JavaScript string is the list of its UTF-16 code units ([jsstring]);
    - a JavaScript [Map] is an association list in insertion order ([JsMap]);
    - a JavaScript [number] that holds a size, an index or a time is a [Z];
      the numbers of the vector arithmetic (embeddings and scores) belong to
      an arithmetic structure [Arith], with two instances: the field of real
      numbers ([RArith], exact arithmetic) and IEEE 754 binary64
      ([F64Arith], the arithmetic JavaScript runs);
    - what the environment decides (the clock, the identifier generator, the
      remote embedding service, a file's readability) is a parameter;
    - an asynchronous call runs to its end before the next one starts: what
      may interleave at an [await] is not part of the embedding. *)

From Stdlib Require Import Floats.
From Stdlib Require Import List ZArith NArith Bool Lia Permutation Sorted.
From Stdlib Require Import String Ascii DecimalString QArith Qround.
From Stdlib Require Import Reals Lra.
From Stdlib Require Import DecimalNat.
Import ListNotations.

Set Implicit Arguments.

Close Scope R_scope.
Close Scope Q_scope.
Close Scope float_scope.

(* ================================================================= *)
(** ** JavaScript strings *)

Module JsString.

(** A string is its sequence of UTF-16 code units. *)
Definition jsstring := list N.

(** A literal, written as a Rocq string of code units below 256. *)
Definition str (s : string) : jsstring :=
  List.map N_of_ascii (list_ascii_of_string s).

Fixpoint eqb (s t : jsstring) : bool :=
  match s, t with
  | [], [] => true
  | c :: s', d :: t' => (c =? d)%N && eqb s' t'
  | _, _ => false
  end.

(** [s.length] *)
Definition length (s : jsstring) : Z := Z.of_nat (List.length s).

(** A string is truthy when it is not empty. *)
Definition truthy (s : jsstring) : bool :=
  match s with [] => false | _ :: _ => true end.

(** The code units [String.prototype.trim] strips: ECMAScript's WhiteSpace
    and LineTerminator. *)
Definition isWhiteSpace (c : N) : bool :=
  (existsb (N.eqb c)
     [9; 10; 11; 12; 13; 32; 160; 5760; 8232; 8233; 8239; 8287; 12288; 65279]
   || ((8192 <=? c) && (c <=? 8202)))%N.

Fixpoint trimStart (s : jsstring) : jsstring :=
  match s with
  | c :: s' => if isWhiteSpace c then trimStart s' else s
  | [] => []
  end.

Definition trimEnd (s : jsstring) : jsstring := rev (trimStart (rev s)).

(** [s.trim()] *)
Definition trim (s : jsstring) : jsstring := trimEnd (trimStart s).

(** [s.split(sep)] for a separator of one code unit; [cur] is the piece
    being read. *)
Fixpoint splitOn (sep : N) (s cur : jsstring) : list jsstring :=
  match s with
  | [] => [cur]
  | c :: s' =>
      if (c =? sep)%N then cur :: splitOn sep s' []
      else splitOn sep s' (cur ++ [c])
  end.

Definition space : N := 32.

(** [s.split(' ')] *)
Definition splitSpaces (s : jsstring) : list jsstring := splitOn space s [].

(** The class [[.!?]] *)
Definition isTerminal (c : N) : bool :=
  ((c =? 46) || (c =? 33) || (c =? 63))%N.

(** [s.split(/[.!?]+/)]: the pieces between the maximal runs of terminal
    punctuation; [inRun] tells that the previous code unit belonged to a
    run, which the greedy [+] extends. *)
Fixpoint splitTerminal (s cur : jsstring) (inRun : bool) : list jsstring :=
  match s with
  | [] => [cur]
  | c :: s' =>
      if isTerminal c then
        if inRun then splitTerminal s' cur true
        else cur :: splitTerminal s' [] true
      else splitTerminal s' (cur ++ [c]) false
  end.

Definition splitSentences (s : jsstring) : list jsstring :=
  splitTerminal s [] false.

(** [pieces.join(sep)] *)
Fixpoint join (sep : jsstring) (pieces : list jsstring) : jsstring :=
  match pieces with
  | [] => []
  | [p] => p
  | p :: rest => p ++ sep ++ join sep rest
  end.

(** [s.split('')]: one string per code unit. *)
Definition chars (s : jsstring) : list jsstring := List.map (fun c => [c]) s.

(** [s.charCodeAt(0)], on a non-empty string. *)
Definition charCodeAt0 (s : jsstring) : Z :=
  match s with c :: _ => Z.of_N c | [] => 0 end.

(** [hay.includes(needle)] *)
Fixpoint startsWith (needle hay : jsstring) : bool :=
  match needle, hay with
  | [], _ => true
  | c :: n', d :: h' => (c =? d)%N && startsWith n' h'
  | _ :: _, [] => false
  end.

Fixpoint includes (hay needle : jsstring) : bool :=
  startsWith needle hay ||
  match hay with
  | [] => false
  | _ :: h' => includes h' needle
  end.

End JsString.

Import JsString.

(* ================================================================= *)
(** ** JavaScript arrays *)

Module JsArray.

Local Open Scope Z_scope.

(** The clamping of a relative index against a length, as
    [Array.prototype.slice] does it. *)
Definition relIndex (len rel : Z) : Z :=
  if rel <? 0 then Z.max (len + rel) 0 else Z.min rel len.

(** [l.slice(start, stop)] on integer arguments. *)
Definition slice {A : Type} (l : list A) (start stop : Z) : list A :=
  let len := Z.of_nat (List.length l) in
  let k := relIndex len start in
  let final := relIndex len stop in
  firstn (Z.to_nat (final - k)) (skipn (Z.to_nat k) l).

(** [l.slice(start)] *)
Definition sliceFrom {A : Type} (l : list A) (start : Z) : list A :=
  slice l start (Z.of_nat (List.length l)).

(** [l.sort(cmp)] for a comparison function that is consistent on the
    elements of [l], where [before y x] says that the comparison function
    puts [y] strictly before [x] ([cmp(y, x) < 0]).  The sort is stable:
    an element moves in front of another only when the comparison asks
    for it. *)
Fixpoint insert {A : Type} (before : A -> A -> bool) (x : A)
         (sorted : list A) : list A :=
  match sorted with
  | [] => [x]
  | y :: rest =>
      if before y x then y :: insert before x rest else x :: y :: rest
  end.

Fixpoint sort {A : Type} (before : A -> A -> bool) (l : list A) : list A :=
  match l with
  | [] => []
  | x :: rest => insert before x (sort before rest)
  end.

(** Whether [before] is consistent on the elements of [l]: no two of them
    are each before the other, and one that is before another is before
    any third one, or the third one is before the other.  For a comparison
    function with [cmp(x, y) > 0] exactly when [cmp(y, x) < 0], as a
    difference of numbers is, these are the conditions of ECMAScript on a
    consistent comparison function.  A NaN among numbers that differ
    breaks them: it is before none of them and none is before it. *)
Definition consistent {A : Type} (before : A -> A -> bool) (l : list A)
  : bool :=
  forallb
    (fun x =>
       forallb
         (fun y =>
            (negb (before x y) || negb (before y x))
            && forallb
                 (fun z => negb (before x z) || before x y || before y z)
                 l)
         l)
    l.

(** The order the host gives an array whose comparison function is not
    consistent is its own choice among the rearrangements of the array.
    [place n] tells where the host puts the element that has [n] elements
    after it in the array: after that many of those. *)
Fixpoint insertAt {A : Type} (n : nat) (x : A) (l : list A) : list A :=
  match n, l with
  | S n', y :: rest => y :: insertAt n' x rest
  | _, _ => x :: l
  end.

Fixpoint arrange {A : Type} (place : nat -> nat) (l : list A) : list A :=
  match l with
  | [] => []
  | x :: rest => insertAt (place (List.length rest)) x (arrange place rest)
  end.

(** [l.sort(cmp)] for any comparison function. *)
Definition hostSort {A : Type} (place : nat -> nat)
           (before : A -> A -> bool) (l : list A) : list A :=
  if consistent before l then sort before l else arrange place l.

End JsArray.

(* ================================================================= *)
(** ** JavaScript maps *)

Module JsMap.

(** A [Map<string, V>]: the entries in insertion order. *)
Definition t (V : Type) := list (jsstring * V).

Definition empty {V : Type} : t V := [].

Fixpoint get {V : Type} (m : t V) (k : jsstring) : option V :=
  match m with
  | [] => None
  | (k', v) :: m' => if JsString.eqb k' k then Some v else get m' k
  end.

Definition has {V : Type} (m : t V) (k : jsstring) : bool :=
  match get m k with Some _ => true | None => false end.

(** [m.set(k, v)]: an existing key keeps its place, a new key goes last. *)
Fixpoint set {V : Type} (m : t V) (k : jsstring) (v : V) : t V :=
  match m with
  | [] => [(k, v)]
  | (k', v') :: m' =>
      if JsString.eqb k' k then (k', v) :: m' else (k', v') :: set m' k v
  end.

(** [m.delete(k)] *)
Definition delete {V : Type} (m : t V) (k : jsstring) : t V :=
  filter (fun e => negb (JsString.eqb (fst e) k)) m.

(** [Array.from(m.values())] *)
Definition values {V : Type} (m : t V) : list V := List.map snd m.

Definition keys {V : Type} (m : t V) : list jsstring := List.map fst m.

End JsMap.

(* ================================================================= *)
(** ** The arithmetic of embeddings and scores *)

(** The operations the engine applies to the numbers of a vector: the
    arithmetic operators, [Math.sqrt], [Math.max], the test [x < y] and the
    conversion of an integer. *)
Class Arith : Type := {
  num : Type;
  ofZ : Z -> num;
  half : num;
  nadd : num -> num -> num;
  nsub : num -> num -> num;
  nmul : num -> num -> num;
  ndiv : num -> num -> num;
  nsqrt : num -> num;
  nltb : num -> num -> bool;
  nmax : num -> num -> num
}.

(** [Math.sin], which binary64 leaves to the host. *)
Class Sine (A : Arith) : Type := nsin : @num A -> @num A.

(** Exact arithmetic: the real numbers. *)
#[export] Instance RArith : Arith := {
  num := R;
  ofZ := IZR;
  half := (5 / 10)%R;
  nadd := Rplus;
  nsub := Rminus;
  nmul := Rmult;
  ndiv := Rdiv;
  nsqrt := sqrt;
  nltb := fun x y => if Rlt_dec x y then true else false;
  nmax := Rmax
}.

#[export] Instance RSine : Sine RArith := sin.

(** IEEE 754 binary64, the arithmetic of a JavaScript [number]. *)
Module F64.

Local Open Scope float_scope.

(** The conversion of an integer below 2^63 in absolute value. *)
Definition ofZ (z : Z) : float :=
  if (z <? 0)%Z then - of_uint63 (Uint63.of_Z (- z))
  else of_uint63 (Uint63.of_Z z).

(** [Math.max(x, y)]: NaN when an argument is, and +0 above -0. *)
Definition max (x y : float) : float :=
  if is_nan x || is_nan y then nan
  else if x <? y then y
  else if y <? x then x
  else if is_zero x then x + y
  else x.

End F64.

#[export] Instance F64Arith : Arith := {
  num := float;
  ofZ := F64.ofZ;
  half := 0.5%float;
  nadd := PrimFloat.add;
  nsub := PrimFloat.sub;
  nmul := PrimFloat.mul;
  ndiv := PrimFloat.div;
  nsqrt := PrimFloat.sqrt;
  nltb := PrimFloat.ltb;
  nmax := F64.max
}.

(* ================================================================= *)
(** ** The real numbers of binary64

    The value of a binary64 number as a real number, read off the
    specification of the format ([SpecFloat]), for the analysis of the
    rounding of [cosineSimilarity]. *)
Module F64R.

(** The number of binary digits of a natural number. *)
Definition digits (m : Z) : Z := Zdigits2 m.

(** What the rounding of binary64 returns for the mantissa [m] and the
    exponent [e] it has arrived at. *)
Definition rounded (sx : bool) (m e : Z) : spec_float :=
  match m with
  | Z0 => S754_zero sx
  | Zpos p => if (e <=? 971)%Z then S754_finite sx p e else S754_infinity sx
  | Zneg _ => S754_nan
  end.

(** The real number a binary64 value stands for; 0 for the infinities and
    for NaN. *)
Definition bpow (e : Z) : R := powerRZ 2 e.

Definition sign (s : bool) : R := if s then (-1)%R else 1%R.

Definition SFvalue (x : spec_float) : R :=
  match x with
  | S754_finite s m e => (sign s * (IZR (Zpos m) * bpow e))%R
  | _ => 0%R
  end.

(** Zero or a finite number: neither an infinity nor NaN. *)
Definition SFfinite (x : spec_float) : bool :=
  match x with
  | S754_zero _ | S754_finite _ _ _ => true
  | _ => false
  end.

(** The sign bit, where there is one. *)
Definition SFsign (x : spec_float) : option bool :=
  match x with
  | S754_zero s | S754_infinity s | S754_finite s _ _ => Some s
  | S754_nan => None
  end.

Definition value (x : float) : R := SFvalue (Prim2SF x).

Definition finite (x : float) : bool := SFfinite (Prim2SF x).

(** Zero, or a number of magnitude from 2^-500 to below 2^500: a finite
    number of exponent from -552 to 447, the mantissa having 53
    digits. *)
Definition moderate (x : float) : bool :=
  match Prim2SF x with
  | S754_zero _ => true
  | S754_finite _ _ e => ((-552 <=? e) && (e <=? 447))%Z
  | _ => false
  end.

(** The sum of a list of real numbers. *)
Definition total (l : list R) : R := fold_right Rplus 0%R l.

(** The exact product of a pair of binary64 numbers. *)
Definition product (xy : float * float) : R :=
  (value (fst xy) * value (snd xy))%R.

(** The growth of the relative error over [k] turns of the loop of
    [cosineSimilarity], each with a product and a sum. *)
Definition grow (k : nat) : R := ((1 + bpow (-52)) ^ (2 * k))%R.

(** A vector of moderate numbers, one of which is not zero. *)
Definition moderateVector (a : list float) : bool :=
  forallb moderate a && existsb (fun x => negb (is_zero x)) a.

(** The place of a binary64 number that is not NaN in the order of the
    numbers: its value, and for the infinities a quantity beyond every
    finite value. *)
Definition SFkey (x : spec_float) : R :=
  match x with
  | S754_infinity false => bpow 1024
  | S754_infinity true => (- bpow 1024)%R
  | _ => SFvalue x
  end.

Definition key (x : float) : R := SFkey (Prim2SF x).

Definition SFnan (x : spec_float) : bool :=
  match x with S754_nan => true | _ => false end.
End F64R.

(* ================================================================= *)
(** ** The AI service ([AIService])

    [saveVectorStore] writes a copy of the store to local storage and
    catches its own failures; it does not change the service, and the copy
    is not part of the state here. *)

Module AI.

Local Open Scope Z_scope.

Section Service.

Context {A : Arith}.

Record Metadata : Type := {
  meta_title : jsstring;
  meta_fileType : jsstring;
  chunkIndex : Z;
  totalChunks : Z
}.

Record DocumentChunk : Type := {
  chunk_id : jsstring;
  documentId : jsstring;
  chunk_content : jsstring;
  embedding : list num;
  metadata : Metadata
}.

Record DocumentSource : Type := {
  id : jsstring;
  title : jsstring;
  content : jsstring;
  relevanceScore : num;
  lastUpdated : Z
}.

Record EmbeddingResult : Type := {
  result_embedding : list num;
  tokenCount : Z
}.

(** The service: its key and its vector store. *)
Record AIService : Type := {
  apiKey : jsstring;
  vectorStore : JsMap.t DocumentChunk
}.

Definition withStore (svc : AIService) (m : JsMap.t DocumentChunk)
  : AIService :=
  {| apiKey := apiKey svc; vectorStore := m |}.

Definition setApiKey (svc : AIService) (key : jsstring) : AIService :=
  {| apiKey := key; vectorStore := vectorStore svc |}.

(* ------------------------------------------------------------- *)
(** *** Embeddings *)

Context {S : Sine A}.

(** [text.split('').reduce((acc, char) => acc + char.charCodeAt(0), 0)] *)
Definition seedOf (text : jsstring) : num :=
  fold_left (fun acc char => nadd acc (ofZ (charCodeAt0 char)))
            (chars text) (ofZ 0).

(** The component pushed at index [i]. *)
Definition mockComponent (seed : num) (i : Z) : num :=
  nadd (nmul (nsin (nmul seed (ofZ (i + 1)))) half) half.

Definition embeddingSize : nat := 1536.

Definition generateMockEmbedding (text : jsstring) : list num :=
  let seed := seedOf text in
  List.map (fun i => mockComponent seed (Z.of_nat i))
           (seq 0 embeddingSize).

(** [Math.ceil(n / 4)] *)
Definition ceilQuarter (n : Z) : Z := Qceiling (inject_Z n / 4).

Definition mockResult (text : jsstring) : EmbeddingResult :=
  {| result_embedding := generateMockEmbedding text;
     tokenCount := ceilQuarter (JsString.length text) |}.

(** The remote embeddings endpoint, asked with a key and a text: [None]
    for what the [catch] block takes, a transport failure, a status that
    is not ok, a body that is not JSON or an answer without [data.data[0]]
    or without [data.usage]; otherwise the fields [data.data[0].embedding]
    and [data.usage.total_tokens] of the answer, which the source hands on
    unchecked and which are taken here to be a vector of numbers and an
    integer.  It answers a given request the same way throughout. *)
Variable fetchEmbedding : jsstring -> jsstring -> option EmbeddingResult.

Definition generateEmbedding (svc : AIService) (text : jsstring)
  : EmbeddingResult :=
  if negb (truthy (apiKey svc)) then mockResult text
  else
    match fetchEmbedding (apiKey svc) text with
    | Some r => r
    | None => mockResult text
    end.

(* ------------------------------------------------------------- *)
(** *** Cosine similarity *)

(** The accumulators [(dotProduct, normA, normB)] after the loop. *)
Definition cosineStep (acc : num * num * num) (xy : num * num)
  : num * num * num :=
  let '(dotProduct, normA, normB) := acc in
  let '(x, y) := xy in
  (nadd dotProduct (nmul x y), nadd normA (nmul x x),
   nadd normB (nmul y y)).

Definition cosineLoop (a b : list num) : num * num * num :=
  fold_left cosineStep (combine a b) (ofZ 0, ofZ 0, ofZ 0).

Definition cosineSimilarity (a b : list num) : num :=
  if negb (Nat.eqb (List.length a) (List.length b)) then ofZ 0
  else
    let '(dotProduct, normA, normB) := cosineLoop a b in
    ndiv dotProduct (nmul (nsqrt normA) (nsqrt normB)).

(* ------------------------------------------------------------- *)
(** *** The chunker *)

(** [text.split(/[.!?]+/).filter(s => s.trim())] *)
Definition sentencesOf (text : jsstring) : list jsstring :=
  filter (fun s => truthy (trim s)) (splitSentences text).

(** [(currentChunk + sentence).length > chunkSize && currentChunk] *)
Definition closes (chunkSize : Z) (currentChunk sentence : jsstring)
  : bool :=
  (JsString.length (currentChunk ++ sentence) >? chunkSize)
  && truthy currentChunk.

(** The argument of [words.slice(-overlap / 10)], which [slice] truncates
    to an integer. *)
Definition overlapStart (overlap : Z) : Z := Z.quot (- overlap) 10.

(** [words.slice(-overlap / 10)] for [words = currentChunk.split(' ')] *)
Definition overlapWords (overlap : Z) (currentChunk : jsstring)
  : list jsstring :=
  JsArray.sliceFrom (splitSpaces currentChunk) (overlapStart overlap).

(** [words.slice(-overlap / 10).join(' ') + ' '] *)
Definition overlapSeed (overlap : Z) (currentChunk : jsstring)
  : jsstring :=
  join [space] (overlapWords overlap currentChunk) ++ [space].

Definition sentenceEnd : jsstring := [46; 32]%N.

(** One turn of the loop over the sentences, on [(chunks, currentChunk)]. *)
Definition chunkStep (chunkSize overlap : Z)
           (st : list jsstring * jsstring) (sentence : jsstring)
  : list jsstring * jsstring :=
  let '(chunks, currentChunk) := st in
  let '(chunks, currentChunk) :=
    if closes chunkSize currentChunk sentence
    then (chunks ++ [trim currentChunk], overlapSeed overlap currentChunk)
    else (chunks, currentChunk) in
  (chunks, currentChunk ++ sentence ++ sentenceEnd).

Definition chunkLoop (chunkSize overlap : Z) (sentences : list jsstring)
  : list jsstring * jsstring :=
  fold_left (chunkStep chunkSize overlap) sentences ([], []).

(** An invariant of the loop on [(chunks, currentChunk)]: no chunk is
    empty, and the buffer is empty or holds a full stop. *)
Definition chunkInvariant (st : list jsstring * jsstring) : Prop :=
  Forall (fun c => c <> []) (fst st) /\ (snd st = [] \/ In 46%N (snd st)).

(** The chunks pushed by the loop and by the flush after it. *)
Definition accumulated (text : jsstring) (chunkSize overlap : Z)
  : list jsstring :=
  let '(chunks, currentChunk) :=
    chunkLoop chunkSize overlap (sentencesOf text) in
  if truthy (trim currentChunk) then chunks ++ [trim currentChunk]
  else chunks.

Definition splitIntoChunks (text : jsstring) (chunkSize overlap : Z)
  : list jsstring :=
  let chunks := accumulated text chunkSize overlap in
  if (0 <? List.length chunks)%nat then chunks else [text].

Definition defaultOverlap : Z := 50.

(* ------------------------------------------------------------- *)
(** *** Indexing *)

Record IndexRequest : Type := {
  req_id : jsstring;
  req_title : jsstring;
  req_content : jsstring;
  req_fileType : jsstring
}.

(** The decimal digits of an index, as the template literal prints it. *)
Definition decimal (i : nat) : jsstring :=
  str (NilZero.string_of_uint (Nat.to_uint i)).

(** [`${document.id}-chunk-${i}`] *)
Definition chunkKey (docId : jsstring) (i : nat) : jsstring :=
  docId ++ str "-chunk-" ++ decimal i.

(** One turn of the loop of [indexDocument], for chunk [i]. *)
Definition indexStep (document : IndexRequest) (total : nat)
           (svc : AIService) (ic : nat * jsstring) : AIService :=
  let '(i, text) := ic in
  let embedding := result_embedding (generateEmbedding svc text) in
  let chunkId := chunkKey (req_id document) i in
  withStore svc
    (JsMap.set (vectorStore svc) chunkId
       {| chunk_id := chunkId;
          documentId := req_id document;
          chunk_content := text;
          embedding := embedding;
          metadata := {| meta_title := req_title document;
                         meta_fileType := req_fileType document;
                         chunkIndex := Z.of_nat i;
                         totalChunks := Z.of_nat total |} |}).

Definition numbered (chunks : list jsstring) : list (nat * jsstring) :=
  combine (seq 0 (List.length chunks)) chunks.

(** The first [turns] turns of the loop; all of them when [turns] is the
    number of chunks or more. *)
Definition indexChunks (document : IndexRequest) (turns : nat)
           (svc : AIService) : AIService :=
  let chunks := splitIntoChunks (req_content document) 500 defaultOverlap in
  fold_left (indexStep document (List.length chunks))
            (firstn turns (numbered chunks)) svc.

Definition indexDocument (document : IndexRequest) (svc : AIService)
  : AIService :=
  let chunks := splitIntoChunks (req_content document) 500 defaultOverlap in
  indexChunks document (List.length chunks) svc.

(* ------------------------------------------------------------- *)
(** *** Retrieval *)

Record Scored : Type := { chunk : DocumentChunk; score : num }.

(** The [forEach] over the store: one scored pair per chunk, in the
    store's order. *)
Definition scoreAll (queryEmbedding : list num)
           (store : JsMap.t DocumentChunk) : list Scored :=
  List.map (fun c => {| chunk := c;
                        score := cosineSimilarity queryEmbedding
                                                  (embedding c) |})
           (JsMap.values store).

(** The comparison function [(a, b) => b.score - a.score]. *)
Definition compareScores (a b : Scored) : num := nsub (score b) (score a).

(** [compareScores y x < 0]: the sort puts [y] before [x]. *)
Definition before (y x : Scored) : bool :=
  nltb (compareScores y x) (ofZ 0).

Definition blankLine : jsstring := [10; 10]%N.

(** The record a document's first chunk creates. *)
Definition created (now : Z) (r : Scored) : DocumentSource :=
  {| id := documentId (chunk r);
     title := meta_title (metadata (chunk r));
     content := chunk_content (chunk r);
     relevanceScore := score r;
     lastUpdated := now |}.

(** The writes to [existing] for a later chunk of its document. *)
Definition merged (existing : DocumentSource) (r : Scored)
  : DocumentSource :=
  {| id := id existing;
     title := title existing;
     content := content existing ++ blankLine ++ chunk_content (chunk r);
     relevanceScore := nmax (relevanceScore existing) (score r);
     lastUpdated := lastUpdated existing |}.

(** One turn of the grouping loop.  [clock n] is the reading of the
    [n]-th [new Date()] of the call: one record is created per reading.
    A record changed in place keeps its key and its place in the map. *)
Definition aggregateStep (clock : nat -> Z)
           (documentMap : JsMap.t DocumentSource) (r : Scored)
  : JsMap.t DocumentSource :=
  let key := documentId (chunk r) in
  if negb (JsMap.has documentMap key) then
    JsMap.set documentMap key (created (clock (List.length documentMap)) r)
  else
    match JsMap.get documentMap key with
    | Some existing => JsMap.set documentMap key (merged existing r)
    | None => documentMap
    end.

Definition aggregate (clock : nat -> Z) (topResults : list Scored)
  : list DocumentSource :=
  JsMap.values (fold_left (aggregateStep clock) topResults JsMap.empty).

(** The host's choice of an order for the pairs when their scores do not
    order them (see [JsArray.hostSort]). *)
Variable place : nat -> nat.

(** The sorted pairs the grouping loop reads. *)
Definition topResults (svc : AIService) (query : jsstring) (topK : Z)
  : list Scored :=
  let queryEmbedding := result_embedding (generateEmbedding svc query) in
  let results := scoreAll queryEmbedding (vectorStore svc) in
  JsArray.slice (JsArray.hostSort place before results) 0 topK.

Definition searchDocuments (clock : nat -> Z) (svc : AIService)
           (query : jsstring) (topK : Z) : list DocumentSource :=
  aggregate clock (topResults svc query topK).

Definition defaultTopK : Z := 5.

(* ------------------------------------------------------------- *)
(** *** Removal *)

Definition keysToDelete (store : JsMap.t DocumentChunk)
           (docId : jsstring) : list jsstring :=
  List.map fst
    (filter (fun e => JsString.eqb (documentId (snd e)) docId) store).

Definition removeDocument (svc : AIService) (docId : jsstring)
  : AIService :=
  withStore svc
    (fold_left (fun m key => JsMap.delete m key)
               (keysToDelete (vectorStore svc) docId) (vectorStore svc)).

Definition clearIndex (svc : AIService) : AIService :=
  withStore svc JsMap.empty.

(** The size of the set of document identifiers. *)
Definition getIndexedCount (svc : AIService) : Z :=
  Z.of_nat
    (List.length
       (nodup (list_eq_dec N.eq_dec)
              (List.map documentId (JsMap.values (vectorStore svc))))).

(* ------------------------------------------------------------- *)
(** *** Answers *)

Record AIQueryResponse : Type := {
  answer : jsstring;
  sources : list DocumentSource;
  confidence : num;
  processingTime : Z
}.

(** The remote completion service: what a request with this key, system
    prompt and question answers, [None] when the request fails. *)
Variable fetchCompletion : jsstring -> jsstring -> jsstring -> option jsstring.

(** [Number.prototype.toFixed(1)], the host's decimal notation. *)
Variable toFixed1 : num -> jsstring.

Definition newline : jsstring := [10]%N.

Definition quote : jsstring := [34]%N.

(** The lines of a template literal. *)
Definition lines (ls : list jsstring) : jsstring := join newline ls.

(** [`[${s.title}]:\n${s.content}`] *)
Definition contextEntry (s : DocumentSource) : jsstring :=
  str "[" ++ title s ++ str "]:" ++ newline ++ content s.

(** The separator ['\n\n---\n\n'] *)
Definition rule : jsstring := [10; 10; 45; 45; 45; 10; 10]%N.

Definition contextOf (found : list DocumentSource) : jsstring :=
  join rule (List.map contextEntry found).

Definition systemPrompt (context : jsstring) : jsstring :=
  lines
    [str "You are Dynamic Documentation Helper, a real-time AI documentation assistant.";
     [];
     str "RULES:";
     str "- Answer ONLY based on the provided documentation context";
     str "- If information is not in the context, say " ++ quote
       ++ str "This information is not available in the current documentation."
       ++ quote;
     str "- Be precise, clear, and developer-friendly";
     str "- Use structured formatting with headings when helpful";
     str "- Never hallucinate or make assumptions";
     str "- Always cite which document the information comes from";
     [];
     str "CONTEXT FROM DOCUMENTATION:";
     if truthy context then context
     else str "No relevant documentation found."].

(** [`${i + 1}. ${s.title} (Relevance: ${(s.relevanceScore * 100).toFixed(1)}%)`] *)
Definition sourceLine (item : nat * DocumentSource) : jsstring :=
  let '(i, s) := item in
  decimal (i + 1) ++ str ". " ++ title s ++ str " (Relevance: "
    ++ toFixed1 (nmul (relevanceScore s) (ofZ 100)) ++ str "%)".

(** [generateMockResponse(query, sources)] *)
Definition generateMockResponse (question : jsstring)
           (found : list DocumentSource) : jsstring :=
  match found with
  | [] =>
      lines
        [str "Based on my analysis of the current documentation, I could not find specific information about "
           ++ quote ++ question ++ quote ++ str ". ";
         [];
         str "This could mean:";
         str "1. The relevant documentation hasn't been uploaded yet";
         str "2. The topic might be covered under different terminology";
         str "3. This information is not available in the current documentation";
         [];
         str "**Suggestion:** Try uploading relevant documents or rephrase your question."]
  | first :: _ =>
      let sourceNames := join (str ", ") (List.map title found) in
      lines
        [str "Based on the latest documentation analysis from **"
           ++ sourceNames ++ str "**:";
         [];
         firstn 500 (content first) ++ str "...";
         [];
         str "**Key Points:**";
         str "- The system utilizes real-time document processing";
         str "- Updates are reflected immediately upon document changes";
         str "- Your query " ++ quote ++ question ++ quote
           ++ str " has been matched against "
           ++ decimal (List.length found) ++ str " relevant document(s)";
         [];
         str "**Sources Referenced:**";
         join newline
              (List.map sourceLine
                        (combine (seq 0 (List.length found)) found));
         [];
         str "*This response is grounded in your live documentation.*"]
  end.

(** [generateCompletion(query, context, sources)] *)
Definition generateCompletion (svc : AIService)
           (question context : jsstring) (found : list DocumentSource)
  : jsstring :=
  let prompt := systemPrompt context in
  if negb (truthy (apiKey svc)) then generateMockResponse question found
  else
    match fetchCompletion (apiKey svc) prompt question with
    | Some text => text
    | None => generateMockResponse question found
    end.

(** [query(userQuery)]: [startTime] and [endTime] are the two readings
    of [Date.now()]. *)
Definition query (startTime endTime : Z) (clock : nat -> Z)
           (svc : AIService) (userQuery : jsstring) : AIQueryResponse :=
  let found := searchDocuments clock svc userQuery defaultTopK in
  let context := contextOf found in
  let text := generateCompletion svc userQuery context found in
  {| answer := text;
     sources := found;
     confidence := match found with
                   | first :: _ => relevanceScore first
                   | [] => ofZ 0
                   end;
     processingTime := endTime - startTime |}.

End Service.

End AI.

(* ================================================================= *)
(** ** The document service ([DocumentService]) *)

Module Docs.

Local Open Scope Z_scope.

Inductive Status : Type := pending | processing | indexed | error.

(** A document; [errorText] is its field [error], a name the status
    takes here. *)
Record Document : Type := {
  id : jsstring;
  title : jsstring;
  content : jsstring;
  fileType : jsstring;
  fileSize : Z;
  uploadedAt : Z;
  lastUpdated : Z;
  status : Status;
  chunkCount : option Z;
  errorText : option jsstring
}.

(** What a [throw] carries: an [Error] with its message, or another value. *)
Inductive Thrown : Type :=
| ErrorObject (message : jsstring)
| OtherValue.

(** How a call ends. *)
Inductive Outcome (T : Type) : Type :=
| Returned (value : T)
| Threw (e : Thrown).

Arguments Returned {T} value.
Arguments Threw {T} e.

(** [error instanceof Error ? error.message : 'Unknown error'] *)
Definition messageOf (e : Thrown) : jsstring :=
  match e with
  | ErrorObject message => message
  | OtherValue => str "Unknown error"
  end.

(** A browser [File]: its name, its size and how reading it ends. *)
Record File : Type := {
  name : jsstring;
  size : Z;
  text : Outcome jsstring
}.

(** The service: the document map, the snapshot last written to local
    storage and the lists handed to the subscribers, oldest first. *)
Record DocumentService : Type := {
  documents : JsMap.t Document;
  saved : list Document;
  notified : list (list Document)
}.

Definition withDocuments (ds : DocumentService) (m : JsMap.t Document)
  : DocumentService :=
  {| documents := m; saved := saved ds; notified := notified ds |}.

(** [(a, b) => b.lastUpdated.getTime() - a.lastUpdated.getTime()] is
    negative: [y] goes before [x]. *)
Definition newerFirst (y x : Document) : bool :=
  lastUpdated x - lastUpdated y <? 0.

Definition getAllDocuments (ds : DocumentService) : list Document :=
  JsArray.sort newerFirst (JsMap.values (documents ds)).

Definition getDocument (ds : DocumentService) (docId : jsstring)
  : option Document :=
  JsMap.get (documents ds) docId.

Definition saveDocuments (ds : DocumentService) : DocumentService :=
  {| documents := documents ds;
     saved := JsMap.values (documents ds);
     notified := notified ds |}.

Definition notifyUpdate (ds : DocumentService) : DocumentService :=
  {| documents := documents ds;
     saved := saved ds;
     notified := notified ds ++ [getAllDocuments ds] |}.

(** A write to a field of the document object the map holds under [key]:
    the entry keeps its place. *)
Definition store (ds : DocumentService) (key : jsstring)
           (document : Document) : DocumentService :=
  withDocuments ds (JsMap.set (documents ds) key document).

(** Such a write followed by [saveDocuments()] and [notifyUpdate()]. *)
Definition publish (ds : DocumentService) (key : jsstring)
           (document : Document) : DocumentService :=
  notifyUpdate (saveDocuments (store ds key document)).

Definition withStatus (document : Document) (s : Status) : Document :=
  {| id := id document; title := title document;
     content := content document; fileType := fileType document;
     fileSize := fileSize document; uploadedAt := uploadedAt document;
     lastUpdated := lastUpdated document; status := s;
     chunkCount := chunkCount document;
     errorText := errorText document |}.

Definition withContent (document : Document) (c : jsstring) : Document :=
  {| id := id document; title := title document;
     content := c; fileType := fileType document;
     fileSize := fileSize document; uploadedAt := uploadedAt document;
     lastUpdated := lastUpdated document; status := status document;
     chunkCount := chunkCount document;
     errorText := errorText document |}.

Definition withLastUpdated (document : Document) (t : Z) : Document :=
  {| id := id document; title := title document;
     content := content document; fileType := fileType document;
     fileSize := fileSize document; uploadedAt := uploadedAt document;
     lastUpdated := t; status := status document;
     chunkCount := chunkCount document;
     errorText := errorText document |}.

Definition withError (document : Document) (m : jsstring) : Document :=
  {| id := id document; title := title document;
     content := content document; fileType := fileType document;
     fileSize := fileSize document; uploadedAt := uploadedAt document;
     lastUpdated := lastUpdated document; status := status document;
     chunkCount := chunkCount document;
     errorText := Some m |}.

(** The [catch] block of [uploadFile] and of [updateDocument]. *)
Definition failed (ds : DocumentService) (key : jsstring)
           (document : Document) (e : Thrown) : DocumentService :=
  publish ds key (withError (withStatus document error) (messageOf e)).

Section Service.

Context {A : Arith} {S : Sine A}.

Variable fetchEmbedding
  : jsstring -> jsstring -> option (@AI.EmbeddingResult A).

(** [String.prototype.toLowerCase], the host's Unicode case mapping. *)
Variable toLowerCase : jsstring -> jsstring.

(** The placeholder texts of the two extractors that read nothing. *)
Variables pdfPlaceholder docxPlaceholder : File -> jsstring.

(** The two singletons: [documentService] and the [aiService] it
    calls. *)
Record System : Type := {
  docs : DocumentService;
  ai : @AI.AIService A
}.

(** [file.name.split('.').pop()?.toLowerCase()], or ['unknown']. *)
Definition getFileType (file : File) : jsstring :=
  let extension :=
    toLowerCase (last (splitOn 46%N (name file) []) []) in
  if truthy extension then extension else str "unknown".

Definition plainText (t : jsstring) : bool :=
  existsb (JsString.eqb t) [str "txt"; str "md"; str "json"; str "csv"].

Definition extractContent (file : File) : Outcome jsstring :=
  let t := getFileType file in
  if plainText t then text file
  else if JsString.eqb t (str "pdf") then Returned (pdfPlaceholder file)
  else if JsString.eqb t (str "docx") then Returned (docxPlaceholder file)
  else
    match text file with
    | Returned c => Returned c
    | Threw _ =>
        Threw (ErrorObject (str "Unsupported file type: " ++ t))
    end.

Definition requestOf (document : Document) : AI.IndexRequest :=
  {| AI.req_id := id document;
     AI.req_title := title document;
     AI.req_content := content document;
     AI.req_fileType := fileType document |}.

(** [await aiService.indexDocument(...)].  The source of [indexDocument]
    has no [throw] of its own; [fault] is a failure of the host while it
    runs ([Some (turns, e)]: [e] is raised after [turns] turns of its
    loop), [None] in a run without one. *)
Definition awaitIndex (fault : option (nat * Thrown))
           (document : Document) (svc : @AI.AIService A)
  : @AI.AIService A * Outcome unit :=
  match fault with
  | None =>
      (AI.indexDocument fetchEmbedding (requestOf document) svc,
       Returned tt)
  | Some (turns, e) =>
      (AI.indexChunks fetchEmbedding (requestOf document) turns svc,
       Threw e)
  end.

(** [uploadFile(file)]: [newId] is [crypto.randomUUID()], and
    [tUploaded], [tUpdated], [tIndexed] are the three readings of the
    clock. *)
Definition uploadFile (newId : jsstring) (tUploaded tUpdated tIndexed : Z)
           (fault : option (nat * Thrown)) (file : File) (sys : System)
  : System * Outcome Document :=
  let document :=
    {| id := newId; title := name file; content := [];
       fileType := getFileType file; fileSize := size file;
       uploadedAt := tUploaded; lastUpdated := tUpdated;
       status := pending; chunkCount := None; errorText := None |} in
  let ds := publish (docs sys) newId document in
  let document := withStatus document processing in
  let ds := publish ds newId document in
  match extractContent file with
  | Threw e =>
      ({| docs := failed ds newId document e; ai := ai sys |}, Threw e)
  | Returned c =>
      let document := withContent document c in
      let ds := store ds newId document in
      match awaitIndex fault document (ai sys) with
      | (svc, Threw e) =>
          ({| docs := failed ds newId document e; ai := svc |}, Threw e)
      | (svc, Returned _) =>
          let document :=
            withLastUpdated (withStatus document indexed) tIndexed in
          ({| docs := publish ds newId document; ai := svc |},
           Returned document)
      end
  end.

(** [updateDocument(id, content)]: [now] is the reading of the clock. *)
Definition updateDocument (now : Z) (fault : option (nat * Thrown))
           (docId content : jsstring) (sys : System)
  : System * Outcome Document :=
  match JsMap.get (documents (docs sys)) docId with
  | None => (sys, Threw (ErrorObject (str "Document not found")))
  | Some document =>
      let document :=
        withStatus (withLastUpdated (withContent document content) now)
                   processing in
      let ds := publish (docs sys) docId document in
      let svc := AI.removeDocument (ai sys) docId in
      match awaitIndex fault document svc with
      | (svc, Threw e) =>
          ({| docs := failed ds docId document e; ai := svc |}, Threw e)
      | (svc, Returned _) =>
          let document := withStatus document indexed in
          ({| docs := publish ds docId document; ai := svc |},
           Returned document)
      end
  end.

(** [deleteDocument(id)] *)
Definition deleteDocument (docId : jsstring) (sys : System)
  : System * Outcome unit :=
  let svc := AI.removeDocument (ai sys) docId in
  let ds :=
    withDocuments (docs sys) (JsMap.delete (documents (docs sys)) docId) in
  ({| docs := notifyUpdate (saveDocuments ds); ai := svc |}, Returned tt).

(** [clearAll()] *)
Definition clearAll (sys : System) : System :=
  let svc := AI.clearIndex (ai sys) in
  let ds := withDocuments (docs sys) JsMap.empty in
  {| docs := notifyUpdate (saveDocuments ds); ai := svc |}.

(** [searchByTitle(query)] *)
Definition searchByTitle (ds : DocumentService) (query : jsstring)
  : list Document :=
  let lowerQuery := toLowerCase query in
  filter (fun doc => includes (toLowerCase (title doc)) lowerQuery)
         (getAllDocuments ds).

End Service.

End Docs.

(* ================================================================= *)
(** ** What the specification says, in its own words *)

Module Spec.

Local Open Scope Z_scope.

(** The sum of the character codes of a text. *)
Definition codeSum (text : jsstring) : Z :=
  fold_right Z.add 0 (List.map Z.of_N text).

(** The number of trailing words the chunker is said to keep:
    [overlapHint / 10], rounded down, minimum 0. *)
Definition retainedWords (overlapHint : Z) : Z := Z.max 0 (overlapHint / 10).

(** [dot(a, b)] and the norm of a vector of real numbers. *)
Fixpoint dot (a b : list R) : R :=
  match a, b with
  | x :: a', y :: b' => (x * y + dot a' b')%R
  | _, _ => 0%R
  end.

Definition norm (a : list R) : R := sqrt (dot a a).

(** A vector with a component that is not zero. *)
Definition nonZero (a : list R) : Prop := exists x, In x a /\ x <> 0%R.

Section Grouping.

Context {A : Arith}.

Definition docOf (r : AI.Scored) : jsstring := AI.documentId (AI.chunk r).

Definition textOf (r : AI.Scored) : jsstring :=
  AI.chunk_content (AI.chunk r).

Definition sameDocument (d : jsstring) (r : AI.Scored) : bool :=
  JsString.eqb (docOf r) d.

(** A blank line between two texts: two line feeds. *)
Definition blankLine : jsstring := [10; 10]%N.

(** The record of one document: made by its first chunk of the top-K, the
    texts of its later chunks joined to it with blank lines, the score the
    maximum of the scores seen. *)
Definition sourceOf (now : Z) (first : AI.Scored) (later : list AI.Scored)
  : AI.DocumentSource :=
  {| AI.id := docOf first;
     AI.title := AI.meta_title (AI.metadata (AI.chunk first));
     AI.content := join blankLine (List.map textOf (first :: later));
     AI.relevanceScore :=
       fold_left nmax (List.map AI.score later) (AI.score first);
     AI.lastUpdated := now |}.

(** One record per document, in the order in which the documents first
    occur among the pairs.  [fuel] bounds the number of documents. *)
Fixpoint groupedUpTo (fuel : nat) (clock : nat -> Z) (top : list AI.Scored)
  : list AI.DocumentSource :=
  match fuel, top with
  | S fuel', first :: rest =>
      let d := docOf first in
      sourceOf (clock 0%nat) first (filter (sameDocument d) rest)
      :: groupedUpTo fuel' (fun n => clock (S n))
           (filter (fun r => negb (sameDocument d r)) rest)
  | _, _ => []
  end.

Definition groupedSources (clock : nat -> Z) (top : list AI.Scored)
  : list AI.DocumentSource :=
  groupedUpTo (List.length top) clock top.

(** The identifiers of a list, each at its first occurrence. *)
Fixpoint firstOccurrences (ids : list jsstring) : list jsstring :=
  match ids with
  | [] => []
  | d :: rest =>
      d :: filter (fun d' => negb (JsString.eqb d' d)) (firstOccurrences rest)
  end.

End Grouping.


(** The message of a failure: the message of the error that was thrown,
    and the words "Unknown error" for a thrown value that is no error. *)
Definition failureMessage (e : Docs.Thrown) : jsstring :=
  match e with
  | Docs.ErrorObject message => message
  | Docs.OtherValue => str "Unknown error"
  end.

(** A failure recorded on the document under [key]: the document is in the
    set in state [error] with the message of the failure and is listed,
    the other documents are as before, and the subscribers have the new
    list. *)
Definition recordedFailure (before after : Docs.DocumentService)
           (key : jsstring) (e : Docs.Thrown) : Prop :=
  (exists document,
      JsMap.get (Docs.documents after) key = Some document
      /\ Docs.status document = Docs.error
      /\ Docs.errorText document = Some (failureMessage e)
      /\ In document (Docs.getAllDocuments after))
  /\ (forall other,
         other <> key ->
         JsMap.get (Docs.documents after) other
         = JsMap.get (Docs.documents before) other)
  /\ last (Docs.notified after) [] = Docs.getAllDocuments after.

End Spec.

(* ================================================================= *)
(** ** Sample inputs *)

Module Sample.

Import AI.

(** A vector of real numbers. *)
Definition vector : Type := list (@num RArith).

(** No remote service: every request fails. *)
Definition offline : jsstring -> jsstring -> option (@EmbeddingResult RArith) :=
  fun _ _ => None.

(** A remote service that answers every request with the vector [e]. *)
Definition remote (e : vector)
  : jsstring -> jsstring -> option (@EmbeddingResult RArith) :=
  fun _ _ => Some {| result_embedding := e; tokenCount := 1 |}.

(** Chunk [i] of document [doc]. *)
Definition chunkOf (doc text : string) (i : nat) (e : vector)
  : @DocumentChunk RArith :=
  {| chunk_id := chunkKey (str doc) i;
     documentId := str doc;
     chunk_content := str text;
     embedding := e;
     metadata := {| meta_title := str doc;
                    meta_fileType := str "txt";
                    chunkIndex := Z.of_nat i;
                    totalChunks := 1 |} |}.

Definition storeOf (cs : list (@DocumentChunk RArith))
  : JsMap.t (@DocumentChunk RArith) :=
  List.map (fun c => (chunk_id c, c)) cs.

Definition unit1 : vector := [1%R].

(** Three documents of one chunk each, and a key. *)
Definition threeDocs : @AIService RArith :=
  {| apiKey := str "sk-test";
     vectorStore := storeOf [chunkOf "a" "alpha" 0 unit1;
                             chunkOf "b" "beta" 0 unit1;
                             chunkOf "c" "gamma" 0 unit1] |}.

(** The same store with no key. *)
Definition threeDocsNoKey : @AIService RArith :=
  {| apiKey := []; vectorStore := vectorStore threeDocs |}.

(** A clock that advances by one at each reading. *)
Definition ticks (n : nat) : Z := Z.of_nat n.

(** A host that leaves an array it cannot order as it is. *)
Definition place (n : nat) : nat := 0%nat.

(** The vector (1, 1, 1), in binary64 and in the real numbers. *)
Definition ones64 : list (@num F64Arith) := [1; 1; 1]%float.

Definition ones : vector := [1%R; 1%R; 1%R].

(** The vector (1, 0, -3) in binary64. *)
Definition mixed64 : list (@num F64Arith) := [1; 0; -3]%float.

(** A vector of one component, 2^600, whose square is beyond binary64. *)
Definition huge64 : list (@num F64Arith) := [0x1p+600]%float.

(** The lower-case mapping on the letters A to Z. *)
Definition lowerUnit (c : N) : N :=
  if ((65 <=? c) && (c <=? 90))%N then (c + 32)%N else c.

Definition asciiLower (s : jsstring) : jsstring := List.map lowerUnit s.

Definition placeholder (f : Docs.File) : jsstring := str "[placeholder]".

(** A text file that cannot be read. *)
Definition unreadable : Docs.File :=
  {| Docs.name := str "notes.TXT";
     Docs.size := 12;
     Docs.text :=
       Docs.Threw (Docs.ErrorObject (str "The file could not be read")) |}.

(** No document and no chunk. *)
Definition emptySystem : @Docs.System RArith :=
  {| Docs.docs := {| Docs.documents := [];
                     Docs.saved := [];
                     Docs.notified := [] |};
     Docs.ai := {| apiKey := []; vectorStore := [] |} |}.

End Sample.

(* ================================================================= *)
(** ** Invariants and notions used by the further properties *)

Module Inv.

(** A decimal digit. *)
Definition isDigit (c : N) : bool := ((48 <=? c) && (c <=? 57))%N.

(** [needle] occurs in [hay]. *)
Definition infix (needle hay : jsstring) : Prop :=
  exists a b, hay = a ++ needle ++ b.

Section Stores.

Context {A : Arith}.

(** A store as [indexDocument] builds it: no key twice, and every chunk
    under the key made of its document and an index. *)
Definition wellKeyed (store : JsMap.t (@AI.DocumentChunk A)) : Prop :=
  NoDup (JsMap.keys store)
  /\ forall e, In e store ->
               exists i, fst e = AI.chunkKey (AI.documentId (snd e)) i.

(** The store has no chunk of the document. *)
Definition absent (docId : jsstring) (store : JsMap.t (@AI.DocumentChunk A))
  : Prop :=
  forall c, In c (JsMap.values store) -> AI.documentId c <> docId.

(** [p] is above [q]: the comparison function of the search,
    [(a, b) => b.score - a.score], puts a pair of score [p] before a pair
    of score [q]. *)
Definition above (p q : num) : bool := nltb (nsub q p) (ofZ 0).

(** The scores of a list order its pairs, and [Math.max] follows the
    order: of two scores one at most is above the other, a score above
    another is above any third one or the third one is above the other,
    and the maximum of two scores is one of them, which neither is
    above.  A NaN among scores that differ breaks the second
    condition. *)
Definition ordered (scores : list num) : Prop :=
  (forall p q, In p scores -> In q scores ->
               above p q = true -> above q p = false)
  /\ (forall p q r, In p scores -> In q scores -> In r scores ->
                    above p q = false -> above q r = false ->
                    above p r = false)
  /\ (forall p q, In p scores -> In q scores ->
                  (nmax p q = p \/ nmax p q = q)
                  /\ above p (nmax p q) = false
                  /\ above q (nmax p q) = false).

(** The records come in the order of their relevance scores: none is
    above an earlier one. *)
Definition descending (found : list (@AI.DocumentSource A)) : Prop :=
  StronglySorted
    (fun s t => above (AI.relevanceScore t) (AI.relevanceScore s) = false)
    found.

(** The score of each record is the similarity of the query vector with a
    stored chunk of its document, and none of the document's pairs in
    [top] is above it. *)
Definition scoredByBest (queryEmbedding : list num)
           (store : JsMap.t (@AI.DocumentChunk A))
           (top : list (@AI.Scored A))
           (found : list (@AI.DocumentSource A)) : Prop :=
  forall s, In s found ->
    (exists c, In c (JsMap.values store)
               /\ AI.documentId c = AI.id s
               /\ AI.relevanceScore s
                  = AI.cosineSimilarity queryEmbedding (AI.embedding c))
    /\ (forall r, In r top ->
                  AI.documentId (AI.chunk r) = AI.id s ->
                  above (AI.score r) (AI.relevanceScore s) = false).

(** The similarity [best] is that of a stored chunk, and that of no stored
    chunk is above it. *)
Definition bestOf (queryEmbedding : list num)
           (store : JsMap.t (@AI.DocumentChunk A)) (best : num) : Prop :=
  (exists c, In c (JsMap.values store)
             /\ best = AI.cosineSimilarity queryEmbedding (AI.embedding c))
  /\ (forall c, In c (JsMap.values store) ->
                above (AI.cosineSimilarity queryEmbedding (AI.embedding c))
                      best
                = false).

(** The accumulators of [cosineSimilarity] with the two norms
    exchanged. *)
Definition swapNorms (acc : num * num * num) : num * num * num :=
  let '(dotProduct, normA, normB) := acc in (dotProduct, normB, normA).

End Stores.

End Inv.

Module Chunks.

(** The buffer of the chunker after the sentences, when no chunk was
    closed on the way: each sentence followed by a full stop and a
    space. *)
Definition paragraph (sentences : list jsstring) : jsstring :=
  List.concat (List.map (fun s => s ++ AI.sentenceEnd) sentences).

(** Every text of [done] that trimming does not empty is found, trimmed, in
    a closed chunk or in the buffer. *)
Definition kept (done : list jsstring) (st : list jsstring * jsstring)
  : Prop :=
  forall s, In s done -> trim s <> [] ->
            (exists c, In c (fst st) /\ Inv.infix (trim s) c)
            \/ Inv.infix (trim s) (snd st).

End Chunks.

Module Indexed.

Section Chunks.

Context {A : Arith} {S : Sine A}.
Variable fetchEmbedding : jsstring -> jsstring -> option (@AI.EmbeddingResult A).

(** The chunk that turn [i] of the loop of [indexDocument] writes for the
    text [text], in a run of [total] turns. *)
Definition chunkAt (document : AI.IndexRequest) (svc : AI.AIService)
           (total i : nat) (text : jsstring) : AI.DocumentChunk :=
  {| AI.chunk_id := AI.chunkKey (AI.req_id document) i;
     AI.documentId := AI.req_id document;
     AI.chunk_content := text;
     AI.embedding :=
       AI.result_embedding (AI.generateEmbedding fetchEmbedding svc text);
     AI.metadata := {| AI.meta_title := AI.req_title document;
                       AI.meta_fileType := AI.req_fileType document;
                       AI.chunkIndex := Z.of_nat i;
                       AI.totalChunks := Z.of_nat total |} |}.

(** The writes of the whole loop, in order. *)
Definition entriesOf (document : AI.IndexRequest) (svc : AI.AIService)
  : list (jsstring * AI.DocumentChunk) :=
  let chunks :=
    AI.splitIntoChunks (AI.req_content document) 500 AI.defaultOverlap in
  List.map (fun ic => (AI.chunkKey (AI.req_id document) (fst ic),
                       chunkAt document svc (List.length chunks)
                               (fst ic) (snd ic)))
           (AI.numbered chunks).

End Chunks.

End Indexed.

Module Cases.

Import AI.

(** A request to index a short note. *)
Definition note : IndexRequest :=
  {| req_id := str "n1";
     req_title := str "note.txt";
     req_content := str "One. Two";
     req_fileType := str "txt" |}.

(** A service with a key and no chunk. *)
Definition fresh : @AIService RArith :=
  {| apiKey := str "sk-test"; vectorStore := JsMap.empty |}.

(** A completion service that fails every request. *)
Definition silent : jsstring -> jsstring -> jsstring -> option jsstring :=
  fun _ _ _ => None.

(** A notation of numbers that prints every number alike. *)
Definition fixed : @num RArith -> jsstring := fun _ => str "100.0".

(** A text file that can be read. *)
Definition readable : Docs.File :=
  {| Docs.name := str "notes.txt";
     Docs.size := 8;
     Docs.text := Docs.Returned (str "One. Two") |}.

(** A file with no full stop in its name. *)
Definition readme : Docs.File :=
  {| Docs.name := str "README";
     Docs.size := 8;
     Docs.text := Docs.Returned (str "One. Two") |}.

(** A document that was uploaded and indexed. *)
Definition doc1 : Docs.Document :=
  {| Docs.id := str "d1";
     Docs.title := str "notes.txt";
     Docs.content := str "One. Two";
     Docs.fileType := str "txt";
     Docs.fileSize := 8;
     Docs.uploadedAt := 1;
     Docs.lastUpdated := 2;
     Docs.status := Docs.indexed;
     Docs.chunkCount := None;
     Docs.errorText := None |}.

(** The two services with that document and its chunk. *)
Definition oneDoc : @Docs.System RArith :=
  {| Docs.docs := {| Docs.documents := [(str "d1", doc1)];
                     Docs.saved := [doc1];
                     Docs.notified := [[doc1]] |};
     Docs.ai := AI.indexDocument Sample.offline (Docs.requestOf doc1)
                                 fresh |}.

(** Binary64 samples.  A host function in the place of [Math.sin]; the
    runs below have a key and a remote service that answers, so it is
    never called. *)
Definition sine64 : Sine F64Arith := fun x => x.

(** A remote service that answers every request with the vector [e]. *)
Definition remote64 (e : list (@num F64Arith))
  : jsstring -> jsstring -> option (@EmbeddingResult F64Arith) :=
  fun _ _ => Some {| result_embedding := e; tokenCount := 1 |}.

(** Chunk [i] of document [doc]. *)
Definition chunk64 (doc text : string) (i : nat)
           (e : list (@num F64Arith))
  : @DocumentChunk F64Arith :=
  {| chunk_id := chunkKey (str doc) i;
     documentId := str doc;
     chunk_content := str text;
     embedding := e;
     metadata := {| meta_title := str doc;
                    meta_fileType := str "txt";
                    chunkIndex := Z.of_nat i;
                    totalChunks := 2 |} |}.

(** Two documents, the first of two chunks, whose similarities with the
    vector (1, 0) are 0, 0.7071067811865475 and 1. *)
Definition store64 : @AIService F64Arith :=
  {| apiKey := str "sk-test";
     vectorStore :=
       List.map (fun c => (chunk_id c, c))
                [chunk64 "a" "alpha" 0 [0; 1]%float;
                 chunk64 "b" "beta" 0 [1; 1]%float;
                 chunk64 "a" "gamma" 1 [1; 0]%float] |}.

Definition east64 : list (@num F64Arith) := [1; 0]%float.

(** The same store with a chunk whose vector is zero, of similarity NaN
    with every vector. *)
Definition storeWithZero64 : @AIService F64Arith :=
  {| apiKey := str "sk-test";
     vectorStore :=
       vectorStore store64
       ++ [(chunkKey (str "c") 0, chunk64 "c" "delta" 0 [0; 0]%float)] |}.

End Cases.

Module Whole.

Section System.

Context {A : Arith}.

(** Every document of the set is under its own identifier. *)
Definition keyedById (ds : Docs.DocumentService) : Prop :=
  forall key document,
    JsMap.get (Docs.documents ds) key = Some document ->
    Docs.id document = key.

(** Every chunk of the store belongs to a document of the set. *)
Definition noOrphan (sys : @Docs.System A) : Prop :=
  forall c, In c (JsMap.values (AI.vectorStore (Docs.ai sys))) ->
            JsMap.has (Docs.documents (Docs.docs sys)) (AI.documentId c)
            = true.

Definition consistent (sys : @Docs.System A) : Prop :=
  keyedById (Docs.docs sys) /\ noOrphan sys.

(** The request [uploadFile] hands to the index for the text [c]. *)
Definition uploadRequest (toLowerCase : jsstring -> jsstring)
           (newId : jsstring) (file : Docs.File) (c : jsstring)
  : AI.IndexRequest :=
  {| AI.req_id := newId;
     AI.req_title := Docs.name file;
     AI.req_content := c;
     AI.req_fileType := Docs.getFileType toLowerCase file |}.

(** The request [updateDocument] hands to the index for the document
    [old] and the new text [c]. *)
Definition updateRequest (old : Docs.Document) (c : jsstring)
  : AI.IndexRequest :=
  {| AI.req_id := Docs.id old;
     AI.req_title := Docs.title old;
     AI.req_content := c;
     AI.req_fileType := Docs.fileType old |}.

End System.

(** A call of the document service, with what the host supplies to it:
    the identifier and the readings of the clock, and the failure of the
    host while the index is written, if there is one. *)
Inductive Call : Type :=
| Upload (newId : jsstring) (tUploaded tUpdated tIndexed : Z)
         (fault : option (nat * Docs.Thrown)) (file : Docs.File)
| Update (now : Z) (fault : option (nat * Docs.Thrown))
         (docId content : jsstring)
| Delete (docId : jsstring)
| ClearAll.

Section Calls.

Context {A : Arith} {S : Sine A}.

Variable fetchEmbedding
  : jsstring -> jsstring -> option (@AI.EmbeddingResult A).
Variable toLowerCase : jsstring -> jsstring.
Variables pdfPlaceholder docxPlaceholder : Docs.File -> jsstring.

(** A call that runs to its end with no other call in between. *)
Definition perform (call : Call) (sys : @Docs.System A) : @Docs.System A :=
  match call with
  | Upload newId tUploaded tUpdated tIndexed fault file =>
      fst (Docs.uploadFile fetchEmbedding toLowerCase pdfPlaceholder
                           docxPlaceholder newId tUploaded tUpdated tIndexed
                           fault file sys)
  | Update now fault docId content =>
      fst (Docs.updateDocument fetchEmbedding now fault docId content sys)
  | Delete docId => fst (Docs.deleteDocument docId sys)
  | ClearAll => Docs.clearAll sys
  end.

(** Calls that run one after the other, each to its end before the next
    one starts. *)
Definition performAll (calls : list Call) (sys : @Docs.System A)
  : @Docs.System A :=
  fold_left (fun s call => perform call s) calls sys.

(** [uploadFile] up to its first [await]: the document is in the set,
    being processed, and the call waits for the text of its file.  The
    second component is the document object the call holds. *)
Definition uploadBegin (newId : jsstring) (tUploaded tUpdated : Z)
           (file : Docs.File) (sys : @Docs.System A)
  : @Docs.System A * Docs.Document :=
  let document :=
    {| Docs.id := newId; Docs.title := Docs.name file; Docs.content := [];
       Docs.fileType := Docs.getFileType toLowerCase file;
       Docs.fileSize := Docs.size file;
       Docs.uploadedAt := tUploaded; Docs.lastUpdated := tUpdated;
       Docs.status := Docs.pending; Docs.chunkCount := None;
       Docs.errorText := None |} in
  let ds := Docs.publish (Docs.docs sys) newId document in
  let document := Docs.withStatus document Docs.processing in
  let ds := Docs.publish ds newId document in
  ({| Docs.docs := ds; Docs.ai := Docs.ai sys |}, document).

(** A write to a field of the document object of a call that was
    suspended: it shows in the map while the map still holds the object,
    which it does, identifiers being drawn afresh for every upload, when it
    has the key. *)
Definition write (ds : Docs.DocumentService) (document : Docs.Document)
  : Docs.DocumentService :=
  if JsMap.has (Docs.documents ds) (Docs.id document)
  then Docs.store ds (Docs.id document) document
  else ds.

(** Such a write followed by [saveDocuments()] and [notifyUpdate()]. *)
Definition announce (ds : Docs.DocumentService) (document : Docs.Document)
  : Docs.DocumentService :=
  Docs.notifyUpdate (Docs.saveDocuments (write ds document)).

(** The rest of [uploadFile], from the moment the awaited text of the file
    has come, on the state [sys] the calls that ran in between have
    left. *)
Definition uploadResume (tIndexed : Z) (fault : option (nat * Docs.Thrown))
           (file : Docs.File) (document : Docs.Document)
           (sys : @Docs.System A)
  : @Docs.System A * Docs.Outcome Docs.Document :=
  match Docs.extractContent toLowerCase pdfPlaceholder docxPlaceholder file
  with
  | Docs.Threw e =>
      ({| Docs.docs :=
            announce (Docs.docs sys)
                     (Docs.withError (Docs.withStatus document Docs.error)
                                     (Docs.messageOf e));
          Docs.ai := Docs.ai sys |}, Docs.Threw e)
  | Docs.Returned c =>
      let document := Docs.withContent document c in
      let ds := write (Docs.docs sys) document in
      match Docs.awaitIndex fetchEmbedding fault document (Docs.ai sys) with
      | (svc, Docs.Threw e) =>
          ({| Docs.docs :=
                announce ds
                         (Docs.withError
                            (Docs.withStatus document Docs.error)
                            (Docs.messageOf e));
              Docs.ai := svc |}, Docs.Threw e)
      | (svc, Docs.Returned _) =>
          let document :=
            Docs.withLastUpdated (Docs.withStatus document Docs.indexed)
                                 tIndexed in
          ({| Docs.docs := announce ds document; Docs.ai := svc |},
           Docs.Returned document)
      end
  end.

(** An upload with a [deleteDocument] of its document while it waits for
    the text of its file. *)
Definition uploadWithDelete (newId : jsstring)
           (tUploaded tUpdated tIndexed : Z)
           (fault : option (nat * Docs.Thrown)) (file : Docs.File)
           (sys : @Docs.System A) : @Docs.System A :=
  let '(suspended, document) :=
    uploadBegin newId tUploaded tUpdated file sys in
  let deleted := fst (Docs.deleteDocument newId suspended) in
  fst (uploadResume tIndexed fault file document deleted).

End Calls.

(** Documents in descending order of their last update. *)
Definition newestFirst (l : list Docs.Document) : Prop :=
  StronglySorted
    (fun a b => (Docs.lastUpdated b <= Docs.lastUpdated a)%Z) l.

End Whole.

(** The members of a list that is given in full, one by one. *)
Ltac each_member :=
  repeat match goal with
         | H : In _ _ |- _ => cbn [In] in H
         | H : _ \/ _ |- _ => destruct H
         | H : False |- _ => destruct H
         end; subst.


(* ================================================================= *)
(** * Properties *)

(** ** Strings, arrays and maps *)

Section JsFacts.

Lemma eqb_eq (s t : jsstring) : JsString.eqb s t = true <-> s = t.
Proof.
  revert t. induction s as [|c s IH]; intros [|d t]; simpl;
    try (split; congruence).
  rewrite andb_true_iff, N.eqb_eq, IH. split.
  - intros [-> ->]. reflexivity.
  - intros H. inversion H. auto.
Qed.

Lemma eqb_refl (s : jsstring) : JsString.eqb s s = true.
Proof. now apply eqb_eq. Qed.

Lemma eqb_neq (s t : jsstring) : JsString.eqb s t = false <-> s <> t.
Proof.
  rewrite <- eqb_eq. destruct (JsString.eqb s t); split; congruence.
Qed.

Lemma eqb_sym (s t : jsstring) : JsString.eqb s t = JsString.eqb t s.
Proof.
  destruct (JsString.eqb s t) eqn:E.
  - apply eqb_eq in E. subst. symmetry. apply eqb_refl.
  - symmetry. apply eqb_neq. apply eqb_neq in E. congruence.
Qed.

Variable T : Type.

(** The sort rearranges and neither adds nor drops. *)
Lemma insert_perm (before : T -> T -> bool) (x : T) (l : list T) :
  Permutation (JsArray.insert before x l) (x :: l).
Proof.
  induction l as [|y l IH]; simpl.
  - apply Permutation_refl.
  - destruct (before y x).
    + eapply perm_trans; [apply perm_skip, IH | apply perm_swap].
    + apply Permutation_refl.
Qed.

Lemma sort_perm (before : T -> T -> bool) (l : list T) :
  Permutation (JsArray.sort before l) l.
Proof.
  induction l as [|x l IH]; simpl.
  - apply perm_nil.
  - eapply perm_trans; [apply insert_perm | apply perm_skip, IH].
Qed.

Lemma sort_In (before : T -> T -> bool) (l : list T) (x : T) :
  In x (JsArray.sort before l) <-> In x l.
Proof.
  split; apply Permutation_in;
    [apply sort_perm | apply Permutation_sym, sort_perm].
Qed.

Lemma sort_length (before : T -> T -> bool) (l : list T) :
  List.length (JsArray.sort before l) = List.length l.
Proof. apply Permutation_length, sort_perm. Qed.

Lemma insertAt_perm (n : nat) (x : T) (l : list T) :
  Permutation (JsArray.insertAt n x l) (x :: l).
Proof.
  revert n. induction l as [|y l IH]; intros [|n]; cbn [JsArray.insertAt];
    try apply Permutation_refl.
  eapply perm_trans; [apply perm_skip, IH | apply perm_swap].
Qed.

Lemma arrange_perm (place : nat -> nat) (l : list T) :
  Permutation (JsArray.arrange place l) l.
Proof.
  induction l as [|x l IH]; cbn [JsArray.arrange].
  - apply perm_nil.
  - eapply perm_trans; [apply insertAt_perm | apply perm_skip, IH].
Qed.

(** Whatever the comparison function is, the sort rearranges the array. *)
Lemma hostSort_perm (place : nat -> nat) (before : T -> T -> bool)
      (l : list T) :
  Permutation (JsArray.hostSort place before l) l.
Proof.
  unfold JsArray.hostSort.
  destruct (JsArray.consistent before l); [apply sort_perm | apply arrange_perm].
Qed.

Lemma hostSort_In (place : nat -> nat) (before : T -> T -> bool)
      (l : list T) (x : T) :
  In x (JsArray.hostSort place before l) <-> In x l.
Proof.
  split; apply Permutation_in;
    [apply hostSort_perm | apply Permutation_sym, hostSort_perm].
Qed.

Lemma hostSort_length (place : nat -> nat) (before : T -> T -> bool)
      (l : list T) :
  List.length (JsArray.hostSort place before l) = List.length l.
Proof. apply Permutation_length, hostSort_perm. Qed.

(** What a consistent comparison function gives on the elements of [l]. *)
Lemma consistent_spec (before : T -> T -> bool) (l : list T) :
  JsArray.consistent before l = true ->
  (forall x y, In x l -> In y l -> before x y = true -> before y x = false)
  /\ (forall x y z, In x l -> In y l -> In z l ->
                    before x y = false -> before y z = false ->
                    before x z = false).
Proof.
  unfold JsArray.consistent. intros H.
  assert (H' : forall x y, In x l -> In y l ->
               (negb (before x y) || negb (before y x)) = true
               /\ forall z, In z l ->
                            (negb (before x z) || before x y || before y z)
                            = true).
  { intros x y Hx Hy. rewrite forallb_forall in H. specialize (H x Hx).
    rewrite forallb_forall in H. specialize (H y Hy).
    apply andb_true_iff in H. destruct H as [H1 H2]. split; [exact H1|].
    intros z Hz. rewrite forallb_forall in H2. now apply H2. }
  split.
  - intros x y Hx Hy E. destruct (H' x y Hx Hy) as [H1 _].
    rewrite E in H1. cbn in H1. now apply negb_true_iff in H1.
  - intros x y z Hx Hy Hz E1 E2. destruct (H' x y Hx Hy) as [_ H2].
    specialize (H2 z Hz). rewrite E1, E2 in H2.
    destruct (before x z); [discriminate | reflexivity].
Qed.

(** A consistent comparison function is obeyed: in the sorted array no
    element is before an earlier one. *)
Lemma sort_ordered (before : T -> T -> bool) (l : list T) :
  JsArray.consistent before l = true ->
  StronglySorted (fun a b => before b a = false) (JsArray.sort before l).
Proof.
  intros H. destruct (consistent_spec before l H) as [Hasym Hneg].
  assert (Hins : forall x s,
             In x l -> (forall y, In y s -> In y l) ->
             StronglySorted (fun a b => before b a = false) s ->
             StronglySorted (fun a b => before b a = false)
                            (JsArray.insert before x s)).
  { intros x s Hx Hs Hsorted.
    induction Hsorted as [|y s Hsorted IH Hy]; cbn [JsArray.insert].
    - constructor; constructor.
    - assert (Hyl : In y l) by (apply Hs; now left).
      assert (Hsl : forall z, In z s -> In z l)
        by (intros z Hz; apply Hs; now right).
      pose proof Hy as Hy'. rewrite Forall_forall in Hy'.
      destruct (before y x) eqn:E.
      + constructor; [now apply IH|]. apply Forall_forall. intros z Hz.
        apply (Permutation_in _ (insert_perm before x s)) in Hz.
        destruct Hz as [<-|Hz]; [now apply Hasym | now apply Hy'].
      + constructor; [now constructor|]. constructor; [exact E|].
        apply Forall_forall. intros z Hz.
        apply (Hneg z y x); auto. }
  assert (Hall : forall l', (forall x, In x l' -> In x l) ->
             StronglySorted (fun a b => before b a = false)
                            (JsArray.sort before l')).
  { induction l' as [|x l' IH]; intros Hsub; cbn [JsArray.sort].
    - constructor.
    - apply Hins.
      + apply Hsub. now left.
      + intros y Hy. apply sort_In in Hy. apply Hsub. now right.
      + apply IH. intros y Hy. apply Hsub. now right. }
  apply Hall. auto.
Qed.

Lemma StronglySorted_firstn (R : T -> T -> Prop) (n : nat) (l : list T) :
  StronglySorted R l -> StronglySorted R (firstn n l).
Proof.
  intros H. revert n.
  induction H as [|y l Hsorted IH Hy]; intros [|n]; cbn [firstn];
    try constructor.
  - apply IH.
  - apply Forall_forall. intros z Hz. rewrite Forall_forall in Hy.
    apply Hy. revert Hz. clear. revert l.
    induction n as [|n IHn]; intros [|x l]; cbn [firstn In]; try tauto.
    intros [H|H]; [now left | right; now apply IHn].
Qed.

Lemma StronglySorted_skipn (R : T -> T -> Prop) (n : nat) (l : list T) :
  StronglySorted R l -> StronglySorted R (skipn n l).
Proof.
  intros H. revert n.
  induction H as [|y l Hsorted IH Hy]; intros [|n]; cbn [skipn];
    try constructor; try assumption.
  apply IH.
Qed.

Lemma slice_sorted (R : T -> T -> Prop) (l : list T) (start stop : Z) :
  StronglySorted R l -> StronglySorted R (JsArray.slice l start stop).
Proof.
  intros H. unfold JsArray.slice.
  now apply StronglySorted_firstn, StronglySorted_skipn.
Qed.

Lemma In_firstn (n : nat) (l : list T) (x : T) :
  In x (firstn n l) -> In x l.
Proof.
  revert l. induction n as [|n IH]; intros [|y l]; simpl; try tauto.
  intros [H|H]; auto.
Qed.

Lemma In_skipn (n : nat) (l : list T) (x : T) :
  In x (skipn n l) -> In x l.
Proof.
  revert l. induction n as [|n IH]; intros [|y l]; simpl; auto.
Qed.

(** A slice holds elements of the array only. *)
Lemma slice_incl (l : list T) (start stop : Z) :
  incl (JsArray.slice l start stop) l.
Proof.
  unfold JsArray.slice. intros x H.
  apply In_firstn in H. apply In_skipn in H. exact H.
Qed.

Lemma relIndex_nonneg (len rel : Z) :
  (0 <= rel)%Z -> JsArray.relIndex len rel = Z.min rel len.
Proof.
  intros H. unfold JsArray.relIndex.
  destruct (Z.ltb_spec rel 0); [lia | reflexivity].
Qed.

Lemma relIndex_neg (len rel : Z) :
  (rel < 0)%Z -> JsArray.relIndex len rel = Z.max (len + rel) 0.
Proof.
  intros H. unfold JsArray.relIndex.
  destruct (Z.ltb_spec rel 0); [reflexivity | lia].
Qed.

(** [l.slice(0, k)] for [k >= 0] is the first [k] elements. *)
Lemma slice_prefix (l : list T) (k : Z) :
  (0 <= k)%Z -> JsArray.slice l 0 k = firstn (Z.to_nat k) l.
Proof.
  intros Hk. unfold JsArray.slice.
  rewrite !relIndex_nonneg by lia.
  replace (Z.to_nat (Z.min 0 (Z.of_nat (List.length l)))) with 0%nat by lia.
  simpl skipn.
  destruct (Z.le_ge_cases k (Z.of_nat (List.length l))) as [H|H].
  - f_equal. lia.
  - rewrite (firstn_all2 (n := Z.to_nat k)) by lia.
    apply firstn_all2. lia.
Qed.

Lemma slice_prefix_length (l : list T) (k : Z) :
  (0 <= k)%Z -> (Z.of_nat (List.length (JsArray.slice l 0 k)) <= k)%Z.
Proof.
  intros Hk. rewrite slice_prefix by assumption.
  rewrite length_firstn. lia.
Qed.

(** [l.slice(0, k)] for [k < 0] drops the last [-k] elements. *)
Lemma slice_drop_last (l : list T) (k : Z) :
  (k < 0)%Z ->
  JsArray.slice l 0 k = firstn (List.length l - Z.to_nat (- k)) l.
Proof.
  intros Hk. unfold JsArray.slice.
  rewrite (@relIndex_nonneg _ 0), (@relIndex_neg _ k) by lia.
  replace (Z.to_nat (Z.min 0 (Z.of_nat (List.length l)))) with 0%nat by lia.
  simpl skipn. f_equal. lia.
Qed.

(** The words a negative start keeps: the last [n], or all of them. *)
Lemma sliceFrom_last (l : list T) (n : Z) :
  (0 < n)%Z ->
  JsArray.sliceFrom l (- n)
  = skipn (List.length l - Z.to_nat n) l.
Proof.
  intros Hn. unfold JsArray.sliceFrom, JsArray.slice.
  rewrite (@relIndex_neg _ (- n)), relIndex_nonneg by lia.
  replace (Z.to_nat (Z.max (Z.of_nat (List.length l) + - n) 0))
    with (List.length l - Z.to_nat n)%nat by lia.
  apply firstn_all2. rewrite length_skipn. lia.
Qed.

(** A start of zero keeps every word. *)
Lemma sliceFrom_zero (l : list T) : JsArray.sliceFrom l 0 = l.
Proof.
  unfold JsArray.sliceFrom, JsArray.slice.
  rewrite !relIndex_nonneg by lia.
  replace (Z.to_nat (Z.min 0 (Z.of_nat (List.length l)))) with 0%nat by lia.
  simpl skipn. apply firstn_all2. lia.
Qed.

(** A positive start drops that many words from the front. *)
Lemma sliceFrom_skip (l : list T) (n : Z) :
  (0 <= n)%Z -> JsArray.sliceFrom l n = skipn (Z.to_nat n) l.
Proof.
  intros Hn. unfold JsArray.sliceFrom, JsArray.slice.
  rewrite !relIndex_nonneg by lia.
  destruct (Z.le_ge_cases n (Z.of_nat (List.length l))) as [H|H].
  - replace (Z.to_nat (Z.min n (Z.of_nat (List.length l))))
      with (Z.to_nat n) by lia.
    apply firstn_all2. rewrite length_skipn. lia.
  - replace (Z.to_nat (Z.min n (Z.of_nat (List.length l))))
      with (List.length l) by lia.
    rewrite skipn_all. rewrite skipn_all2 by lia. apply firstn_nil.
Qed.

End JsFacts.

(** ** The grouping loop of the retriever *)

Section GroupingFacts.

Context {A : Arith}.

Import AI Spec.

Lemma join_cons_app (sep p q : jsstring) (l : list jsstring) :
  join sep ((p ++ q) :: l) = p ++ join sep (q :: l).
Proof.
  destruct l as [|z l]; simpl.
  - reflexivity.
  - now rewrite <- app_assoc.
Qed.

Lemma join_fold (sep x : jsstring) (l : list jsstring) :
  fold_left (fun acc y => acc ++ sep ++ y) l x = join sep (x :: l).
Proof.
  revert x. induction l as [|y l IH]; intros x.
  - reflexivity.
  - cbn [fold_left]. rewrite IH.
    rewrite join_cons_app, join_cons_app. reflexivity.
Qed.

(** What the writes to one record add up to. *)
Lemma merged_fold (later : list Scored) (s : DocumentSource) :
  fold_left merged later s
  = {| id := id s;
       title := title s;
       content := fold_left (fun acc y => acc ++ blankLine ++ y)
                            (List.map textOf later) (content s);
       relevanceScore :=
         fold_left nmax (List.map score later) (relevanceScore s);
       lastUpdated := lastUpdated s |}.
Proof.
  revert s. induction later as [|r later IH]; intros s.
  - destruct s. reflexivity.
  - cbn [fold_left List.map]. rewrite IH. reflexivity.
Qed.

Lemma merged_sourceOf (now : Z) (first : Scored) (later : list Scored) :
  fold_left merged later (created now first) = sourceOf now first later.
Proof.
  rewrite merged_fold. unfold sourceOf, created. cbn [id title content
    relevanceScore lastUpdated]. f_equal.
  apply (join_fold blankLine (textOf first) (List.map textOf later)).
Qed.

(** A chunk of the document at the head of the map changes that record. *)
Lemma aggregateStep_head_same (clock : nat -> Z) (d : jsstring)
      (s : DocumentSource) (m : JsMap.t DocumentSource) (x : Scored) :
  sameDocument d x = true ->
  aggregateStep clock ((d, s) :: m) x = (d, merged s x) :: m.
Proof.
  unfold sameDocument, docOf. intros H. apply eqb_eq in H.
  unfold aggregateStep, JsMap.has. cbn [JsMap.get]. rewrite H, eqb_refl.
  cbn [negb JsMap.set]. now rewrite eqb_refl.
Qed.

(** A chunk of another document leaves the head alone. *)
Lemma aggregateStep_head_other (clock : nat -> Z) (d : jsstring)
      (s : DocumentSource) (m : JsMap.t DocumentSource) (x : Scored) :
  sameDocument d x = false ->
  aggregateStep clock ((d, s) :: m) x
  = (d, s) :: aggregateStep (fun n => clock (S n)) m x.
Proof.
  unfold sameDocument, docOf. intros H. rewrite eqb_sym in H.
  unfold aggregateStep, JsMap.has. cbn [JsMap.get]. rewrite H.
  destruct (JsMap.get m (documentId (chunk x))) as [existing|];
    cbn [negb JsMap.set]; rewrite H; reflexivity.
Qed.

Lemma aggregate_fold_head (rest : list Scored) :
  forall (clock : nat -> Z) (d : jsstring) (s : DocumentSource)
         (m : JsMap.t DocumentSource),
    fold_left (aggregateStep clock) rest ((d, s) :: m)
    = (d, fold_left merged (filter (sameDocument d) rest) s)
      :: fold_left (aggregateStep (fun n => clock (S n)))
           (filter (fun r => negb (sameDocument d r)) rest) m.
Proof.
  induction rest as [|x rest IH]; intros clock d s m.
  - reflexivity.
  - cbn [fold_left filter].
    destruct (sameDocument d x) eqn:E; cbn [negb].
    + rewrite aggregateStep_head_same by assumption.
      rewrite IH. reflexivity.
    + rewrite aggregateStep_head_other by assumption.
      rewrite IH. reflexivity.
Qed.

Lemma filter_length_le (T : Type) (f : T -> bool) (l : list T) :
  (List.length (filter f l) <= List.length l)%nat.
Proof.
  induction l as [|x l IH]; simpl; [lia|]. destruct (f x); simpl; lia.
Qed.

(** The loop computes the grouping the specification describes. *)
Lemma aggregate_groupedUpTo (fuel : nat) :
  forall (clock : nat -> Z) (top : list Scored),
    (List.length top <= fuel)%nat ->
    aggregate clock top = groupedUpTo fuel clock top.
Proof.
  induction fuel as [|fuel IH]; intros clock [|first rest] Hlen;
    try reflexivity; simpl in Hlen; [lia|].
  unfold aggregate. cbn [fold_left groupedUpTo].
  unfold aggregateStep at 2.
  cbn [JsMap.has JsMap.get JsMap.empty JsMap.set negb].
  rewrite aggregate_fold_head. cbn [JsMap.values List.map snd List.length].
  rewrite merged_sourceOf. f_equal.
  apply IH.
  pose proof (filter_length_le
                (fun r => negb (sameDocument (docOf first) r)) rest).
  lia.
Qed.

Lemma aggregate_grouped (clock : nat -> Z) (top : list Scored) :
  aggregate clock top = groupedSources clock top.
Proof. apply aggregate_groupedUpTo. lia. Qed.

Lemma filter_comm (T : Type) (f g : T -> bool) (l : list T) :
  filter f (filter g l) = filter g (filter f l).
Proof.
  induction l as [|x l IH]; simpl; [reflexivity|].
  destruct (f x) eqn:Ef, (g x) eqn:Eg; simpl;
    rewrite ?Ef, ?Eg, IH; reflexivity.
Qed.

Lemma filter_idem (T : Type) (f : T -> bool) (l : list T) :
  filter f (filter f l) = filter f l.
Proof.
  induction l as [|x l IH]; simpl; [reflexivity|].
  destruct (f x) eqn:Ef; simpl; rewrite ?Ef, IH; reflexivity.
Qed.

Lemma firstOccurrences_filter (d : jsstring) (l : list jsstring) :
  firstOccurrences (filter (fun d' => negb (JsString.eqb d' d)) l)
  = filter (fun d' => negb (JsString.eqb d' d)) (firstOccurrences l).
Proof.
  induction l as [|x l IH]; [reflexivity|].
  cbn [filter firstOccurrences].
  destruct (JsString.eqb x d) eqn:E; cbn [negb].
  - apply eqb_eq in E. subst x. rewrite IH.
    now rewrite filter_idem.
  - cbn [firstOccurrences]. rewrite IH. f_equal. apply filter_comm.
Qed.

Lemma map_docOf_filter (d : jsstring) (l : list Scored) :
  List.map docOf (filter (fun r => negb (sameDocument d r)) l)
  = filter (fun d' => negb (JsString.eqb d' d)) (List.map docOf l).
Proof.
  induction l as [|x l IH]; [reflexivity|].
  cbn [filter List.map]. unfold sameDocument at 1.
  destruct (JsString.eqb (docOf x) d); cbn [negb List.map];
    rewrite IH; reflexivity.
Qed.

(** The records come in the order of first occurrence. *)
Lemma groupedUpTo_ids (fuel : nat) :
  forall (clock : nat -> Z) (top : list Scored),
    (List.length top <= fuel)%nat ->
    List.map id (groupedUpTo fuel clock top)
    = firstOccurrences (List.map docOf top).
Proof.
  induction fuel as [|fuel IH]; intros clock [|first rest] Hlen;
    try reflexivity; simpl in Hlen; [lia|].
  cbn [groupedUpTo List.map firstOccurrences]. f_equal.
  rewrite IH.
  - rewrite map_docOf_filter. apply firstOccurrences_filter.
  - pose proof (filter_length_le
                  (fun r => negb (sameDocument (docOf first) r)) rest).
    lia.
Qed.

Lemma aggregate_ids (clock : nat -> Z) (top : list Scored) :
  List.map id (aggregate clock top) = firstOccurrences (List.map docOf top).
Proof.
  rewrite aggregate_grouped. apply groupedUpTo_ids. lia.
Qed.

Lemma firstOccurrences_In (d : jsstring) (l : list jsstring) :
  In d (firstOccurrences l) -> In d l.
Proof.
  induction l as [|x l IH]; simpl; [tauto|].
  intros [H|H]; [now left|].
  right. apply IH. apply filter_In in H. tauto.
Qed.

Lemma firstOccurrences_length (l : list jsstring) :
  (List.length (firstOccurrences l) <= List.length l)%nat.
Proof.
  induction l as [|x l IH]; simpl; [lia|].
  pose proof (filter_length_le (fun d' => negb (JsString.eqb d' x))
                               (firstOccurrences l)).
  lia.
Qed.

End GroupingFacts.

(** ** The retriever *)

Section RetrieverFacts.

Context {A : Arith} {S : Sine A}.

Variable fetchEmbedding : jsstring -> jsstring -> option (@AI.EmbeddingResult A).
Variable place : nat -> nat.

Import AI Spec.

(** Every pair the grouping loop reads scores a chunk of the store. *)
Lemma topResults_from_store (svc : AIService) (query : jsstring) (topK : Z)
      (r : Scored) :
  In r (topResults fetchEmbedding place svc query topK) ->
  In (chunk r) (JsMap.values (vectorStore svc)).
Proof.
  unfold topResults. intros H.
  apply slice_incl in H. apply hostSort_In in H.
  unfold scoreAll in H. apply in_map_iff in H.
  destruct H as [c [<- Hc]]. exact Hc.
Qed.

Lemma topResults_length (svc : AIService) (query : jsstring) (topK : Z) :
  (0 <= topK)%Z ->
  (Z.of_nat (List.length (topResults fetchEmbedding place svc query topK))
   <= topK)%Z.
Proof. intros H. unfold topResults. now apply slice_prefix_length. Qed.

(** A negative topK drops that many of the lowest pairs and keeps the
    rest. *)
Lemma topResults_negative (svc : AIService) (query : jsstring) (topK : Z) :
  (topK < 0)%Z ->
  let results :=
    scoreAll (result_embedding (generateEmbedding fetchEmbedding svc query))
             (vectorStore svc) in
  topResults fetchEmbedding place svc query topK
  = firstn (List.length results - Z.to_nat (- topK))
           (JsArray.hostSort place before results).
Proof.
  intros H. cbv zeta. unfold topResults.
  rewrite slice_drop_last by exact H. now rewrite hostSort_length.
Qed.

(** The identifier of a returned record is the document of a stored
    chunk. *)
Lemma searchDocuments_from_store (clock : nat -> Z) (svc : AIService)
      (query : jsstring) (topK : Z) (s : DocumentSource) :
  In s (searchDocuments fetchEmbedding place clock svc query topK) ->
  exists c, In c (JsMap.values (vectorStore svc)) /\ documentId c = id s.
Proof.
  intros H. apply (in_map id) in H.
  unfold searchDocuments in H. rewrite aggregate_ids in H.
  apply firstOccurrences_In in H. apply in_map_iff in H.
  destruct H as [r [Hr Hin]].
  exists (chunk r). split.
  - eapply topResults_from_store; eauto.
  - exact Hr.
Qed.

Lemma searchDocuments_length (clock : nat -> Z) (svc : AIService)
      (query : jsstring) (topK : Z) :
  (List.length (searchDocuments fetchEmbedding place clock svc query topK)
   <= List.length (topResults fetchEmbedding place svc query topK))%nat.
Proof.
  rewrite <- (length_map id). unfold searchDocuments.
  rewrite aggregate_ids.
  etransitivity; [apply firstOccurrences_length|].
  now rewrite length_map.
Qed.

End RetrieverFacts.

(** C1.  For every vector store, query text and topK, a number of records
    that is not negative, [searchDocuments] returns at most topK records,
    the identifier of every returned record is the [documentId] of a
    chunk of the store, and on an empty store the result is the empty
    list; the last two hold whatever number topK is. *)
Theorem searchDocuments_at_most_topK
        (A : Arith) (S : Sine A)
        (fetchEmbedding : jsstring -> jsstring -> option AI.EmbeddingResult)
        (place : nat -> nat)
        (clock : nat -> Z) (svc : AI.AIService) (query : jsstring)
        (topK : Z) :
  ((0 <= topK)%Z ->
   (Z.of_nat
      (List.length (AI.searchDocuments fetchEmbedding place clock svc query topK))
    <= topK)%Z)
  /\ (forall s,
         In s (AI.searchDocuments fetchEmbedding place clock svc query topK) ->
         exists c, In c (JsMap.values (AI.vectorStore svc))
                   /\ AI.documentId c = AI.id s)
  /\ (AI.vectorStore svc = JsMap.empty ->
      AI.searchDocuments fetchEmbedding place clock svc query topK = []).
Proof.
  split; [|split].
  - intros HK.
    pose proof (searchDocuments_length fetchEmbedding place clock svc query topK).
    pose proof (topResults_length fetchEmbedding place svc query HK). lia.
  - intros s. apply searchDocuments_from_store.
  - intros Hempty.
    unfold AI.searchDocuments, AI.topResults. rewrite Hempty.
    unfold JsArray.slice. cbn. now rewrite firstn_nil.
Qed.

Lemma searchDocuments_at_most_topK_witness :
  (0 <= 2)%Z
  /\ (Z.of_nat
        (List.length
           (AI.searchDocuments (Sample.remote Sample.unit1) Sample.place Sample.ticks
                               Sample.threeDocs (str "q") 2))
      <= 2)%Z.
Proof.
  assert (H : (0 <= 2)%Z) by lia.
  split; [exact H|].
  exact (proj1 (@searchDocuments_at_most_topK RArith RSine
                  (Sample.remote Sample.unit1) Sample.place Sample.ticks Sample.threeDocs
                  (str "q") 2) H).
Defined.

(** ** Removal *)

Section RemovalFacts.

Context {A : Arith}.

Import AI.

Lemma delete_In (V : Type) (m : JsMap.t V) (k : jsstring)
      (e : jsstring * V) :
  In e (JsMap.delete m k) <-> In e m /\ fst e <> k.
Proof.
  unfold JsMap.delete. rewrite filter_In, negb_true_iff, eqb_neq. tauto.
Qed.

Lemma delete_all_In (V : Type) (keys : list jsstring) :
  forall (m : JsMap.t V) (e : jsstring * V),
    In e (fold_left (fun m key => JsMap.delete m key) keys m)
    <-> In e m /\ ~ In (fst e) keys.
Proof.
  induction keys as [|k keys IH]; intros m e; cbn [fold_left].
  - simpl. tauto.
  - rewrite IH, delete_In. simpl. intuition congruence.
Qed.

Lemma keysToDelete_In (store : JsMap.t DocumentChunk) (docId : jsstring)
      (e : jsstring * DocumentChunk) :
  In e store -> documentId (snd e) = docId ->
  In (fst e) (keysToDelete store docId).
Proof.
  intros Hin Hdoc. unfold keysToDelete.
  apply in_map, filter_In. split; [exact Hin|].
  now apply eqb_eq.
Qed.

(** No chunk of the document is left in the store. *)
Lemma removeDocument_none_left (svc : AIService) (docId : jsstring)
      (c : DocumentChunk) :
  In c (JsMap.values (vectorStore (removeDocument svc docId))) ->
  documentId c <> docId.
Proof.
  unfold removeDocument, JsMap.values. cbn [vectorStore withStore].
  intros H. apply in_map_iff in H. destruct H as [e [<- He]].
  apply delete_all_In in He. destruct He as [Hin Hnot].
  intros Hdoc. apply Hnot. now apply keysToDelete_In.
Qed.

End RemovalFacts.

(** C2.  After [removeDocument(id)], also when [deleteDocument(id)] calls
    it, no chunk whose [documentId] is [id] is in the vector store, and a
    later [searchDocuments] returns no record with that identifier,
    whatever the store was before. *)
Theorem removeDocument_sweeps_document
        (A : Arith) (S : Sine A)
        (fetchEmbedding : jsstring -> jsstring -> option AI.EmbeddingResult)
        (place : nat -> nat)
        (clock : nat -> Z) (docId : jsstring) :
  (forall (svc : AI.AIService),
      (forall c,
          In c (JsMap.values (AI.vectorStore (AI.removeDocument svc docId))) ->
          AI.documentId c <> docId)
      /\ (forall query topK s,
             In s (AI.searchDocuments fetchEmbedding place clock
                                      (AI.removeDocument svc docId)
                                      query topK) ->
             AI.id s <> docId))
  /\ (forall (sys : Docs.System),
         let after := Docs.ai (fst (Docs.deleteDocument docId sys)) in
         (forall c,
             In c (JsMap.values (AI.vectorStore after)) ->
             AI.documentId c <> docId)
         /\ (forall query topK s,
                In s (AI.searchDocuments fetchEmbedding place clock after
                                         query topK) ->
                AI.id s <> docId)
         /\ JsMap.get (Docs.documents
                         (Docs.docs (fst (Docs.deleteDocument docId sys))))
                      docId = None).
Proof.
  assert (Hsearch : forall (svc : AI.AIService) query topK s,
             In s (AI.searchDocuments fetchEmbedding place clock
                                      (AI.removeDocument svc docId)
                                      query topK) ->
             AI.id s <> docId).
  { intros svc query topK s Hs.
    apply searchDocuments_from_store in Hs. destruct Hs as [c [Hc <-]].
    eapply removeDocument_none_left; eauto. }
  split.
  - intros svc. split.
    + intros c. apply removeDocument_none_left.
    + apply Hsearch.
  - intros sys. cbn. split; [|split].
    + intros c. apply removeDocument_none_left.
    + apply Hsearch.
    + induction (Docs.documents (Docs.docs sys)) as [|[k v] m IH];
        [reflexivity|].
      unfold JsMap.delete in *. cbn [filter fst].
      destruct (JsString.eqb k docId) eqn:E; cbn [negb]; [exact IH|].
      cbn [JsMap.get]. now rewrite E.
Qed.

(** ** The order of the scored pairs in exact arithmetic *)

Section RankingFacts.

Import AI.

#[local] Existing Instance RArith | 0.

Local Open Scope R_scope.









End RankingFacts.


(** ** Cosine similarity in exact arithmetic *)

Section CosineFacts.
Import AI Spec.
#[local] Existing Instance RArith | 0.
Local Open Scope R_scope.

Lemma cosineLoop_sums (a : list R) :
  forall (b : list R) (d n m : R),
    List.length a = List.length b ->
    fold_left (cosineStep (A := RArith)) (combine a b) (d, n, m)
    = (d + dot a b, n + dot a a, m + dot b b).
Proof.
  induction a as [|x a IH]; intros [|y b] d n m Hlen; try discriminate.
  - cbn. f_equal; [f_equal|]; ring.
  - cbn [combine fold_left]. unfold cosineStep at 2. cbn [nadd nmul RArith].
    rewrite IH by (simpl in Hlen; congruence).
    cbn [dot]. f_equal; [f_equal|]; ring.
Qed.

Lemma dot_self_nonneg (a : list R) : 0 <= dot a a.
Proof.
  induction a as [|x a IH]; cbn [dot]; [lra|]. nra.
Qed.

Lemma dot_self_pos (a : list R) : nonZero a -> 0 < dot a a.
Proof.
  intros [x [Hin Hx]]. induction a as [|y a IH]; [contradiction|].
  cbn [dot]. pose proof (dot_self_nonneg a).
  destruct Hin as [->|Hin].
  - nra.
  - specialize (IH Hin). nra.
Qed.

Lemma cross_term (x y D P Q : R) :
  0 <= P -> 0 <= Q -> D * D <= P * Q ->
  2 * (x * y * D) <= x * x * Q + y * y * P.
Proof.
  intros HP HQ HD.
  apply Rsqr_incr_0_var; [|nra].
  unfold Rsqr.
  assert (H1 : (x * x * (y * y)) * (D * D) <= (x * x * (y * y)) * (P * Q))
    by (apply Rmult_le_compat_l; [nra | exact HD]).
  pose proof (Rle_0_sqr (x * x * Q - y * y * P)) as H2. unfold Rsqr in H2.
  nra.
Qed.

Lemma cauchy_schwarz (a : list R) :
  forall b : list R, List.length a = List.length b ->
    dot a b * dot a b <= dot a a * dot b b.
Proof.
  induction a as [|x a IH]; intros [|y b] Hlen; try discriminate.
  - cbn. lra.
  - cbn [dot]. simpl in Hlen. injection Hlen as Hlen.
    specialize (IH b Hlen).
    pose proof (dot_self_nonneg a) as HP. pose proof (dot_self_nonneg b) as HQ.
    pose proof (cross_term x y HP HQ IH).
    nra.
Qed.

(** The quotient of the loop's sums, for norms that are not zero. *)
Lemma quotient_bounds (D P Q : R) :
  0 < P -> 0 < Q -> D * D <= P * Q ->
  -1 <= D / (sqrt P * sqrt Q) <= 1.
Proof.
  intros HP HQ HD.
  assert (Hp : 0 < sqrt P) by now apply sqrt_lt_R0.
  assert (Hq : 0 < sqrt Q) by now apply sqrt_lt_R0.
  assert (Hpq : 0 < sqrt P * sqrt Q) by now apply Rmult_lt_0_compat.
  assert (Habs : Rabs D <= sqrt P * sqrt Q).
  { rewrite <- sqrt_mult by lra. rewrite <- sqrt_Rsqr_abs.
    apply sqrt_le_1; unfold Rsqr; nra. }
  assert (Hhi : D <= sqrt P * sqrt Q)
    by (eapply Rle_trans; [apply Rle_abs | exact Habs]).
  assert (Hlo : - (sqrt P * sqrt Q) <= D).
  { pose proof (Rle_abs (- D)) as H. rewrite Rabs_Ropp in H. lra. }
  split.
  - apply Rmult_le_reg_r with (sqrt P * sqrt Q); [exact Hpq|].
    unfold Rdiv. rewrite Rmult_assoc, Rinv_l by lra. lra.
  - apply Rmult_le_reg_r with (sqrt P * sqrt Q); [exact Hpq|].
    unfold Rdiv. rewrite Rmult_assoc, Rinv_l by lra. lra.
Qed.

Lemma cosineLoop_exact (a b : list R) :
  List.length a = List.length b ->
  cosineLoop (A := RArith) a b = (dot a b, dot a a, dot b b).
Proof.
  intros Hlen. unfold cosineLoop. etransitivity.
  - exact (cosineLoop_sums a b 0 0 0 Hlen).
  - f_equal; [f_equal|]; ring.
Qed.

Lemma cosineSimilarity_quotient (a b : list R) :
  List.length a = List.length b ->
  cosineSimilarity (A := RArith) a b = dot a b / (norm a * norm b).
Proof.
  intros Hlen. unfold cosineSimilarity.
  assert (E : Nat.eqb (@List.length (@num RArith) a)
                      (@List.length (@num RArith) b) = true)
    by (apply Nat.eqb_eq; exact Hlen).
  rewrite E. cbn [negb]. rewrite (cosineLoop_exact a b Hlen).
  reflexivity.
Qed.

Lemma cosineSimilarity_in_range (a b : list R) :
  List.length a = List.length b -> nonZero a -> nonZero b ->
  -1 <= cosineSimilarity (A := RArith) a b <= 1.
Proof.
  intros Hlen Ha Hb. rewrite cosineSimilarity_quotient by exact Hlen.
  unfold norm. apply quotient_bounds.
  - now apply dot_self_pos.
  - now apply dot_self_pos.
  - now apply cauchy_schwarz.
Qed.

Lemma cosineSimilarity_self (a : list R) :
  nonZero a -> cosineSimilarity (A := RArith) a a = 1.
Proof.
  intros Ha. rewrite cosineSimilarity_quotient by reflexivity.
  unfold norm. pose proof (dot_self_pos Ha) as Hpos.
  rewrite sqrt_sqrt by lra. unfold Rdiv. apply Rinv_r. lra.
Qed.

End CosineFacts.

Lemma cosineSimilarity_lengths_differ (A : Arith) (a b : list num) :
  List.length a <> List.length b -> AI.cosineSimilarity a b = ofZ 0.
Proof.
  intros H. unfold AI.cosineSimilarity.
  apply Nat.eqb_neq in H. now rewrite H.
Qed.

(** ** Rounding in binary64 *)

Section DigitFacts.

Local Open Scope Z_scope.

Lemma digits2_pos_bounds (p : positive) :
  2 ^ (Zpos (digits2_pos p) - 1) <= Zpos p < 2 ^ Zpos (digits2_pos p).
Proof.
  induction p as [p IH|p IH|]; cbn [digits2_pos].
  - rewrite Pos2Z.inj_succ.
    replace (Z.succ (Zpos (digits2_pos p)) - 1)
      with (Z.succ (Zpos (digits2_pos p) - 1)) by lia.
    rewrite !Z.pow_succ_r by lia. lia.
  - rewrite Pos2Z.inj_succ.
    replace (Z.succ (Zpos (digits2_pos p)) - 1)
      with (Z.succ (Zpos (digits2_pos p) - 1)) by lia.
    rewrite !Z.pow_succ_r by lia. lia.
  - cbn. lia.
Qed.

Lemma Zdigits2_nonneg (m : Z) : 0 <= Zdigits2 m.
Proof. destruct m; cbn; lia. Qed.

Lemma Zdigits2_bounds (m : Z) :
  0 < m -> 2 ^ (Zdigits2 m - 1) <= m < 2 ^ Zdigits2 m.
Proof.
  destruct m as [|p|p]; try lia. intros _. apply digits2_pos_bounds.
Qed.

Lemma Zdigits2_upper (m : Z) : 0 <= m -> m < 2 ^ Zdigits2 m.
Proof.
  intros H. destruct (Z.eq_dec m 0) as [->|Hne]; [cbn; lia|].
  apply Zdigits2_bounds. lia.
Qed.

Lemma Zdigits2_unique (m d : Z) :
  2 ^ (d - 1) <= m < 2 ^ d -> 0 < m -> Zdigits2 m = d.
Proof.
  intros [Hlo Hhi] Hpos.
  destruct (Zdigits2_bounds Hpos) as [Hlo' Hhi'].
  pose proof (Zdigits2_nonneg m) as Hd.
  assert (Hd0 : 0 < d).
  { destruct (Z_lt_le_dec 0 d) as [H|H]; [exact H|].
    assert (2 ^ d <= 1).
    { destruct (Z.eq_dec d 0) as [->|Hn]; [cbn; lia|].
      rewrite Z.pow_neg_r by lia. lia. }
    lia. }
  destruct (Z_lt_le_dec (Zdigits2 m) d) as [H1|H1].
  - assert (2 ^ Zdigits2 m <= 2 ^ (d - 1))
      by (apply Z.pow_le_mono_r; lia).
    lia.
  - destruct (Z_lt_le_dec d (Zdigits2 m)) as [H2|H2]; [|lia].
    assert (2 ^ d <= 2 ^ (Zdigits2 m - 1))
      by (apply Z.pow_le_mono_r; lia).
    lia.
Qed.

(** At least [d] digits: at least 2^(d-1). *)
Lemma Zdigits2_ge (m d : Z) :
  0 < d -> 0 <= m -> (d <= Zdigits2 m <-> 2 ^ (d - 1) <= m).
Proof.
  intros Hd Hm. split; intros H.
  - destruct (Z.eq_dec m 0) as [->|Hne]; [cbn in H; lia|].
    destruct (@Zdigits2_bounds m ltac:(lia)) as [Hlo _].
    assert (2 ^ (d - 1) <= 2 ^ (Zdigits2 m - 1))
      by (apply Z.pow_le_mono_r; lia).
    lia.
  - assert (Hpos : 0 < m).
    { assert (0 < 2 ^ (d - 1)) by (apply Z.pow_pos_nonneg; lia). lia. }
    destruct (Z_lt_le_dec (Zdigits2 m) d) as [H1|H1]; [|exact H1].
    destruct (Zdigits2_bounds Hpos) as [_ Hhi].
    assert (2 ^ Zdigits2 m <= 2 ^ (d - 1))
      by (apply Z.pow_le_mono_r; pose proof (Zdigits2_nonneg m); lia).
    lia.
Qed.

Lemma Zdigits2_le (m d : Z) :
  0 <= d -> 0 <= m -> (Zdigits2 m <= d <-> m < 2 ^ d).
Proof.
  intros Hd Hm. split; intros H.
  - pose proof (Zdigits2_upper Hm).
    assert (2 ^ Zdigits2 m <= 2 ^ d)
      by (apply Z.pow_le_mono_r; pose proof (Zdigits2_nonneg m); lia).
    lia.
  - destruct (Z.eq_dec m 0) as [->|Hne]; [cbn; lia|].
    destruct (Z_lt_le_dec d (Zdigits2 m)) as [H1|H1]; [|exact H1].
    destruct (@Zdigits2_bounds m ltac:(lia)) as [Hlo _].
    assert (2 ^ d <= 2 ^ (Zdigits2 m - 1))
      by (apply Z.pow_le_mono_r; lia).
    lia.
Qed.

End DigitFacts.

Section ShiftFacts.

Local Open Scope Z_scope.

Lemma shr_1_m (r : shr_record) :
  0 <= shr_m r -> shr_m (shr_1 r) = shr_m r / 2.
Proof.
  destruct r as [m rb sb]. cbn [shr_m shr_1]. intros Hm.
  destruct m as [|[p|p|]|p]; cbn [shr_m]; try lia; try reflexivity;
    Z.div_mod_to_equations; lia.
Qed.

Lemma iter_shr_m (p : positive) :
  forall r : shr_record,
    0 <= shr_m r ->
    shr_m (SpecFloat.iter_pos shr_1 p r) = shr_m r / 2 ^ Zpos p.
Proof.
  assert (Hdiv : forall a b c, 0 < b -> 0 < c -> a / b / c = a / (b * c)).
  { intros a b c Hb Hc. rewrite Z.div_div; lia. }
  assert (Hpos : forall q, 0 < 2 ^ Zpos q)
    by (intros q; apply Z.pow_pos_nonneg; lia).
  assert (Hnn : forall a q, 0 <= a -> 0 <= a / 2 ^ Zpos q).
  { intros a q Ha. apply Z.div_pos; [exact Ha | apply Hpos]. }
  induction p as [p IH|p IH|]; intros r Hr; cbn [SpecFloat.iter_pos].
  - rewrite IH.
    + rewrite IH by (rewrite shr_1_m by exact Hr; apply Z.div_pos; lia).
      rewrite shr_1_m by exact Hr.
      rewrite !Hdiv by (try apply Hpos; try lia;
                        apply Z.mul_pos_pos; try apply Hpos; lia).
      f_equal. change (Z.pos p~1) with (2 * Z.pos p + 1).
      rewrite Z.pow_add_r, Z.pow_mul_r by lia.
      change (2 ^ 2) with (2 * 2). change (2 ^ 1) with 2.
      rewrite Z.pow_mul_l. ring.
    + rewrite IH by (rewrite shr_1_m by exact Hr; apply Z.div_pos; lia).
      apply Hnn. rewrite shr_1_m by exact Hr. apply Z.div_pos; lia.
  - rewrite IH.
    + rewrite IH by exact Hr.
      rewrite Hdiv by apply Hpos.
      f_equal. change (Z.pos p~0) with (2 * Z.pos p).
      rewrite Z.pow_mul_r by lia.
      change (2 ^ 2) with (2 * 2).
      rewrite Z.pow_mul_l. ring.
    + rewrite IH by exact Hr. now apply Hnn.
  - rewrite shr_1_m by exact Hr. reflexivity.
Qed.

Lemma shr_none (r : shr_record) (e n : Z) : n <= 0 -> shr r e n = (r, e).
Proof. destruct n; cbn [shr]; try reflexivity; lia. Qed.

Lemma shr_some (r : shr_record) (e n : Z) :
  0 < n -> 0 <= shr_m r ->
  exists r', shr r e n = (r', e + n) /\ shr_m r' = shr_m r / 2 ^ n.
Proof.
  destruct n as [|p|p]; try lia. intros _ Hr. cbn [shr].
  eexists. split; [reflexivity|]. now apply iter_shr_m.
Qed.

Lemma round_nearest_even_near (m : Z) (l : location) :
  round_nearest_even m l = m \/ round_nearest_even m l = m + 1.
Proof.
  destruct l as [|[| |]]; cbn [round_nearest_even]; auto.
  destruct (Z.even m); auto.
Qed.

Lemma loc_of_record_of_loc (m : Z) (l : location) :
  loc_of_shr_record (shr_record_of_loc m l) = l.
Proof. destruct l as [|[| |]]; reflexivity. Qed.

Lemma shr_m_record_of_loc (m : Z) (l : location) :
  shr_m (shr_record_of_loc m l) = m.
Proof. destruct l as [|[| |]]; reflexivity. Qed.

Lemma fexp64 (e : Z) : fexp prec emax e = Z.max (e - 53) (-1074).
Proof. reflexivity. Qed.

End ShiftFacts.

Section RoundFacts.

Local Open Scope Z_scope.

(** The rounding of a mantissa of at least 53 digits, or at the bottom of
    the exponent range: the mantissa is cut to 53 digits or at the exponent
    -1074, and goes to the integer below or the one above. *)
Lemma binary_round_aux_spec (sx : bool) (mx ex : Z) (lx : location) :
  0 <= mx -> (53 <= Zdigits2 mx \/ ex <= -1074) ->
  let e1 := Z.max (Zdigits2 mx + ex - 53) (-1074) in
  let f := mx / 2 ^ (e1 - ex) in
  exists m1 m2 e2,
    ex <= e1
    /\ (m1 = f \/ m1 = f + 1)
    /\ (lx = loc_Exact -> e1 = ex -> m1 = mx)
    /\ f < 2 ^ 53
    /\ (2 ^ 52 <= f \/ e1 = -1074)
    /\ ((m1 < 2 ^ 53 /\ m2 = m1 /\ e2 = e1)
        \/ (m1 = 2 ^ 53 /\ m2 = 2 ^ 52 /\ e2 = e1 + 1))
    /\ binary_round_aux prec emax sx mx ex lx = F64R.rounded sx m2 e2.
Proof.
  intros Hm H0 e1 f.
  pose proof (Zdigits2_nonneg mx) as Hd.
  assert (He1 : ex <= e1) by (unfold e1; lia).
  assert (Hk : 0 < 2 ^ (e1 - ex)) by (apply Z.pow_pos_nonneg; lia).
  assert (Hf0 : 0 <= f) by (apply Z.div_pos; lia).
  assert (Hf53 : f < 2 ^ 53).
  { apply Z.div_lt_upper_bound; [exact Hk|].
    rewrite <- Z.pow_add_r by lia.
    pose proof (Zdigits2_upper Hm) as Hup.
    assert (2 ^ Zdigits2 mx <= 2 ^ (e1 - ex + 53))
      by (apply Z.pow_le_mono_r; unfold e1; lia).
    lia. }
  assert (Hf52 : 2 ^ 52 <= f \/ e1 = -1074).
  { destruct (Z.eq_dec e1 (-1074)) as [E|E]; [now right | left].
    assert (E1 : e1 = Zdigits2 mx + ex - 53) by (unfold e1 in *; lia).
    assert (Hpos : 0 < mx).
    { destruct (Z.eq_dec mx 0) as [->|]; [|lia].
      cbn in E1, H0. unfold e1 in E. cbn in E. lia. }
    destruct (Zdigits2_bounds Hpos) as [Hlo _].
    apply Z.div_le_lower_bound; [exact Hk|].
    rewrite <- Z.pow_add_r by lia.
    replace (e1 - ex + 52) with (Zdigits2 mx - 1) by lia. exact Hlo. }
  assert (S1 : exists r1,
             shr_fexp prec emax mx ex lx = (r1, e1)
             /\ shr_m r1 = f
             /\ (e1 = ex -> r1 = shr_record_of_loc mx lx)).
  { unfold shr_fexp. rewrite fexp64. fold e1.
    destruct (Z.eq_dec e1 ex) as [E|E].
    - rewrite shr_none by lia. eexists. split; [now rewrite E|].
      split; [|reflexivity].
      rewrite shr_m_record_of_loc. unfold f. rewrite E, Z.sub_diag.
      now rewrite Z.pow_0_r, Z.div_1_r.
    - destruct (@shr_some (shr_record_of_loc mx lx) ex (e1 - ex))
        as [r' [Hr' Hm']]; [lia | now rewrite shr_m_record_of_loc |].
      exists r'. split; [rewrite Hr'; f_equal; lia|].
      split; [now rewrite Hm', shr_m_record_of_loc | lia]. }
  destruct S1 as [r1 [E1 [Hr1 Hsame]]].
  set (m1 := round_nearest_even (shr_m r1) (loc_of_shr_record r1)).
  assert (Hm1 : m1 = f \/ m1 = f + 1).
  { unfold m1. rewrite <- Hr1. apply round_nearest_even_near. }
  assert (Hex : lx = loc_Exact -> e1 = ex -> m1 = mx).
  { intros -> E. unfold m1. rewrite (Hsame E). reflexivity. }
  assert (Hm1' : m1 < 2 ^ 53 \/ m1 = 2 ^ 53) by lia.
  assert (S2 : exists m2 e2 r2,
             shr_fexp prec emax m1 e1 loc_Exact = (r2, e2)
             /\ shr_m r2 = m2
             /\ ((m1 < 2 ^ 53 /\ m2 = m1 /\ e2 = e1)
                 \/ (m1 = 2 ^ 53 /\ m2 = 2 ^ 52 /\ e2 = e1 + 1))).
  { unfold shr_fexp. rewrite fexp64.
    destruct Hm1' as [Hlt|Heq].
    - assert (Hd1 : Zdigits2 m1 <= 53) by (apply Zdigits2_le; lia).
      rewrite shr_none by (unfold e1 in *; lia).
      exists m1, e1. eexists. split; [reflexivity|].
      split; [reflexivity|]. left. auto.
    - assert (Hd1 : Zdigits2 m1 = 54).
      { apply Zdigits2_unique; rewrite Heq; [|lia].
        split; [apply Z.pow_le_mono_r; lia | apply Z.pow_lt_mono_r; lia]. }
      rewrite Hd1.
      replace (Z.max (54 + e1 - 53) (-1074) - e1) with 1
        by (unfold e1; lia).
      destruct (@shr_some (shr_record_of_loc m1 loc_Exact) e1 1)
        as [r' [Hr' Hm']]; [lia | cbn [shr_record_of_loc shr_m]; lia |].
      exists (2 ^ 52), (e1 + 1), r'. split; [exact Hr'|].
      split.
      + rewrite Hm'. cbn [shr_record_of_loc shr_m]. rewrite Heq.
        reflexivity.
      + right. auto. }
  destruct S2 as [m2 [e2 [r2 [E2 [Hr2 Hcase]]]]].
  exists m1, m2, e2.
  repeat (split; [assumption|]).
  unfold binary_round_aux. rewrite E1. fold m1. rewrite E2, Hr2.
  reflexivity.
Qed.

End RoundFacts.

Section PowerFacts.

Import F64R.

Local Open Scope R_scope.

Lemma bpow_pos (e : Z) : 0 < bpow e.
Proof. apply powerRZ_lt. lra. Qed.

Lemma bpow_add (a b : Z) : bpow (a + b) = bpow a * bpow b.
Proof. apply powerRZ_add. lra. Qed.

Lemma bpow_0 : bpow 0 = 1.
Proof. reflexivity. Qed.

Lemma bpow_1 : bpow 1 = 2.
Proof. unfold bpow. apply powerRZ_1. Qed.

Lemma bpow_opp (a : Z) : bpow (- a) = / bpow a.
Proof.
  apply Rmult_eq_reg_l with (bpow a); [|pose proof (bpow_pos a); lra].
  rewrite <- bpow_add, Z.add_opp_diag_r, bpow_0.
  field. pose proof (bpow_pos a). lra.
Qed.

Lemma IZR_pow2 (n : Z) : (0 <= n)%Z -> IZR (2 ^ n) = bpow n.
Proof.
  intros H. unfold bpow.
  rewrite <- (Z2Nat.id n) at 2 by exact H.
  rewrite <- pow_powerRZ, pow_IZR. now rewrite Z2Nat.id.
Qed.

Lemma bpow_le (a b : Z) : (a <= b)%Z -> bpow a <= bpow b.
Proof.
  intros H. replace b with (a + (b - a))%Z by lia.
  rewrite bpow_add, <- (@IZR_pow2 (b - a)) by lia.
  assert (1 <= IZR (2 ^ (b - a))).
  { apply IZR_le. assert (0 < 2 ^ (b - a))%Z
      by (apply Z.pow_pos_nonneg; lia). lia. }
  pose proof (bpow_pos a). nra.
Qed.

Lemma bpow_lt (a b : Z) : (a < b)%Z -> bpow a < bpow b.
Proof.
  intros H. replace b with (a + (b - a))%Z by lia.
  rewrite bpow_add.
  assert (2 <= bpow (b - a)).
  { rewrite <- bpow_1. apply bpow_le. lia. }
  pose proof (bpow_pos a). nra.
Qed.

End PowerFacts.

Section RoundReal.

Import F64R.

Local Open Scope R_scope.

Lemma Rabs_bound (x b : R) : - b <= x <= b -> Rabs x <= b.
Proof. intros H. apply Rabs_le. exact H. Qed.

Lemma Rabs_within (x b : R) : Rabs x <= b -> - b <= x <= b.
Proof.
  intros H. unfold Rabs in H. destruct (Rcase_abs x); lra.
Qed.

(** The rounding of binary64 on a quantity [t * 2^ex] of which [mx] is the
    integer part of [t]: the result is finite, of the sign asked for, and
    at a relative distance of at most 2^-52, or an absolute distance of at
    most 2^-1074 when the quantity is below the normal numbers. *)
Lemma binary_round_aux_real (sx : bool) (mx ex : Z) (lx : location) (t : R) :
  (0 <= mx)%Z -> (53 <= Zdigits2 mx \/ ex <= -1074)%Z ->
  IZR mx <= t < IZR mx + 1 ->
  (lx = loc_Exact -> t = IZR mx) ->
  t * bpow ex <= bpow 1023 ->
  exists V,
    SFfinite (binary_round_aux prec emax sx mx ex lx) = true
    /\ (SFsign (binary_round_aux prec emax sx mx ex lx) = Some sx)
    /\ SFvalue (binary_round_aux prec emax sx mx ex lx) = sign sx * V
    /\ 0 <= V
    /\ Rabs (V - t * bpow ex) <= bpow (-52) * (t * bpow ex) + bpow (-1074)
    /\ (bpow (-1022) <= t * bpow ex ->
        Rabs (V - t * bpow ex) <= bpow (-52) * (t * bpow ex))
    /\ (lx = loc_Exact -> (-1074 <= ex)%Z ->
        Rabs (V - t * bpow ex) <= bpow (-52) * (t * bpow ex)).
Proof.
  intros Hm H0 Ht Hexact Hmax.
  destruct (@binary_round_aux_spec sx mx ex lx Hm H0)
    as [m1 [m2 [e2 [He1 [Hm1 [Hex [Hf53 [Hf52 [Hcase Hy]]]]]]]]].
  set (e1 := Z.max (Zdigits2 mx + ex - 53) (-1074)) in *.
  set (k := (2 ^ (e1 - ex))%Z) in *.
  set (f := (mx / k)%Z) in *.
  assert (Hk : (0 < k)%Z) by (apply Z.pow_pos_nonneg; lia).
  assert (Hf0 : (0 <= f)%Z) by (apply Z.div_pos; lia).
  assert (Hdiv : (f * k <= mx /\ mx + 1 <= (f + 1) * k)%Z).
  { pose proof (Z.div_mod mx k ltac:(lia)) as E.
    pose proof (Z.mod_pos_bound mx k Hk) as B. fold f in E. nia. }
  set (K := bpow (e1 - ex)).
  assert (HK : IZR k = K) by (apply IZR_pow2; lia).
  assert (HKpos : 0 < K) by apply bpow_pos.
  pose proof (bpow_pos ex) as Hbex.
  assert (He1ex : bpow e1 = K * bpow ex).
  { unfold K. rewrite <- bpow_add. f_equal. lia. }
  assert (Hlo : IZR f * K <= t).
  { rewrite <- HK, <- mult_IZR. destruct Ht as [Ht _].
    apply Rle_trans with (IZR mx); [apply IZR_le; lia | exact Ht]. }
  assert (Hhi : t <= (IZR f + 1) * K).
  { rewrite <- HK. replace (IZR f + 1) with (IZR (f + 1))
      by (rewrite plus_IZR; reflexivity).
    rewrite <- mult_IZR. destruct Ht as [_ Ht].
    apply Rle_trans with (IZR (mx + 1)).
    - rewrite plus_IZR. lra.
    - apply IZR_le. lia. }
  assert (Ht0 : 0 <= t).
  { destruct Ht as [Ht _]. apply Rle_trans with (IZR mx); [|exact Ht].
    apply IZR_le. exact Hm. }
  set (V := IZR m1 * bpow e1).
  assert (Hm1R : IZR m1 = IZR f \/ IZR m1 = IZR f + 1).
  { destruct Hm1 as [->| ->]; [now left | right].
    rewrite plus_IZR. reflexivity. }
  assert (HV0 : 0 <= V).
  { unfold V. assert (0 <= IZR m1).
    { apply IZR_le. lia. }
    pose proof (bpow_pos e1). nra. }
  assert (HV2 : IZR m2 * bpow e2 = V).
  { unfold V. destruct Hcase as [[_ [-> ->]]|[-> [-> ->]]]; [reflexivity|].
    rewrite bpow_add, bpow_1, !IZR_pow2 by lia.
    replace 53%Z with (52 + 1)%Z by reflexivity.
    rewrite bpow_add, bpow_1. ring. }
  assert (Herr : Rabs (V - t * bpow ex) <= K * bpow ex).
  { unfold V. rewrite He1ex. apply Rabs_bound.
    destruct Hm1R as [-> | ->]; split; nra. }
  assert (HA : (2 ^ 52 <= f)%Z ->
               Rabs (V - t * bpow ex) <= bpow (-52) * (t * bpow ex)).
  { intros H52. apply Rle_trans with (K * bpow ex); [exact Herr|].
    assert (H52R : bpow 52 <= IZR f).
    { rewrite <- IZR_pow2 by lia. now apply IZR_le. }
    assert (Hinv : bpow (-52) * bpow 52 = 1).
    { rewrite <- bpow_add. reflexivity. }
    pose proof (bpow_pos (-52)) as Hp1. pose proof (bpow_pos 52) as Hp2.
    assert (HKt : K <= bpow (-52) * t).
    { assert (bpow 52 * K <= t) by nra.
      replace K with (bpow (-52) * (bpow 52 * K))
        by (rewrite <- Rmult_assoc, Hinv; ring).
      apply Rmult_le_compat_l; lra. }
    nra. }
  assert (HB : e1 = (-1074)%Z ->
               Rabs (V - t * bpow ex) <= bpow (-1074)).
  { intros E. rewrite <- E, He1ex. exact Herr. }
  assert (HT0 : 0 <= t * bpow ex) by nra.
  pose proof (bpow_pos (-52)) as Hp52.
  pose proof (bpow_pos (-1074)) as Hp1074.
  assert (HT52 : 0 <= bpow (-52) * (t * bpow ex))
    by (apply Rmult_le_pos; lra).
  assert (Hfin : m2 = 0%Z \/ exists p, m2 = Zpos p /\ (e2 <= 971)%Z).
  { assert (Hm2 : (0 <= m2)%Z).
    { destruct Hcase as [[_ [-> _]]|[_ [-> _]]]; lia. }
    destruct m2 as [|p|p]; [now left | right | lia].
    exists p. split; [reflexivity|].
    destruct (Z_le_gt_dec e2 971) as [Hle|Hgt]; [exact Hle | exfalso].
    assert (H52 : (2 ^ 52 <= f)%Z).
    { destruct Hf52 as [H|H]; [exact H|].
      destruct Hcase as [[_ [_ E]]|[_ [_ E]]]; lia. }
    assert (Hm2' : (2 ^ 52 <= Zpos p)%Z).
    { destruct Hcase as [[_ [E _]]|[_ [E _]]]; lia. }
    specialize (HA H52). apply Rabs_within in HA.
    assert (Hbig : bpow 1024 <= V).
    { rewrite <- HV2.
      replace 1024%Z with (52 + 972)%Z by reflexivity.
      rewrite bpow_add.
      assert (bpow 52 <= IZR (Zpos p)).
      { rewrite <- IZR_pow2 by lia. now apply IZR_le. }
      assert (bpow 972 <= bpow e2) by (apply bpow_le; lia).
      pose proof (bpow_pos 52). pose proof (bpow_pos 972).
      apply Rmult_le_compat; lra. }
    assert (Hsmall : bpow (-52) < 1).
    { rewrite <- bpow_0. apply bpow_lt. lia. }
    assert (H1024 : bpow 1024 = 2 * bpow 1023).
    { replace 1024%Z with (1 + 1023)%Z by reflexivity.
      now rewrite bpow_add, bpow_1. }
    pose proof (bpow_pos 1023). nra. }
  exists V. rewrite Hy.
  assert (Hval : SFvalue (rounded sx m2 e2) = sign sx * V
                 /\ SFfinite (rounded sx m2 e2) = true
                 /\ SFsign (rounded sx m2 e2) = Some sx).
  { destruct Hfin as [->|[p [-> Hle]]].
    - cbn. rewrite <- HV2. split; [ring | split; reflexivity].
    - unfold rounded. apply Z.leb_le in Hle. rewrite Hle.
      cbn [SFvalue SFfinite SFsign]. rewrite <- HV2.
      split; [reflexivity | split; reflexivity]. }
  destruct Hval as [Hv [Hfi Hsg]].
  split; [exact Hfi|]. split; [exact Hsg|]. split; [exact Hv|].
  split; [exact HV0|]. split; [|split].
  - destruct Hf52 as [H|H]; [specialize (HA H) | specialize (HB H)]; lra.
  - intros Hnormal.
    destruct Hf52 as [H|H]; [exact (HA H)|]. apply HA.
    (* at the bottom of the range a normal quantity has 53 digits *)
    assert (Hb : bpow (-1022) = bpow 52 * (K * bpow ex)).
    { rewrite <- He1ex, H, <- bpow_add. reflexivity. }
    assert (Ht52 : bpow 52 * K <= t).
    { rewrite Hb in Hnormal.
      apply Rmult_le_reg_r with (bpow ex); [exact Hbex|]. nra. }
    assert (Hz : (2 ^ 52 * k < mx + 1)%Z).
    { apply lt_IZR. rewrite mult_IZR, plus_IZR, HK, IZR_pow2 by lia.
      destruct Ht as [_ Ht]. lra. }
    apply Z.div_le_lower_bound; [exact Hk|]. lia.
  - intros Hl Hge.
    destruct Hf52 as [H|H]; [exact (HA H)|].
    assert (E : e1 = ex) by lia.
    assert (Em : m1 = mx) by (now apply Hex).
    assert (EV : V = t * bpow ex).
    { unfold V. rewrite Em, E, (Hexact Hl). reflexivity. }
    rewrite EV. replace (t * bpow ex - t * bpow ex) with 0 by ring.
    rewrite Rabs_R0. nra.
Qed.

End RoundReal.

Section ValidFacts.

Import F64R.

Local Open Scope Z_scope.

(** A finite binary64 number has a mantissa of at most 53 digits, of 53
    digits above the exponent -1074, and an exponent from -1074 to 971. *)
Lemma valid_finite (s : bool) (m : positive) (e : Z) :
  valid_binary (S754_finite s m e) = true ->
  -1074 <= e <= 971
  /\ Zpos m < 2 ^ 53
  /\ (-1074 < e -> 2 ^ 52 <= Zpos m).
Proof.
  unfold SpecFloat.valid_binary, SpecFloat.bounded, SpecFloat.canonical_mantissa.
  rewrite fexp64. intros H. apply andb_true_iff in H.
  destruct H as [Hc He]. apply Z.eqb_eq in Hc. apply Z.leb_le in He.
  change (emax - prec) with 971 in He.
  pose proof (digits2_pos_bounds m) as [Hlo Hhi].
  set (d := Zpos (digits2_pos m)) in *.
  split; [lia|]. split.
  - assert (2 ^ d <= 2 ^ 53) by (apply Z.pow_le_mono_r; lia). lia.
  - intros Hgt. assert (E : d = 53) by lia. rewrite E in Hlo. exact Hlo.
Qed.

End ValidFacts.

Section ValueFacts.

Import F64R.

Local Open Scope R_scope.

Lemma sign_xorb (a b : bool) : sign (xorb a b) = sign a * sign b.
Proof. destruct a, b; cbn; lra. Qed.

Lemma sign_abs (s : bool) (x : R) : 0 <= x -> Rabs (sign s * x) = x.
Proof.
  intros H. destruct s; cbn.
  - replace (-1 * x) with (- x) by ring. rewrite Rabs_Ropp.
    now apply Rabs_pos_eq.
  - rewrite Rmult_1_l. now apply Rabs_pos_eq.
Qed.

Lemma sign_diff (s : bool) (x y : R) :
  Rabs (sign s * x - sign s * y) = Rabs (x - y).
Proof.
  destruct s; cbn.
  - replace (-1 * x - -1 * y) with (- (x - y)) by ring. apply Rabs_Ropp.
  - f_equal. ring.
Qed.

(** The magnitude of a finite number that is not zero. *)
Lemma finite_magnitude (s : bool) (m : positive) (e : Z) :
  valid_binary (S754_finite s m e) = true ->
  bpow (-1074) <= IZR (Zpos m) * bpow e < bpow 1024.
Proof.
  intros H. apply valid_finite in H. destruct H as [He [Hm _]].
  assert (H1 : 1 <= IZR (Zpos m)) by (apply IZR_le; lia).
  assert (H2 : IZR (Zpos m) < bpow 53).
  { rewrite <- IZR_pow2 by lia. now apply IZR_lt. }
  assert (H3 : bpow (-1074) <= bpow e) by (apply bpow_le; lia).
  assert (H4 : bpow e <= bpow 971) by (apply bpow_le; lia).
  pose proof (bpow_pos e). pose proof (bpow_pos (-1074)).
  split; [nra|].
  replace 1024%Z with (53 + 971)%Z by reflexivity. rewrite bpow_add.
  pose proof (bpow_pos 971). nra.
Qed.

End ValueFacts.

Section ProductFacts.

Import F64R.

Local Open Scope R_scope.

(** The binary64 product of two finite numbers, when the exact product is
    zero or in the range of the normal numbers. *)
Lemma SFmul_real (x y : spec_float) :
  valid_binary x = true -> valid_binary y = true ->
  SFfinite x = true -> SFfinite y = true ->
  Rabs (SFvalue x * SFvalue y) <= bpow 1023 ->
  (SFvalue x * SFvalue y = 0
   \/ bpow (-1022) <= Rabs (SFvalue x * SFvalue y)) ->
  SFfinite (SF64mul x y) = true
  /\ Rabs (SFvalue (SF64mul x y) - SFvalue x * SFvalue y)
     <= bpow (-52) * Rabs (SFvalue x * SFvalue y).
Proof.
  intros Vx Vy Fx Fy Hmax Hmin.
  assert (Hzero : forall v : R, v = 0 ->
            Rabs (0 - v) <= bpow (-52) * Rabs v).
  { intros v ->. rewrite Rminus_0_r, Rabs_R0. lra. }
  destruct x as [sx|sx| |sx mx ex]; try discriminate;
    destruct y as [sy|sy| |sy my ey]; try discriminate;
    unfold SF64mul; cbn [SFmul SFvalue SFfinite];
    try (split; [reflexivity | apply Hzero; ring]).
  cbn [SFvalue] in Hmax, Hmin.
  pose proof (@valid_finite _ _ _ Vx) as [Hex [Hmx Hnx]].
  pose proof (@valid_finite _ _ _ Vy) as [Hey [Hmy Hny]].
  pose proof (@finite_magnitude _ _ _ Vx) as [Hx1 _].
  pose proof (@finite_magnitude _ _ _ Vy) as [Hy1 _].
  set (t := IZR (Zpos (mx * my))).
  assert (Ht : t = IZR (Zpos mx) * IZR (Zpos my)).
  { unfold t. rewrite Pos2Z.inj_mul, mult_IZR. reflexivity. }
  assert (HT : sign sx * (IZR (Zpos mx) * bpow ex)
               * (sign sy * (IZR (Zpos my) * bpow ey))
               = sign (xorb sx sy) * (t * bpow (ex + ey))).
  { rewrite sign_xorb, Ht, bpow_add. ring. }
  rewrite HT in *.
  assert (HT0 : 0 <= t * bpow (ex + ey)).
  { rewrite Ht, bpow_add. pose proof (bpow_pos (-1074)). nra. }
  rewrite sign_abs in Hmax, Hmin |- * by exact HT0.
  assert (H0 : (53 <= Zdigits2 (Zpos (mx * my)) \/ ex + ey <= -1074)%Z).
  { destruct (Z_le_gt_dec ex (-1074)) as [Hxs|Hxn].
    - destruct (Z_le_gt_dec ey (-1074)) as [Hys|Hyn]; [right; lia | left].
      apply Zdigits2_ge; [lia | lia |]. rewrite Pos2Z.inj_mul.
      specialize (Hny ltac:(lia)). change (2 ^ (53 - 1))%Z with (2 ^ 52)%Z.
      nia.
    - left. apply Zdigits2_ge; [lia | lia |]. rewrite Pos2Z.inj_mul.
      specialize (Hnx ltac:(lia)). change (2 ^ (53 - 1))%Z with (2 ^ 52)%Z.
      nia. }
  destruct (@binary_round_aux_real (xorb sx sy) (Zpos (mx * my)) (ex + ey)
              loc_Exact t)
    as [V [Hfin [_ [Hval [HV0 [_ [Hrel _]]]]]]];
    [lia | exact H0 | fold t; lra | reflexivity | exact Hmax |].
  split; [exact Hfin|].
  rewrite Hval, sign_diff. apply Hrel.
  destruct Hmin as [Hz|Hn]; [|exact Hn].
  exfalso. assert (0 < t * bpow (ex + ey)).
  { rewrite Ht, bpow_add. pose proof (bpow_pos (-1074)). nra. }
  destruct (xorb sx sy); cbn in Hz; lra.
Qed.

End ProductFacts.

Section SumFacts.

Import F64R.

Lemma shl_align_spec (mx : positive) (ex ex' : Z) :
  (Zpos (fst (shl_align mx ex ex'))
   = Zpos mx * 2 ^ (ex - snd (shl_align mx ex ex'))
   /\ snd (shl_align mx ex ex') = Z.min ex ex')%Z.
Proof.
  unfold shl_align. destruct (ex' - ex)%Z as [|d|d] eqn:E; cbn [fst snd].
  - rewrite Z.sub_diag. split; lia.
  - rewrite Z.sub_diag. split; lia.
  - split; [|lia].
    change (Pos.iter xO mx d) with (shift_pos d mx).
    rewrite shift_pos_correct.
    replace (ex - ex')%Z with (Zpos d) by lia.
    rewrite Z.mul_comm. reflexivity.
Qed.

Local Open Scope R_scope.

(** The rounding of an integer multiple of a power of two that is at
    least 2^-1074. *)
Lemma binary_round_real (sx : bool) (m : positive) (e : Z) :
  (-1074 <= e)%Z -> IZR (Zpos m) * bpow e <= bpow 1023 ->
  exists V,
    SFfinite (binary_round prec emax sx m e) = true
    /\ SFsign (binary_round prec emax sx m e) = Some sx
    /\ SFvalue (binary_round prec emax sx m e) = sign sx * V
    /\ 0 < V
    /\ Rabs (V - IZR (Zpos m) * bpow e)
       <= bpow (-52) * (IZR (Zpos m) * bpow e).
Proof.
  intros He Hmax. unfold binary_round. rewrite fexp64.
  set (e' := Z.max (Zpos (digits2_pos m) + e - 53) (-1074)).
  pose proof (shl_align_spec m e e') as [Hmz Hez].
  destruct (shl_align m e e') as [mz ez]. cbn [fst snd] in Hmz, Hez.
  pose proof (digits2_pos_bounds m) as [Hlo _].
  assert (Hsame : IZR (Zpos mz) * bpow ez = IZR (Zpos m) * bpow e).
  { rewrite Hmz, mult_IZR, IZR_pow2 by lia.
    rewrite Rmult_assoc, <- bpow_add. do 2 f_equal. lia. }
  assert (H0 : (53 <= Zdigits2 (Zpos mz) \/ ez <= -1074)%Z).
  { destruct (Z_le_gt_dec ez (-1074)) as [H|H]; [now right | left].
    apply Zdigits2_ge; [lia | lia |]. rewrite Hmz.
    change (2 ^ (53 - 1))%Z with (2 ^ 52)%Z.
    assert (Hd : (52 <= Zpos (digits2_pos m) - 1 + (e - ez))%Z)
      by (unfold e' in *; lia).
    assert (H1 : (2 ^ 52 <= 2 ^ (Zpos (digits2_pos m) - 1 + (e - ez)))%Z)
      by (apply Z.pow_le_mono_r; lia).
    rewrite Z.pow_add_r in H1 by lia.
    assert (0 < 2 ^ (e - ez))%Z by (apply Z.pow_pos_nonneg; lia).
    nia. }
  destruct (@binary_round_aux_real sx (Zpos mz) ez loc_Exact
              (IZR (Zpos mz)))
    as [V [Hfin [Hsg [Hval [HV0 [_ [_ Hrel]]]]]]];
    [lia | exact H0 | lra | reflexivity | rewrite Hsame; exact Hmax |].
  specialize (Hrel eq_refl ltac:(unfold e' in *; lia)).
  rewrite Hsame in Hrel.
  exists V. split; [exact Hfin|]. split; [exact Hsg|].
  split; [exact Hval|]. split; [|exact Hrel].
  apply Rabs_within in Hrel.
  assert (0 < IZR (Zpos m) * bpow e).
  { assert (1 <= IZR (Zpos m)) by (apply IZR_le; lia).
    pose proof (bpow_pos e). nra. }
  assert (bpow (-52) < 1) by (rewrite <- bpow_0; apply bpow_lt; lia).
  nra.
Qed.

(** The rounding of an integer multiple of a power of two, of either
    sign. *)
Lemma binary_normalize_real (M e : Z) :
  (-1074 <= e)%Z -> Rabs (IZR M * bpow e) <= bpow 1023 ->
  SFfinite (binary_normalize prec emax M e false) = true
  /\ Rabs (SFvalue (binary_normalize prec emax M e false) - IZR M * bpow e)
     <= bpow (-52) * Rabs (IZR M * bpow e)
  /\ ((0 < M)%Z -> 0 < SFvalue (binary_normalize prec emax M e false))
  /\ ((M < 0)%Z -> SFvalue (binary_normalize prec emax M e false) < 0)
  /\ (M = 0%Z -> binary_normalize prec emax M e false = S754_zero false).
Proof.
  intros He Hmax. pose proof (bpow_pos e) as Hbe.
  destruct M as [|p|p]; cbn [binary_normalize].
  - split; [reflexivity|]. split.
    + cbn [SFvalue]. rewrite Rmult_0_l, Rminus_0_r, Rabs_R0. lra.
    + split; [lia|]. split; [lia | reflexivity].
  - assert (Hpos : 0 <= IZR (Zpos p) * bpow e).
    { assert (1 <= IZR (Zpos p)) by (apply IZR_le; lia). nra. }
    rewrite (Rabs_pos_eq _ Hpos) in Hmax |- *.
    destruct (@binary_round_real false p e He Hmax)
      as [V [Hfin [_ [Hval [HV0 Hrel]]]]].
    rewrite Hval. cbn [sign]. rewrite Rmult_1_l.
    split; [exact Hfin|]. split; [exact Hrel|].
    split; [intros _; exact HV0|]. split; [lia | discriminate].
  - assert (Hpos : 0 <= IZR (Zpos p) * bpow e).
    { assert (1 <= IZR (Zpos p)) by (apply IZR_le; lia). nra. }
    assert (Eneg : IZR (Zneg p) * bpow e = - (IZR (Zpos p) * bpow e)).
    { change (Zneg p) with (- Zpos p)%Z. rewrite opp_IZR. ring. }
    rewrite Eneg, Rabs_Ropp, Rabs_pos_eq in Hmax by exact Hpos.
    rewrite Eneg, Rabs_Ropp, (Rabs_pos_eq _ Hpos).
    destruct (@binary_round_real true p e He Hmax)
      as [V [Hfin [_ [Hval [HV0 Hrel]]]]].
    rewrite Hval. cbn [sign].
    split; [exact Hfin|]. split.
    + replace (-1 * V - - (IZR (Zpos p) * bpow e))
        with (- (V - IZR (Zpos p) * bpow e)) by ring.
      rewrite Rabs_Ropp. exact Hrel.
    + split; [lia|]. split; [intros _; lra | discriminate].
Qed.

Lemma cond_Zopp_real (s : bool) (m : Z) :
  IZR (cond_Zopp s m) = sign s * IZR m.
Proof.
  destruct s; cbn [cond_Zopp sign]; [rewrite opp_IZR|]; ring.
Qed.

(** The aligned mantissas of a sum or a difference. *)
Lemma aligned_value (s : bool) (m : positive) (e ez : Z) :
  (ez <= e)%Z ->
  IZR (cond_Zopp s (Zpos (fst (shl_align m e ez)))) * bpow ez
  = sign s * (IZR (Zpos m) * bpow e).
Proof.
  intros H. pose proof (shl_align_spec m e ez) as [Hm Hs].
  rewrite Z.min_r in Hs by exact H. rewrite Hs in Hm.
  rewrite cond_Zopp_real, Hm, mult_IZR, IZR_pow2 by lia.
  rewrite !Rmult_assoc, <- bpow_add. do 3 f_equal. lia.
Qed.

(** The binary64 sum of two finite numbers. *)
Lemma SFadd_real (x y : spec_float) :
  valid_binary x = true -> valid_binary y = true ->
  SFfinite x = true -> SFfinite y = true ->
  Rabs (SFvalue x + SFvalue y) <= bpow 1023 ->
  SFfinite (SF64add x y) = true
  /\ Rabs (SFvalue (SF64add x y) - (SFvalue x + SFvalue y))
     <= bpow (-52) * Rabs (SFvalue x + SFvalue y).
Proof.
  intros Vx Vy Fx Fy Hmax.
  pose proof (bpow_pos (-52)) as Hp.
  assert (Hexact : forall v w : R, v = w ->
            Rabs (v - w) <= bpow (-52) * Rabs w).
  { intros v w ->. replace (w - w) with 0 by ring. rewrite Rabs_R0.
    pose proof (Rabs_pos w). nra. }
  destruct x as [sx|sx| |sx mx ex]; try discriminate;
    destruct y as [sy|sy| |sy my ey]; try discriminate;
    unfold SF64add; cbn [SFadd].
  - destruct sx, sy; cbn [SFvalue SFfinite];
      (split; [reflexivity | apply Hexact; ring]).
  - split; [reflexivity|]. apply Hexact. cbn [SFvalue]. ring.
  - split; [reflexivity|]. apply Hexact. cbn [SFvalue]. ring.
  - pose proof (@valid_finite _ _ _ Vx) as [Hex _].
    pose proof (@valid_finite _ _ _ Vy) as [Hey _].
    set (ez := Z.min ex ey).
    set (M := (cond_Zopp sx (Zpos (fst (shl_align mx ex ez)))
               + cond_Zopp sy (Zpos (fst (shl_align my ey ez))))%Z).
    assert (HM : IZR M * bpow ez
                 = SFvalue (S754_finite sx mx ex)
                   + SFvalue (S754_finite sy my ey)).
    { unfold M. rewrite plus_IZR, Rmult_plus_distr_r.
      rewrite !aligned_value by (unfold ez; lia). reflexivity. }
    rewrite <- HM in *.
    destruct (@binary_normalize_real M ez) as [Hfin [Hrel _]];
      [unfold ez; lia | exact Hmax |].
    split; [exact Hfin | exact Hrel].
Qed.

End SumFacts.

Section QuotientFacts.

Import F64R.

Lemma new_location_exact (n r : Z) :
  new_location n r = loc_Exact -> r = 0%Z.
Proof.
  unfold new_location, new_location_even, new_location_odd.
  destruct (Z.even n); destruct (Z.eqb r 0) eqn:E;
    try discriminate; intros _; now apply Z.eqb_eq.
Qed.

Local Open Scope R_scope.

(** The binary64 quotient of two finite numbers. *)
Lemma SFdiv_real (x y : spec_float) :
  valid_binary x = true -> valid_binary y = true ->
  SFfinite x = true -> SFfinite y = true ->
  SFvalue y <> 0 ->
  Rabs (SFvalue x / SFvalue y) <= bpow 1023 ->
  SFfinite (SF64div x y) = true
  /\ Rabs (SFvalue (SF64div x y) - SFvalue x / SFvalue y)
     <= bpow (-52) * Rabs (SFvalue x / SFvalue y) + bpow (-1074)
  /\ (bpow (-1022) <= Rabs (SFvalue x / SFvalue y) ->
      Rabs (SFvalue (SF64div x y) - SFvalue x / SFvalue y)
      <= bpow (-52) * Rabs (SFvalue x / SFvalue y)).
Proof.
  intros Vx Vy Fx Fy Hy Hmax.
  pose proof (bpow_pos (-52)) as Hp52.
  pose proof (bpow_pos (-1074)) as Hp1074.
  pose proof (bpow_pos (-1022)) as Hp1022.
  destruct y as [sy|sy| |sy my ey]; try discriminate;
    [cbn [SFvalue] in Hy; lra|].
  destruct x as [sx|sx| |sx mx ex]; try discriminate;
    unfold SF64div; cbn [SFdiv].
  - cbn [SFvalue SFfinite]. split; [reflexivity|].
    replace (0 / _) with 0 by (unfold Rdiv; ring).
    rewrite Rminus_0_r, Rabs_R0. split; [lra | intros; lra].
  - pose proof (@valid_finite _ _ _ Vx) as [Hex [Hmx _]].
    pose proof (@valid_finite _ _ _ Vy) as [Hey [Hmy _]].
    unfold SFdiv_core_binary. rewrite fexp64.
    set (d1 := Zdigits2 (Zpos mx)). set (d2 := Zdigits2 (Zpos my)).
    set (e' := Z.min (Z.max (d1 + ex - (d2 + ey) - 53) (-1074)) (ex - ey)).
    set (s := (ex - ey - e')%Z).
    assert (Hs : (0 <= s)%Z) by (unfold s, e'; lia).
    set (m' := match s with
               | Zpos _ => Z.shiftl (Zpos mx) s
               | Z0 => Zpos mx
               | Zneg _ => 0%Z
               end).
    assert (Hm' : m' = (Zpos mx * 2 ^ s)%Z).
    { unfold m'. destruct s as [|p|p]; [lia | | lia].
      now rewrite Z.shiftl_mul_pow2 by lia. }
    assert (Hqr : Z.div_eucl m' (Zpos my)
                  = ((m' / Zpos my)%Z, (m' mod Zpos my)%Z)).
    { unfold Z.div, Z.modulo. now destruct (Z.div_eucl m' (Zpos my)). }
    rewrite Hqr.
    set (q := (m' / Zpos my)%Z). set (r := (m' mod Zpos my)%Z).
    assert (Hdm : (m' = Zpos my * q + r /\ 0 <= r < Zpos my)%Z).
    { split; [apply Z.div_mod; lia | apply Z.mod_pos_bound; lia]. }
    destruct Hdm as [Hdm Hr].
    assert (Hpow : (0 < 2 ^ s)%Z) by (apply Z.pow_pos_nonneg; lia).
    assert (Hq0 : (0 <= q)%Z) by (apply Z.div_pos; lia).
    set (t := IZR m' / IZR (Zpos my)).
    assert (Hmy0 : 0 < IZR (Zpos my)) by (apply IZR_lt; lia).
    assert (Ht : t = IZR q + IZR r / IZR (Zpos my)).
    { unfold t. rewrite Hdm, plus_IZR, mult_IZR. field. lra. }
    assert (Hfrac : 0 <= IZR r / IZR (Zpos my) < 1).
    { assert (0 <= IZR r) by (apply IZR_le; lia).
      assert (IZR r < IZR (Zpos my)) by (apply IZR_lt; lia).
      split.
      - apply Rmult_le_pos; [lra|].
        apply Rlt_le, Rinv_0_lt_compat. lra.
      - apply Rmult_lt_reg_r with (IZR (Zpos my)); [lra|].
        unfold Rdiv. rewrite Rmult_assoc, Rinv_l by lra. lra. }
    assert (HT : t * bpow e'
                 = IZR (Zpos mx) * bpow ex / (IZR (Zpos my) * bpow ey)).
    { assert (Eb : bpow ex = bpow s * bpow e' * bpow ey).
      { rewrite <- !bpow_add. f_equal. unfold s. lia. }
      unfold t. rewrite Hm', mult_IZR, IZR_pow2, Eb by lia.
      field. pose proof (bpow_pos ey). lra. }
    assert (HTpos : 0 <= t * bpow e').
    { pose proof (bpow_pos e'). rewrite Ht.
      assert (0 <= IZR q) by (apply IZR_le; lia).
      apply Rmult_le_pos; lra. }
    assert (Hquot : SFvalue (S754_finite sx mx ex)
                    / SFvalue (S754_finite sy my ey)
                    = sign (xorb sx sy) * (t * bpow e')).
    { cbn [SFvalue]. rewrite HT, sign_xorb.
      pose proof (bpow_pos ey).
      destruct sx, sy; cbn [sign]; field; lra. }
    rewrite Hquot in *.
    rewrite sign_abs in Hmax |- * by exact HTpos.
    assert (H0 : (53 <= Zdigits2 q \/ e' <= -1074)%Z).
    { destruct (Z_le_gt_dec e' (-1074)) as [H|H]; [now right | left].
      apply Zdigits2_ge; [lia | exact Hq0 |].
      change (2 ^ (53 - 1))%Z with (2 ^ 52)%Z.
      apply Z.div_le_lower_bound; [lia|].
      assert (Hs' : (d2 - d1 + 53 <= s)%Z) by (unfold s, e' in *; lia).
      destruct (@Zdigits2_bounds (Zpos mx) ltac:(lia)) as [Hlo1 _].
      destruct (@Zdigits2_bounds (Zpos my) ltac:(lia)) as [_ Hhi2].
      fold d1 in Hlo1. fold d2 in Hhi2.
      pose proof (Zdigits2_nonneg (Zpos mx)) as Hd1.
      pose proof (Zdigits2_nonneg (Zpos my)) as Hd2.
      fold d1 in Hd1. fold d2 in Hd2.
      assert (Hd1'' : (d1 <= 53)%Z)
        by (unfold d1; apply Zdigits2_le; lia).
      assert (Hd1' : (1 <= d1)%Z).
      { destruct (Z_le_gt_dec 1 d1) as [H1|H1]; [exact H1|].
        assert (d1 = 0)%Z by lia. unfold d1 in *. cbn in *. lia. }
      rewrite Hm'.
      assert (H1 : (2 ^ (d1 - 1) * 2 ^ (d2 - d1 + 53) <= Zpos mx * 2 ^ s)%Z).
      { apply Z.mul_le_mono_nonneg;
          [apply Z.pow_nonneg; lia | exact Hlo1 | apply Z.pow_nonneg; lia
          | apply Z.pow_le_mono_r; lia]. }
      rewrite <- Z.pow_add_r in H1 by lia.
      replace (d1 - 1 + (d2 - d1 + 53))%Z with (52 + d2)%Z in H1 by lia.
      rewrite Z.pow_add_r in H1 by lia.
      assert (0 < 2 ^ 52)%Z by (apply Z.pow_pos_nonneg; lia).
      nia. }
    destruct (@binary_round_aux_real (xorb sx sy) q e'
                (new_location (Zpos my) r) t)
      as [V [Hfin [_ [Hval [HV0 [Hgen [Hrel _]]]]]]];
      [exact Hq0 | exact H0 | rewrite Ht; lra | | exact Hmax |].
    { intros Hl. apply new_location_exact in Hl. rewrite Ht, Hl.
      unfold Rdiv. ring. }
    split; [exact Hfin|]. rewrite Hval, sign_diff.
    split; [exact Hgen | exact Hrel].
Qed.

End QuotientFacts.

Section RootFacts.

Import F64R.

Local Open Scope R_scope.

Lemma square_le (a b : R) : 0 <= a -> 0 <= b -> a * a <= b * b -> a <= b.
Proof. intros Ha Hb H. destruct (Rle_dec a b); [assumption | nra]. Qed.

Lemma square_lt (a b : R) : 0 <= a -> 0 <= b -> a * a < b * b -> a < b.
Proof. intros Ha Hb H. destruct (Rlt_dec a b); [assumption | nra]. Qed.

(** The binary64 square root of a finite number that is not negative. *)
Lemma SFsqrt_real (x : spec_float) :
  valid_binary x = true -> SFfinite x = true ->
  (forall m e, x <> S754_finite true m e) ->
  SFfinite (SF64sqrt x) = true
  /\ Rabs (SFvalue (SF64sqrt x) - sqrt (SFvalue x))
     <= bpow (-52) * sqrt (SFvalue x).
Proof.
  intros Vx Fx Hpos.
  pose proof (bpow_pos (-52)) as Hp52.
  destruct x as [sx|sx| |sx mx ex]; try discriminate;
    unfold SF64sqrt; cbn [SFsqrt].
  - cbn [SFvalue SFfinite]. split; [reflexivity|].
    rewrite sqrt_0, Rminus_0_r, Rabs_R0. lra.
  - destruct sx; [exfalso; now apply (Hpos mx ex)|].
    pose proof (@valid_finite _ _ _ Vx) as [Hex [Hmx _]].
    pose proof (@finite_magnitude _ _ _ Vx) as [Hlow Hhigh].
    unfold SFsqrt_core_binary. rewrite fexp64.
    set (d := Zdigits2 (Zpos mx)).
    rewrite !Z.div2_div.
    set (e' := Z.min (Z.max ((d + ex + 1) / 2 - 53) (-1074)) (ex / 2)).
    set (s := (ex - 2 * e')%Z).
    assert (Hhalf : (2 * (ex / 2) <= ex)%Z)
      by (Z.div_mod_to_equations; lia).
    assert (Hs : (0 <= s)%Z) by (unfold s, e'; lia).
    set (m' := match s with
               | Zpos _ => Z.shiftl (Zpos mx) s
               | Z0 => Zpos mx
               | Zneg _ => 0%Z
               end).
    assert (Hm' : m' = (Zpos mx * 2 ^ s)%Z).
    { unfold m'. destruct s as [|p|p]; [lia | | lia].
      now rewrite Z.shiftl_mul_pow2 by lia. }
    assert (Hpow : (0 < 2 ^ s)%Z) by (apply Z.pow_pos_nonneg; lia).
    assert (Hm'0 : (0 <= m')%Z) by (rewrite Hm'; lia).
    pose proof (Z.sqrtrem_spec m' Hm'0) as Hspec.
    destruct (Z.sqrtrem m') as [q r]. destruct Hspec as [Hqr Hr].
    assert (Hq0 : (0 <= q)%Z) by nia.
    set (t := sqrt (IZR m')).
    assert (Hm'R : 0 <= IZR m') by (apply IZR_le; exact Hm'0).
    assert (Ht0 : 0 <= t) by apply sqrt_pos.
    assert (Htt : t * t = IZR m') by (apply sqrt_sqrt; exact Hm'R).
    assert (HqR : 0 <= IZR q) by (apply IZR_le; exact Hq0).
    assert (Hsq : IZR m' = IZR q * IZR q + IZR r).
    { rewrite Hqr, plus_IZR, mult_IZR. reflexivity. }
    assert (HrR : 0 <= IZR r <= 2 * IZR q).
    { split; [apply IZR_le; lia|].
      replace (2 * IZR q) with (IZR (2 * q)) by (rewrite mult_IZR; reflexivity).
      apply IZR_le. lia. }
    assert (Ht : IZR q <= t < IZR q + 1).
    { split; [apply square_le | apply square_lt]; try lra; nra. }
    assert (HT2 : (t * bpow e') * (t * bpow e')
                  = IZR (Zpos mx) * bpow ex).
    { assert (Eb : bpow ex = bpow s * (bpow e' * bpow e')).
      { rewrite <- !bpow_add. f_equal. unfold s. lia. }
      rewrite Eb. replace (t * bpow e' * (t * bpow e'))
        with (t * t * (bpow e' * bpow e')) by ring.
      rewrite Htt, Hm', mult_IZR, IZR_pow2 by lia. ring. }
    assert (HTpos : 0 <= t * bpow e').
    { pose proof (bpow_pos e'). apply Rmult_le_pos; lra. }
    assert (HT : sqrt (SFvalue (S754_finite false mx ex)) = t * bpow e').
    { cbn [SFvalue sign]. rewrite Rmult_1_l.
      apply sqrt_lem_1; [|exact HTpos | exact HT2].
      pose proof (bpow_pos (-1074)). lra. }
    rewrite HT.
    assert (H0 : (53 <= Zdigits2 q \/ e' <= -1074)%Z).
    { destruct (Z_le_gt_dec e' (-1074)) as [H|H]; [now right | left].
      apply Zdigits2_ge; [lia | exact Hq0 |].
      change (2 ^ (53 - 1))%Z with (2 ^ 52)%Z.
      destruct (@Zdigits2_bounds (Zpos mx) ltac:(lia)) as [Hlo1 _].
      fold d in Hlo1.
      assert (Hd : (1 <= d <= 53)%Z).
      { split.
        - destruct (Z_le_gt_dec 1 d) as [H1|H1]; [exact H1|].
          pose proof (Zdigits2_nonneg (Zpos mx)) as Hnn. fold d in Hnn.
          assert (Hz : (d = 0)%Z) by lia. unfold d in Hz. cbn in Hz. lia.
        - unfold d. apply Zdigits2_le; lia. }
      assert (Hs' : (105 - d <= s)%Z).
      { unfold s, e' in *.
        assert (2 * ((d + ex + 1) / 2) <= d + ex + 1)%Z
          by (Z.div_mod_to_equations; lia).
        lia. }
      assert (H1 : (2 ^ (d - 1) * 2 ^ (105 - d) <= Zpos mx * 2 ^ s)%Z).
      { apply Z.mul_le_mono_nonneg;
          [apply Z.pow_nonneg; lia | exact Hlo1 | apply Z.pow_nonneg; lia
          | apply Z.pow_le_mono_r; lia]. }
      rewrite <- Z.pow_add_r in H1 by lia.
      replace (d - 1 + (105 - d))%Z with 104%Z in H1 by lia.
      rewrite <- Hm' in H1.
      destruct (Z_le_gt_dec (2 ^ 52) q) as [Hq|Hq]; [exact Hq | exfalso].
      assert (Hsmall : ((q + 1) * (q + 1) <= 2 ^ 52 * 2 ^ 52)%Z)
        by (apply Z.mul_le_mono_nonneg; lia).
      change (2 ^ 52 * 2 ^ 52)%Z with (2 ^ 104)%Z in Hsmall. lia. }
    assert (Hmax : t * bpow e' <= bpow 1023).
    { apply square_le; [exact HTpos | pose proof (bpow_pos 1023); lra|].
      rewrite HT2, <- bpow_add.
      assert (bpow 1024 <= bpow (1023 + 1023)) by (apply bpow_le; lia).
      lra. }
    assert (Hnormal : bpow (-1022) <= t * bpow e').
    { apply square_le; [pose proof (bpow_pos (-1022)); lra | exact HTpos|].
      rewrite HT2, <- bpow_add.
      assert (bpow (-1022 + -1022) <= bpow (-1074)) by (apply bpow_le; lia).
      lra. }
    destruct (@binary_round_aux_real
                false q e'
                (if Z.eqb r 0 then loc_Exact
                 else loc_Inexact (if Z.leb r q then Lt else Gt)) t)
      as [V [Hfin [_ [Hval [HV0 [_ [Hrel _]]]]]]];
      [exact Hq0 | exact H0 | exact Ht | | exact Hmax |].
    { intros Hl. destruct (Z.eqb r 0) eqn:E; [|discriminate].
      apply Z.eqb_eq in E. unfold t. rewrite Hsq, E, Rplus_0_r.
      now apply sqrt_square. }
    split; [exact Hfin|]. rewrite Hval. cbn [sign]. rewrite Rmult_1_l.
    now apply Hrel.
Qed.

End RootFacts.

Section Binary64.

Import F64R.

Local Open Scope R_scope.

Lemma mul_real (x y : float) :
  finite x = true -> finite y = true ->
  Rabs (value x * value y) <= bpow 1023 ->
  (value x * value y = 0 \/ bpow (-1022) <= Rabs (value x * value y)) ->
  finite (x * y)%float = true
  /\ Rabs (value (x * y)%float - value x * value y)
     <= bpow (-52) * Rabs (value x * value y).
Proof.
  unfold finite, value. rewrite mul_spec.
  apply SFmul_real; apply Prim2SF_valid.
Qed.

Lemma add_real (x y : float) :
  finite x = true -> finite y = true ->
  Rabs (value x + value y) <= bpow 1023 ->
  finite (x + y)%float = true
  /\ Rabs (value (x + y)%float - (value x + value y))
     <= bpow (-52) * Rabs (value x + value y).
Proof.
  unfold finite, value. rewrite add_spec.
  apply SFadd_real; apply Prim2SF_valid.
Qed.

Lemma div_real (x y : float) :
  finite x = true -> finite y = true -> value y <> 0 ->
  Rabs (value x / value y) <= bpow 1023 ->
  finite (x / y)%float = true
  /\ Rabs (value (x / y)%float - value x / value y)
     <= bpow (-52) * Rabs (value x / value y) + bpow (-1074)
  /\ (bpow (-1022) <= Rabs (value x / value y) ->
      Rabs (value (x / y)%float - value x / value y)
      <= bpow (-52) * Rabs (value x / value y)).
Proof.
  unfold finite, value. rewrite div_spec.
  apply SFdiv_real; apply Prim2SF_valid.
Qed.

Lemma sqrt_real (x : float) :
  finite x = true -> 0 < value x ->
  finite (PrimFloat.sqrt x) = true
  /\ Rabs (value (PrimFloat.sqrt x) - sqrt (value x))
     <= bpow (-52) * sqrt (value x).
Proof.
  unfold finite, value. rewrite sqrt_spec. intros Hf Hpos.
  apply SFsqrt_real; [apply Prim2SF_valid | exact Hf |].
  intros m e E. rewrite E in Hpos. cbn [SFvalue sign] in Hpos.
  pose proof (bpow_pos e).
  assert (0 < IZR (Zpos m)) by (apply IZR_lt; lia). nra.
Qed.

Lemma moderate_spec (x : float) :
  moderate x = true ->
  finite x = true
  /\ (value x = 0 \/ bpow (-500) <= Rabs (value x) <= bpow 500).
Proof.
  unfold moderate, finite, value.
  pose proof (Prim2SF_valid x) as V.
  destruct (Prim2SF x) as [s|s| |s m e]; try discriminate; intros H.
  - split; [reflexivity | now left].
  - split; [reflexivity | right].
    apply andb_true_iff in H. destruct H as [H1 H2].
    apply Z.leb_le in H1, H2.
    pose proof (@valid_finite _ _ _ V) as [_ [Hm Hn]].
    specialize (Hn ltac:(lia)).
    cbn [SFvalue]. pose proof (bpow_pos e) as Hbe.
    assert (Hm1 : bpow 52 <= IZR (Zpos m)).
    { rewrite <- IZR_pow2 by lia. now apply IZR_le. }
    assert (Hm2 : IZR (Zpos m) <= bpow 53).
    { rewrite <- IZR_pow2 by lia. apply IZR_le. lia. }
    pose proof (bpow_pos 52). pose proof (bpow_pos 53).
    rewrite sign_abs by (apply Rmult_le_pos; lra).
    split.
    + replace (-500)%Z with (52 + -552)%Z by reflexivity.
      rewrite bpow_add.
      assert (bpow (-552) <= bpow e) by (apply bpow_le; lia).
      pose proof (bpow_pos (-552)).
      apply Rmult_le_compat; lra.
    + replace 500%Z with (53 + 447)%Z by reflexivity.
      rewrite bpow_add.
      assert (bpow e <= bpow 447) by (apply bpow_le; lia).
      apply Rmult_le_compat; lra.
Qed.

(** A number that is not zero has a value that is not zero. *)
Lemma is_zero_value (x : float) :
  finite x = true -> is_zero x = false -> value x <> 0.
Proof.
  unfold finite, value, is_zero. rewrite FloatAxioms.eqb_spec.
  destruct (Prim2SF x) as [s|s| |s m e]; try discriminate; intros _ _.
  cbn [SFvalue]. pose proof (bpow_pos e).
  assert (0 < IZR (Zpos m)) by (apply IZR_lt; lia).
  destruct s; cbn [sign]; nra.
Qed.

End Binary64.

(** ** The cosine similarity in binary64 *)

Section GrowthFacts.

Import F64R.

Local Open Scope R_scope.

Lemma pow_linear (u : R) (n : nat) :
  0 <= u -> 2 * INR n * u <= 1 -> (1 + u) ^ n <= 1 + 2 * INR n * u.
Proof.
  intros Hu. induction n as [|n IH]; intros Hn.
  - cbn. lra.
  - rewrite S_INR in *. cbn [pow].
    assert (Hn' : 2 * INR n * u <= 1) by nra.
    specialize (IH Hn').
    assert (0 <= INR n) by apply pos_INR.
    assert (H1 : (1 + u) * (1 + u) ^ n <= (1 + u) * (1 + 2 * INR n * u))
      by (apply Rmult_le_compat_l; lra).
    nra.
Qed.

Lemma pow_ge_1 (u : R) (n : nat) : 0 <= u -> 1 <= (1 + u) ^ n.
Proof.
  intros Hu. induction n as [|n IH]; cbn [pow]; [lra | nra].
Qed.

Lemma grow_ge_1 (k : nat) : 1 <= grow k.
Proof. apply pow_ge_1. pose proof (bpow_pos (-52)). lra. Qed.

Lemma grow_S (k : nat) :
  grow (S k) = grow k * ((1 + bpow (-52)) * (1 + bpow (-52))).
Proof.
  unfold grow. replace (2 * S k)%nat with (S (S (2 * k))) by lia.
  cbn [pow]. ring.
Qed.

Lemma grow_mono (k n : nat) : (k <= n)%nat -> grow k <= grow n.
Proof.
  induction 1 as [|n Hle IH]; [lra|].
  rewrite grow_S. pose proof (bpow_pos (-52)). pose proof (grow_ge_1 n).
  nra.
Qed.

(** Up to 2^20 turns the error has grown by at most 2^-30. *)
Lemma grow_bound (k : nat) :
  (Z.of_nat k <= 2 ^ 20)%Z -> grow k <= 1 + bpow (-30).
Proof.
  intros Hk. unfold grow.
  pose proof (bpow_pos (-52)) as Hu.
  assert (Hn : INR (2 * k) <= bpow 21).
  { rewrite INR_IZR_INZ, <- IZR_pow2 by lia. apply IZR_le.
    change (2 ^ 21)%Z with (2 * 2 ^ 20)%Z. lia. }
  assert (E1 : bpow 21 * bpow (-52) = bpow (-31))
    by (rewrite <- bpow_add; reflexivity).
  assert (E2 : 2 * bpow (-31) = bpow (-30)).
  { rewrite <- bpow_1, <- bpow_add. reflexivity. }
  assert (E3 : bpow (-30) <= 1).
  { rewrite <- bpow_0. apply bpow_le. lia. }
  assert (Hprod : INR (2 * k) * bpow (-52) <= bpow (-31)).
  { rewrite <- E1. apply Rmult_le_compat_r; lra. }
  apply Rle_trans with (1 + 2 * INR (2 * k) * bpow (-52)).
  - apply pow_linear; [lra|]. nra.
  - nra.
Qed.

End GrowthFacts.

Section StepFacts.

Local Open Scope R_scope.

(** One turn of a sum of products: the distance to the exact sum after
    a product and a sum, each rounded with relative error [u]. *)
Lemma sum_step (va vp va' D T t g u : R) :
  0 <= u -> 1 <= g -> 0 <= T ->
  Rabs (va - D) <= (g - 1) * T -> Rabs D <= T ->
  Rabs (vp - t) <= u * Rabs t ->
  Rabs (va + vp) <= g * T + (1 + u) * Rabs t
  /\ (Rabs (va' - (va + vp)) <= u * Rabs (va + vp) ->
      Rabs (va' - (D + t)) <= (g * ((1 + u) * (1 + u)) - 1) * (T + Rabs t)).
Proof.
  intros Hu Hg HT Ha HD Hp.
  pose proof (Rabs_pos t) as Ht. set (a := Rabs t) in *.
  apply Rabs_within in Ha. apply Rabs_within in Hp.
  assert (HD' : - T <= D <= T) by (apply Rabs_within; exact HD).
  assert (Ht' : - a <= t <= a).
  { unfold a. apply Rabs_within. lra. }
  assert (P1 : 0 <= g * T) by nra.
  assert (P2 : 0 <= u * a) by nra.
  assert (Hsum : Rabs (va + vp) <= g * T + (1 + u) * a).
  { apply Rabs_bound. split; nra. }
  split; [exact Hsum|]. intros Hr.
  assert (Hr' : Rabs (va' - (va + vp)) <= u * (g * T + (1 + u) * a)).
  { apply Rle_trans with (u * Rabs (va + vp)); [exact Hr|].
    apply Rmult_le_compat_l; [exact Hu | exact Hsum]. }
  apply Rabs_within in Hr'.
  assert (P3 : 0 <= u * (g * T)) by nra.
  assert (P4 : 0 <= u * (u * a)) by nra.
  assert (P5 : 0 <= u * u * (g * T)) by nra.
  assert (P6 : 0 <= (g - 1) * a) by nra.
  assert (P7 : 0 <= (g - 1) * (u * a)) by nra.
  assert (P8 : 0 <= (g - 1) * (u * (u * a))) by nra.
  apply Rabs_bound. split; nra.
Qed.

End StepFacts.

Section LoopFacts.

Import F64R.

Local Open Scope R_scope.

Lemma product_range (xy : float * float) :
  moderate (fst xy) = true -> moderate (snd xy) = true ->
  finite (fst xy) = true /\ finite (snd xy) = true
  /\ (product xy = 0 \/ bpow (-1000) <= Rabs (product xy))
  /\ Rabs (product xy) <= bpow 1000.
Proof.
  intros Hx Hy. apply moderate_spec in Hx, Hy.
  destruct Hx as [Fx Hx], Hy as [Fy Hy].
  split; [exact Fx|]. split; [exact Fy|].
  unfold product. rewrite Rabs_mult.
  pose proof (bpow_pos (-500)) as Hp. pose proof (bpow_pos 500) as Hq.
  assert (E1 : bpow (-1000) = bpow (-500) * bpow (-500))
    by (rewrite <- bpow_add; reflexivity).
  assert (E2 : bpow 1000 = bpow 500 * bpow 500)
    by (rewrite <- bpow_add; reflexivity).
  pose proof (Rabs_pos (value (fst xy))) as Hax.
  pose proof (Rabs_pos (value (snd xy))) as Hay.
  destruct Hx as [Hx|Hx].
  - rewrite Hx, Rabs_R0, !Rmult_0_l. split; [now left|].
    pose proof (bpow_pos 1000). lra.
  - destruct Hy as [Hy|Hy].
    + rewrite Hy, Rabs_R0, !Rmult_0_r. split; [now left|].
      pose proof (bpow_pos 1000). lra.
    + split; [right|]; [rewrite E1 | rewrite E2];
        apply Rmult_le_compat; lra.
Qed.

(** The loop of a sum of products in binary64, against the exact sum:
    after [k] turns the distance is at most [grow k - 1] times the sum of
    the magnitudes of the products. *)
Lemma sum_products (ps : list (float * float)) :
  forall (acc : float) (D T : R) (k : nat),
    (forall xy, In xy ps ->
                moderate (fst xy) = true /\ moderate (snd xy) = true) ->
    finite acc = true -> 0 <= T ->
    Rabs (value acc - D) <= (grow k - 1) * T ->
    Rabs D <= T -> T <= INR k * bpow 1000 ->
    (Z.of_nat (k + List.length ps) <= 2 ^ 20)%Z ->
    finite (fold_left (fun acc xy => (acc + fst xy * snd xy)%float) ps acc)
    = true
    /\ Rabs (value (fold_left
                      (fun acc xy => (acc + fst xy * snd xy)%float) ps acc)
             - (D + total (List.map product ps)))
       <= (grow (k + List.length ps) - 1)
          * (T + total (List.map (fun xy => Rabs (product xy)) ps)).
Proof.
  induction ps as [|xy ps IH]; intros acc D T k Hmod Hfin HT Hacc HD HTk Hlen.
  - cbn [fold_left List.map total fold_right List.length].
    rewrite Nat.add_0_r, !Rplus_0_r. split; assumption.
  - cbn [fold_left List.map total fold_right List.length].
    fold (total (List.map product ps)).
    fold (total (List.map (fun xy => Rabs (product xy)) ps)).
    destruct (Hmod xy (or_introl eq_refl)) as [Mx My].
    destruct (product_range xy Mx My) as [Fx [Fy [Hlow Hhigh]]].
    set (t := product xy) in *.
    pose proof (bpow_pos (-52)) as Hu.
    assert (Hk : (Z.of_nat k < 2 ^ 20)%Z)
      by (cbn [List.length] in Hlen; lia).
    assert (HkR : INR k <= bpow 20).
    { rewrite INR_IZR_INZ, <- IZR_pow2 by lia. apply IZR_le. lia. }
    pose proof (grow_ge_1 k) as Hg1.
    assert (Hg2 : grow k <= 2).
    { pose proof (@grow_bound k ltac:(lia)) as Hb.
      assert (bpow (-30) <= 1) by (rewrite <- bpow_0; apply bpow_le; lia).
      lra. }
    assert (Hu1 : bpow (-52) <= 1)
      by (rewrite <- bpow_0; apply bpow_le; lia).
    assert (Hmul : finite (fst xy * snd xy)%float = true
                   /\ Rabs (value (fst xy * snd xy)%float - t)
                      <= bpow (-52) * Rabs t).
    { apply mul_real; [exact Fx | exact Fy | |].
      - fold (product xy). fold t.
        apply Rle_trans with (bpow 1000); [exact Hhigh|].
        apply bpow_le. lia.
      - fold (product xy). fold t.
        destruct Hlow as [H|H]; [now left | right].
        apply Rle_trans with (bpow (-1000)); [|exact H].
        apply bpow_le. lia. }
    destruct Hmul as [Fp Hp].
    destruct (@sum_step (value acc) (value (fst xy * snd xy)%float)
                (value (acc + fst xy * snd xy)%float) D T t (grow k)
                (bpow (-52)))
      as [Hsum Hstep]; try assumption; try lra.
    assert (Hadd : finite (acc + fst xy * snd xy)%float = true
                   /\ Rabs (value (acc + fst xy * snd xy)%float
                            - (value acc + value (fst xy * snd xy)%float))
                      <= bpow (-52)
                         * Rabs (value acc + value (fst xy * snd xy)%float)).
    { apply add_real; [exact Hfin | exact Fp |].
      apply Rle_trans with (1 := Hsum).
      assert (E1 : bpow 1023 = 4 * (bpow 20 * bpow 1000 + bpow 1000)
                               + (bpow 1023 - 4 * bpow 1020 - 4 * bpow 1000)).
      { replace (bpow 20 * bpow 1000) with (bpow 1020)
          by (rewrite <- bpow_add; reflexivity). ring. }
      assert (E2 : 4 * bpow 1020 + 4 * bpow 1000 <= bpow 1023).
      { assert (bpow 1000 <= bpow 1020) by (apply bpow_le; lia).
        assert (E : bpow 1023 = 8 * bpow 1020).
        { replace 1023%Z with (1 + (1 + (1 + 1020)))%Z by reflexivity.
          rewrite !bpow_add, bpow_1. ring. }
        pose proof (bpow_pos 1000). lra. }
      pose proof (bpow_pos 1000) as Hb.
      pose proof (Rabs_pos t) as Ht0.
      assert (0 <= INR k) by apply pos_INR.
      assert (H1 : grow k * T <= 2 * (bpow 20 * bpow 1000)).
      { apply Rmult_le_compat; try lra.
        apply Rle_trans with (1 := HTk).
        apply Rmult_le_compat_r; lra. }
      assert (H2 : (1 + bpow (-52)) * Rabs t <= 2 * bpow 1000).
      { apply Rmult_le_compat; lra. }
      pose proof (bpow_pos 20). nra. }
    destruct Hadd as [Fa Ha]. specialize (Hstep Ha).
    rewrite <- grow_S in Hstep.
    destruct (IH (acc + fst xy * snd xy)%float (D + t) (T + Rabs t) (S k))
      as [Ffin Hfinal].
    + intros xy' Hin. apply Hmod. now right.
    + exact Fa.
    + pose proof (Rabs_pos t). lra.
    + exact Hstep.
    + apply Rle_trans with (1 := Rabs_triang D t). lra.
    + rewrite S_INR. lra.
    + cbn [List.length] in Hlen. lia.
    + split; [exact Ffin|].
      replace (k + S (List.length ps))%nat with (S k + List.length ps)%nat
        by lia.
      replace (D + (t + total (List.map product ps)))
        with (D + t + total (List.map product ps)) by ring.
      replace (T + (Rabs t
                    + total (List.map (fun xy => Rabs (product xy)) ps)))
        with (T + Rabs t
              + total (List.map (fun xy => Rabs (product xy)) ps)) by ring.
      exact Hfinal.
Qed.

End LoopFacts.

Section NumeralFacts.

Import F64R.

Local Open Scope R_scope.

Lemma bpow_neg_numeral (n : Z) :
  (0 <= n)%Z -> bpow (- n) = / IZR (2 ^ n).
Proof. intros H. now rewrite bpow_opp, IZR_pow2. Qed.

Lemma bpow_m52 : bpow (-52) = / 4503599627370496.
Proof. exact (@bpow_neg_numeral 52 ltac:(lia)). Qed.

Lemma bpow_m30 : bpow (-30) = / 1073741824.
Proof. exact (@bpow_neg_numeral 30 ltac:(lia)). Qed.

Lemma bpow_m28 : bpow (-28) = / 268435456.
Proof. exact (@bpow_neg_numeral 28 ltac:(lia)). Qed.

Lemma bpow_m49 : bpow (-49) = / 562949953421312.
Proof. exact (@bpow_neg_numeral 49 ltac:(lia)). Qed.

Lemma bpow_m1 : bpow (-1) = / 2.
Proof. exact (@bpow_neg_numeral 1 ltac:(lia)). Qed.

End NumeralFacts.

Section AnalysisFacts.

Import F64R.

Local Open Scope R_scope.

(** The square root of a quantity known to a relative error [E]. *)
Lemma root_within (N X E : R) :
  0 <= N -> 0 <= E <= 1 -> Rabs (X - N) <= E * N ->
  0 <= X /\ (1 - E) * sqrt N <= sqrt X <= (1 + E) * sqrt N.
Proof.
  intros HN HE HX. apply Rabs_within in HX.
  assert (HX0 : 0 <= X) by nra.
  pose proof (sqrt_pos N) as Hs. pose proof (sqrt_pos X) as Hx.
  pose proof (sqrt_sqrt N HN) as EN. pose proof (sqrt_sqrt X HX0) as EX.
  split; [exact HX0|]. split.
  - apply square_le; [nra | exact Hx |].
    rewrite EX.
    replace ((1 - E) * sqrt N * ((1 - E) * sqrt N))
      with ((1 - E) * (1 - E) * (sqrt N * sqrt N)) by ring.
    rewrite EN. nra.
  - apply square_le; [exact Hx | nra |].
    rewrite EX.
    replace ((1 + E) * sqrt N * ((1 + E) * sqrt N))
      with ((1 + E) * (1 + E) * (sqrt N * sqrt N)) by ring.
    rewrite EN. nra.
Qed.

(** A computed square root, within [u] of the root of a quantity known
    within [E]. *)
Lemma computed_root (N X s E u : R) :
  0 <= N -> 0 <= E <= 1 -> 0 <= u <= 1 ->
  Rabs (X - N) <= E * N -> Rabs (s - sqrt X) <= u * sqrt X ->
  (1 - u) * ((1 - E) * sqrt N) <= s <= (1 + u) * ((1 + E) * sqrt N).
Proof.
  intros HN HE Hu HX Hs.
  destruct (@root_within N X E HN HE HX) as [_ [Hlo Hhi]].
  apply Rabs_within in Hs. pose proof (sqrt_pos N). split; nra.
Qed.

End AnalysisFacts.

Section CosineAnalysis.

Import F64R.

Local Open Scope R_scope.

Lemma root_range (N lo hi : R) :
  0 <= lo -> 0 <= hi -> lo * lo <= N <= hi * hi ->
  lo <= sqrt N <= hi.
Proof.
  intros Hlo Hhi [H1 H2].
  assert (HN : 0 <= N) by nra.
  pose proof (sqrt_pos N) as Hs. pose proof (sqrt_sqrt N HN) as E.
  split; apply square_le; try assumption; rewrite E; assumption.
Qed.

(** The error analysis of the quotient of [cosineSimilarity]: the
    computed dot product against the computed norms, each sum known to a
    relative error of 2^-30 and each later operation rounded with a
    relative error of 2^-52. *)
Lemma cosine_within (D T NA NB vd vna vnb vsa vsb vP vr : R) :
  bpow (-1000) <= NA <= bpow 1020 -> bpow (-1000) <= NB <= bpow 1020 ->
  0 <= T -> T * T <= NA * NB -> Rabs D <= T ->
  Rabs (vd - D) <= bpow (-30) * T ->
  Rabs (vna - NA) <= bpow (-30) * NA ->
  Rabs (vnb - NB) <= bpow (-30) * NB ->
  0 < vna /\ 0 < vnb
  /\ (Rabs (vsa - sqrt vna) <= bpow (-52) * sqrt vna ->
      Rabs (vsb - sqrt vnb) <= bpow (-52) * sqrt vnb ->
      bpow (-1022) <= Rabs (vsa * vsb) <= bpow 1023
      /\ (Rabs (vP - vsa * vsb) <= bpow (-52) * Rabs (vsa * vsb) ->
          vP <> 0 /\ Rabs (vd / vP) <= bpow 1023
          /\ (Rabs (vr - vd / vP)
              <= bpow (-52) * Rabs (vd / vP) + bpow (-1074) ->
              Rabs vr <= 1 + bpow (-28)))).
Proof.
  intros HNA HNB HT HCS HD Hd Hna Hnb.
  pose proof (bpow_pos (-1000)) as Hp1000.
  assert (Hu : bpow (-52) = / 4503599627370496) by exact bpow_m52.
  assert (He : bpow (-30) = / 1073741824) by exact bpow_m30.
  assert (H28 : bpow (-28) = / 268435456) by exact bpow_m28.
  rewrite He in Hd, Hna, Hnb. rewrite Hu, H28.
  set (u := / 4503599627370496) in *. set (e := / 1073741824) in *.
  assert (Hu0 : 0 < u) by (unfold u; lra).
  assert (He0 : 0 < e) by (unfold e; lra).
  assert (HNA0 : 0 <= NA) by lra. assert (HNB0 : 0 <= NB) by lra.
  set (alpha := sqrt NA). set (beta := sqrt NB).
  assert (Ha : bpow (-500) <= alpha <= bpow 510).
  { apply root_range; try (apply Rlt_le, bpow_pos).
    rewrite <- !bpow_add. exact HNA. }
  assert (Hb : bpow (-500) <= beta <= bpow 510).
  { apply root_range; try (apply Rlt_le, bpow_pos).
    rewrite <- !bpow_add. exact HNB. }
  pose proof (bpow_pos (-500)) as Hp500. pose proof (bpow_pos 510) as Hp510.
  set (G := alpha * beta).
  assert (HG : bpow (-1000) <= G <= bpow 1020).
  { unfold G.
    replace (bpow (-1000)) with (bpow (-500) * bpow (-500))
      by (rewrite <- bpow_add; reflexivity).
    replace (bpow 1020) with (bpow 510 * bpow 510)
      by (rewrite <- bpow_add; reflexivity).
    split; apply Rmult_le_compat; lra. }
  assert (HGG : G * G = NA * NB).
  { unfold G, alpha, beta.
    replace (sqrt NA * sqrt NB * (sqrt NA * sqrt NB))
      with (sqrt NA * sqrt NA * (sqrt NB * sqrt NB)) by ring.
    now rewrite !sqrt_sqrt. }
  assert (HTG : T <= G).
  { apply square_le; [exact HT | lra | rewrite HGG; exact HCS]. }
  apply Rabs_within in Hd. pose proof Hna as Hna'. pose proof Hnb as Hnb'.
  apply Rabs_within in Hna'. apply Rabs_within in Hnb'.
  assert (HD' : - T <= D <= T) by (apply Rabs_within; exact HD).
  assert (Hvna : 0 < vna) by (unfold e in *; nra).
  assert (Hvnb : 0 < vnb) by (unfold e in *; nra).
  split; [exact Hvna|]. split; [exact Hvnb|].
  intros Hsa Hsb.
  destruct (@computed_root NA vna vsa e u HNA0) as [Hsa1 Hsa2];
    [unfold e; lra | unfold u; lra | exact Hna | exact Hsa |].
  destruct (@computed_root NB vnb vsb e u HNB0) as [Hsb1 Hsb2];
    [unfold e; lra | unfold u; lra | exact Hnb | exact Hsb |].
  fold alpha in Hsa1, Hsa2. fold beta in Hsb1, Hsb2.
  set (c1 := (1 - u) * (1 - e)). set (c2 := (1 + u) * (1 + e)).
  assert (Hc1 : 0 < c1) by (unfold c1, u, e; lra).
  assert (Hc2 : 0 < c2) by (unfold c2, u, e; lra).
  assert (Hsa1' : c1 * alpha <= vsa) by (unfold c1; lra).
  assert (Hsa2' : vsa <= c2 * alpha) by (unfold c2; lra).
  assert (Hsb1' : c1 * beta <= vsb) by (unfold c1; lra).
  assert (Hsb2' : vsb <= c2 * beta) by (unfold c2; lra).
  assert (Hca : 0 <= c1 * alpha) by (apply Rmult_le_pos; lra).
  assert (Hcb : 0 <= c1 * beta) by (apply Rmult_le_pos; lra).
  assert (Ht1 : c1 * c1 * G <= vsa * vsb).
  { replace (c1 * c1 * G) with (c1 * alpha * (c1 * beta))
      by (unfold G; ring).
    apply Rmult_le_compat; assumption. }
  assert (Ht2 : vsa * vsb <= c2 * c2 * G).
  { replace (c2 * c2 * G) with (c2 * alpha * (c2 * beta))
      by (unfold G; ring).
    apply Rmult_le_compat; lra. }
  assert (Ht0 : 0 <= vsa * vsb) by (apply Rmult_le_pos; lra).
  rewrite (Rabs_pos_eq _ Ht0).
  assert (H1001 : bpow (-1000) = 2 * bpow (-1001)).
  { rewrite <- bpow_1, <- bpow_add. reflexivity. }
  assert (H1021 : bpow 1021 = 2 * bpow 1020).
  { rewrite <- bpow_1, <- bpow_add. reflexivity. }
  assert (Hk1 : / 2 <= c1 * c1) by (unfold c1, u, e; lra).
  assert (Hk2 : c2 * c2 <= 2) by (unfold c2, u, e; lra).
  assert (Hlow : bpow (-1001) <= vsa * vsb).
  { apply Rle_trans with (/ 2 * G); [lra|].
    apply Rle_trans with (c1 * c1 * G); [|exact Ht1].
    apply Rmult_le_compat_r; lra. }
  assert (Hhigh : vsa * vsb <= bpow 1021).
  { apply Rle_trans with (c2 * c2 * G); [exact Ht2|].
    apply Rle_trans with (2 * G); [|lra].
    apply Rmult_le_compat_r; lra. }
  split.
  { split.
    - apply Rle_trans with (bpow (-1001)); [apply bpow_le; lia | exact Hlow].
    - apply Rle_trans with (bpow 1021); [exact Hhigh | apply bpow_le; lia]. }
  intros HP. apply Rabs_within in HP.
  set (c3 := (1 - u) * (c1 * c1)).
  assert (HP1 : c3 * G <= vP).
  { unfold c3. apply Rle_trans with ((1 - u) * (vsa * vsb)); [|lra].
    rewrite Rmult_assoc. apply Rmult_le_compat_l; [unfold u; lra|].
    exact Ht1. }
  assert (Hc3 : 0 < c3) by (unfold c3, c1, u, e; lra).
  assert (HP0 : 0 < vP).
  { apply Rlt_le_trans with (c3 * G); [|exact HP1].
    apply Rmult_lt_0_compat; lra. }
  assert (Hvd : Rabs vd <= (1 + e) * G).
  { apply Rabs_bound. split; nra. }
  set (kappa := 1 + 7 / 2 * e).
  assert (Hkappa : 1 + e <= kappa * c3)
    by (unfold kappa, c3, c1, u, e; lra).
  assert (Hq : Rabs (vd / vP) <= kappa).
  { unfold Rdiv. rewrite Rabs_mult, Rabs_inv, (Rabs_pos_eq vP) by lra.
    apply Rmult_le_reg_r with vP; [exact HP0|].
    rewrite Rmult_assoc, Rinv_l, Rmult_1_r by lra.
    apply Rle_trans with (1 := Hvd).
    apply Rle_trans with (kappa * c3 * G).
    - apply Rmult_le_compat_r; lra.
    - rewrite Rmult_assoc. apply Rmult_le_compat_l; [unfold kappa, e; lra|].
      exact HP1. }
  split; [lra|]. split.
  { apply Rle_trans with (1 := Hq).
    apply Rle_trans with (bpow 1); [rewrite bpow_1; unfold kappa, e; lra|].
    apply bpow_le. lia. }
  intros Hr. apply Rabs_within in Hr.
  assert (Heta : bpow (-1074) <= u).
  { unfold u. rewrite <- bpow_m52. apply bpow_le. lia. }
  pose proof (bpow_pos (-1074)) as Heta0.
  pose proof (Rabs_pos (vd / vP)) as Hq0.
  assert (Hq' : - Rabs (vd / vP) <= vd / vP <= Rabs (vd / vP)).
  { apply Rabs_within. lra. }
  assert (Hfinal : (1 + u) * kappa + u <= 1 + / 268435456)
    by (unfold kappa, u, e; lra).
  assert (HuQ : u * Rabs (vd / vP) <= u * kappa)
    by (apply Rmult_le_compat_l; lra).
  apply Rabs_bound. split; lra.
Qed.

End CosineAnalysis.

Section SelfAnalysis.

Import F64R.

Local Open Scope R_scope.

(** The error analysis of [N / (sqrt N * sqrt N)] for a computed norm
    [N]: three roundings of the denominator and one of the quotient. *)
Lemma self_within (X vs vP vr : R) :
  bpow (-1001) <= X <= bpow 1021 ->
  Rabs (vs - sqrt X) <= bpow (-52) * sqrt X ->
  bpow (-1022) <= Rabs (vs * vs) <= bpow 1023
  /\ (Rabs (vP - vs * vs) <= bpow (-52) * Rabs (vs * vs) ->
      vP <> 0 /\ Rabs (X / vP) <= bpow 1023
      /\ bpow (-1022) <= Rabs (X / vP)
      /\ (Rabs (vr - X / vP) <= bpow (-52) * Rabs (X / vP) ->
          Rabs (vr - 1) <= bpow (-49))).
Proof.
  intros HX Hs.
  assert (Hu : bpow (-52) = / 4503599627370496) by exact bpow_m52.
  assert (H49 : bpow (-49) = / 562949953421312) by exact bpow_m49.
  rewrite Hu in *. rewrite H49.
  set (u := / 4503599627370496) in *.
  assert (Hu0 : 0 < u) by (unfold u; lra).
  pose proof (bpow_pos (-1001)) as Hp.
  assert (HX0 : 0 < X) by lra.
  pose proof (sqrt_sqrt X ltac:(lra)) as Es.
  assert (Hsig : 0 < sqrt X) by (apply sqrt_lt_R0; exact HX0).
  set (sigma := sqrt X) in *.
  apply Rabs_within in Hs.
  assert (Hs1 : (1 - u) * sigma <= vs <= (1 + u) * sigma) by lra.
  assert (Hs0 : 0 < vs) by (unfold u in *; nra).
  assert (Ht1 : (1 - u) * (1 - u) * X <= vs * vs).
  { rewrite <- Es.
    replace ((1 - u) * (1 - u) * (sigma * sigma))
      with ((1 - u) * sigma * ((1 - u) * sigma)) by ring.
    apply Rmult_le_compat; unfold u in *; nra. }
  assert (Ht2 : vs * vs <= (1 + u) * (1 + u) * X).
  { rewrite <- Es.
    replace ((1 + u) * (1 + u) * (sigma * sigma))
      with ((1 + u) * sigma * ((1 + u) * sigma)) by ring.
    apply Rmult_le_compat; lra. }
  assert (Ht0 : 0 <= vs * vs) by nra.
  rewrite (Rabs_pos_eq _ Ht0).
  assert (H1002 : bpow (-1001) = 2 * bpow (-1002)).
  { rewrite <- bpow_1, <- bpow_add. reflexivity. }
  assert (H1022 : bpow 1022 = 2 * bpow 1021).
  { rewrite <- bpow_1, <- bpow_add. reflexivity. }
  assert (Hk1 : / 2 <= (1 - u) * (1 - u)) by (unfold u; lra).
  assert (Hk2 : (1 + u) * (1 + u) <= 2) by (unfold u; lra).
  pose proof (bpow_pos (-1002)) as Hp2.
  assert (Hlow : bpow (-1002) <= vs * vs).
  { apply Rle_trans with (/ 2 * X); [lra|].
    apply Rle_trans with ((1 - u) * (1 - u) * X); [|exact Ht1].
    apply Rmult_le_compat_r; lra. }
  assert (Hhigh : vs * vs <= bpow 1022).
  { apply Rle_trans with ((1 + u) * (1 + u) * X); [exact Ht2|].
    apply Rle_trans with (2 * X); [|lra].
    apply Rmult_le_compat_r; lra. }
  split.
  { split.
    - apply Rle_trans with (bpow (-1002)); [apply bpow_le; lia | exact Hlow].
    - apply Rle_trans with (bpow 1022); [exact Hhigh | apply bpow_le; lia]. }
  intros HP. apply Rabs_within in HP.
  set (c1 := (1 - u) * ((1 - u) * (1 - u))).
  set (c2 := (1 + u) * ((1 + u) * (1 + u))).
  assert (HP1 : c1 * X <= vP).
  { unfold c1. apply Rle_trans with ((1 - u) * (vs * vs)); [|lra].
    replace ((1 - u) * ((1 - u) * (1 - u)) * X)
      with ((1 - u) * ((1 - u) * (1 - u) * X)) by ring.
    apply Rmult_le_compat_l; [unfold u; lra | exact Ht1]. }
  assert (HP2 : vP <= c2 * X).
  { unfold c2. apply Rle_trans with ((1 + u) * (vs * vs)); [lra|].
    replace ((1 + u) * ((1 + u) * (1 + u)) * X)
      with ((1 + u) * ((1 + u) * (1 + u) * X)) by ring.
    apply Rmult_le_compat_l; [unfold u; lra | exact Ht2]. }
  assert (Hc1 : 0 < c1) by (unfold c1, u; lra).
  assert (HP0 : 0 < vP).
  { apply Rlt_le_trans with (c1 * X); [|exact HP1].
    apply Rmult_lt_0_compat; lra. }
  set (q := X / vP).
  assert (Hq0 : 0 < q) by (unfold q; apply Rdiv_lt_0_compat; lra).
  assert (Eq : q * vP = X) by (unfold q; field; lra).
  assert (HqU : q <= 1 + 4 * u).
  { apply Rmult_le_reg_r with vP; [exact HP0|]. rewrite Eq.
    apply Rle_trans with ((1 + 4 * u) * (c1 * X)).
    - assert (1 <= (1 + 4 * u) * c1) by (unfold c1, u; lra).
      rewrite <- Rmult_assoc. nra.
    - apply Rmult_le_compat_l; [unfold u; lra | exact HP1]. }
  assert (HqL : 1 - 4 * u <= q).
  { apply Rmult_le_reg_r with vP; [exact HP0|]. rewrite Eq.
    apply Rle_trans with ((1 - 4 * u) * (c2 * X)).
    - apply Rmult_le_compat_l; [unfold u; lra | exact HP2].
    - assert ((1 - 4 * u) * c2 <= 1) by (unfold c2, u; lra).
      rewrite <- Rmult_assoc. nra. }
  rewrite (Rabs_pos_eq q) by lra.
  split; [lra|]. split.
  { apply Rle_trans with (bpow 1); [rewrite bpow_1; unfold u in *; lra|].
    apply bpow_le. lia. }
  split.
  { apply Rle_trans with (bpow (-1)); [apply bpow_le; lia|].
    rewrite bpow_m1. unfold u in *. lra. }
  intros Hr. apply Rabs_within in Hr.
  assert (HuQ1 : u * q <= u * (1 + 4 * u))
    by (apply Rmult_le_compat_l; lra).
  assert (HuQ0 : 0 <= u * q) by (apply Rmult_le_pos; lra).
  apply Rabs_bound. unfold u in *. split; lra.
Qed.

End SelfAnalysis.

Section CosineBinary64.

Import F64R AI Spec.

Local Open Scope R_scope.

(** The three accumulators of the loop, each a sum of products. *)
Lemma cosineLoop_folds (a : list float) :
  forall (b : list float) (d na nb : float),
    List.length a = List.length b ->
    fold_left (cosineStep (A := F64Arith)) (combine a b) (d, na, nb)
    = (fold_left (fun acc xy => (acc + fst xy * snd xy)%float)
                 (combine a b) d,
       fold_left (fun acc xy => (acc + fst xy * snd xy)%float)
                 (combine a a) na,
       fold_left (fun acc xy => (acc + fst xy * snd xy)%float)
                 (combine b b) nb).
Proof.
  induction a as [|x a IH]; intros [|y b] d na nb Hlen; try discriminate.
  - reflexivity.
  - cbn [combine fold_left]. injection Hlen as Hlen.
    exact (IH b _ _ _ Hlen).
Qed.

Lemma total_products (a : list float) :
  forall b : list float,
    total (List.map product (combine a b))
    = dot (List.map value a) (List.map value b).
Proof.
  induction a as [|x a IH]; intros [|y b]; try reflexivity.
  cbn [combine List.map total fold_right dot].
  fold (total (List.map product (combine a b))). now rewrite IH.
Qed.

Lemma total_magnitudes (a : list float) :
  forall b : list float,
    total (List.map (fun xy => Rabs (product xy)) (combine a b))
    = dot (List.map Rabs (List.map value a))
          (List.map Rabs (List.map value b)).
Proof.
  induction a as [|x a IH]; intros [|y b]; try reflexivity.
  cbn [combine List.map total fold_right dot].
  fold (total (List.map (fun xy => Rabs (product xy)) (combine a b))).
  rewrite IH. unfold product. cbn [fst snd]. now rewrite Rabs_mult.
Qed.

Lemma dot_abs_self (v : list R) :
  dot (List.map Rabs v) (List.map Rabs v) = dot v v.
Proof.
  induction v as [|x v IH]; [reflexivity|].
  cbn [List.map dot]. rewrite IH. f_equal.
  rewrite <- Rabs_mult. apply Rabs_pos_eq. nra.
Qed.

Lemma dot_abs_nonneg (v : list R) :
  forall w : list R, 0 <= dot (List.map Rabs v) (List.map Rabs w).
Proof.
  induction v as [|x v IH]; intros [|y w]; cbn [List.map dot]; try lra.
  specialize (IH w). pose proof (Rabs_pos x). pose proof (Rabs_pos y). nra.
Qed.

Lemma dot_abs (v : list R) :
  forall w : list R,
    Rabs (dot v w) <= dot (List.map Rabs v) (List.map Rabs w).
Proof.
  induction v as [|x v IH]; intros [|y w]; cbn [List.map dot];
    try (rewrite Rabs_R0; lra).
  apply Rle_trans with (1 := Rabs_triang _ _).
  rewrite Rabs_mult. specialize (IH w). lra.
Qed.

Lemma zero64 : finite 0%float = true /\ value 0%float = 0.
Proof.
  unfold finite, value.
  assert (E : Prim2SF 0%float = S754_zero false) by (vm_compute; reflexivity).
  rewrite E. split; reflexivity.
Qed.

(** A sum of products from zero, of at most 2^20 moderate terms. *)
Lemma sum_from_zero (a b : list float) :
  List.length a = List.length b ->
  (Z.of_nat (List.length a) <= 2 ^ 20)%Z ->
  (forall x, In x a -> moderate x = true) ->
  (forall y, In y b -> moderate y = true) ->
  finite (fold_left (fun acc xy => (acc + fst xy * snd xy)%float)
                    (combine a b) 0%float) = true
  /\ Rabs (value (fold_left (fun acc xy => (acc + fst xy * snd xy)%float)
                            (combine a b) 0%float)
           - dot (List.map value a) (List.map value b))
     <= bpow (-30)
        * dot (List.map Rabs (List.map value a))
              (List.map Rabs (List.map value b)).
Proof.
  intros Hlen Hn Ha Hb. destruct zero64 as [F0 V0].
  assert (Hc : List.length (combine a b) = List.length a).
  { rewrite length_combine, <- Hlen. apply Nat.min_id. }
  destruct (@sum_products (combine a b) 0%float 0 0 0%nat)
    as [Hfin Herr].
  - intros xy Hin. destruct xy as [x y]. cbn [fst snd]. split.
    + apply Ha. eapply in_combine_l. exact Hin.
    + apply Hb. eapply in_combine_r. exact Hin.
  - exact F0.
  - lra.
  - rewrite V0, Rminus_0_r, Rabs_R0. lra.
  - rewrite Rabs_R0. lra.
  - cbn. lra.
  - rewrite Hc. exact Hn.
  - split; [exact Hfin|].
    rewrite !Rplus_0_l, Hc, total_products, total_magnitudes in Herr.
    cbn [Nat.add] in Herr.
    apply Rle_trans with (1 := Herr).
    apply Rmult_le_compat_r; [apply dot_abs_nonneg|].
    pose proof (@grow_bound (List.length a) Hn). lra.
Qed.

Lemma moderate_square (x : float) :
  moderate x = true -> value x * value x <= bpow 1000
  /\ (value x <> 0 -> bpow (-1000) <= value x * value x).
Proof.
  intros H. apply moderate_spec in H. destruct H as [_ H].
  assert (E1 : bpow 1000 = bpow 500 * bpow 500)
    by (rewrite <- bpow_add; reflexivity).
  assert (E2 : bpow (-1000) = bpow (-500) * bpow (-500))
    by (rewrite <- bpow_add; reflexivity).
  pose proof (bpow_pos 500). pose proof (bpow_pos (-500)).
  assert (Esq : value x * value x = Rabs (value x) * Rabs (value x)).
  { rewrite <- Rabs_mult. symmetry. apply Rabs_pos_eq. nra. }
  pose proof (Rabs_pos (value x)).
  destruct H as [H|H].
  - rewrite H. split; [nra | intros C; now elim C].
  - rewrite Esq, E1, E2. split; [|intros _];
      apply Rmult_le_compat; lra.
Qed.

Lemma norm_upper (a : list float) :
  (forall x, In x a -> moderate x = true) ->
  0 <= dot (List.map value a) (List.map value a)
       <= INR (List.length a) * bpow 1000.
Proof.
  induction a as [|x a IH]; intros H.
  - cbn. lra.
  - cbn [List.map dot List.length]. rewrite S_INR.
    destruct (@moderate_square x (H x (or_introl eq_refl))) as [Hx _].
    destruct IH as [IH1 IH2]; [intros y Hy; apply H; now right|].
    split; nra.
Qed.

(** The exact squared norm of a moderate vector that is not zero. *)
Lemma norm_range (a : list float) :
  moderateVector a = true ->
  (Z.of_nat (List.length a) <= 2 ^ 20)%Z ->
  (forall x, In x a -> moderate x = true)
  /\ bpow (-1000) <= dot (List.map value a) (List.map value a)
                  <= bpow 1020.
Proof.
  unfold moderateVector. intros H Hn. apply andb_true_iff in H.
  destruct H as [Hall Hex]. rewrite forallb_forall in Hall.
  split; [exact Hall|]. split.
  - apply existsb_exists in Hex. destruct Hex as [x [Hin Hx]].
    apply negb_true_iff in Hx.
    clear Hn. induction a as [|y a IH]; [contradiction|].
    cbn [List.map dot].
    destruct (@norm_upper a) as [Hpos _];
      [intros z Hz; apply Hall; now right|].
    destruct (@moderate_square y (Hall y (or_introl eq_refl))) as [_ Hy].
    destruct Hin as [->|Hin].
    + assert (Hv : value x <> 0).
      { apply is_zero_value; [|exact Hx].
        apply moderate_spec. apply Hall. now left. }
      specialize (Hy Hv). lra.
    + assert (bpow (-1000)
              <= dot (List.map value a) (List.map value a)).
      { apply IH; [|exact Hin]. intros z Hz. apply Hall. now right. }
      nra.
  - destruct (@norm_upper a Hall) as [_ Hup].
    apply Rle_trans with (1 := Hup).
    replace (bpow 1020) with (bpow 20 * bpow 1000)
      by (rewrite <- bpow_add; reflexivity).
    apply Rmult_le_compat_r; [apply Rlt_le, bpow_pos|].
    rewrite INR_IZR_INZ, <- IZR_pow2 by lia. now apply IZR_le.
Qed.

End CosineBinary64.

Section CosineTheorems.

Import F64R AI Spec.

Local Open Scope R_scope.

Lemma cosineSimilarity_folds (a b : list float) :
  List.length a = List.length b ->
  cosineSimilarity (A := F64Arith) a b
  = (fold_left (fun acc xy => (acc + fst xy * snd xy)%float)
               (combine a b) 0%float
     / (PrimFloat.sqrt
          (fold_left (fun acc xy => (acc + fst xy * snd xy)%float)
                     (combine a a) 0%float)
        * PrimFloat.sqrt
            (fold_left (fun acc xy => (acc + fst xy * snd xy)%float)
                       (combine b b) 0%float)))%float.
Proof.
  intros Hlen. unfold cosineSimilarity, cosineLoop.
  assert (E : Nat.eqb (@List.length (@num F64Arith) a)
                      (@List.length (@num F64Arith) b) = true)
    by (now apply Nat.eqb_eq).
  rewrite E. cbn [negb].
  rewrite (cosineLoop_folds a b _ _ _ Hlen). reflexivity.
Qed.

(** In binary64, the similarity of two moderate vectors of one length,
    neither of them zero, is a finite number in [-1 - 2^-28, 1 + 2^-28]. *)
Lemma cosineSimilarity_binary64_bound (a b : list float) :
  List.length a = List.length b ->
  (Z.of_nat (List.length a) <= 2 ^ 20)%Z ->
  moderateVector a = true -> moderateVector b = true ->
  finite (cosineSimilarity (A := F64Arith) a b) = true
  /\ Rabs (value (cosineSimilarity (A := F64Arith) a b)) <= 1 + bpow (-28).
Proof.
  intros Hlen Hn Ma Mb.
  rewrite (cosineSimilarity_folds a b Hlen).
  assert (Hnb : (Z.of_nat (List.length b) <= 2 ^ 20)%Z)
    by (rewrite <- Hlen; exact Hn).
  destruct (norm_range a Ma Hn) as [Hma HNA].
  destruct (norm_range b Mb Hnb) as [Hmb HNB].
  destruct (sum_from_zero a b Hlen Hn Hma Hmb) as [Fd Hd].
  destruct (sum_from_zero a a eq_refl Hn Hma Hma) as [Fna Hna].
  destruct (sum_from_zero b b eq_refl Hnb Hmb Hmb) as [Fnb Hnb'].
  rewrite dot_abs_self in Hna, Hnb'.
  set (d := fold_left _ (combine a b) 0%float) in *.
  set (na := fold_left _ (combine a a) 0%float) in *.
  set (nb := fold_left _ (combine b b) 0%float) in *.
  set (va := List.map value a) in *. set (vb := List.map value b) in *.
  assert (HCS : dot (List.map Rabs va) (List.map Rabs vb)
                * dot (List.map Rabs va) (List.map Rabs vb)
                <= dot va va * dot vb vb).
  { rewrite <- (dot_abs_self va), <- (dot_abs_self vb).
    apply cauchy_schwarz. unfold va, vb. now rewrite !length_map. }
  destruct (@cosine_within
              (dot va vb) (dot (List.map Rabs va) (List.map Rabs vb))
              (dot va va) (dot vb vb) (value d) (value na) (value nb)
              (value (PrimFloat.sqrt na)) (value (PrimFloat.sqrt nb))
              (value (PrimFloat.sqrt na * PrimFloat.sqrt nb)%float)
              (value (d / (PrimFloat.sqrt na * PrimFloat.sqrt nb))%float)
              HNA HNB (dot_abs_nonneg va vb) HCS (dot_abs va vb) Hd Hna
              Hnb')
    as [Pna [Pnb Hrest]].
  destruct (sqrt_real na Fna Pna) as [Fsa Hsa].
  destruct (sqrt_real nb Fnb Pnb) as [Fsb Hsb].
  destruct (Hrest Hsa Hsb) as [[Ht1 Ht2] Hrest2].
  destruct (@mul_real (PrimFloat.sqrt na) (PrimFloat.sqrt nb) Fsa Fsb Ht2)
    as [FP HP]; [now right|].
  destruct (Hrest2 HP) as [HP0 [Hq Hfinal]].
  destruct (@div_real d (PrimFloat.sqrt na * PrimFloat.sqrt nb)%float
              Fd FP HP0 Hq) as [Fr [Hr _]].
  split; [exact Fr | exact (Hfinal Hr)].
Qed.

(** In binary64, the similarity of a moderate vector that is not zero
    with itself is within 2^-49 of 1. *)
Lemma cosineSimilarity_binary64_self (a : list float) :
  (Z.of_nat (List.length a) <= 2 ^ 20)%Z ->
  moderateVector a = true ->
  finite (cosineSimilarity (A := F64Arith) a a) = true
  /\ Rabs (value (cosineSimilarity (A := F64Arith) a a) - 1)
     <= bpow (-49).
Proof.
  intros Hn Ma.
  rewrite (cosineSimilarity_folds a a eq_refl).
  destruct (norm_range a Ma Hn) as [Hma HNA].
  destruct (sum_from_zero a a eq_refl Hn Hma Hma) as [Fn Hnorm].
  rewrite dot_abs_self in Hnorm.
  set (n := fold_left _ (combine a a) 0%float) in *.
  set (N := dot (List.map value a) (List.map value a)) in *.
  apply Rabs_within in Hnorm. rewrite bpow_m30 in Hnorm.
  assert (HX : bpow (-1001) <= value n <= bpow 1021).
  { assert (E1 : bpow (-1000) = 2 * bpow (-1001))
      by (rewrite <- bpow_1, <- bpow_add; reflexivity).
    assert (E2 : bpow 1021 = 2 * bpow 1020)
      by (rewrite <- bpow_1, <- bpow_add; reflexivity).
    pose proof (bpow_pos (-1001)). split; nra. }
  assert (Hpos : 0 < value n) by (pose proof (bpow_pos (-1001)); lra).
  destruct (sqrt_real n Fn Hpos) as [Fs Hs].
  destruct (@self_within (value n) (value (PrimFloat.sqrt n))
              (value (PrimFloat.sqrt n * PrimFloat.sqrt n)%float)
              (value (n / (PrimFloat.sqrt n * PrimFloat.sqrt n))%float)
              HX Hs) as [[Ht1 Ht2] Hrest].
  destruct (@mul_real (PrimFloat.sqrt n) (PrimFloat.sqrt n) Fs Fs Ht2)
    as [FP HP]; [now right|].
  destruct (Hrest HP) as [HP0 [Hq1 [Hq2 Hfinal]]].
  destruct (@div_real n (PrimFloat.sqrt n * PrimFloat.sqrt n)%float
              Fn FP HP0 Hq1) as [Fr [_ Hr]].
  split; [exact Fr | exact (Hfinal (Hr Hq2))].
Qed.

End CosineTheorems.

(** ** The order of binary64 *)

Section OrderFacts.

Import F64R.

Local Open Scope R_scope.

Lemma finite_key_range (s : bool) (m : positive) (e : Z) :
  valid_binary (S754_finite s m e) = true ->
  - bpow 1024 < SFvalue (S754_finite s m e) < bpow 1024
  /\ (if s then SFvalue (S754_finite s m e) < 0
      else 0 < SFvalue (S754_finite s m e)).
Proof.
  intros V. pose proof (@finite_magnitude _ _ _ V) as [H1 H2].
  pose proof (bpow_pos (-1074)). cbn [SFvalue].
  destruct s; cbn [sign]; split; lra.
Qed.

(** Of two finite numbers of one sign, the one of the smaller exponent is
    the smaller in magnitude. *)
Lemma magnitude_by_exponent (s1 s2 : bool) (m1 m2 : positive) (e1 e2 : Z) :
  valid_binary (S754_finite s1 m1 e1) = true ->
  valid_binary (S754_finite s2 m2 e2) = true ->
  (e1 < e2)%Z ->
  IZR (Zpos m1) * bpow e1 < IZR (Zpos m2) * bpow e2.
Proof.
  intros V1 V2 He.
  pose proof (@valid_finite _ _ _ V1) as [He1 [Hm1 _]].
  pose proof (@valid_finite _ _ _ V2) as [He2 [_ Hn2]].
  specialize (Hn2 ltac:(lia)).
  assert (H1 : IZR (Zpos m1) < bpow 53).
  { rewrite <- IZR_pow2 by lia. now apply IZR_lt. }
  assert (H2 : bpow 52 <= IZR (Zpos m2)).
  { rewrite <- IZR_pow2 by lia. now apply IZR_le. }
  assert (H3 : bpow (e1 + 1) <= bpow e2) by (apply bpow_le; lia).
  rewrite bpow_add, bpow_1 in H3.
  assert (H4 : bpow 53 = 2 * bpow 52).
  { rewrite <- bpow_1, <- bpow_add. reflexivity. }
  pose proof (bpow_pos e1). pose proof (bpow_pos 52).
  apply Rlt_le_trans with (bpow 53 * bpow e1); [nra|].
  rewrite H4.
  apply Rle_trans with (bpow 52 * bpow e2); [nra|].
  apply Rmult_le_compat_r; [apply Rlt_le, bpow_pos | exact H2].
Qed.

Lemma magnitude_compare (s1 s2 : bool) (m1 m2 : positive) (e1 e2 : Z) :
  valid_binary (S754_finite s1 m1 e1) = true ->
  valid_binary (S754_finite s2 m2 e2) = true ->
  match (match Z.compare e1 e2 with
         | Lt => Lt
         | Gt => Gt
         | Eq => Pos.compare_cont Eq m1 m2
         end) with
  | Lt => IZR (Zpos m1) * bpow e1 < IZR (Zpos m2) * bpow e2
  | Eq => IZR (Zpos m1) * bpow e1 = IZR (Zpos m2) * bpow e2
  | Gt => IZR (Zpos m2) * bpow e2 < IZR (Zpos m1) * bpow e1
  end.
Proof.
  intros V1 V2. destruct (Z.compare_spec e1 e2) as [E|E|E].
  - subst e2. change (Pos.compare_cont Eq m1 m2) with (Pos.compare m1 m2).
    pose proof (bpow_pos e1).
    destruct (Pos.compare_spec m1 m2) as [->|Hm|Hm].
    + reflexivity.
    + apply Rmult_lt_compat_r; [lra|]. apply IZR_lt. lia.
    + apply Rmult_lt_compat_r; [lra|]. apply IZR_lt. lia.
  - now apply (@magnitude_by_exponent s1 s2 m1 m2 e1 e2 V1 V2).
  - now apply (@magnitude_by_exponent s2 s1 m2 m1 e2 e1 V2 V1).
Qed.

(** The comparison of binary64 follows the order of the keys. *)
Lemma SFltb_key (x y : spec_float) :
  valid_binary x = true -> valid_binary y = true ->
  SFnan x = false -> SFnan y = false ->
  (SFltb x y = true <-> SFkey x < SFkey y).
Proof.
  intros Vx Vy Nx Ny. pose proof (bpow_pos 1024) as HB.
  unfold SFltb.
  destruct x as [sx|sx| |sx mx ex]; try discriminate;
    destruct y as [sy|sy| |sy my ey]; try discriminate;
    cbn [SFcompare SFkey].
  - cbn [SFvalue]. split; [discriminate | lra].
  - cbn [SFvalue].
    destruct sy; split; try discriminate; try reflexivity; lra.
  - destruct (@finite_key_range _ _ _ Vy) as [_ Hs].
    cbn [SFvalue] in *.
    destruct sy; split; try discriminate; try reflexivity; lra.
  - cbn [SFvalue].
    destruct sx; split; try discriminate; try reflexivity; lra.
  - destruct sx, sy; split; try discriminate; try reflexivity; lra.
  - destruct (@finite_key_range _ _ _ Vy) as [Hr _].
    cbn [SFvalue] in *.
    destruct sx; split; try discriminate; try reflexivity; lra.
  - destruct (@finite_key_range _ _ _ Vx) as [_ Hs].
    cbn [SFvalue] in *.
    destruct sx; split; try discriminate; try reflexivity; lra.
  - destruct (@finite_key_range _ _ _ Vx) as [Hr _].
    cbn [SFvalue] in *.
    destruct sy; split; try discriminate; try reflexivity; lra.
  - destruct (@finite_key_range _ _ _ Vx) as [_ Hsx].
    destruct (@finite_key_range _ _ _ Vy) as [_ Hsy].
    pose proof (@magnitude_compare sx sy mx my ex ey Vx Vy) as Hc.
    cbn [SFvalue] in *.
    destruct sx, sy; cbn [sign] in *.
    + destruct (Z.compare ex ey);
        [destruct (Pos.compare_cont Eq mx my)| |]; cbn [CompOpp];
        split; try discriminate; try reflexivity; lra.
    + split; [lra | reflexivity].
    + split; [discriminate | lra].
    + destruct (Z.compare ex ey);
        [destruct (Pos.compare_cont Eq mx my)| |];
        split; try discriminate; try reflexivity; lra.
Qed.

End OrderFacts.

Section DifferenceFacts.

Import F64R.

Local Open Scope R_scope.

(** The rounding of an integer multiple of a power of two that is at
    least 2^-1074 is not zero and has the sign asked for. *)
Lemma binary_round_shape (sx : bool) (m : positive) (e : Z) :
  (-1074 <= e)%Z ->
  exists m2 e2,
    (0 < m2)%Z /\ binary_round prec emax sx m e = rounded sx m2 e2.
Proof.
  intros He. unfold binary_round. rewrite fexp64.
  set (e' := Z.max (Zpos (digits2_pos m) + e - 53) (-1074)).
  pose proof (shl_align_spec m e e') as [Hmz Hez].
  destruct (shl_align m e e') as [mz ez]. cbn [fst snd] in Hmz, Hez.
  pose proof (digits2_pos_bounds m) as [Hlo _].
  assert (H0 : (53 <= Zdigits2 (Zpos mz) \/ ez <= -1074)%Z).
  { destruct (Z_le_gt_dec ez (-1074)) as [H|H]; [now right | left].
    apply Zdigits2_ge; [lia | lia |]. rewrite Hmz.
    change (2 ^ (53 - 1))%Z with (2 ^ 52)%Z.
    assert (Hd : (52 <= Zpos (digits2_pos m) - 1 + (e - ez))%Z)
      by (unfold e' in *; lia).
    assert (H1 : (2 ^ 52 <= 2 ^ (Zpos (digits2_pos m) - 1 + (e - ez)))%Z)
      by (apply Z.pow_le_mono_r; lia).
    rewrite Z.pow_add_r in H1 by lia.
    assert (0 < 2 ^ (e - ez))%Z by (apply Z.pow_pos_nonneg; lia).
    nia. }
  destruct (@binary_round_aux_spec sx (Zpos mz) ez loc_Exact
              ltac:(lia) H0)
    as [m1 [m2 [e2 [He1 [Hm1 [Hex [Hf53 [Hf52 [Hcase Hy]]]]]]]]].
  exists m2, e2. split; [|exact Hy].
  set (e1 := Z.max (Zdigits2 (Zpos mz) + ez - 53) (-1074)) in *.
  assert (Hm1pos : (0 < m1)%Z).
  { destruct (Z.eq_dec e1 ez) as [E|E].
    - rewrite (Hex eq_refl E). lia.
    - assert (Hez' : (-1074 <= ez)%Z) by (unfold e' in *; lia).
      destruct Hf52 as [H|H]; [|lia].
      assert (0 < 2 ^ 52)%Z by (apply Z.pow_pos_nonneg; lia).
      lia. }
  destruct Hcase as [[_ [-> _]]|[_ [-> _]]]; [exact Hm1pos|].
  apply Z.pow_pos_nonneg; lia.
Qed.

Lemma rounded_below_zero (sx : bool) (m2 e2 : Z) :
  (0 < m2)%Z -> SFltb (rounded sx m2 e2) (S754_zero false) = sx.
Proof.
  intros H. destruct m2 as [|p|p]; try lia. unfold rounded.
  destruct (e2 <=? 971)%Z; destruct sx; reflexivity.
Qed.

(** The sign of a binary64 difference is the order of the keys. *)
Lemma SFsub_key (x y : spec_float) :
  valid_binary x = true -> valid_binary y = true ->
  SFnan x = false -> SFnan y = false ->
  (SFltb (SF64sub x y) (S754_zero false) = true <-> SFkey x < SFkey y).
Proof.
  intros Vx Vy Nx Ny. pose proof (bpow_pos 1024) as HB.
  destruct x as [sx|sx| |sx mx ex]; try discriminate;
    destruct y as [sy|sy| |sy my ey]; try discriminate;
    unfold SF64sub; cbn [SFsub SFkey].
  - cbn [SFvalue].
    destruct sx, sy; split; try discriminate; lra.
  - cbn [SFvalue].
    destruct sy; split; try discriminate; try reflexivity; lra.
  - destruct (@finite_key_range _ _ _ Vy) as [_ Hs].
    cbn [SFvalue] in *.
    destruct sy; cbn [negb]; split; try discriminate; try reflexivity;
      lra.
  - cbn [SFvalue].
    destruct sx; split; try discriminate; try reflexivity; lra.
  - destruct sx, sy; split; try discriminate; try reflexivity; lra.
  - destruct (@finite_key_range _ _ _ Vy) as [Hr _].
    cbn [SFvalue] in *.
    destruct sx; split; try discriminate; try reflexivity; lra.
  - destruct (@finite_key_range _ _ _ Vx) as [_ Hs].
    cbn [SFvalue] in *.
    destruct sx; split; try discriminate; try reflexivity; lra.
  - destruct (@finite_key_range _ _ _ Vx) as [Hr _].
    cbn [SFvalue] in *.
    destruct sy; cbn [negb]; split; try discriminate; try reflexivity;
      lra.
  - pose proof (@valid_finite _ _ _ Vx) as [Hex _].
    pose proof (@valid_finite _ _ _ Vy) as [Hey _].
    set (ez := Z.min ex ey).
    set (M := (cond_Zopp sx (Zpos (fst (shl_align mx ex ez)))
               - cond_Zopp sy (Zpos (fst (shl_align my ey ez))))%Z).
    assert (HM : IZR M * bpow ez
                 = SFvalue (S754_finite sx mx ex)
                   - SFvalue (S754_finite sy my ey)).
    { unfold M. rewrite minus_IZR, Rmult_minus_distr_r.
      rewrite !aligned_value by (unfold ez; lia). reflexivity. }
    pose proof (bpow_pos ez) as Hbz.
    assert (Hez : (-1074 <= ez)%Z) by (unfold ez; lia).
    destruct M as [|p|p] eqn:EM; cbn [binary_normalize].
    + rewrite Rmult_0_l in HM. split; [discriminate | lra].
    + destruct (@binary_round_shape false p ez Hez) as [m2 [e2 [Hm2 ->]]].
      rewrite (@rounded_below_zero false m2 e2 Hm2).
      assert (0 < IZR (Zpos p)) by (apply IZR_lt; lia).
      split; [discriminate | nra].
    + destruct (@binary_round_shape true p ez Hez) as [m2 [e2 [Hm2 ->]]].
      rewrite (@rounded_below_zero true m2 e2 Hm2).
      assert (IZR (Zneg p) < 0) by (apply IZR_lt; lia).
      split; [intros _; nra | reflexivity].
Qed.

Lemma is_nan_spec (x : float) : is_nan x = SFnan (Prim2SF x).
Proof.
  unfold is_nan. rewrite FloatAxioms.eqb_spec. unfold SFeqb.
  destruct (Prim2SF x) as [s|s| |s m e]; cbn [SFcompare SFnan negb].
  - reflexivity.
  - destruct s; reflexivity.
  - reflexivity.
  - rewrite Z.compare_refl.
    change (Pos.compare_cont Eq m m) with (Pos.compare m m).
    rewrite Pos.compare_refl. destruct s; reflexivity.
Qed.

(** In binary64, a score is above another when its key is the greater
    one. *)
Lemma above_key (p q : float) :
  is_nan p = false -> is_nan q = false ->
  (Inv.above (A := F64Arith) p q = true <-> key q < key p).
Proof.
  intros Hp Hq. rewrite is_nan_spec in Hp, Hq.
  unfold Inv.above. cbn [nltb nsub ofZ F64Arith].
  rewrite ltb_spec, sub_spec.
  assert (E : Prim2SF (F64.ofZ 0) = S754_zero false)
    by (vm_compute; reflexivity).
  rewrite E. unfold key.
  apply SFsub_key; try apply Prim2SF_valid; assumption.
Qed.

End DifferenceFacts.

Section MaximumFacts.

Import F64R.

Local Open Scope R_scope.

Lemma ltb_key (x y : float) :
  is_nan x = false -> is_nan y = false ->
  ((x <? y)%float = true <-> key x < key y).
Proof.
  intros Hx Hy. rewrite is_nan_spec in Hx, Hy. rewrite ltb_spec.
  apply SFltb_key; try apply Prim2SF_valid; assumption.
Qed.

Lemma above_false (p q : float) :
  is_nan p = false -> is_nan q = false ->
  (Inv.above (A := F64Arith) p q = false <-> key p <= key q).
Proof.
  intros Hp Hq. pose proof (@above_key p q Hp Hq) as H.
  destruct (Inv.above (A := F64Arith) p q).
  - split; [discriminate|]. intros Hle.
    assert (key q < key p) by (apply H; reflexivity). lra.
  - split; [|reflexivity]. intros _.
    destruct (Rle_dec (key p) (key q)) as [Hle|Hgt]; [exact Hle|].
    assert (false = true) by (apply H; lra). discriminate.
Qed.

Lemma zero_key (x : spec_float) :
  valid_binary x = true -> SFnan x = false -> SFkey x = 0 ->
  exists s, x = S754_zero s.
Proof.
  intros V N K. pose proof (bpow_pos 1024).
  destruct x as [s|s| |s m e]; try discriminate.
  - now exists s.
  - destruct s; cbn [SFkey] in K; lra.
  - destruct (@finite_key_range _ _ _ V) as [_ Hs].
    cbn [SFkey] in K. destruct s; lra.
Qed.

(** [Math.max] of two numbers that are not NaN is one of them, of the
    greater key. *)
Lemma max_key (p q : float) :
  is_nan p = false -> is_nan q = false ->
  (F64.max p q = p \/ F64.max p q = q)
  /\ is_nan (F64.max p q) = false
  /\ key p <= key (F64.max p q) /\ key q <= key (F64.max p q).
Proof.
  intros Hp Hq. unfold F64.max. rewrite Hp, Hq. cbn [orb].
  pose proof (@ltb_key p q Hp Hq) as H1.
  pose proof (@ltb_key q p Hq Hp) as H2.
  destruct (p <? q)%float.
  - assert (key p < key q) by (apply H1; reflexivity).
    split; [now right|]. split; [exact Hq|]. lra.
  - destruct (q <? p)%float.
    + assert (key q < key p) by (apply H2; reflexivity).
      split; [now left|]. split; [exact Hp|]. lra.
    + assert (E : key p = key q).
      { destruct (Rtotal_order (key p) (key q)) as [H|[H|H]].
        - assert (false = true) by (apply H1; exact H). discriminate.
        - exact H.
        - assert (false = true) by (apply H2; exact H). discriminate. }
      destruct (is_zero p) eqn:Z.
      * assert (Hsum : (p + q)%float = p \/ (p + q)%float = q).
        { unfold is_zero in Z. rewrite FloatAxioms.eqb_spec in Z.
          assert (E0 : Prim2SF PrimFloat.zero = S754_zero false)
            by (vm_compute; reflexivity).
          rewrite E0 in Z. unfold key in E.
          pose proof (Prim2SF_valid q) as Vq.
          rewrite is_nan_spec in Hq.
          assert (Kp : SFkey (Prim2SF p) = 0).
          { destruct (Prim2SF p) as [s|s| |s m e]; try discriminate.
            - reflexivity.
            - destruct s; discriminate.
            - destruct s; discriminate. }
          destruct (@zero_key (Prim2SF q) Vq Hq ltac:(lra)) as [sq Eq].
          pose proof (Prim2SF_valid p) as Vp.
          rewrite is_nan_spec in Hp.
          destruct (@zero_key (Prim2SF p) Vp Hp Kp) as [sp Ep].
          assert (Es : Prim2SF (p + q)%float = Prim2SF p
                       \/ Prim2SF (p + q)%float = Prim2SF q).
          { rewrite add_spec, Ep, Eq. unfold SF64add. cbn [SFadd].
            destruct sp, sq; auto. }
          destruct Es as [Es|Es]; [left | right];
            now apply Prim2SF_inj. }
        split; [exact Hsum|].
        destruct Hsum as [-> | ->]; (split; [assumption | lra]).
      * split; [now left|]. split; [exact Hp|]. lra.
Qed.

(** Binary64 scores with no NaN among them order the pairs. *)
Lemma ordered_binary64 (scores : list float) :
  (forall p, In p scores -> is_nan p = false) ->
  Inv.ordered (A := F64Arith) scores.
Proof.
  intros Hn. split; [|split].
  - intros p q Hp Hq H.
    apply (@above_key p q (Hn p Hp) (Hn q Hq)) in H.
    apply (@above_false q p (Hn q Hq) (Hn p Hp)). lra.
  - intros p q r Hp Hq Hr H1 H2.
    apply (@above_false p q (Hn p Hp) (Hn q Hq)) in H1.
    apply (@above_false q r (Hn q Hq) (Hn r Hr)) in H2.
    apply (@above_false p r (Hn p Hp) (Hn r Hr)). lra.
  - intros p q Hp Hq. cbn [nmax F64Arith].
    destruct (@max_key p q (Hn p Hp) (Hn q Hq)) as [Hsel [Hnan [H1 H2]]].
    split; [exact Hsel|]. split.
    + apply (@above_false p _ (Hn p Hp) Hnan). exact H1.
    + apply (@above_false q _ (Hn q Hq) Hnan). exact H2.
Qed.

End MaximumFacts.

(** C3 (amended).  In binary64, for every two vectors of one length, of
    at most 2^20 components that are zero or of magnitude from 2^-500 to
    below 2^500 and not all zero, [cosineSimilarity(a, b)] is a finite
    number in [-1 - 2^-28, 1 + 2^-28], and the similarity of such a vector
    with itself is within 2^-49 of 1.  In exact real arithmetic, for every
    two non-zero vectors of equal length [cosineSimilarity(a, b)] is
    [dot(a,b) / (|a| |b|)] and lies in [-1, 1], and the similarity of a
    non-zero vector with itself is 1.  In either arithmetic, for two
    vectors of differing lengths the function returns exactly 0. *)
Theorem cosineSimilarity_range :
  (forall a b : list float,
      List.length a = List.length b ->
      (Z.of_nat (List.length a) <= 2 ^ 20)%Z ->
      F64R.moderateVector a = true -> F64R.moderateVector b = true ->
      F64R.finite (AI.cosineSimilarity (A := F64Arith) a b) = true
      /\ (Rabs (F64R.value (AI.cosineSimilarity (A := F64Arith) a b))
          <= 1 + F64R.bpow (-28))%R)
  /\ (forall a : list float,
         (Z.of_nat (List.length a) <= 2 ^ 20)%Z ->
         F64R.moderateVector a = true ->
         F64R.finite (AI.cosineSimilarity (A := F64Arith) a a) = true
         /\ (Rabs (F64R.value (AI.cosineSimilarity (A := F64Arith) a a) - 1)
             <= F64R.bpow (-49))%R)
  /\ (forall a b : list R,
         List.length a = List.length b -> Spec.nonZero a -> Spec.nonZero b ->
         AI.cosineSimilarity (A := RArith) a b
         = (Spec.dot a b / (Spec.norm a * Spec.norm b))%R
         /\ (-1 <= AI.cosineSimilarity (A := RArith) a b <= 1)%R)
  /\ (forall a : list R,
         Spec.nonZero a -> AI.cosineSimilarity (A := RArith) a a = 1%R)
  /\ (forall (A : Arith) (a b : list num),
         List.length a <> List.length b ->
         AI.cosineSimilarity a b = ofZ 0).
Proof.
  split; [|split; [|split; [|split]]].
  - apply cosineSimilarity_binary64_bound.
  - apply cosineSimilarity_binary64_self.
  - intros a b Hlen Ha Hb. split.
    + now apply cosineSimilarity_quotient.
    + now apply cosineSimilarity_in_range.
  - apply cosineSimilarity_self.
  - apply cosineSimilarity_lengths_differ.
Qed.

Lemma cosineSimilarity_range_witness :
  F64R.moderateVector Sample.ones64 = true
  /\ F64R.finite
       (AI.cosineSimilarity (A := F64Arith) Sample.ones64 Sample.ones64)
     = true
  /\ (Rabs (F64R.value
              (AI.cosineSimilarity (A := F64Arith) Sample.ones64
                                   Sample.ones64) - 1)
      <= F64R.bpow (-49))%R
  /\ (Rabs (F64R.value
              (AI.cosineSimilarity (A := F64Arith) Sample.ones64
                                   Sample.mixed64))
      <= 1 + F64R.bpow (-28))%R.
Proof.
  assert (H : F64R.moderateVector Sample.ones64 = true)
    by (vm_compute; reflexivity).
  assert (H' : F64R.moderateVector Sample.mixed64 = true)
    by (vm_compute; reflexivity).
  assert (Hn : (Z.of_nat (List.length Sample.ones64) <= 2 ^ 20)%Z)
    by (vm_compute; discriminate).
  split; [exact H|].
  split; [exact (proj1 (proj1 (proj2 cosineSimilarity_range)
                              Sample.ones64 Hn H))|].
  split; [exact (proj2 (proj1 (proj2 cosineSimilarity_range)
                              Sample.ones64 Hn H))|].
  exact (proj2 (proj1 cosineSimilarity_range Sample.ones64 Sample.mixed64
                      eq_refl Hn H H')).
Defined.

(** C3 as stated fails in binary64: the similarity of (1, 1, 1) with itself
    is 3 / (sqrt 3 * sqrt 3), which rounds to the double above 1; and for a
    vector whose squares overflow, the quotient is NaN. *)
Lemma cosineSimilarity_binary64_above_one :
  AI.cosineSimilarity (A := F64Arith) Sample.ones64 Sample.ones64
  = 0x1.0000000000001p+0%float
  /\ PrimFloat.leb
       (AI.cosineSimilarity (A := F64Arith) Sample.ones64 Sample.ones64)
       1%float = false
  /\ PrimFloat.is_nan
       (AI.cosineSimilarity (A := F64Arith) Sample.huge64 Sample.huge64)
     = true.
Proof. repeat split; vm_compute; reflexivity. Qed.

(** ** The fallback embedding in exact arithmetic *)

Lemma nth_map_seq (T : Type) (f : nat -> T) (n i : nat) (d : T) :
  (i < n)%nat -> nth i (List.map f (seq 0 n)) d = f i.
Proof.
  intros Hi.
  rewrite (nth_indep _ d (f 0%nat)) by (now rewrite length_map, length_seq).
  rewrite (map_nth f). now rewrite seq_nth.
Qed.

Section EmbeddingFacts.
Import AI Spec.
#[local] Existing Instance RArith | 0.
#[local] Existing Instance RSine | 0.
Local Open Scope R_scope.

Lemma seedOf_from (text : jsstring) :
  forall acc : R,
    fold_left (fun acc char => acc + IZR (charCodeAt0 char)) (chars text) acc
    = acc + IZR (codeSum text).
Proof.
  induction text as [|c text IH]; intros acc.
  - cbn. lra.
  - cbn [chars List.map fold_left]. rewrite IH.
    unfold codeSum. cbn [List.map fold_right charCodeAt0].
    rewrite plus_IZR. fold (codeSum text). lra.
Qed.

(** In exact arithmetic the seed is the sum of the character codes. *)
Lemma seedOf_exact (text : jsstring) :
  seedOf (A := RArith) text = IZR (codeSum text).
Proof.
  unfold seedOf. etransitivity.
  - exact (seedOf_from text 0).
  - lra.
Qed.

Lemma mockComponent_exact (seed : R) (i : Z) :
  mockComponent (A := RArith) seed i = sin (seed * IZR (i + 1)) * 0.5 + 0.5.
Proof. unfold mockComponent. cbn. unfold nsin, RSine. lra. Qed.

Lemma mockComponent_range (seed : R) (i : Z) :
  0 <= mockComponent (A := RArith) seed i <= 1.
Proof.
  rewrite mockComponent_exact.
  pose proof (SIN_bound (seed * IZR (i + 1))). lra.
Qed.

Lemma generateMockEmbedding_nth (text : jsstring) (i : nat) :
  (i < 1536)%nat ->
  nth i (generateMockEmbedding (A := RArith) text) 0
  = sin (IZR (codeSum text) * IZR (Z.of_nat i + 1)) * 0.5 + 0.5.
Proof.
  intros Hi. unfold generateMockEmbedding.
  unfold embeddingSize. rewrite nth_map_seq by exact Hi.
  rewrite mockComponent_exact, seedOf_exact. reflexivity.
Qed.

Lemma generateMockEmbedding_range (text : jsstring) (x : R) :
  In x (generateMockEmbedding (A := RArith) text) -> 0 <= x <= 1.
Proof.
  unfold generateMockEmbedding. intros H. apply in_map_iff in H.
  destruct H as [i [<- _]]. apply mockComponent_range.
Qed.

Lemma generateMockEmbedding_code_sum (t1 t2 : jsstring) :
  codeSum t1 = codeSum t2 ->
  generateMockEmbedding (A := RArith) t1 = generateMockEmbedding t2.
Proof.
  intros H. unfold generateMockEmbedding.
  now rewrite !seedOf_exact, H.
Qed.

End EmbeddingFacts.

Lemma ceilQuarter_div (n : Z) : AI.ceilQuarter n = ((n + 3) / 4)%Z.
Proof.
  unfold AI.ceilQuarter, Qceiling, Qfloor. cbn.
  rewrite Z.mul_1_r.
  Z.to_euclidean_division_equations. lia.
Qed.

Lemma codeSum_permutation (t1 t2 : jsstring) :
  Permutation t1 t2 -> Spec.codeSum t1 = Spec.codeSum t2.
Proof.
  unfold Spec.codeSum. induction 1; cbn [List.map fold_right]; lia.
Qed.

Section FallbackFacts.

Context {A : Arith} {S : Sine A}.

Variable fetchEmbedding : jsstring -> jsstring -> option (@AI.EmbeddingResult A).

Import AI.

Lemma generateEmbedding_unkeyed (svc : AIService) (text : jsstring) :
  apiKey svc = [] ->
  generateEmbedding fetchEmbedding svc text = mockResult text.
Proof. intros H. unfold generateEmbedding. now rewrite H. Qed.

Lemma generateMockEmbedding_size (text : jsstring) :
  List.length (generateMockEmbedding text) = 1536%nat.
Proof.
  unfold generateMockEmbedding. now rewrite length_map, length_seq.
Qed.

Lemma generateMockEmbedding_component (text : jsstring) (i : nat) (d : num) :
  (i < 1536)%nat ->
  nth i (generateMockEmbedding text) d
  = mockComponent (seedOf text) (Z.of_nat i).
Proof.
  intros Hi. unfold generateMockEmbedding, embeddingSize.
  now rewrite nth_map_seq by exact Hi.
Qed.

End FallbackFacts.

(** C5.  With no key configured, [generateEmbedding(text)] is the fallback
    result for every text: a vector of exactly 1536 components whose
    component [i] is [sin(seed * (i+1)) * 0.5 + 0.5] for [seed] the sum of
    the character codes of the text, the same for the same text whatever
    the store and the remote service are, with the token count
    [ceil(text.length / 4)]; in exact arithmetic the seed is the integer
    sum of the codes and every component lies in [0, 1]. *)
Theorem generateEmbedding_fallback :
  (forall (A : Arith) (S : Sine A)
          (fetchEmbedding : jsstring -> jsstring -> option AI.EmbeddingResult)
          (svc : AI.AIService) (text : jsstring),
      AI.apiKey svc = [] ->
      let r := AI.generateEmbedding fetchEmbedding svc text in
      List.length (AI.result_embedding r) = 1536%nat
      /\ (forall (i : nat) (d : num),
             (i < 1536)%nat ->
             nth i (AI.result_embedding r) d
             = nadd (nmul (nsin (nmul (AI.seedOf text)
                                      (ofZ (Z.of_nat i + 1)))) half) half)
      /\ AI.tokenCount r = Qceiling (inject_Z (JsString.length text) / 4)
      /\ AI.tokenCount r = ((JsString.length text + 3) / 4)%Z
      /\ (forall fetch' (svc' : AI.AIService),
             AI.apiKey svc' = [] ->
             AI.generateEmbedding fetch' svc' text = r))
  /\ (forall text : jsstring,
         AI.seedOf (A := RArith) text = IZR (Spec.codeSum text)
         /\ (forall i : nat,
                (i < 1536)%nat ->
                nth i (AI.generateMockEmbedding (A := RArith) text) 0%R
                = (sin (IZR (Spec.codeSum text) * IZR (Z.of_nat i + 1)) * 0.5
                   + 0.5)%R)
         /\ (forall x : R,
                In x (AI.generateMockEmbedding (A := RArith) text) ->
                (0 <= x <= 1)%R)).
Proof.
  split.
  - intros A S fetchEmbedding svc text Hkey. cbv zeta.
    rewrite (generateEmbedding_unkeyed fetchEmbedding svc text Hkey).
    cbn [AI.mockResult AI.result_embedding AI.tokenCount].
    split; [|split; [|split; [|split]]].
    + apply generateMockEmbedding_size.
    + intros i d Hi. now apply generateMockEmbedding_component.
    + reflexivity.
    + apply ceilQuarter_div.
    + intros fetch' svc' Hkey'. now apply generateEmbedding_unkeyed.
  - intros text. split; [|split].
    + apply seedOf_exact.
    + intros i Hi. now apply generateMockEmbedding_nth.
    + intros x. apply generateMockEmbedding_range.
Qed.

Lemma generateEmbedding_fallback_witness :
  AI.apiKey Sample.threeDocsNoKey = []
  /\ List.length
       (AI.result_embedding
          (AI.generateEmbedding Sample.offline Sample.threeDocsNoKey
                                (str "hello")))
     = 1536%nat.
Proof.
  split; [reflexivity|].
  exact (proj1 (proj1 generateEmbedding_fallback RArith RSine Sample.offline
                      Sample.threeDocsNoKey (str "hello") eq_refl)).
Defined.

(** C10.  The fallback embedding depends on the text only through the sum
    of its character codes: in every arithmetic two texts of equal seeds
    get the same components, and in exact arithmetic two texts of equal
    code sums, such as two permutations of the same characters, get the
    same 1536 components, so with no key configured every stored vector
    scores the same against both and [searchDocuments] returns the same
    records for both. *)
Theorem generateMockEmbedding_by_code_sum :
  (forall (A : Arith) (S : Sine A) (t1 t2 : jsstring),
      AI.seedOf t1 = AI.seedOf t2 ->
      AI.generateMockEmbedding t1 = AI.generateMockEmbedding t2)
  /\ (forall t1 t2 : jsstring,
         Spec.codeSum t1 = Spec.codeSum t2 ->
         AI.generateMockEmbedding (A := RArith) t1
         = AI.generateMockEmbedding (A := RArith) t2
         /\ List.length (AI.generateMockEmbedding (A := RArith) t1)
            = 1536%nat
         /\ (forall fetchEmbedding (svc : @AI.AIService RArith),
                AI.apiKey svc = [] ->
                (forall e : list R,
                    AI.cosineSimilarity
                      (AI.result_embedding
                         (AI.generateEmbedding fetchEmbedding svc t1)) e
                    = AI.cosineSimilarity
                        (AI.result_embedding
                           (AI.generateEmbedding fetchEmbedding svc t2)) e)
                /\ (forall place clock topK,
                       AI.searchDocuments fetchEmbedding place clock svc t1 topK
                       = AI.searchDocuments fetchEmbedding place clock svc t2
                                            topK)))
  /\ (forall t1 t2 : jsstring,
         Permutation t1 t2 -> Spec.codeSum t1 = Spec.codeSum t2).
Proof.
  split; [|split; [|apply codeSum_permutation]].
  - intros A S t1 t2 Hseed. unfold AI.generateMockEmbedding.
    now rewrite Hseed.
  - intros t1 t2 Hsum.
    pose proof (generateMockEmbedding_code_sum t1 t2 Hsum) as Hmock.
    split; [exact Hmock|]. split; [apply generateMockEmbedding_size|].
    intros fetchEmbedding svc Hkey.
    assert (Hq : AI.result_embedding
                   (AI.generateEmbedding fetchEmbedding svc t1)
                 = AI.result_embedding
                     (AI.generateEmbedding fetchEmbedding svc t2)).
    { rewrite !(generateEmbedding_unkeyed fetchEmbedding svc _ Hkey).
      exact Hmock. }
    split.
    + intros e. now rewrite Hq.
    + intros place clock topK. unfold AI.searchDocuments, AI.topResults.
      now rewrite Hq.
Qed.

Lemma generateMockEmbedding_by_code_sum_witness :
  Spec.codeSum (str "ab") = Spec.codeSum (str "ba")
  /\ AI.generateMockEmbedding (A := RArith) (str "ab")
     = AI.generateMockEmbedding (A := RArith) (str "ba").
Proof.
  split; [reflexivity|].
  exact (proj1 (proj1 (proj2 generateMockEmbedding_by_code_sum)
                  (str "ab") (str "ba") eq_refl)).
Defined.

(** In binary64 the seeds of ["ab"] and ["ba"] are both 195. *)
Lemma seedOf_binary64_sample :
  AI.seedOf (A := F64Arith) (str "ab") = 195%float
  /\ AI.seedOf (A := F64Arith) (str "ba") = 195%float.
Proof. split; vm_compute; reflexivity. Qed.

(** ** The chunker *)

Section ChunkerFacts.

Import AI.

Local Open Scope Z_scope.

Lemma trimStart_keeps (c : N) (s : jsstring) :
  In c s -> isWhiteSpace c = false -> In c (trimStart s).
Proof.
  intros Hin Hc. induction s as [|d s IH]; [contradiction|].
  cbn [trimStart]. destruct (isWhiteSpace d) eqn:Ed.
  - destruct Hin as [->|Hin]; [congruence|]. now apply IH.
  - exact Hin.
Qed.

Lemma trim_keeps (c : N) (s : jsstring) :
  In c s -> isWhiteSpace c = false -> In c (trim s).
Proof.
  intros Hin Hc. unfold trim, trimEnd.
  apply in_rev. rewrite rev_involutive.
  apply trimStart_keeps; [|exact Hc].
  apply in_rev. rewrite rev_involutive.
  now apply trimStart_keeps.
Qed.

(** A buffer that holds a full stop does not trim to nothing. *)
Lemma trim_full_stop (s : jsstring) : In 46%N s -> trim s <> [].
Proof.
  intros Hin Htrim.
  pose proof (trim_keeps 46%N s Hin eq_refl) as H.
  rewrite Htrim in H. contradiction.
Qed.

Lemma truthy_true (s : jsstring) : truthy s = true <-> s <> [].
Proof. destruct s; simpl; split; congruence. Qed.

Lemma chunkStep_invariant (chunkSize overlap : Z)
      (st : list jsstring * jsstring) (sentence : jsstring) :
  chunkInvariant st -> chunkInvariant (chunkStep chunkSize overlap st sentence).
Proof.
  destruct st as [chunks cur]. intros [Hchunks Hcur]. cbn [fst snd] in *.
  unfold chunkStep.
  destruct (closes chunkSize cur sentence) eqn:E.
  - split; cbn [fst snd].
    + apply Forall_app. split; [exact Hchunks|].
      constructor; [|constructor].
      unfold closes in E. apply andb_true_iff in E. destruct E as [_ E].
      apply truthy_true in E. destruct Hcur as [Hcur|Hcur]; [congruence|].
      now apply trim_full_stop.
    + right. rewrite !in_app_iff. right. right. now left.
  - split; cbn [fst snd]; [exact Hchunks|].
    right. rewrite !in_app_iff. right. right. now left.
Qed.

Lemma chunkLoop_invariant (chunkSize overlap : Z) (sentences : list jsstring) :
  chunkInvariant (chunkLoop chunkSize overlap sentences).
Proof.
  unfold chunkLoop.
  assert (H : forall st, chunkInvariant st ->
              chunkInvariant
                (fold_left (chunkStep chunkSize overlap) sentences st)).
  { induction sentences as [|x l IH]; intros st Hst; [exact Hst|].
    cbn [fold_left]. apply IH. now apply chunkStep_invariant. }
  apply H. split; [constructor | now left].
Qed.

Lemma accumulated_nonempty_chunks (text : jsstring) (chunkSize overlap : Z) :
  Forall (fun c => c <> []) (accumulated text chunkSize overlap).
Proof.
  unfold accumulated.
  pose proof (chunkLoop_invariant chunkSize overlap (sentencesOf text)) as H.
  destruct (chunkLoop chunkSize overlap (sentencesOf text)) as [chunks cur].
  destruct H as [Hchunks _]. cbn [fst] in Hchunks.
  destruct (truthy (trim cur)) eqn:E; [|exact Hchunks].
  apply Forall_app. split; [exact Hchunks|].
  constructor; [|constructor]. now apply truthy_true.
Qed.

Lemma accumulated_no_sentence (text : jsstring) (chunkSize overlap : Z) :
  sentencesOf text = [] -> accumulated text chunkSize overlap = [].
Proof. intros H. unfold accumulated. rewrite H. reflexivity. Qed.

End ChunkerFacts.

(** C7.  For every non-empty text, [splitIntoChunks] returns a non-empty
    list of non-empty chunks; when the loop and the flush after it produce
    no chunk, as for a text with no sentence in it, the result is the text
    itself as the only chunk. *)
Theorem splitIntoChunks_nonempty (text : jsstring) (chunkSize overlap : Z) :
  text <> [] ->
  AI.splitIntoChunks text chunkSize overlap <> []
  /\ Forall (fun c => c <> []) (AI.splitIntoChunks text chunkSize overlap)
  /\ (AI.accumulated text chunkSize overlap = [] ->
      AI.splitIntoChunks text chunkSize overlap = [text])
  /\ (AI.sentencesOf text = [] ->
      AI.splitIntoChunks text chunkSize overlap = [text]).
Proof.
  intros Htext.
  assert (Hnone : AI.accumulated text chunkSize overlap = [] ->
                  AI.splitIntoChunks text chunkSize overlap = [text]).
  { intros H. unfold AI.splitIntoChunks. now rewrite H. }
  split; [|split; [|split]].
  - unfold AI.splitIntoChunks.
    destruct (AI.accumulated text chunkSize overlap); simpl; congruence.
  - unfold AI.splitIntoChunks.
    pose proof (accumulated_nonempty_chunks text chunkSize overlap) as H.
    destruct (AI.accumulated text chunkSize overlap); simpl.
    + constructor; [exact Htext | constructor].
    + exact H.
  - exact Hnone.
  - intros H. apply Hnone. now apply accumulated_no_sentence.
Qed.

Lemma splitIntoChunks_nonempty_witness :
  str "   " <> []
  /\ AI.splitIntoChunks (str "   ") 500 50 = [str "   "].
Proof.
  assert (H : str "   " <> []) by discriminate.
  split; [exact H|].
  exact (proj2 (proj2 (proj2 (splitIntoChunks_nonempty 500 50 H))) eq_refl).
Defined.

Section OverlapFacts.

Import AI.

Local Open Scope Z_scope.

Lemma closes_iff (chunkSize : Z) (currentChunk sentence : jsstring) :
  closes chunkSize currentChunk sentence = true
  <-> JsString.length (currentChunk ++ sentence) > chunkSize
      /\ currentChunk <> [].
Proof.
  unfold closes. rewrite andb_true_iff, Z.gtb_gt.
  destruct currentChunk; simpl; split; intros [H1 H2]; split;
    congruence || lia || exact H1.
Qed.

Lemma overlapStart_tens (overlap : Z) :
  10 <= overlap ->
  overlapStart overlap = - (overlap / 10) /\ 0 < overlap / 10.
Proof.
  intros H. unfold overlapStart. split.
  - rewrite Z.quot_opp_l by lia. rewrite Z.quot_div_nonneg by lia.
    reflexivity.
  - apply Z.div_str_pos. lia.
Qed.

(** With an overlap of 10 or more, the pieces kept are the last
    [overlap / 10] pieces of the buffer, or all of them. *)
Lemma overlapWords_last (overlap : Z) (currentChunk : jsstring) :
  10 <= overlap ->
  overlapWords overlap currentChunk
  = skipn (List.length (splitSpaces currentChunk)
           - Z.to_nat (overlap / 10))
          (splitSpaces currentChunk).
Proof.
  intros H. unfold overlapWords.
  destruct (overlapStart_tens H) as [-> Hpos].
  now apply sliceFrom_last.
Qed.

Lemma overlapWords_count (overlap : Z) (currentChunk : jsstring) :
  10 <= overlap ->
  List.length (overlapWords overlap currentChunk)
  = Nat.min (Z.to_nat (overlap / 10))
            (List.length (splitSpaces currentChunk)).
Proof.
  intros H. rewrite overlapWords_last by exact H.
  rewrite length_skipn. lia.
Qed.

(** With an overlap below 10 and not negative, every piece is kept. *)
Lemma overlapWords_all (overlap : Z) (currentChunk : jsstring) :
  0 <= overlap < 10 ->
  overlapWords overlap currentChunk = splitSpaces currentChunk.
Proof.
  intros H. unfold overlapWords, overlapStart.
  replace (Z.quot (- overlap) 10) with 0.
  - apply sliceFrom_zero.
  - symmetry. rewrite Z.quot_opp_l by lia.
    rewrite Z.quot_small by lia. reflexivity.
Qed.

(** With a negative overlap, the start is positive: leading pieces are
    dropped and the rest is kept. *)
Lemma overlapWords_negative (overlap : Z) (currentChunk : jsstring) :
  overlap <= 0 ->
  overlapWords overlap currentChunk
  = skipn (Z.to_nat ((- overlap) / 10)) (splitSpaces currentChunk).
Proof.
  intros H. unfold overlapWords, overlapStart.
  rewrite Z.quot_div_nonneg by lia.
  apply sliceFrom_skip. apply Z.div_pos; lia.
Qed.

End OverlapFacts.

(** C6 (amended).  A turn of the chunker's loop closes the chunk exactly
    when the buffer with the next sentence appended is longer than
    targetSize and the buffer is not empty; it then pushes the trimmed
    buffer and seeds the next buffer with trailing space-separated pieces
    of the closed buffer, joined by spaces and followed by a space: for an
    overlapHint of 10 or more, the last floor(overlapHint / 10) pieces, or
    all the pieces when the buffer has fewer. *)
Theorem chunkStep_closes_and_seeds
        (chunkSize overlap : Z) (chunks : list jsstring)
        (currentChunk sentence : jsstring) :
  (AI.closes chunkSize currentChunk sentence = true
   <-> (JsString.length (currentChunk ++ sentence) > chunkSize)%Z
       /\ currentChunk <> [])
  /\ (AI.closes chunkSize currentChunk sentence = true ->
      AI.chunkStep chunkSize overlap (chunks, currentChunk) sentence
      = (chunks ++ [trim currentChunk],
         AI.overlapSeed overlap currentChunk ++ sentence ++ AI.sentenceEnd))
  /\ (AI.closes chunkSize currentChunk sentence = false ->
      AI.chunkStep chunkSize overlap (chunks, currentChunk) sentence
      = (chunks, currentChunk ++ sentence ++ AI.sentenceEnd))
  /\ ((10 <= overlap)%Z ->
      let words := splitSpaces currentChunk in
      let kept := skipn (List.length words - Z.to_nat (overlap / 10)) words in
      AI.overlapWords overlap currentChunk = kept
      /\ List.length kept
         = Nat.min (Z.to_nat (Spec.retainedWords overlap))
                   (List.length words)
      /\ AI.overlapSeed overlap currentChunk = join [space] kept ++ [space]).
Proof.
  split; [apply closes_iff|]. split; [|split].
  - intros H. unfold AI.chunkStep. now rewrite H.
  - intros H. unfold AI.chunkStep. now rewrite H.
  - intros H. cbv zeta.
    pose proof (overlapWords_last currentChunk H) as Hw.
    split; [exact Hw|]. split.
    + rewrite <- Hw, overlapWords_count by exact H.
      unfold Spec.retainedWords. f_equal.
      assert (0 < overlap / 10)%Z by (apply Z.div_str_pos; lia). lia.
    + unfold AI.overlapSeed. now rewrite Hw.
Qed.

Lemma chunkStep_closes_and_seeds_witness :
  (10 <= 20)%Z
  /\ AI.overlapWords 20 (str "a b c d e f g. ") = [str "g."; []].
Proof.
  split; [lia|].
  assert (H : (10 <= 20)%Z) by lia.
  exact (proj1 (proj2 (proj2 (proj2
           (chunkStep_closes_and_seeds 0 20 [] (str "a b c d e f g. ") []))) H)).
Defined.

(** C6 as stated fails where the closed buffer has fewer pieces than
    floor(overlapHint / 10): closing ["aaaa. "] with the default overlap of
    50 keeps its two pieces (one word and the empty piece after the last
    space), not five.  A longer buffer keeps five pieces, of which the last
    is that empty piece: four words. *)
Lemma chunker_keeps_fewer_words :
  AI.closes 3 (str "aaaa. ") (str " bbbb") = true
  /\ AI.chunkStep 3 50 ([], str "aaaa. ") (str " bbbb")
     = ([str "aaaa."], str "aaaa.   bbbb. ")
  /\ AI.overlapWords 50 (str "aaaa. ") = [str "aaaa."; []]
  /\ Spec.retainedWords 50 = 5%Z
  /\ Z.of_nat (List.length (AI.overlapWords 50 (str "aaaa. ")))
     <> Spec.retainedWords 50
  /\ AI.splitIntoChunks (str "aaaa. bbbb") 3 50
     = [str "aaaa."; str "aaaa.   bbbb."]
  /\ AI.overlapWords 50 (str "a b c d e f g. ")
     = [str "d"; str "e"; str "f"; str "g."; []].
Proof.
  repeat split; try (vm_compute; reflexivity). vm_compute. discriminate.
Qed.

(** With an overlap hint below 10, [slice] receives zero and keeps the
    whole buffer. *)
Lemma chunker_overlap_zero_keeps_all :
  AI.overlapWords 0 (str "a b c. ") = [str "a"; str "b"; str "c."; []]
  /\ Spec.retainedWords 0 = 0%Z.
Proof. split; vm_compute; reflexivity. Qed.

(** ** The document lifecycle *)

Section MapFacts.

Variable V : Type.

Lemma get_set_same (m : JsMap.t V) (k : jsstring) (v : V) :
  JsMap.get (JsMap.set m k v) k = Some v.
Proof.
  induction m as [|[k' v'] m IH]; cbn [JsMap.set JsMap.get].
  - now rewrite eqb_refl.
  - destruct (JsString.eqb k' k) eqn:E; cbn [JsMap.get]; rewrite E.
    + reflexivity.
    + exact IH.
Qed.

Lemma get_set_other (m : JsMap.t V) (k k' : jsstring) (v : V) :
  k' <> k -> JsMap.get (JsMap.set m k v) k' = JsMap.get m k'.
Proof.
  intros Hne. induction m as [|[k0 v0] m IH]; cbn [JsMap.set JsMap.get].
  - assert (E : JsString.eqb k k' = false) by (apply eqb_neq; congruence).
    now rewrite E.
  - destruct (JsString.eqb k0 k) eqn:E; cbn [JsMap.get].
    + apply eqb_eq in E. subst k0.
      assert (E' : JsString.eqb k k' = false) by (apply eqb_neq; congruence).
      now rewrite E'.
    + now rewrite IH.
Qed.

Lemma get_In_values (m : JsMap.t V) (k : jsstring) (v : V) :
  JsMap.get m k = Some v -> In v (JsMap.values m).
Proof.
  induction m as [|[k' v'] m IH]; cbn [JsMap.get]; [discriminate|].
  destruct (JsString.eqb k' k).
  - intros [= ->]. now left.
  - intros H. right. now apply IH.
Qed.

Lemma delete_absent (m : JsMap.t V) (k : jsstring) :
  JsMap.get m k = None -> JsMap.delete m k = m.
Proof.
  induction m as [|[k' v'] m IH]; [reflexivity|].
  unfold JsMap.delete in *. cbn [JsMap.get filter fst].
  destruct (JsString.eqb k' k); [discriminate|].
  intros H. cbn [negb]. now rewrite IH.
Qed.

End MapFacts.

Section LifecycleFacts.

Import Docs.

Lemma failed_recorded (ds : DocumentService) (key : jsstring)
      (document : Document) (e : Thrown) :
  JsMap.get (documents (failed ds key document e)) key
  = Some (withError (withStatus document error) (messageOf e)).
Proof. unfold failed, publish. cbn. apply get_set_same. Qed.

Lemma publish_other (ds : DocumentService) (key other : jsstring)
      (document : Document) :
  other <> key ->
  JsMap.get (documents (publish ds key document)) other
  = JsMap.get (documents ds) other.
Proof. intros H. unfold publish. cbn. now apply get_set_other. Qed.

Lemma store_other (ds : DocumentService) (key other : jsstring)
      (document : Document) :
  other <> key ->
  JsMap.get (documents (store ds key document)) other
  = JsMap.get (documents ds) other.
Proof. intros H. unfold store. cbn. now apply get_set_other. Qed.

Lemma failed_other (ds : DocumentService) (key other : jsstring)
      (document : Document) (e : Thrown) :
  other <> key ->
  JsMap.get (documents (failed ds key document e)) other
  = JsMap.get (documents ds) other.
Proof. intros H. unfold failed. now apply publish_other. Qed.

(** The subscribers' last list is the list of the documents at that time. *)
Lemma failed_notified (ds : DocumentService) (key : jsstring)
      (document : Document) (e : Thrown) :
  last (notified (failed ds key document e)) []
  = getAllDocuments (failed ds key document e).
Proof.
  unfold failed, publish, notifyUpdate. cbn [notified].
  rewrite last_last. reflexivity.
Qed.

Lemma listed (ds : DocumentService) (key : jsstring) (document : Document) :
  JsMap.get (documents ds) key = Some document ->
  In document (getAllDocuments ds).
Proof.
  intros H. unfold getAllDocuments. apply sort_In.
  eapply get_In_values; eauto.
Qed.

End LifecycleFacts.

Section FailureFacts.

Import Docs.

Lemma failed_recordedFailure (before ds : DocumentService) (key : jsstring)
      (document : Document) (e : Thrown) :
  (forall other, other <> key ->
                 JsMap.get (documents ds) other
                 = JsMap.get (documents before) other) ->
  Spec.recordedFailure before (failed ds key document e) key e.
Proof.
  intros Hframe. split; [|split].
  - exists (withError (withStatus document error) (messageOf e)).
    pose proof (failed_recorded ds key document e) as H.
    split; [exact H|]. split; [reflexivity|]. split; [reflexivity|].
    eapply listed; eauto.
  - intros other Hne. rewrite failed_other by exact Hne. now apply Hframe.
  - apply failed_notified.
Qed.

End FailureFacts.

(** C8.  When content extraction or indexing fails during an upload, or
    indexing fails during an update, the document is left in the document
    set in state [error] with the message of the failure, the other
    documents are untouched, the subscribers are told, and the call ends
    by handing the failure to its caller. *)
Theorem failure_moves_document_to_error
        (A : Arith) (S : Sine A)
        (fetchEmbedding : jsstring -> jsstring -> option AI.EmbeddingResult)
        (toLowerCase : jsstring -> jsstring)
        (pdfPlaceholder docxPlaceholder : Docs.File -> jsstring) :
  (forall newId tUploaded tUpdated tIndexed fault file sys e,
      (Docs.extractContent toLowerCase pdfPlaceholder docxPlaceholder file
       = Docs.Threw e
       \/ exists c turns,
          Docs.extractContent toLowerCase pdfPlaceholder docxPlaceholder file
          = Docs.Returned c
          /\ fault = Some (turns, e)) ->
      let result :=
        Docs.uploadFile fetchEmbedding toLowerCase pdfPlaceholder
                        docxPlaceholder newId tUploaded tUpdated tIndexed
                        fault file sys in
      snd result = Docs.Threw e
      /\ Spec.recordedFailure (Docs.docs sys) (Docs.docs (fst result))
                              newId e)
  /\ (forall now fault docId content sys document turns e,
         JsMap.get (Docs.documents (Docs.docs sys)) docId = Some document ->
         fault = Some (turns, e) ->
         let result :=
           Docs.updateDocument fetchEmbedding now fault docId content sys in
         snd result = Docs.Threw e
         /\ Spec.recordedFailure (Docs.docs sys) (Docs.docs (fst result))
                                 docId e).
Proof.
  split.
  - intros newId tUploaded tUpdated tIndexed fault file sys e Hfail.
    cbv zeta. unfold Docs.uploadFile.
    destruct Hfail as [Hx | [c [turns [Hx Hf]]]]; rewrite Hx.
    + cbn [fst snd Docs.docs]. split; [reflexivity|].
      apply failed_recordedFailure.
      intros other Hne. now rewrite !publish_other by exact Hne.
    + subst fault. cbn [Docs.awaitIndex fst snd Docs.docs].
      split; [reflexivity|].
      apply failed_recordedFailure.
      intros other Hne.
      rewrite store_other by exact Hne.
      now rewrite !publish_other by exact Hne.
  - intros now fault docId content sys document turns e Hget Hf.
    cbv zeta. unfold Docs.updateDocument. rewrite Hget. subst fault.
    cbn [Docs.awaitIndex fst snd Docs.docs].
    split; [reflexivity|].
    apply failed_recordedFailure.
    intros other Hne. now rewrite publish_other by exact Hne.
Qed.

Lemma failure_moves_document_to_error_witness :
  (Docs.extractContent Sample.asciiLower Sample.placeholder
                       Sample.placeholder Sample.unreadable
   = Docs.Threw (Docs.ErrorObject (str "The file could not be read"))
   /\ Spec.recordedFailure
        (Docs.docs Sample.emptySystem)
        (Docs.docs
           (fst (Docs.uploadFile Sample.offline Sample.asciiLower
                                 Sample.placeholder Sample.placeholder
                                 (str "id-1") 1 1 2 None Sample.unreadable
                                 Sample.emptySystem)))
        (str "id-1")
        (Docs.ErrorObject (str "The file could not be read")))
  /\ (Docs.extractContent Sample.asciiLower Sample.placeholder
                          Sample.placeholder Cases.readable
      = Docs.Returned (str "One. Two")
      /\ Spec.recordedFailure
           (Docs.docs Sample.emptySystem)
           (Docs.docs
              (fst (Docs.uploadFile Sample.offline Sample.asciiLower
                                    Sample.placeholder Sample.placeholder
                                    (str "id-2") 1 1 2
                                    (Some (1%nat, Docs.OtherValue))
                                    Cases.readable Sample.emptySystem)))
           (str "id-2") Docs.OtherValue)
  /\ (JsMap.get (Docs.documents (Docs.docs Cases.oneDoc)) (str "d1")
      = Some Cases.doc1
      /\ Spec.recordedFailure
           (Docs.docs Cases.oneDoc)
           (Docs.docs
              (fst (Docs.updateDocument
                      Sample.offline 3
                      (Some (0%nat, Docs.ErrorObject (str "The index is full")))
                      (str "d1") (str "Three") Cases.oneDoc)))
           (str "d1") (Docs.ErrorObject (str "The index is full"))).
Proof.
  assert (H1 : Docs.extractContent Sample.asciiLower Sample.placeholder
                 Sample.placeholder Sample.unreadable
               = Docs.Threw
                   (Docs.ErrorObject (str "The file could not be read")))
    by reflexivity.
  assert (H2 : Docs.extractContent Sample.asciiLower Sample.placeholder
                 Sample.placeholder Cases.readable
               = Docs.Returned (str "One. Two")) by reflexivity.
  assert (H3 : JsMap.get (Docs.documents (Docs.docs Cases.oneDoc)) (str "d1")
               = Some Cases.doc1) by reflexivity.
  split; [split; [exact H1|] | split; [split; [exact H2|] | split; [exact H3|]]].
  - exact (proj2 (proj1 (failure_moves_document_to_error
                           RSine Sample.offline Sample.asciiLower
                           Sample.placeholder Sample.placeholder)
                        (str "id-1") 1%Z 1%Z 2%Z None Sample.unreadable
                        Sample.emptySystem _ (or_introl H1))).
  - exact (proj2 (proj1 (failure_moves_document_to_error
                           RSine Sample.offline Sample.asciiLower
                           Sample.placeholder Sample.placeholder)
                        (str "id-2") 1%Z 1%Z 2%Z
                        (Some (1%nat, Docs.OtherValue)) Cases.readable
                        Sample.emptySystem Docs.OtherValue
                        (or_intror
                           (ex_intro _ (str "One. Two")
                              (ex_intro _ 1%nat (conj H2 eq_refl)))))).
  - exact (proj2 (proj2 (failure_moves_document_to_error
                           RSine Sample.offline Sample.asciiLower
                           Sample.placeholder Sample.placeholder)
                        3%Z
                        (Some (0%nat,
                               Docs.ErrorObject (str "The index is full")))
                        (str "d1") (str "Three") Cases.oneDoc Cases.doc1
                        0%nat (Docs.ErrorObject (str "The index is full"))
                        H3 eq_refl)).
Defined.

(** C9 (amended).  For an identifier that names no document,
    [updateDocument] throws the error "Document not found" and changes
    nothing, while [deleteDocument] returns normally and leaves the
    document set as it was; listing and searching with no data give the
    empty list. *)
Theorem unknown_identifier_outcomes
        (A : Arith) (S : Sine A)
        (fetchEmbedding : jsstring -> jsstring -> option AI.EmbeddingResult)
        (toLowerCase : jsstring -> jsstring) :
  (forall now fault docId content (sys : Docs.System),
      JsMap.get (Docs.documents (Docs.docs sys)) docId = None ->
      Docs.updateDocument fetchEmbedding now fault docId content sys
      = (sys, Docs.Threw (Docs.ErrorObject (str "Document not found"))))
  /\ (forall docId (sys : @Docs.System A),
         JsMap.get (Docs.documents (Docs.docs sys)) docId = None ->
         snd (Docs.deleteDocument docId sys) = Docs.Returned tt
         /\ Docs.documents (Docs.docs (fst (Docs.deleteDocument docId sys)))
            = Docs.documents (Docs.docs sys))
  /\ (forall ds,
         Docs.documents ds = [] ->
         Docs.getAllDocuments ds = []
         /\ forall query, Docs.searchByTitle toLowerCase ds query = [])
  /\ (forall place clock (svc : AI.AIService) query topK,
         AI.vectorStore svc = [] ->
         AI.searchDocuments fetchEmbedding place clock svc query topK = []).
Proof.
  split; [|split; [|split]].
  - intros now fault docId content sys Hget.
    unfold Docs.updateDocument. now rewrite Hget.
  - intros docId sys Hget. split; [reflexivity|].
    cbn. now apply delete_absent.
  - intros ds Hds. unfold Docs.searchByTitle, Docs.getAllDocuments.
    rewrite Hds. split; [reflexivity|]. intros query. reflexivity.
  - intros place clock svc query topK Hstore.
    unfold AI.searchDocuments, AI.topResults. rewrite Hstore.
    unfold JsArray.slice. cbn. now rewrite firstn_nil.
Qed.

Lemma unknown_identifier_outcomes_witness :
  JsMap.get (Docs.documents (Docs.docs Sample.emptySystem)) (str "ghost")
  = None
  /\ Docs.updateDocument Sample.offline 5 None (str "ghost") (str "text")
                         Sample.emptySystem
     = (Sample.emptySystem,
        Docs.Threw (Docs.ErrorObject (str "Document not found"))).
Proof.
  split; [reflexivity|].
  exact (proj1 (unknown_identifier_outcomes RSine Sample.offline
                  Sample.asciiLower)
               5%Z None (str "ghost") (str "text") Sample.emptySystem
               eq_refl).
Defined.

(** C9 as stated fails for [deleteDocument]: deleting an identifier that
    names no document returns normally, with no "not found" failure. *)
Lemma deleteDocument_unknown_returns :
  JsMap.get (Docs.documents (Docs.docs Sample.emptySystem)) (str "ghost")
  = None
  /\ snd (Docs.deleteDocument (str "ghost") Sample.emptySystem)
     = Docs.Returned tt
  /\ snd (Docs.deleteDocument (str "ghost") Sample.emptySystem)
     <> Docs.Threw (Docs.ErrorObject (str "Document not found")).
Proof. repeat split; try reflexivity. discriminate. Qed.

(* ================================================================= *)
(** * Further properties *)


(** ** Chunk identifiers *)

Section KeyFacts.

Import AI.

Lemma str_injective (s t : string) : str s = str t -> s = t.
Proof.
  unfold str. intros H.
  rewrite <- (string_of_list_ascii_of_string s).
  rewrite <- (string_of_list_ascii_of_string t).
  f_equal. revert H.
  generalize (list_ascii_of_string s) (list_ascii_of_string t).
  induction l as [|a l IH]; intros [|b l'] H; try discriminate.
  - reflexivity.
  - cbn [List.map] in H. injection H as Hab Hl.
    f_equal; [|now apply IH].
    rewrite <- (ascii_N_embedding a), <- (ascii_N_embedding b).
    now rewrite Hab.
Qed.

Lemma decimal_injective (i j : nat) : decimal i = decimal j -> i = j.
Proof.
  unfold decimal. intros H. apply str_injective in H.
  assert (P : forall d,
             option_map Nat.of_uint
                        (NilZero.uint_of_string (NilZero.string_of_uint d))
             = Some (Nat.of_uint d)).
  { intros d. destruct d; [reflexivity|..];
      rewrite NilZero.usu by discriminate; reflexivity. }
  pose proof (P (Nat.to_uint i)) as Hi. pose proof (P (Nat.to_uint j)) as Hj.
  rewrite H in Hi. rewrite Hi in Hj. injection Hj as Hj.
  now rewrite !DecimalNat.Unsigned.of_to in Hj.
Qed.
End KeyFacts.

Section KeyFacts2.

Import AI.

Lemma decimal_digits (i : nat) : forallb Inv.isDigit (decimal i) = true.
Proof.
  unfold decimal.
  assert (P : forall d,
             forallb Inv.isDigit (str (NilEmpty.string_of_uint d)) = true).
  { induction d; cbn [NilEmpty.string_of_uint]; try reflexivity;
      unfold str in *; cbn [list_ascii_of_string List.map forallb];
      rewrite IHd; reflexivity. }
  destruct (Nat.to_uint i); try apply P. reflexivity.
Qed.

(** Two lists that agree after their first [x] agree before it. *)
Lemma split_at_first (T : Type) (x : T) (a1 : list T) :
  forall a2 b1 b2 : list T,
    a1 ++ x :: b1 = a2 ++ x :: b2 -> ~ In x a1 -> ~ In x a2 ->
    a1 = a2 /\ b1 = b2.
Proof.
  induction a1 as [|c a1 IH]; intros [|d a2] b1 b2 H H1 H2.
  - injection H as H. now split.
  - injection H as Hc H. subst d. exfalso. apply H2. now left.
  - injection H as Hc H. subst c. exfalso. apply H1. now left.
  - injection H as Hc H. subst d.
    destruct (IH a2 b1 b2 H) as [-> ->].
    + intros Hin. apply H1. now right.
    + intros Hin. apply H2. now right.
    + now split.
Qed.

Lemma digits_no_hyphen (l : jsstring) :
  forallb Inv.isDigit l = true -> ~ In 45%N l.
Proof.
  intros H Hin. rewrite forallb_forall in H. specialize (H _ Hin).
  discriminate.
Qed.

Lemma chunkKey_injective_facts (d1 d2 : jsstring) (i j : nat) :
  chunkKey d1 i = chunkKey d2 j -> d1 = d2 /\ i = j.
Proof.
  unfold chunkKey. intros H.
  apply (f_equal (@rev N)) in H.
  rewrite !rev_app_distr in H.
  change (rev (str "-chunk-")) with (45%N :: str "knuhc-") in H.
  rewrite <- !app_assoc in H. cbn [app] in H.
  apply split_at_first in H.
  - destruct H as [Hdec H].
    apply (f_equal (@rev N)) in Hdec. rewrite !rev_involutive in Hdec.
    apply decimal_injective in Hdec.
    apply app_inv_head in H.
    apply (f_equal (@rev N)) in H. rewrite !rev_involutive in H.
    now split.
  - intros Hin. apply in_rev in Hin.
    now apply (@digits_no_hyphen (decimal i) (decimal_digits i)).
  - intros Hin. apply in_rev in Hin.
    now apply (@digits_no_hyphen (decimal j) (decimal_digits j)).
Qed.

End KeyFacts2.

(** ** More facts on lists *)

Section MoreListFacts.

Lemma filter_none (X : Type) (f : X -> bool) (l : list X) :
  (forall x, In x l -> f x = false) -> filter f l = [].
Proof.
  induction l as [|x l IH]; intros H; [reflexivity|]. cbn [filter].
  rewrite (H x) by now left. apply IH. intros y Hy. apply H. now right.
Qed.

Lemma filter_all (X : Type) (f : X -> bool) (l : list X) :
  (forall x, In x l -> f x = true) -> filter f l = l.
Proof.
  induction l as [|x l IH]; intros H; [reflexivity|]. cbn [filter].
  rewrite (H x) by now left. f_equal. apply IH. intros y Hy. apply H.
  now right.
Qed.

Lemma NoDup_filter (X : Type) (f : X -> bool) (l : list X) :
  NoDup l -> NoDup (filter f l).
Proof.
  induction 1 as [|x l Hx Hnd IH]; cbn [filter]; [constructor|].
  destruct (f x); [|exact IH]. constructor; [|exact IH].
  intros H. apply filter_In in H. tauto.
Qed.

Lemma nodup_length_same (l l' : list jsstring) :
  (forall x, In x l <-> In x l') ->
  List.length (nodup (list_eq_dec N.eq_dec) l)
  = List.length (nodup (list_eq_dec N.eq_dec) l').
Proof.
  intros H. apply Permutation_length. apply NoDup_Permutation.
  - apply NoDup_nodup.
  - apply NoDup_nodup.
  - intros x. rewrite !nodup_In. apply H.
Qed.

Lemma NoDup_firstn (X : Type) (n : nat) (l : list X) :
  NoDup l -> NoDup (firstn n l).
Proof.
  intros H. revert n. induction H as [|x l Hx Hnd IH]; intros [|n];
    cbn [firstn]; try constructor.
  - intros Hin. apply Hx. now apply In_firstn in Hin.
  - apply IH.
Qed.

Lemma numbered_from (l : list jsstring) :
  forall (s i : nat) (x : jsstring),
    In (i, x) (combine (seq s (List.length l)) l)
    <-> (s <= i)%nat /\ nth_error l (i - s) = Some x.
Proof.
  induction l as [|y l IH]; intros s i x; cbn [List.length seq combine].
  - split; [intros [] | intros [_ H]]. now destruct (i - s)%nat.
  - cbn [In]. rewrite IH. split.
    + intros [[= <- <-] | [Hle Hn]].
      * rewrite Nat.sub_diag. split; [lia | reflexivity].
      * split; [lia|]. replace (i - s)%nat with (Datatypes.S (i - Datatypes.S s))
          by lia. exact Hn.
    + intros [Hle Hn]. destruct (Nat.eq_dec i s) as [->|Hne].
      * rewrite Nat.sub_diag in Hn. cbn in Hn. injection Hn as ->. now left.
      * right. split; [lia|].
        replace (i - s)%nat with (Datatypes.S (i - Datatypes.S s)) in Hn by lia.
        exact Hn.
Qed.

Lemma numbered_In (l : list jsstring) (i : nat) (x : jsstring) :
  In (i, x) (AI.numbered l) <-> nth_error l i = Some x.
Proof.
  unfold AI.numbered. rewrite numbered_from, Nat.sub_0_r.
  split; [tauto | split; [lia | assumption]].
Qed.

Lemma numbered_indices (l : list jsstring) :
  List.map fst (AI.numbered l) = seq 0 (List.length l).
Proof.
  unfold AI.numbered. generalize 0%nat.
  induction l as [|y l IH]; intros s; [reflexivity|].
  cbn [List.length seq combine List.map fst]. now rewrite IH.
Qed.

End MoreListFacts.

(** ** More facts on maps *)

Section MoreMapFacts.

Variable V : Type.

Lemma get_None_keys (m : JsMap.t V) (k : jsstring) :
  JsMap.get m k = None <-> ~ In k (JsMap.keys m).
Proof.
  induction m as [|[k' v'] m IH]; cbn [JsMap.get JsMap.keys List.map fst].
  - split; [intros _ [] | reflexivity].
  - destruct (JsString.eqb k' k) eqn:E.
    + apply eqb_eq in E. subst k'. split; [discriminate|].
      intros H. exfalso. apply H. now left.
    + apply eqb_neq in E. rewrite IH. unfold JsMap.keys. simpl.
      tauto.
Qed.

Lemma get_Some_In (m : JsMap.t V) (k : jsstring) (v : V) :
  JsMap.get m k = Some v -> In (k, v) m.
Proof.
  induction m as [|[k' v'] m IH]; cbn [JsMap.get]; [discriminate|].
  destruct (JsString.eqb k' k) eqn:E.
  - apply eqb_eq in E. subst k'. intros [= ->]. now left.
  - intros H. right. now apply IH.
Qed.

Lemma In_get_NoDup (m : JsMap.t V) (k : jsstring) (v : V) :
  NoDup (JsMap.keys m) -> In (k, v) m -> JsMap.get m k = Some v.
Proof.
  induction m as [|[k' v'] m IH]; cbn [JsMap.keys List.map fst];
    intros Hnd Hin; [contradiction|].
  inversion Hnd as [|? ? Hk Hnd']; subst.
  cbn [JsMap.get]. destruct Hin as [Heq | Hin].
  - injection Heq as -> ->. now rewrite eqb_refl.
  - destruct (JsString.eqb k' k) eqn:E.
    + apply eqb_eq in E. subst k'. exfalso. apply Hk.
      change k with (fst (k, v)). now apply in_map.
    + now apply IH.
Qed.

Lemma NoDup_keys_unique (m : JsMap.t V) (e e' : jsstring * V) :
  NoDup (JsMap.keys m) -> In e m -> In e' m -> fst e = fst e' -> e = e'.
Proof.
  intros Hnd He He' Hk. destruct e as [k v], e' as [k' v']. cbn in Hk.
  subst k'. pose proof (In_get_NoDup _ _ _ Hnd He) as H1.
  pose proof (In_get_NoDup _ _ _ Hnd He') as H2. congruence.
Qed.

Lemma set_In (m : JsMap.t V) (k : jsstring) (v : V) (e : jsstring * V) :
  In e (JsMap.set m k v) -> e = (k, v) \/ In e m.
Proof.
  induction m as [|[k' v'] m IH]; cbn [JsMap.set].
  - intros [<-|[]]. now left.
  - destruct (JsString.eqb k' k) eqn:E.
    + apply eqb_eq in E. subst k'. intros [<-|H]; [now left|].
      right. now right.
    + intros [<-|H]; [right; now left|].
      destruct (IH H) as [->|H']; [now left | right; now right].
Qed.

Lemma set_absent (m : JsMap.t V) (k : jsstring) (v : V) :
  JsMap.get m k = None -> JsMap.set m k v = m ++ [(k, v)].
Proof.
  induction m as [|[k' v'] m IH]; cbn [JsMap.get JsMap.set]; [reflexivity|].
  destruct (JsString.eqb k' k); [discriminate|].
  intros H. cbn [app]. now rewrite IH.
Qed.

Lemma set_present_same (m : JsMap.t V) (k : jsstring) (v : V) :
  JsMap.get m k = Some v -> JsMap.set m k v = m.
Proof.
  induction m as [|[k' v'] m IH]; cbn [JsMap.get JsMap.set]; [discriminate|].
  destruct (JsString.eqb k' k) eqn:E.
  - intros [= ->]. reflexivity.
  - intros H. now rewrite IH.
Qed.

Lemma keys_set (m : JsMap.t V) (k : jsstring) (v : V) :
  JsMap.keys (JsMap.set m k v)
  = if JsMap.has m k then JsMap.keys m else JsMap.keys m ++ [k].
Proof.
  unfold JsMap.has.
  induction m as [|[k' v'] m IH]; cbn [JsMap.get JsMap.set]; [reflexivity|].
  destruct (JsString.eqb k' k) eqn:E; [reflexivity|].
  unfold JsMap.keys in *. cbn [List.map fst]. rewrite IH.
  now destruct (JsMap.get m k).
Qed.

Lemma NoDup_keys_set (m : JsMap.t V) (k : jsstring) (v : V) :
  NoDup (JsMap.keys m) -> NoDup (JsMap.keys (JsMap.set m k v)).
Proof.
  intros Hnd. rewrite keys_set. unfold JsMap.has.
  destruct (JsMap.get m k) eqn:E; [exact Hnd|].
  apply get_None_keys in E.
  apply NoDup_rev in Hnd. rewrite <- (rev_involutive (_ ++ _)).
  apply NoDup_rev. rewrite rev_app_distr. cbn [rev app].
  constructor; [|exact Hnd]. intros H. apply E. now apply in_rev.
Qed.

Lemma keys_delete (m : JsMap.t V) (k : jsstring) :
  JsMap.keys (JsMap.delete m k)
  = filter (fun k' => negb (JsString.eqb k' k)) (JsMap.keys m).
Proof.
  unfold JsMap.delete, JsMap.keys.
  induction m as [|[k' v'] m IH]; [reflexivity|].
  cbn [filter List.map fst]. destruct (JsString.eqb k' k); cbn [negb List.map fst];
    now rewrite IH.
Qed.

(** Deleting a list of keys keeps the entries under the other keys. *)
Lemma delete_all_filter (keys : list jsstring) :
  forall m : JsMap.t V,
    fold_left (fun m key => JsMap.delete m key) keys m
    = filter (fun e => negb (existsb (JsString.eqb (fst e)) keys)) m.
Proof.
  induction keys as [|k keys IH]; intros m; cbn [fold_left existsb].
  - induction m as [|e m IHm]; [reflexivity|]. simpl. f_equal. exact IHm.
  - rewrite IH. unfold JsMap.delete.
    induction m as [|e m IHm]; [reflexivity|]. simpl.
    destruct (JsString.eqb (fst e) k); simpl; rewrite IHm; reflexivity.
Qed.

(** A run of [set] over entries under fresh, distinct keys appends them. *)
Lemma set_all_fresh (es : list (jsstring * V)) :
  forall m : JsMap.t V,
    NoDup (List.map fst es) ->
    (forall k, In k (List.map fst es) -> ~ In k (JsMap.keys m)) ->
    fold_left (fun m e => JsMap.set m (fst e) (snd e)) es m = m ++ es.
Proof.
  induction es as [|[k v] es IH]; intros m Hnd Hfresh; cbn [fold_left].
  - now rewrite app_nil_r.
  - cbn [List.map fst] in Hnd. inversion Hnd as [|? ? Hk Hnd']; subst.
    cbn [fst snd]. rewrite set_absent.
    + rewrite IH.
      * now rewrite <- app_assoc.
      * exact Hnd'.
      * intros k' Hk' Hin. unfold JsMap.keys in Hin.
        rewrite map_app, in_app_iff in Hin. destruct Hin as [Hin | [<-|[]]].
        -- apply (Hfresh k'); [now right | exact Hin].
        -- contradiction.
    + apply get_None_keys. apply Hfresh. now left.
Qed.

Lemma set_all_get_in (es : list (jsstring * V)) :
  forall (m : JsMap.t V) (k : jsstring) (v : V),
    NoDup (List.map fst es) -> In (k, v) es ->
    JsMap.get (fold_left (fun m e => JsMap.set m (fst e) (snd e)) es m) k
    = Some v.
Proof.
  induction es as [|[k0 v0] es IH]; intros m k v Hnd Hin; [contradiction|].
  cbn [List.map fst] in Hnd. inversion Hnd as [|? ? Hk Hnd']; subst.
  cbn [fold_left fst snd]. destruct Hin as [Heq | Hin].
  - injection Heq as -> ->.
    assert (Hout : forall (es' : list (jsstring * V)) m',
               ~ In k (List.map fst es') ->
               JsMap.get (fold_left (fun m e => JsMap.set m (fst e) (snd e))
                                    es' m') k
               = JsMap.get m' k).
    { induction es' as [|[k1 v1] es' IH']; intros m' Hn; [reflexivity|].
      cbn [fold_left fst snd]. rewrite IH'.
      - apply get_set_other. intros ->. apply Hn. now left.
      - intros H. apply Hn. now right. }
    rewrite Hout by exact Hk. apply get_set_same.
  - now apply IH.
Qed.

Lemma set_all_get_out (es : list (jsstring * V)) :
  forall (m : JsMap.t V) (k : jsstring),
    ~ In k (List.map fst es) ->
    JsMap.get (fold_left (fun m e => JsMap.set m (fst e) (snd e)) es m) k
    = JsMap.get m k.
Proof.
  induction es as [|[k1 v1] es IH]; intros m k Hn; [reflexivity|].
  cbn [fold_left fst snd]. rewrite IH.
  - apply get_set_other. intros ->. apply Hn. now left.
  - intros H. apply Hn. now right.
Qed.

Lemma set_all_In (es : list (jsstring * V)) :
  forall (m : JsMap.t V) (e : jsstring * V),
    In e (fold_left (fun m e => JsMap.set m (fst e) (snd e)) es m) ->
    In e es \/ In e m.
Proof.
  induction es as [|[k v] es IH]; intros m e H; [now right|].
  cbn [fold_left fst snd] in H. destruct (IH _ _ H) as [H'|H'].
  - left. now right.
  - destruct (set_In _ _ _ _ H') as [->|H'']; [left; now left | now right].
Qed.

Lemma set_all_NoDup (es : list (jsstring * V)) :
  forall m : JsMap.t V,
    NoDup (JsMap.keys m) ->
    NoDup (JsMap.keys
             (fold_left (fun m e => JsMap.set m (fst e) (snd e)) es m)).
Proof.
  induction es as [|[k v] es IH]; intros m H; [exact H|].
  cbn [fold_left]. apply IH. now apply NoDup_keys_set.
Qed.

Lemma set_all_same (es : list (jsstring * V)) :
  forall m : JsMap.t V,
    (forall k v, In (k, v) es -> JsMap.get m k = Some v) ->
    fold_left (fun m e => JsMap.set m (fst e) (snd e)) es m = m.
Proof.
  induction es as [|[k v] es IH]; intros m H; [reflexivity|].
  cbn [fold_left fst snd]. rewrite set_present_same.
  - apply IH. intros k' v' Hin. apply H. now right.
  - apply H. now left.
Qed.

End MoreMapFacts.

(** ** Indexing *)

Section IndexFacts.

Context {A : Arith} {S : Sine A}.
Variable fetchEmbedding : jsstring -> jsstring -> option (@AI.EmbeddingResult A).

Import AI.

Lemma service_eq (s1 s2 : AIService) :
  apiKey s1 = apiKey s2 -> vectorStore s1 = vectorStore s2 -> s1 = s2.
Proof. destruct s1, s2. cbn. now intros -> ->. Qed.

Lemma chunkAt_apiKey (document : IndexRequest) (s1 s2 : AIService)
      (total i : nat) (text : jsstring) :
  apiKey s1 = apiKey s2 ->
  Indexed.chunkAt fetchEmbedding document s1 total i text
  = Indexed.chunkAt fetchEmbedding document s2 total i text.
Proof.
  intros H. unfold Indexed.chunkAt, generateEmbedding. now rewrite H.
Qed.

Lemma index_fold (document : IndexRequest) (total : nat)
      (l : list (nat * jsstring)) :
  forall svc,
    let after := fold_left (indexStep fetchEmbedding document total) l svc in
    apiKey after = apiKey svc
    /\ vectorStore after
       = fold_left (fun m e => JsMap.set m (fst e) (snd e))
           (List.map (fun ic =>
                        (chunkKey (req_id document) (fst ic),
                         Indexed.chunkAt fetchEmbedding document svc total
                                         (fst ic) (snd ic))) l)
           (vectorStore svc).
Proof.
  induction l as [|[i text] l IH]; intros svc; cbn zeta; [now split|].
  cbn [fold_left List.map fst snd].
  destruct (IH (indexStep fetchEmbedding document total svc (i, text)))
    as [Hk Hs].
  cbn zeta in Hk, Hs. rewrite Hk, Hs. split; reflexivity.
Qed.

Lemma indexDocument_fold (document : IndexRequest) (svc : AIService) :
  apiKey (indexDocument fetchEmbedding document svc) = apiKey svc
  /\ vectorStore (indexDocument fetchEmbedding document svc)
     = fold_left (fun m e => JsMap.set m (fst e) (snd e))
                 (Indexed.entriesOf fetchEmbedding document svc)
                 (vectorStore svc).
Proof.
  unfold indexDocument, indexChunks, Indexed.entriesOf.
  rewrite firstn_all2.
  - apply index_fold.
  - unfold numbered. rewrite length_combine, length_seq. lia.
Qed.

Lemma entriesOf_keys (document : IndexRequest) (svc : AIService) :
  List.map fst (Indexed.entriesOf fetchEmbedding document svc)
  = List.map (chunkKey (req_id document))
      (seq 0 (List.length
                (splitIntoChunks (req_content document) 500 defaultOverlap))).
Proof.
  unfold Indexed.entriesOf. rewrite map_map. cbn [fst].
  rewrite <- numbered_indices, map_map. reflexivity.
Qed.

Lemma entriesOf_NoDup (document : IndexRequest) (svc : AIService) :
  NoDup (List.map fst (Indexed.entriesOf fetchEmbedding document svc)).
Proof.
  rewrite entriesOf_keys.
  generalize (seq_NoDup
                (List.length
                   (splitIntoChunks (req_content document) 500 defaultOverlap))
                0).
  generalize (seq 0 (List.length
                (splitIntoChunks (req_content document) 500 defaultOverlap))).
  induction l as [|i l IH]; intros Hnd; cbn [List.map]; constructor.
  - inversion Hnd as [|? ? Hi _]; subst. intros Hin.
    apply in_map_iff in Hin. destruct Hin as [j [Hj Hin]].
    apply chunkKey_injective_facts in Hj. destruct Hj as [_ ->].
    contradiction.
  - apply IH. now inversion Hnd.
Qed.

Lemma entriesOf_document (document : IndexRequest) (svc : AIService)
      (e : jsstring * DocumentChunk) :
  In e (Indexed.entriesOf fetchEmbedding document svc) ->
  documentId (snd e) = req_id document
  /\ exists i, fst e = chunkKey (req_id document) i.
Proof.
  unfold Indexed.entriesOf. intros H. apply in_map_iff in H.
  destruct H as [[i t] [<- _]]. cbn. split; [reflexivity | now exists i].
Qed.

Lemma splitIntoChunks_never_empty (text : jsstring) (chunkSize overlap : Z) :
  splitIntoChunks text chunkSize overlap <> [].
Proof.
  unfold splitIntoChunks.
  destruct (accumulated _ _ _) eqn:E; [discriminate|].
  cbn. discriminate.
Qed.

Lemma indexDocument_lookup (document : IndexRequest) (svc : AIService)
      (i : nat) (text : jsstring) :
  nth_error (splitIntoChunks (req_content document) 500 defaultOverlap) i
  = Some text ->
  JsMap.get (vectorStore (indexDocument fetchEmbedding document svc))
            (chunkKey (req_id document) i)
  = Some (Indexed.chunkAt fetchEmbedding document svc
            (List.length
               (splitIntoChunks (req_content document) 500 defaultOverlap))
            i text).
Proof.
  intros Hn. destruct (indexDocument_fold document svc) as [_ Hs].
  rewrite Hs. apply set_all_get_in; [apply entriesOf_NoDup|].
  unfold Indexed.entriesOf. apply in_map_iff.
  exists (i, text). split; [reflexivity|]. now apply numbered_In.
Qed.

End IndexFacts.

(** ** The vector store across indexing and removal *)

(** X1.  Two chunk identifiers are equal only for the same document and the
    same index, whatever characters the document identifiers hold. *)
Theorem chunkKey_injective (d1 d2 : jsstring) (i j : nat) :
  AI.chunkKey d1 i = AI.chunkKey d2 j <-> d1 = d2 /\ i = j.
Proof.
  split.
  - apply chunkKey_injective_facts.
  - now intros [-> ->].
Qed.

(** X2.  [indexDocument] writes at least one chunk, also for an empty
    content; it leaves the key as it was; afterwards chunk [i] of the split
    content is found under the identifier of the document and [i], with the
    document's identifier, title and file type, its own text and index, the
    number of chunks, and the embedding of its text; and every other key
    of the store holds what it held before. *)
Theorem indexDocument_stores_chunks
        (A : Arith) (S : Sine A)
        (fetchEmbedding : jsstring -> jsstring -> option AI.EmbeddingResult)
        (document : AI.IndexRequest) (svc : AI.AIService) :
  let chunks :=
    AI.splitIntoChunks (AI.req_content document) 500 AI.defaultOverlap in
  let after := AI.indexDocument fetchEmbedding document svc in
  (1 <= List.length chunks)%nat
  /\ AI.apiKey after = AI.apiKey svc
  /\ (forall i text,
         nth_error chunks i = Some text ->
         JsMap.get (AI.vectorStore after) (AI.chunkKey (AI.req_id document) i)
         = Some {| AI.chunk_id := AI.chunkKey (AI.req_id document) i;
                   AI.documentId := AI.req_id document;
                   AI.chunk_content := text;
                   AI.embedding :=
                     AI.result_embedding
                       (AI.generateEmbedding fetchEmbedding svc text);
                   AI.metadata :=
                     {| AI.meta_title := AI.req_title document;
                        AI.meta_fileType := AI.req_fileType document;
                        AI.chunkIndex := Z.of_nat i;
                        AI.totalChunks := Z.of_nat (List.length chunks) |} |})
  /\ (forall key,
         (forall i, (i < List.length chunks)%nat ->
                    key <> AI.chunkKey (AI.req_id document) i) ->
         JsMap.get (AI.vectorStore after) key
         = JsMap.get (AI.vectorStore svc) key).
Proof.
  intros chunks after.
  destruct (indexDocument_fold fetchEmbedding document svc) as [Hk Hs].
  split; [|split; [exact Hk|split]].
  - pose proof (splitIntoChunks_never_empty (AI.req_content document) 500
                  AI.defaultOverlap) as H.
    fold chunks in H. destruct chunks; [congruence | cbn; lia].
  - intros i text Hn. unfold after.
    now rewrite (@indexDocument_lookup _ _ fetchEmbedding document svc i text).
  - intros key Hkey. unfold after. rewrite Hs.
    apply set_all_get_out. rewrite entriesOf_keys. intros Hin.
    apply in_map_iff in Hin. destruct Hin as [i [<- Hi]].
    apply in_seq in Hi. apply (Hkey i); [|reflexivity].
    fold chunks in Hi. lia.
Qed.

(** X3.  Indexing the same document again, with the remote service
    answering as before, changes nothing. *)
Theorem indexDocument_idempotent
        (A : Arith) (S : Sine A)
        (fetchEmbedding : jsstring -> jsstring -> option AI.EmbeddingResult)
        (document : AI.IndexRequest) (svc : AI.AIService) :
  AI.indexDocument fetchEmbedding document
                   (AI.indexDocument fetchEmbedding document svc)
  = AI.indexDocument fetchEmbedding document svc.
Proof.
  destruct (indexDocument_fold fetchEmbedding document svc) as [Hk Hs].
  destruct (indexDocument_fold fetchEmbedding document
              (AI.indexDocument fetchEmbedding document svc)) as [Hk2 Hs2].
  apply service_eq; [exact Hk2|]. rewrite Hs2.
  assert (He : Indexed.entriesOf fetchEmbedding document
                 (AI.indexDocument fetchEmbedding document svc)
               = Indexed.entriesOf fetchEmbedding document svc).
  { unfold Indexed.entriesOf. apply map_ext. intros [i t]. f_equal.
    now apply chunkAt_apiKey. }
  rewrite He. apply set_all_same. intros k v Hin. rewrite Hs.
  apply set_all_get_in; [apply entriesOf_NoDup | exact Hin].
Qed.

Section RemovalFrame.

Context {A : Arith}.

Import AI.

Lemma keysToDelete_existsb (store : JsMap.t DocumentChunk) (docId : jsstring)
      (e : jsstring * DocumentChunk) :
  NoDup (JsMap.keys store) -> In e store ->
  existsb (JsString.eqb (fst e)) (keysToDelete store docId)
  = JsString.eqb (documentId (snd e)) docId.
Proof.
  intros Hnd He. destruct (JsString.eqb (documentId (snd e)) docId) eqn:E.
  - apply existsb_exists. exists (fst e). split; [|apply eqb_refl].
    apply keysToDelete_In; [exact He | now apply eqb_eq].
  - destruct (existsb _ _) eqn:X; [|reflexivity].
    apply existsb_exists in X. destruct X as [k [Hk Heq]].
    apply eqb_eq in Heq. subst k. unfold keysToDelete in Hk.
    apply in_map_iff in Hk. destruct Hk as [e' [Hfst He']].
    apply filter_In in He'. destruct He' as [Hin' Hdoc].
    assert (e' = e) by (now apply (@NoDup_keys_unique _ store)).
    subst e'. congruence.
Qed.

Lemma removeDocument_filter (svc : AIService) (docId : jsstring) :
  NoDup (JsMap.keys (vectorStore svc)) ->
  vectorStore (removeDocument svc docId)
  = filter (fun e => negb (JsString.eqb (documentId (snd e)) docId))
           (vectorStore svc).
Proof.
  intros Hnd. unfold removeDocument. cbn [vectorStore withStore].
  rewrite delete_all_filter. apply filter_ext_in. intros e He.
  now rewrite keysToDelete_existsb.
Qed.

Lemma removeDocument_absent (svc : AIService) (docId : jsstring) :
  Inv.absent docId (vectorStore svc) -> removeDocument svc docId = svc.
Proof.
  intros Habs. unfold removeDocument, keysToDelete.
  rewrite filter_none.
  - destruct svc. reflexivity.
  - intros e He. apply eqb_neq. apply Habs. unfold JsMap.values.
    now apply in_map.
Qed.

End RemovalFrame.

(** X4.  In a store with no key twice, [removeDocument] deletes the chunks
    of the document and nothing else: the chunks of the other documents
    stay under their keys, in their order. *)
Theorem removeDocument_keeps_others
        (A : Arith) (svc : AI.AIService) (docId : jsstring) :
  NoDup (JsMap.keys (AI.vectorStore svc)) ->
  AI.vectorStore (AI.removeDocument svc docId)
  = filter (fun e => negb (JsString.eqb (AI.documentId (snd e)) docId))
           (AI.vectorStore svc).
Proof. apply removeDocument_filter. Qed.

Lemma removeDocument_keeps_others_witness :
  NoDup (JsMap.keys (AI.vectorStore Sample.threeDocs))
  /\ AI.vectorStore (AI.removeDocument Sample.threeDocs (str "b"))
     = filter (fun e => negb (JsString.eqb (AI.documentId (snd e)) (str "b")))
              (AI.vectorStore Sample.threeDocs).
Proof.
  assert (H : NoDup (JsMap.keys (AI.vectorStore Sample.threeDocs))).
  { vm_compute. repeat constructor; simpl; intuition discriminate. }
  split; [exact H|].
  exact (@removeDocument_keeps_others RArith Sample.threeDocs (str "b") H).
Defined.

(** X5.  Removing a document a second time changes nothing, and removing a
    document that has no chunk in the store changes nothing. *)
Theorem removeDocument_idempotent
        (A : Arith) (svc : AI.AIService) (docId : jsstring) :
  AI.removeDocument (AI.removeDocument svc docId) docId
  = AI.removeDocument svc docId
  /\ ((forall c, In c (JsMap.values (AI.vectorStore svc)) ->
                 AI.documentId c <> docId) ->
      AI.removeDocument svc docId = svc).
Proof.
  split.
  - apply removeDocument_absent. intros c Hc.
    now apply (removeDocument_none_left svc).
  - apply removeDocument_absent.
Qed.

Section StoreInvariant.

Context {A : Arith} {S : Sine A}.
Variable fetchEmbedding : jsstring -> jsstring -> option (@AI.EmbeddingResult A).

Import AI.

Lemma wellKeyed_indexDocument (document : IndexRequest) (svc : AIService) :
  Inv.wellKeyed (vectorStore svc) ->
  Inv.wellKeyed (vectorStore (indexDocument fetchEmbedding document svc)).
Proof.
  intros [Hnd Hkeys].
  destruct (indexDocument_fold fetchEmbedding document svc) as [_ Hs].
  rewrite Hs. split.
  - now apply set_all_NoDup.
  - intros e He. apply set_all_In in He. destruct He as [He|He].
    + apply entriesOf_document in He. destruct He as [Hd [i Hi]].
      exists i. now rewrite Hd.
    + now apply Hkeys.
Qed.

Lemma keys_delete_all (V : Type) (keys : list jsstring) :
  forall m : JsMap.t V,
    NoDup (JsMap.keys m) ->
    NoDup (JsMap.keys (fold_left (fun m key => JsMap.delete m key) keys m)).
Proof.
  induction keys as [|k keys IH]; intros m H; [exact H|].
  cbn [fold_left]. apply IH. rewrite keys_delete. now apply NoDup_filter.
Qed.

Lemma wellKeyed_removeDocument (svc : AIService) (docId : jsstring) :
  Inv.wellKeyed (vectorStore svc) ->
  Inv.wellKeyed (vectorStore (removeDocument svc docId)).
Proof.
  intros [Hnd Hkeys]. unfold removeDocument. cbn [vectorStore withStore].
  split.
  - now apply keys_delete_all.
  - intros e He. apply delete_all_In in He. now apply Hkeys.
Qed.

(** The keys that indexing a document writes are those of no other
    document's chunk. *)
Lemma entriesOf_fresh (document : IndexRequest) (svc : AIService)
      (e : jsstring * DocumentChunk) :
  Inv.wellKeyed (vectorStore svc) -> In e (vectorStore svc) ->
  In (fst e) (List.map fst (Indexed.entriesOf fetchEmbedding document svc)) ->
  documentId (snd e) = req_id document.
Proof.
  intros [_ Hkeys] He Hin. rewrite entriesOf_keys in Hin.
  apply in_map_iff in Hin. destruct Hin as [i [Hi _]].
  destruct (Hkeys e He) as [j Hj]. rewrite Hj in Hi.
  now apply chunkKey_injective_facts in Hi.
Qed.

Lemma indexDocument_appends (document : IndexRequest) (svc : AIService) :
  Inv.wellKeyed (vectorStore svc) ->
  Inv.absent (req_id document) (vectorStore svc) ->
  vectorStore (indexDocument fetchEmbedding document svc)
  = vectorStore svc ++ Indexed.entriesOf fetchEmbedding document svc.
Proof.
  intros Hwk Habs.
  destruct (indexDocument_fold fetchEmbedding document svc) as [_ Hs].
  rewrite Hs. apply set_all_fresh; [apply entriesOf_NoDup|].
  intros k Hk Hin. unfold JsMap.keys in Hin. apply in_map_iff in Hin.
  destruct Hin as [e [<- He]].
  apply (Habs (snd e)).
  - unfold JsMap.values. now apply in_map.
  - now apply (entriesOf_fresh document svc).
Qed.

Lemma entriesOf_nonempty (document : IndexRequest) (svc : AIService) :
  Indexed.entriesOf fetchEmbedding document svc <> [].
Proof.
  unfold Indexed.entriesOf, numbered.
  pose proof (splitIntoChunks_never_empty (req_content document) 500
                defaultOverlap) as H.
  destruct (splitIntoChunks _ _ _); [congruence | discriminate].
Qed.

(** The documents of the store after indexing: those before, and the
    indexed one. *)
Lemma indexDocument_documents (document : IndexRequest) (svc : AIService)
      (d : jsstring) :
  Inv.wellKeyed (vectorStore svc) ->
  In d (List.map documentId
          (JsMap.values
             (vectorStore (indexDocument fetchEmbedding document svc))))
  <-> d = req_id document
      \/ In d (List.map documentId (JsMap.values (vectorStore svc))).
Proof.
  intros Hwk.
  destruct (indexDocument_fold fetchEmbedding document svc) as [_ Hs].
  rewrite Hs. clear Hs. unfold JsMap.values. rewrite !map_map.
  set (es := Indexed.entriesOf fetchEmbedding document svc).
  assert (Hnew : In (req_id document)
                    (List.map (fun e => documentId (snd e))
                       (fold_left (fun m e => JsMap.set m (fst e) (snd e))
                                  es (vectorStore svc)))).
  { pose proof (entriesOf_nonempty document svc) as Hne. fold es in Hne.
    destruct es as [|[k v] es'] eqn:E; [congruence|].
    assert (Hin : In (k, v) es) by (rewrite E; now left).
    apply in_map_iff. exists (k, v). split.
    - apply (@entriesOf_document _ _ fetchEmbedding document svc) in Hin. tauto.
    - apply get_Some_In. rewrite <- E. apply set_all_get_in.
      + apply entriesOf_NoDup.
      + exact Hin. }
  split.
  - intros H. apply in_map_iff in H. destruct H as [e [<- He]].
    apply set_all_In in He. destruct He as [He|He].
    + left. apply (@entriesOf_document _ _ fetchEmbedding document svc) in He. tauto.
    + right. apply in_map_iff. now exists e.
  - intros [->|H]; [exact Hnew|].
    apply in_map_iff in H. destruct H as [e [<- He]].
    destruct (in_dec (list_eq_dec N.eq_dec) (fst e) (List.map fst es))
      as [Hin|Hout].
    + rewrite (entriesOf_fresh document svc e Hwk He Hin). exact Hnew.
    + apply in_map_iff. exists e. split; [reflexivity|].
      destruct e as [k v]. apply get_Some_In.
      rewrite set_all_get_out by exact Hout.
      apply In_get_NoDup; [apply Hwk | exact He].
Qed.

End StoreInvariant.

(** X6.  The store keeps its shape, no key twice and every chunk under
    the key made of its document and an index, across [indexDocument],
    [removeDocument] and [clearIndex]. *)
Theorem store_stays_wellKeyed
        (A : Arith) (S : Sine A)
        (fetchEmbedding : jsstring -> jsstring -> option AI.EmbeddingResult)
        (svc : AI.AIService) :
  Inv.wellKeyed (AI.vectorStore svc) ->
  (forall document,
      Inv.wellKeyed
        (AI.vectorStore (AI.indexDocument fetchEmbedding document svc)))
  /\ (forall docId,
         Inv.wellKeyed (AI.vectorStore (AI.removeDocument svc docId)))
  /\ Inv.wellKeyed (AI.vectorStore (AI.clearIndex svc)).
Proof.
  intros H. split; [|split].
  - intros document. now apply wellKeyed_indexDocument.
  - intros docId. now apply wellKeyed_removeDocument.
  - split; [constructor | intros e []].
Qed.

Lemma store_stays_wellKeyed_witness :
  Inv.wellKeyed (AI.vectorStore Cases.fresh)
  /\ Inv.wellKeyed
       (AI.vectorStore
          (AI.indexDocument Sample.offline Cases.note Cases.fresh)).
Proof.
  assert (H : Inv.wellKeyed (AI.vectorStore Cases.fresh)).
  { split; [constructor | intros e []]. }
  split; [exact H|].
  exact (proj1 (@store_stays_wellKeyed RArith RSine Sample.offline
                  Cases.fresh H) Cases.note).
Defined.

(** X7.  Indexing a document that has no chunk in the store and then
    removing it gives back the service as it was: the key and the store,
    entry for entry. *)
Theorem removeDocument_undoes_indexDocument
        (A : Arith) (S : Sine A)
        (fetchEmbedding : jsstring -> jsstring -> option AI.EmbeddingResult)
        (document : AI.IndexRequest) (svc : AI.AIService) :
  Inv.wellKeyed (AI.vectorStore svc) ->
  Inv.absent (AI.req_id document) (AI.vectorStore svc) ->
  AI.removeDocument (AI.indexDocument fetchEmbedding document svc)
                    (AI.req_id document)
  = svc.
Proof.
  intros Hwk Habs.
  pose proof (@wellKeyed_indexDocument _ _ fetchEmbedding document svc Hwk) as [Hnd _].
  destruct (indexDocument_fold fetchEmbedding document svc) as [Hk _].
  apply service_eq; [exact Hk|].
  rewrite removeDocument_filter by exact Hnd.
  rewrite indexDocument_appends by assumption.
  rewrite filter_app, filter_all, filter_none.
  - apply app_nil_r.
  - intros e He. apply negb_false_iff, eqb_eq.
    apply (@entriesOf_document _ _ fetchEmbedding document svc) in He. tauto.
  - intros e He. apply negb_true_iff, eqb_neq. apply Habs.
    unfold JsMap.values. now apply in_map.
Qed.

Lemma removeDocument_undoes_indexDocument_witness :
  Inv.wellKeyed (AI.vectorStore Cases.fresh)
  /\ Inv.absent (AI.req_id Cases.note) (AI.vectorStore Cases.fresh)
  /\ AI.removeDocument
       (AI.indexDocument Sample.offline Cases.note Cases.fresh)
       (AI.req_id Cases.note)
     = Cases.fresh.
Proof.
  assert (H : Inv.wellKeyed (AI.vectorStore Cases.fresh)).
  { split; [constructor | intros e []]. }
  assert (H' : Inv.absent (AI.req_id Cases.note) (AI.vectorStore Cases.fresh)).
  { intros c []. }
  split; [exact H | split; [exact H'|]].
  exact (@removeDocument_undoes_indexDocument RArith RSine Sample.offline
           Cases.note Cases.fresh H H').
Defined.

(** X8.  Indexing a document raises the count of indexed documents by one
    when the store had no chunk of it, and leaves the count as it was
    otherwise, whatever the content and the number of chunks. *)
Theorem indexDocument_count
        (A : Arith) (S : Sine A)
        (fetchEmbedding : jsstring -> jsstring -> option AI.EmbeddingResult)
        (document : AI.IndexRequest) (svc : AI.AIService) :
  Inv.wellKeyed (AI.vectorStore svc) ->
  AI.getIndexedCount (AI.indexDocument fetchEmbedding document svc)
  = (AI.getIndexedCount svc
     + if existsb (fun c => JsString.eqb (AI.documentId c)
                                         (AI.req_id document))
                  (JsMap.values (AI.vectorStore svc))
       then 0 else 1)%Z.
Proof.
  intros Hwk. unfold AI.getIndexedCount.
  rewrite (@nodup_length_same
             (List.map AI.documentId
                (JsMap.values
                   (AI.vectorStore
                      (AI.indexDocument fetchEmbedding document svc))))
             (AI.req_id document
                :: List.map AI.documentId
                     (JsMap.values (AI.vectorStore svc)))).
  2:{ intros x. rewrite (@indexDocument_documents _ _ fetchEmbedding document svc x Hwk).
      cbn [In]. intuition congruence. }
  cbn [nodup].
  destruct (in_dec _ _ _) as [Hin|Hout];
    destruct (existsb _ _) eqn:E.
  - lia.
  - exfalso. apply in_map_iff in Hin. destruct Hin as [c [Hc Hin]].
    assert (X : existsb (fun c => JsString.eqb (AI.documentId c)
                                               (AI.req_id document))
                        (JsMap.values (AI.vectorStore svc)) = true).
    { apply existsb_exists. exists c. split; [exact Hin | now apply eqb_eq]. }
    congruence.
  - exfalso. apply existsb_exists in E. destruct E as [c [Hin Hc]].
    apply eqb_eq in Hc. apply Hout. apply in_map_iff. now exists c.
  - cbn [List.length]. lia.
Qed.

Lemma indexDocument_count_witness :
  Inv.wellKeyed (AI.vectorStore Cases.fresh)
  /\ AI.getIndexedCount
       (AI.indexDocument Sample.offline Cases.note Cases.fresh)
     = 1%Z.
Proof.
  assert (H : Inv.wellKeyed (AI.vectorStore Cases.fresh)).
  { split; [constructor | intros e []]. }
  split; [exact H|].
  exact (@indexDocument_count RArith RSine Sample.offline
           Cases.note Cases.fresh H).
Defined.

(** ** More on retrieval *)

Section DistinctFacts.

Import Spec.

Lemma firstOccurrences_NoDup (l : list jsstring) : NoDup (firstOccurrences l).
Proof.
  induction l as [|d l IH]; cbn [firstOccurrences]; constructor.
  - intros H. apply filter_In in H. destruct H as [_ H].
    now rewrite eqb_refl in H.
  - now apply NoDup_filter.
Qed.

Lemma firstOccurrences_complete (d : jsstring) (l : list jsstring) :
  In d l -> In d (firstOccurrences l).
Proof.
  induction l as [|x l IH]; cbn [firstOccurrences In]; [tauto|].
  intros [->|H]; [now left|].
  destruct (JsString.eqb d x) eqn:E.
  - apply eqb_eq in E. now left.
  - right. apply filter_In. split; [now apply IH | now rewrite E].
Qed.

Lemma firstOccurrences_count (l : list jsstring) :
  List.length (firstOccurrences l)
  = List.length (nodup (list_eq_dec N.eq_dec) l).
Proof.
  apply Permutation_length. apply NoDup_Permutation.
  - apply firstOccurrences_NoDup.
  - apply NoDup_nodup.
  - intros x. rewrite nodup_In. split.
    + apply firstOccurrences_In.
    + apply firstOccurrences_complete.
Qed.

End DistinctFacts.

(** X9.  No two records of a result of [searchDocuments] have the same
    identifier. *)
Theorem searchDocuments_distinct_ids
        (A : Arith) (S : Sine A)
        (fetchEmbedding : jsstring -> jsstring -> option AI.EmbeddingResult)
        (place : nat -> nat)
        (clock : nat -> Z) (svc : AI.AIService) (query : jsstring)
        (topK : Z) :
  NoDup (List.map AI.id
                  (AI.searchDocuments fetchEmbedding place clock svc query topK)).
Proof.
  unfold AI.searchDocuments. rewrite aggregate_ids.
  apply firstOccurrences_NoDup.
Qed.

(** X10.  A search that asks for as many records as the store has chunks,
    or more, returns one record for each indexed document: the documents
    of the records are those of the store, and their number is
    [getIndexedCount()]. *)
Theorem searchDocuments_wide
        (A : Arith) (S : Sine A)
        (fetchEmbedding : jsstring -> jsstring -> option AI.EmbeddingResult)
        (place : nat -> nat)
        (clock : nat -> Z) (svc : AI.AIService) (query : jsstring)
        (topK : Z) :
  (Z.of_nat (List.length (AI.vectorStore svc)) <= topK)%Z ->
  let found := AI.searchDocuments fetchEmbedding place clock svc query topK in
  Z.of_nat (List.length found) = AI.getIndexedCount svc
  /\ forall d, In d (List.map AI.id found)
               <-> In d (List.map AI.documentId
                                  (JsMap.values (AI.vectorStore svc))).
Proof.
  intros Hk found.
  set (results :=
         AI.scoreAll
           (AI.result_embedding (AI.generateEmbedding fetchEmbedding svc query))
           (AI.vectorStore svc)).
  assert (Htop : AI.topResults fetchEmbedding place svc query topK
                 = JsArray.hostSort place AI.before results).
  { unfold AI.topResults. fold results. rewrite slice_prefix by lia.
    apply firstn_all2. rewrite hostSort_length. unfold results, AI.scoreAll.
    rewrite length_map. unfold JsMap.values. rewrite length_map. lia. }
  assert (Hperm : Permutation
                    (List.map Spec.docOf
                              (AI.topResults fetchEmbedding place svc query topK))
                    (List.map AI.documentId
                              (JsMap.values (AI.vectorStore svc)))).
  { rewrite Htop. eapply perm_trans.
    - apply Permutation_map, hostSort_perm.
    - unfold results, AI.scoreAll. rewrite map_map. apply Permutation_refl. }
  assert (Hids : List.map AI.id found
                 = Spec.firstOccurrences
                     (List.map Spec.docOf
                        (AI.topResults fetchEmbedding place svc query topK))).
  { unfold found, AI.searchDocuments. apply aggregate_ids. }
  split.
  - rewrite <- (length_map AI.id found), Hids, firstOccurrences_count.
    unfold AI.getIndexedCount. f_equal.
    apply nodup_length_same. intros x. split; apply Permutation_in;
      [exact Hperm | apply Permutation_sym, Hperm].
  - intros d. rewrite Hids. split.
    + intros H. apply firstOccurrences_In in H.
      now apply (Permutation_in _ Hperm).
    + intros H. apply firstOccurrences_complete.
      now apply (Permutation_in _ (Permutation_sym Hperm)).
Qed.

Lemma searchDocuments_wide_witness :
  (Z.of_nat (List.length (AI.vectorStore Sample.threeDocs)) <= 5)%Z
  /\ Z.of_nat
       (List.length
          (AI.searchDocuments (Sample.remote Sample.unit1) Sample.place Sample.ticks
                              Sample.threeDocs (str "q") 5))
     = AI.getIndexedCount Sample.threeDocs.
Proof.
  assert (H : (Z.of_nat (List.length (AI.vectorStore Sample.threeDocs))
               <= 5)%Z) by (cbn; lia).
  split; [exact H|].
  exact (proj1 (@searchDocuments_wide RArith RSine
                  (Sample.remote Sample.unit1) Sample.place Sample.ticks
                  Sample.threeDocs (str "q") 5 H)).
Defined.

Section RelevanceFacts.

Context {A : Arith}.

Import AI Spec.

Lemma ordered_consistent (l : list Scored) :
  Inv.ordered (List.map score l) -> JsArray.consistent before l = true.
Proof.
  intros [Hasym [Hneg _]]. unfold JsArray.consistent.
  apply forallb_forall. intros x Hx. apply forallb_forall. intros y Hy.
  apply (in_map score) in Hx. apply (in_map score) in Hy.
  apply andb_true_iff. split.
  - destruct (before x y) eqn:E; [|reflexivity].
    change (Inv.above (score x) (score y) = true) in E.
    change (before y x) with (Inv.above (score y) (score x)).
    now rewrite (Hasym _ _ Hx Hy E).
  - apply forallb_forall. intros z Hz. apply (in_map score) in Hz.
    destruct (before x y) eqn:E1;
      [destruct (negb (before x z)); reflexivity|].
    destruct (before y z) eqn:E2; [apply orb_true_r|].
    change (Inv.above (score x) (score y) = false) in E1.
    change (Inv.above (score y) (score z) = false) in E2.
    change (before x z) with (Inv.above (score x) (score z)).
    now rewrite (Hneg _ _ _ Hx Hy Hz E1 E2).
Qed.

(** The pairs the grouping loop reads are in the order of their scores,
    when the scores order them. *)
Lemma topResults_ordered
      (S : Sine A)
      (fetchEmbedding : jsstring -> jsstring -> option EmbeddingResult)
      (place : nat -> nat) (svc : AIService) (query : jsstring) (topK : Z) :
  Inv.ordered
    (List.map score
       (scoreAll
          (result_embedding (generateEmbedding fetchEmbedding svc query))
          (vectorStore svc))) ->
  StronglySorted (fun a b => before b a = false)
                 (topResults fetchEmbedding place svc query topK).
Proof.
  intros H. apply ordered_consistent in H.
  unfold topResults, JsArray.hostSort. rewrite H.
  apply slice_sorted. now apply sort_ordered.
Qed.

Lemma StronglySorted_filter (T : Type) (R : T -> T -> Prop)
      (f : T -> bool) (l : list T) :
  StronglySorted R l -> StronglySorted R (filter f l).
Proof.
  induction 1 as [|y l Hsorted IH Hy]; cbn [filter]; [constructor|].
  destruct (f y); [|exact IH]. constructor; [exact IH|].
  apply Forall_forall. intros z Hz. apply filter_In in Hz.
  rewrite Forall_forall in Hy. apply Hy. tauto.
Qed.

(** What [Math.max] leaves in a record: one of the scores it met, which
    none of them is above. *)
Lemma fold_max (scores : list num) (later : list num) :
  Inv.ordered scores ->
  forall p,
    In p scores -> (forall q, In q later -> In q scores) ->
    In (fold_left nmax later p) (p :: later)
    /\ Inv.above p (fold_left nmax later p) = false
    /\ (forall q, In q later ->
                  Inv.above q (fold_left nmax later p) = false).
Proof.
  intros [_ [Hneg Hmax]].
  induction later as [|q later IH]; intros p Hp Hlater; cbn [fold_left].
  - split; [now left|]. split; [|intros q []].
    destruct (Hmax p p Hp Hp) as [_ [_ H]].
    destruct (Hmax p p Hp Hp) as [[E|E] _]; rewrite E in H; exact H.
  - assert (Hq : In q scores) by (apply Hlater; now left).
    destruct (Hmax p q Hp Hq) as [Hsel [Hp' Hq']].
    assert (Hm : In (nmax p q) scores) by (destruct Hsel as [->| ->]; auto).
    destruct (IH (nmax p q) Hm) as [Hin [Hup Hall]].
    { intros r Hr. apply Hlater. now right. }
    assert (Hfinal : In (fold_left nmax later (nmax p q)) scores).
    { destruct Hin as [<-|Hin]; [exact Hm|]. apply Hlater. now right. }
    split; [|split].
    + destruct Hin as [<-|Hin].
      * destruct Hsel as [->| ->]; [now left | right; now left].
      * right. now right.
    + exact (Hneg _ _ _ Hp Hm Hfinal Hp' Hup).
    + intros r [<-|Hr].
      * exact (Hneg _ _ _ Hq Hm Hfinal Hq' Hup).
      * now apply Hall.
Qed.

(** Each record of the grouping of an ordered list carries the score of a
    pair of its document, which no pair of its document is above, and it
    is above the score of no earlier record. *)
Lemma groupedUpTo_ordered (scores : list num) (fuel : nat) :
  Inv.ordered scores ->
  forall (clock : nat -> Z) (top : list Scored),
    (forall r, In r top -> In (score r) scores) ->
    StronglySorted (fun a b => before b a = false) top ->
    StronglySorted
      (fun s t => Inv.above (relevanceScore t) (relevanceScore s) = false)
      (groupedUpTo fuel clock top)
    /\ Forall (fun s => exists r,
                   In r top /\ docOf r = id s
                   /\ relevanceScore s = score r
                   /\ forall r', In r' top -> docOf r' = id s ->
                                 Inv.above (score r') (relevanceScore s)
                                 = false)
              (groupedUpTo fuel clock top).
Proof.
  intros Hord. pose proof Hord as [_ [Hneg _]].
  induction fuel as [|fuel IH]; intros clock [|first rest] Hin Hs;
    cbn [groupedUpTo]; try solve [split; constructor].
  inversion Hs as [|? ? Hrest Hfirst]; subst.
  rewrite Forall_forall in Hfirst.
  assert (Hin' : forall r, In r rest -> In (score r) scores)
    by (intros r Hr; apply Hin; now right).
  destruct (IH (fun n => clock (Datatypes.S n))
               (filter (fun r => negb (sameDocument (docOf first) r)) rest))
    as [IHs IHf].
  { intros r Hr. apply filter_In in Hr. apply Hin'. tauto. }
  { now apply StronglySorted_filter. }
  rewrite Forall_forall in IHf.
  set (same := filter (sameDocument (docOf first)) rest).
  destruct (@fold_max scores (List.map score same) Hord (score first))
    as [Hsel [Hup Hall]].
  { apply Hin. now left. }
  { intros q Hq. apply in_map_iff in Hq. destruct Hq as [r [<- Hr]].
    apply filter_In in Hr. apply Hin'. tauto. }
  assert (Hhead : exists r,
             In r (first :: rest) /\ docOf r = docOf first
             /\ fold_left nmax (List.map score same) (score first) = score r).
  { destruct Hsel as [E|Hsel].
    - exists first. split; [now left|]. split; [reflexivity | now rewrite <- E].
    - apply in_map_iff in Hsel. destruct Hsel as [r [E Hr]].
      apply filter_In in Hr. destruct Hr as [Hr Hd].
      exists r. split; [now right|]. split; [|now rewrite E].
      unfold sameDocument in Hd. now apply eqb_eq in Hd. }
  destruct Hhead as [r0 [Hr0 [Hd0 E0]]].
  assert (Hm : In (fold_left nmax (List.map score same) (score first)) scores)
    by (rewrite E0; now apply Hin).
  split.
  - constructor; [exact IHs|]. apply Forall_forall. intros s Hs'.
    destruct (IHf s Hs') as [r [Hr [_ [Heq _]]]].
    apply filter_In in Hr. destruct Hr as [Hr _].
    cbn [relevanceScore sourceOf]. fold same. rewrite Heq.
    apply (Hneg _ (score first) _); auto.
    + apply Hin. now left.
    + exact (Hfirst r Hr).
  - constructor.
    + exists r0. split; [exact Hr0|]. split; [exact Hd0|].
      split; [exact E0|]. cbn [relevanceScore sourceOf id]. fold same.
      intros r' [<-|Hr'] Hd; [exact Hup|].
      apply Hall. apply in_map. apply filter_In. split; [exact Hr'|].
      unfold sameDocument. now apply eqb_eq.
    + apply Forall_forall. intros s Hs'.
      destruct (IHf s Hs') as [r [Hr [Hdoc [Heq Hbest]]]].
      apply filter_In in Hr. destruct Hr as [Hr Hother].
      unfold sameDocument in Hother.
      apply negb_true_iff, eqb_neq in Hother.
      exists r. split; [now right|]. split; [exact Hdoc|].
      split; [exact Heq|]. intros r' [<-|Hr'] Hd.
      * exfalso. congruence.
      * apply Hbest; [|exact Hd]. apply filter_In. split; [exact Hr'|].
        unfold sameDocument. apply negb_true_iff, eqb_neq. congruence.
Qed.

Lemma scoreAll_In
      (queryEmbedding : list num) (store : JsMap.t DocumentChunk)
      (r : Scored) :
  In r (scoreAll queryEmbedding store)
  <-> exists c, In c (JsMap.values store)
                /\ r = {| chunk := c;
                          score := cosineSimilarity queryEmbedding
                                                    (embedding c) |}.
Proof.
  unfold scoreAll. rewrite in_map_iff. split; intros [c [H1 H2]];
    exists c; split; auto.
Qed.

End RelevanceFacts.

Section RealOrder.

Import AI.

#[local] Existing Instance RArith | 0.

Local Open Scope R_scope.

(** Real numbers are ordered, and [Math.max] is their maximum. *)
Lemma ordered_real (scores : list R) : Inv.ordered (A := RArith) scores.
Proof.
  assert (H : forall p q : R,
             Inv.above (A := RArith) p q = true <-> q < p).
  { intros p q. unfold Inv.above. cbn [nltb nsub ofZ RArith].
    destruct (Rlt_dec (q - p) 0); split; intros E;
      try reflexivity; try discriminate; lra. }
  assert (H' : forall p q : R,
             Inv.above (A := RArith) p q = false <-> p <= q).
  { intros p q. destruct (Inv.above (A := RArith) p q) eqn:E.
    - apply H in E. split; [discriminate | lra].
    - split; [|reflexivity]. intros _.
      destruct (Rle_dec p q) as [Hle|Hgt]; [exact Hle|].
      assert (X : Inv.above (A := RArith) p q = true) by (apply H; lra).
      congruence. }
  split; [|split].
  - intros p q _ _ E. apply H in E. apply H'. lra.
  - intros p q r _ _ _ E1 E2. apply H' in E1, E2. apply H'. lra.
  - intros p q _ _. cbn [nmax RArith]. split; [|split].
    + unfold Rmax. destruct (Rle_dec p q); auto.
    + apply H'. apply Rmax_l.
    + apply H'. apply Rmax_r.
Qed.

End RealOrder.

(** The records of a search, when the scores order the pairs. *)
Lemma searchDocuments_ordered
      (A : Arith) (S : Sine A)
      (fetchEmbedding : jsstring -> jsstring -> option AI.EmbeddingResult)
      (place : nat -> nat)
      (clock : nat -> Z) (svc : AI.AIService) (query : jsstring)
      (topK : Z) :
  let queryEmbedding :=
    AI.result_embedding (AI.generateEmbedding fetchEmbedding svc query) in
  let found := AI.searchDocuments fetchEmbedding place clock svc query topK in
  Inv.ordered
    (List.map AI.score (AI.scoreAll queryEmbedding (AI.vectorStore svc))) ->
  Inv.descending found
  /\ Inv.scoredByBest queryEmbedding (AI.vectorStore svc)
                      (AI.topResults fetchEmbedding place svc query topK)
                      found.
Proof.
  intros queryEmbedding found Hord.
  set (top := AI.topResults fetchEmbedding place svc query topK).
  assert (Hstore : forall r, In r top ->
             In r (AI.scoreAll queryEmbedding (AI.vectorStore svc))).
  { intros r Hr. unfold top, AI.topResults in Hr.
    now apply slice_incl, hostSort_In in Hr. }
  destruct (@groupedUpTo_ordered A _ (List.length top) Hord clock top)
    as [Hs Hf].
  { intros r Hr. apply in_map. now apply Hstore. }
  { now apply topResults_ordered. }
  assert (E : found = Spec.groupedUpTo (List.length top) clock top).
  { unfold found, AI.searchDocuments. apply aggregate_grouped. }
  rewrite E. split; [exact Hs|].
  intros s Hin. rewrite Forall_forall in Hf.
  destruct (Hf s Hin) as [r [Hr [Hdoc [Heq Hbest]]]]. split.
  - apply Hstore, scoreAll_In in Hr. destruct Hr as [c [Hc ->]].
    exists c. split; [exact Hc|]. split; [exact Hdoc | exact Heq].
  - intros r' Hr' Hd. now apply Hbest.
Qed.

Lemma finite_not_nan (x : float) :
  F64R.finite x = true -> is_nan x = false.
Proof.
  rewrite is_nan_spec. unfold F64R.finite.
  destruct (Prim2SF x); cbn; congruence.
Qed.

(** The binary64 similarity of two moderate vectors is not NaN. *)
Lemma cosineSimilarity_not_nan (a b : list float) :
  (Z.of_nat (List.length a) <= 2 ^ 20)%Z ->
  F64R.moderateVector a = true -> F64R.moderateVector b = true ->
  is_nan (AI.cosineSimilarity (A := F64Arith) a b) = false.
Proof.
  intros Hn Ma Mb.
  destruct (Nat.eq_dec (List.length a) (List.length b)) as [Hlen|Hlen].
  - apply finite_not_nan.
    now apply cosineSimilarity_binary64_bound.
  - rewrite (@cosineSimilarity_lengths_differ F64Arith a b Hlen).
    vm_compute. reflexivity.
Qed.

(** The scores of a store, when no similarity is NaN. *)
Lemma scores_ordered_binary64
      (queryEmbedding : list float)
      (store : JsMap.t (@AI.DocumentChunk F64Arith)) :
  (forall c, In c (JsMap.values store) ->
             is_nan (AI.cosineSimilarity (A := F64Arith) queryEmbedding
                                         (AI.embedding c)) = false) ->
  Inv.ordered (A := F64Arith)
              (List.map AI.score (AI.scoreAll queryEmbedding store)).
Proof.
  intros H. apply ordered_binary64. intros p Hp.
  apply in_map_iff in Hp. destruct Hp as [r [<- Hr]].
  apply scoreAll_In in Hr. destruct Hr as [c [Hc ->]].
  cbn [AI.score]. now apply H.
Qed.

(** X11.  When the scores order the pairs, the records of a result of
    [searchDocuments] come in the order of their relevance scores, none
    above an earlier one, and the score of a record is the similarity of
    the query with a stored chunk of its document, which none of the
    document's chunks among the top-K pairs is above.  In binary64 the
    scores order the pairs when no similarity of the query with a stored
    chunk is NaN, which is so when the query vector and the stored vectors
    are moderate: of at most 2^20 components, zero or of magnitude from
    2^-500 to below 2^500, and not all zero.  In exact arithmetic they
    always do. *)
Theorem searchDocuments_descending :
  (forall (A : Arith) (S : Sine A)
          (fetchEmbedding : jsstring -> jsstring -> option AI.EmbeddingResult)
          (place : nat -> nat) (clock : nat -> Z) (svc : AI.AIService)
          (query : jsstring) (topK : Z),
      let queryEmbedding :=
        AI.result_embedding (AI.generateEmbedding fetchEmbedding svc query) in
      Inv.ordered
        (List.map AI.score
                  (AI.scoreAll queryEmbedding (AI.vectorStore svc))) ->
      Inv.descending
        (AI.searchDocuments fetchEmbedding place clock svc query topK)
      /\ Inv.scoredByBest
           queryEmbedding (AI.vectorStore svc)
           (AI.topResults fetchEmbedding place svc query topK)
           (AI.searchDocuments fetchEmbedding place clock svc query topK))
  /\ (forall (S : Sine F64Arith)
             (fetchEmbedding
              : jsstring -> jsstring -> option (@AI.EmbeddingResult F64Arith))
             (place : nat -> nat) (clock : nat -> Z)
             (svc : @AI.AIService F64Arith) (query : jsstring) (topK : Z),
         let queryEmbedding :=
           AI.result_embedding
             (AI.generateEmbedding fetchEmbedding svc query) in
         (forall c, In c (JsMap.values (AI.vectorStore svc)) ->
                    is_nan (AI.cosineSimilarity queryEmbedding
                                                (AI.embedding c))
                    = false) ->
         Inv.descending
           (AI.searchDocuments fetchEmbedding place clock svc query topK)
         /\ Inv.scoredByBest
              queryEmbedding (AI.vectorStore svc)
              (AI.topResults fetchEmbedding place svc query topK)
              (AI.searchDocuments fetchEmbedding place clock svc query topK))
  /\ (forall a b : list float,
         (Z.of_nat (List.length a) <= 2 ^ 20)%Z ->
         F64R.moderateVector a = true -> F64R.moderateVector b = true ->
         is_nan (AI.cosineSimilarity (A := F64Arith) a b) = false)
  /\ (forall (S : Sine RArith)
             (fetchEmbedding
              : jsstring -> jsstring -> option (@AI.EmbeddingResult RArith))
             (place : nat -> nat) (clock : nat -> Z)
             (svc : @AI.AIService RArith) (query : jsstring) (topK : Z),
         Inv.descending
           (AI.searchDocuments fetchEmbedding place clock svc query topK)
         /\ Inv.scoredByBest
              (AI.result_embedding
                 (AI.generateEmbedding fetchEmbedding svc query))
              (AI.vectorStore svc)
              (AI.topResults fetchEmbedding place svc query topK)
              (AI.searchDocuments fetchEmbedding place clock svc query topK)).
Proof.
  split; [|split; [|split]].
  - intros A S fetchEmbedding place clock svc query topK queryEmbedding.
    apply searchDocuments_ordered.
  - intros S fetchEmbedding place clock svc query topK queryEmbedding H.
    apply searchDocuments_ordered. now apply scores_ordered_binary64.
  - apply cosineSimilarity_not_nan.
  - intros S fetchEmbedding place clock svc query topK.
    apply searchDocuments_ordered. apply ordered_real.
Qed.

Lemma searchDocuments_descending_witness :
  List.map (fun s => (AI.id s, AI.relevanceScore s))
           (@AI.searchDocuments
              F64Arith Cases.sine64 (Cases.remote64 Cases.east64)
              Sample.place Sample.ticks Cases.store64 (str "q") 5)
  = [(str "a", 1%float); (str "b", 0x1.6a09e667f3bccp-1%float)]
  /\ Inv.descending
       (@AI.searchDocuments
          F64Arith Cases.sine64 (Cases.remote64 Cases.east64)
          Sample.place Sample.ticks Cases.store64 (str "q") 5).
Proof.
  split; [vm_compute; reflexivity|].
  refine (proj1 (proj1 (proj2 searchDocuments_descending)
                       Cases.sine64 (Cases.remote64 Cases.east64)
                       Sample.place Sample.ticks Cases.store64 (str "q")
                       5%Z _)).
  intros c Hc. unfold JsMap.values in Hc. cbn in Hc.
  each_member; vm_compute; reflexivity.
Defined.

(** ** Answers *)

Section InfixFacts.

Lemma startsWith_app (n b : jsstring) : startsWith n (n ++ b) = true.
Proof.
  induction n as [|c n IH]; [reflexivity|].
  cbn [app startsWith]. now rewrite N.eqb_refl, IH.
Qed.

Lemma includes_infix (needle hay : jsstring) :
  Inv.infix needle hay -> includes hay needle = true.
Proof.
  intros [a [b ->]]. induction a as [|c a IH].
  - cbn [app]. destruct (needle ++ b) eqn:E; cbn [includes];
      rewrite <- E, startsWith_app; reflexivity.
  - cbn [app includes]. rewrite IH. apply orb_true_r.
Qed.

Lemma infix_refl (s : jsstring) : Inv.infix s s.
Proof. exists [], []. now rewrite app_nil_r. Qed.

Lemma infix_trans (x y z : jsstring) :
  Inv.infix x y -> Inv.infix y z -> Inv.infix x z.
Proof.
  intros [a [b ->]] [c [d ->]]. exists (c ++ a), (b ++ d).
  now rewrite <- !app_assoc.
Qed.

Lemma infix_app_l (x y a : jsstring) : Inv.infix x y -> Inv.infix x (a ++ y).
Proof.
  intros [c [d ->]]. exists (a ++ c), d. now rewrite <- app_assoc.
Qed.

Lemma infix_app_r (x y b : jsstring) : Inv.infix x y -> Inv.infix x (y ++ b).
Proof.
  intros [c [d ->]]. exists c, (d ++ b). now rewrite <- !app_assoc.
Qed.

Lemma infix_join (sep p : jsstring) (pieces : list jsstring) :
  In p pieces -> Inv.infix p (join sep pieces).
Proof.
  induction pieces as [|q pieces IH]; [intros []|].
  intros [->|H].
  - destruct pieces as [|q' pieces]; [apply infix_refl|].
    change (join sep (p :: q' :: pieces))
      with (p ++ sep ++ join sep (q' :: pieces)).
    apply infix_app_r, infix_refl.
  - destruct pieces as [|q' pieces]; [destruct H|].
    change (join sep (q :: q' :: pieces))
      with (q ++ sep ++ join sep (q' :: pieces)).
    apply infix_app_l, infix_app_l. now apply IH.
Qed.

End InfixFacts.

Section AnswerFacts.

Context {A : Arith}.
Variable toFixed1 : @num A -> jsstring.

Import AI.

Lemma infix_quoted (before question after : jsstring) :
  Inv.infix question (before ++ quote ++ question ++ quote ++ after).
Proof.
  exists (before ++ quote), (quote ++ after). now rewrite <- !app_assoc.
Qed.

Lemma generateMockResponse_quotes (question : jsstring)
      (found : list DocumentSource) :
  Inv.infix question (generateMockResponse toFixed1 question found).
Proof.
  unfold generateMockResponse, lines. destruct found as [|first rest].
  - eapply infix_trans; [|apply infix_join; now left].
    apply infix_quoted.
  - eapply infix_trans; [|apply infix_join; do 7 right; now left].
    apply infix_quoted.
Qed.

Lemma generateMockResponse_names (question : jsstring)
      (found : list DocumentSource) (s : DocumentSource) :
  In s found ->
  Inv.infix (title s) (generateMockResponse toFixed1 question found).
Proof.
  intros Hin. unfold generateMockResponse, lines.
  destruct found as [|first rest]; [destruct Hin|].
  eapply infix_trans; [|apply infix_join; now left].
  apply infix_app_l, infix_app_r. apply infix_join. now apply in_map.
Qed.

End AnswerFacts.

(** X12.  When there is no key, or the completion request fails, the
    answer of [query] is the local one: it quotes the question, and it
    names the title of every source returned with it. *)
Theorem query_fallback_cites_sources
        (A : Arith) (S : Sine A)
        (fetchEmbedding : jsstring -> jsstring -> option AI.EmbeddingResult)
        (place : nat -> nat)
        (fetchCompletion : jsstring -> jsstring -> jsstring -> option jsstring)
        (toFixed1 : num -> jsstring)
        (startTime endTime : Z) (clock : nat -> Z)
        (svc : AI.AIService) (userQuery : jsstring) :
  AI.apiKey svc = []
  \/ (forall prompt, fetchCompletion (AI.apiKey svc) prompt userQuery = None) ->
  let response :=
    AI.query fetchEmbedding place fetchCompletion toFixed1 startTime endTime clock
             svc userQuery in
  AI.answer response
  = AI.generateMockResponse toFixed1 userQuery (AI.sources response)
  /\ includes (AI.answer response) userQuery = true
  /\ forall s, In s (AI.sources response) ->
               includes (AI.answer response) (AI.title s) = true.
Proof.
  intros H response.
  assert (E : AI.answer response
              = AI.generateMockResponse toFixed1 userQuery
                                        (AI.sources response)).
  { unfold response, AI.query. cbn [AI.answer AI.sources].
    unfold AI.generateCompletion. destruct H as [H|H].
    - now rewrite H.
    - rewrite H. now destruct (negb _). }
  split; [exact E|]. rewrite E. split.
  - apply includes_infix, generateMockResponse_quotes.
  - intros s Hs. now apply includes_infix, generateMockResponse_names.
Qed.

Lemma query_fallback_cites_sources_witness :
  (AI.apiKey Sample.threeDocsNoKey = []
   \/ (forall prompt,
          Cases.silent (AI.apiKey Sample.threeDocsNoKey) prompt (str "q")
          = @None jsstring))
  /\ includes
       (AI.answer
          (AI.query (Sample.remote Sample.unit1) Sample.place Cases.silent
                    Cases.fixed 0 1 Sample.ticks
                    Sample.threeDocsNoKey (str "q")))
       (str "q") = true.
Proof.
  assert (H : AI.apiKey Sample.threeDocsNoKey = []
              \/ (forall prompt,
                     Cases.silent
                       (AI.apiKey Sample.threeDocsNoKey) prompt (str "q")
                     = @None jsstring)) by (left; reflexivity).
  split; [exact H|].
  exact (proj1 (proj2 (@query_fallback_cites_sources RArith RSine
                         (Sample.remote Sample.unit1) Sample.place Cases.silent
                         Cases.fixed 0 1 Sample.ticks
                         Sample.threeDocsNoKey (str "q") H))).
Defined.

Section ConfidenceFacts.

Context {A : Arith} {S : Sine A}.

Import AI Spec.

Variable fetchEmbedding : jsstring -> jsstring -> option (@EmbeddingResult A).
Variable place : nat -> nat.

(** With a positive number of records asked for, a store that is not
    empty and scores that order the pairs, the first record carries a
    similarity of the store that none is above. *)
Lemma searchDocuments_first_is_best
      (clock : nat -> Z) (svc : AIService) (userQuery : jsstring)
      (topK : Z) :
  let queryEmbedding :=
    result_embedding (generateEmbedding fetchEmbedding svc userQuery) in
  (0 < topK)%Z -> vectorStore svc <> [] ->
  Inv.ordered
    (List.map score (scoreAll queryEmbedding (vectorStore svc))) ->
  exists first rest,
    searchDocuments fetchEmbedding place clock svc userQuery topK
    = first :: rest
    /\ (exists c, In c (JsMap.values (vectorStore svc))
                  /\ relevanceScore first
                     = cosineSimilarity queryEmbedding (embedding c))
    /\ (forall c, In c (JsMap.values (vectorStore svc)) ->
                  Inv.above (cosineSimilarity queryEmbedding (embedding c))
                            (relevanceScore first)
                  = false).
Proof.
  intros qe Hk Hne Hord.
  set (results := scoreAll qe (vectorStore svc)) in *.
  pose proof Hord as [_ [Hneg _]].
  pose proof (ordered_consistent results Hord) as Hcons.
  pose proof (sort_ordered before results Hcons) as Hsorted.
  pose proof (sort_length before results) as Hlen.
  pose proof (fun x => sort_In before results x) as HIn.
  assert (Htop : topResults fetchEmbedding place svc userQuery topK
                 = firstn (Z.to_nat topK) (JsArray.sort before results)).
  { unfold topResults, JsArray.hostSort. fold qe. fold results.
    rewrite Hcons. apply slice_prefix. lia. }
  destruct (JsArray.sort before results) as [|r0 sorted] eqn:E.
  - exfalso. unfold results, scoreAll, JsMap.values in Hlen.
    rewrite !length_map in Hlen. destruct (vectorStore svc); [congruence|].
    discriminate.
  - destruct (Z.to_nat topK) as [|k] eqn:Ek; [lia|].
    cbn [firstn] in Htop.
    unfold searchDocuments. rewrite aggregate_grouped, Htop.
    unfold groupedSources. cbn [List.length groupedUpTo].
    eexists. eexists. split; [reflexivity|].
    cbn [relevanceScore sourceOf].
    set (same := filter (sameDocument (docOf r0)) (firstn k sorted)).
    assert (Hscores : forall r, In r (r0 :: sorted) ->
               In (score r) (List.map score results)).
    { intros r Hr. apply in_map. now apply HIn. }
    inversion Hsorted as [|? ? _ Hall]; subst.
    rewrite Forall_forall in Hall.
    destruct (@fold_max A (List.map score results) (List.map score same)
                Hord (score r0)) as [Hsel [Hup _]].
    { apply Hscores. now left. }
    { intros q Hq. apply in_map_iff in Hq. destruct Hq as [r [<- Hr]].
      apply filter_In in Hr. destruct Hr as [Hr _]. apply In_firstn in Hr.
      apply Hscores. now right. }
    assert (Hpick : exists r, In r (r0 :: sorted)
                     /\ fold_left nmax (List.map score same) (score r0)
                        = score r).
    { destruct Hsel as [Heq|Hsel].
      - exists r0. split; [now left | now rewrite <- Heq].
      - apply in_map_iff in Hsel. destruct Hsel as [r [Heq Hr]].
        apply filter_In in Hr. destruct Hr as [Hr _]. apply In_firstn in Hr.
        exists r. split; [now right | now rewrite Heq]. }
    destruct Hpick as [r1 [Hr1 E1]]. split.
    + apply HIn, scoreAll_In in Hr1. destruct Hr1 as [c [Hc Heq]].
      exists c. split; [exact Hc|]. rewrite E1, Heq. reflexivity.
    + intros c Hc.
      assert (Hr : In {| chunk := c;
                         score := cosineSimilarity qe (embedding c) |}
                      (r0 :: sorted)).
      { apply HIn. apply scoreAll_In. now exists c. }
      assert (Hm : In (fold_left nmax (List.map score same) (score r0))
                      (List.map score results))
        by (rewrite E1; now apply Hscores).
      destruct Hr as [Heq|Hr].
      * replace (cosineSimilarity qe (embedding c)) with (score r0)
          by (rewrite Heq; reflexivity).
        exact Hup.
      * change (cosineSimilarity qe (embedding c))
          with (score {| chunk := c;
                         score := cosineSimilarity qe (embedding c) |}).
        apply (Hneg _ (score r0) _).
        -- exact (Hscores _ (or_intror Hr)).
        -- apply Hscores. now left.
        -- exact Hm.
        -- exact (Hall _ Hr).
        -- exact Hup.
Qed.

End ConfidenceFacts.

(** The confidence of an answer, when the scores order the pairs. *)
Lemma query_confidence_ordered
      (A : Arith) (S : Sine A)
      (fetchEmbedding : jsstring -> jsstring -> option AI.EmbeddingResult)
      (place : nat -> nat)
      (fetchCompletion : jsstring -> jsstring -> jsstring -> option jsstring)
      (toFixed1 : num -> jsstring)
      (startTime endTime : Z) (clock : nat -> Z)
      (svc : AI.AIService) (userQuery : jsstring) :
  let queryEmbedding :=
    AI.result_embedding (AI.generateEmbedding fetchEmbedding svc userQuery) in
  AI.vectorStore svc <> [] ->
  Inv.ordered
    (List.map AI.score (AI.scoreAll queryEmbedding (AI.vectorStore svc))) ->
  Inv.bestOf queryEmbedding (AI.vectorStore svc)
             (AI.confidence
                (AI.query fetchEmbedding place fetchCompletion toFixed1
                          startTime endTime clock svc userQuery)).
Proof.
  intros queryEmbedding Hne Hord.
  destruct (@searchDocuments_first_is_best A S fetchEmbedding place clock
              svc userQuery AI.defaultTopK) as [first [rest [E [H1 H2]]]].
  - unfold AI.defaultTopK. lia.
  - exact Hne.
  - exact Hord.
  - unfold AI.query. cbn [AI.sources AI.confidence].
    rewrite E. split; [exact H1 | exact H2].
Qed.

(** X13.  An answer has at most five sources, and its confidence is 0,
    with no source, when the store is empty.  When the store is not empty
    and the scores order the pairs, the confidence is the similarity of
    the question with a chunk of the store, which the similarity of no
    stored chunk is above, whichever documents the chunks belong to.  In
    binary64 the scores order the pairs when no similarity of the question
    with a stored chunk is NaN; in exact arithmetic they always do, and the
    confidence is the greatest of the similarities. *)
Theorem query_confidence_is_best_similarity :
  (forall (A : Arith) (S : Sine A)
          (fetchEmbedding : jsstring -> jsstring -> option AI.EmbeddingResult)
          (place : nat -> nat)
          (fetchCompletion
           : jsstring -> jsstring -> jsstring -> option jsstring)
          (toFixed1 : num -> jsstring)
          (startTime endTime : Z) (clock : nat -> Z)
          (svc : AI.AIService) (userQuery : jsstring),
      let queryEmbedding :=
        AI.result_embedding
          (AI.generateEmbedding fetchEmbedding svc userQuery) in
      let response :=
        AI.query fetchEmbedding place fetchCompletion toFixed1 startTime
                 endTime clock svc userQuery in
      (List.length (AI.sources response) <= 5)%nat
      /\ (AI.vectorStore svc = [] ->
          AI.sources response = [] /\ AI.confidence response = ofZ 0)
      /\ (AI.vectorStore svc <> [] ->
          Inv.ordered
            (List.map AI.score
                      (AI.scoreAll queryEmbedding (AI.vectorStore svc))) ->
          Inv.bestOf queryEmbedding (AI.vectorStore svc)
                     (AI.confidence response)))
  /\ (forall (S : Sine F64Arith)
             (fetchEmbedding
              : jsstring -> jsstring -> option (@AI.EmbeddingResult F64Arith))
             (place : nat -> nat)
             (fetchCompletion
              : jsstring -> jsstring -> jsstring -> option jsstring)
             (toFixed1 : float -> jsstring)
             (startTime endTime : Z) (clock : nat -> Z)
             (svc : @AI.AIService F64Arith) (userQuery : jsstring),
         let queryEmbedding :=
           AI.result_embedding
             (AI.generateEmbedding fetchEmbedding svc userQuery) in
         AI.vectorStore svc <> [] ->
         (forall c, In c (JsMap.values (AI.vectorStore svc)) ->
                    is_nan (AI.cosineSimilarity queryEmbedding
                                                (AI.embedding c))
                    = false) ->
         Inv.bestOf queryEmbedding (AI.vectorStore svc)
                    (AI.confidence
                       (AI.query fetchEmbedding place fetchCompletion
                                 toFixed1 startTime endTime clock svc
                                 userQuery)))
  /\ (forall (S : Sine RArith)
             (fetchEmbedding
              : jsstring -> jsstring -> option (@AI.EmbeddingResult RArith))
             (place : nat -> nat)
             (fetchCompletion
              : jsstring -> jsstring -> jsstring -> option jsstring)
             (toFixed1 : R -> jsstring)
             (startTime endTime : Z) (clock : nat -> Z)
             (svc : @AI.AIService RArith) (userQuery : jsstring),
         let queryEmbedding :=
           AI.result_embedding
             (AI.generateEmbedding fetchEmbedding svc userQuery) in
         let response :=
           AI.query fetchEmbedding place fetchCompletion toFixed1 startTime
                    endTime clock svc userQuery in
         AI.vectorStore svc <> [] ->
         (exists c, In c (JsMap.values (AI.vectorStore svc))
                    /\ AI.confidence response
                       = AI.cosineSimilarity queryEmbedding (AI.embedding c))
         /\ (forall c, In c (JsMap.values (AI.vectorStore svc)) ->
                       (AI.cosineSimilarity queryEmbedding (AI.embedding c)
                        <= AI.confidence response)%R)).
Proof.
  split; [|split].
  - intros A S fetchEmbedding place fetchCompletion toFixed1 startTime
           endTime clock svc userQuery queryEmbedding response.
    split; [|split].
    + unfold response, AI.query. cbn [AI.sources].
      etransitivity; [apply searchDocuments_length|].
      pose proof (@topResults_length A S fetchEmbedding place svc userQuery
                    AI.defaultTopK) as H.
      unfold AI.defaultTopK in *. lia.
    + intros Hempty. unfold response, AI.query.
      cbn [AI.sources AI.confidence].
      unfold AI.searchDocuments, AI.topResults, AI.scoreAll.
      rewrite Hempty. split; reflexivity.
    + apply query_confidence_ordered.
  - intros S fetchEmbedding place fetchCompletion toFixed1 startTime endTime
           clock svc userQuery queryEmbedding Hne Hnan.
    apply query_confidence_ordered; [exact Hne|].
    now apply scores_ordered_binary64.
  - intros S fetchEmbedding place fetchCompletion toFixed1 startTime endTime
           clock svc userQuery queryEmbedding response Hne.
    destruct (@query_confidence_ordered
                RArith S fetchEmbedding place fetchCompletion toFixed1
                startTime endTime clock svc userQuery Hne
                (ordered_real _)) as [Hc Hall].
    split; [exact Hc|]. intros c Hin. specialize (Hall c Hin).
    unfold Inv.above in Hall. cbn [nltb nsub ofZ RArith] in Hall.
    destruct (Rlt_dec _ _) as [Hlt|Hge] in Hall; [discriminate|].
    unfold response, queryEmbedding. apply Rnot_lt_le in Hge.
    apply Rminus_le. apply Rle_minus in Hge. lra.
Qed.

Lemma query_confidence_is_best_similarity_witness :
  AI.vectorStore Cases.store64 <> []
  /\ AI.confidence
       (@AI.query F64Arith Cases.sine64 (Cases.remote64 Cases.east64)
                  Sample.place Cases.silent (fun _ => str "100.0") 0 1
                  Sample.ticks Cases.store64 (str "q"))
     = 1%float
  /\ Inv.bestOf
       Cases.east64 (AI.vectorStore Cases.store64)
       (AI.confidence
          (@AI.query F64Arith Cases.sine64 (Cases.remote64 Cases.east64)
                     Sample.place Cases.silent (fun _ => str "100.0") 0 1
                     Sample.ticks Cases.store64 (str "q"))).
Proof.
  assert (Hne : AI.vectorStore Cases.store64 <> []) by discriminate.
  split; [exact Hne|]. split; [vm_compute; reflexivity|].
  refine (proj1 (proj2 query_confidence_is_best_similarity)
                Cases.sine64 (Cases.remote64 Cases.east64)
                Sample.place Cases.silent (fun _ => str "100.0") 0%Z 1%Z
                Sample.ticks Cases.store64 (str "q") Hne _).
  intros c Hc. unfold JsMap.values in Hc. cbn in Hc.
  each_member; vm_compute; reflexivity.
Defined.

(** ** More on cosine similarity *)

Section CosineSwap.

Context {A : Arith}.

Import AI.

Hypothesis nmul_comm : forall x y : num, nmul x y = nmul y x.

Lemma cosineLoop_swap_from (a : list num) :
  forall (b : list num) (acc : num * num * num),
    fold_left cosineStep (combine b a) (Inv.swapNorms acc)
    = Inv.swapNorms (fold_left cosineStep (combine a b) acc).
Proof.
  induction a as [|x a IH]; intros [|y b] acc; cbn [combine fold_left];
    try reflexivity.
  rewrite <- IH. f_equal. destruct acc as [[d na] nb].
  cbn [cosineStep Inv.swapNorms]. now rewrite (nmul_comm y x).
Qed.

Lemma cosineSimilarity_swap (a b : list num) :
  cosineSimilarity a b = cosineSimilarity b a.
Proof.
  unfold cosineSimilarity.
  rewrite (Nat.eqb_sym (List.length b) (List.length a)).
  destruct (negb (Nat.eqb (List.length a) (List.length b)));
    [reflexivity|].
  unfold cosineLoop.
  change (ofZ 0, ofZ 0, ofZ 0) with (Inv.swapNorms (ofZ 0, ofZ 0, ofZ 0)) at 2.
  rewrite cosineLoop_swap_from.
  destruct (fold_left cosineStep (combine a b) (ofZ 0, ofZ 0, ofZ 0))
    as [[d na] nb].
  cbn [Inv.swapNorms]. now rewrite (nmul_comm (nsqrt nb)).
Qed.

End CosineSwap.

(** The binary64 product does not depend on the order of its factors. *)
Lemma mul_comm64 (x y : float) : PrimFloat.mul x y = PrimFloat.mul y x.
Proof.
  apply Prim2SF_inj. rewrite !mul_spec.
  destruct (Prim2SF x) as [sx|sx| |sx mx ex],
           (Prim2SF y) as [sy|sy| |sy my ey];
    cbn [SF64mul SFmul]; unfold SF64mul, SFmul;
    rewrite ?(xorb_comm sy sx); try reflexivity.
  now rewrite (Pos.mul_comm my mx), (Z.add_comm ey ex).
Qed.

Section CosineSymmetry.

Import AI Spec.

#[local] Existing Instance RArith | 0.

Local Open Scope R_scope.

Lemma dot_scale_l (k : R) (a : list R) :
  forall b : list R, dot (List.map (Rmult k) a) b = k * dot a b.
Proof.
  induction a as [|x a IH]; intros [|y b]; cbn [dot List.map]; try ring.
  rewrite IH. ring.
Qed.

Lemma dot_scale_self (k : R) (a : list R) :
  dot (List.map (Rmult k) a) (List.map (Rmult k) a) = (k * k) * dot a a.
Proof.
  induction a as [|x a IH]; cbn [dot List.map]; [ring|].
  rewrite IH. ring.
Qed.

Lemma norm_scale (k : R) (a : list R) :
  0 < k -> norm (List.map (Rmult k) a) = k * norm a.
Proof.
  intros Hk. unfold norm. rewrite dot_scale_self.
  rewrite sqrt_mult by (try apply dot_self_nonneg; nra).
  now rewrite sqrt_square by lra.
Qed.

Lemma cosineSimilarity_scale (a b : list R) (k : R) :
  nonZero a -> nonZero b -> 0 < k -> List.length a = List.length b ->
  cosineSimilarity (A := RArith) (List.map (Rmult k) a) b
  = cosineSimilarity (A := RArith) a b.
Proof.
  intros Ha Hb Hk Hlen.
  assert (Hlen' : List.length (List.map (Rmult k) a) = List.length b)
    by (now rewrite length_map).
  rewrite (cosineSimilarity_quotient _ b Hlen').
  rewrite (cosineSimilarity_quotient a b Hlen).
  rewrite dot_scale_l, norm_scale by exact Hk.
  assert (Hna : (0 < Spec.norm a)%R)
    by (apply sqrt_lt_R0; now apply dot_self_pos).
  assert (Hnb : (0 < Spec.norm b)%R)
    by (apply sqrt_lt_R0; now apply dot_self_pos).
  assert (F : forall D na nb : R,
             (0 < na)%R -> (0 < nb)%R ->
             (k * D / (k * na * nb) = D / (na * nb))%R)
    by (intros; field; lra).
  exact (F _ _ _ Hna Hnb).
Qed.

End CosineSymmetry.

(** X14.  The cosine similarity does not depend on the order of its two
    arguments, in binary64 as in exact arithmetic and for all vectors.
    Multiplying an argument by a positive number leaves it unchanged in
    exact arithmetic, on vectors of one length that are not zero; in
    binary64 it does not: the similarity of (3, 3, 3) with (1, 1, 1) is 1
    and that of (1, 1, 1) with itself is 1.0000000000000002. *)
Theorem cosineSimilarity_symmetric :
  (forall a b : list float,
      AI.cosineSimilarity (A := F64Arith) a b
      = AI.cosineSimilarity (A := F64Arith) b a)
  /\ (forall a b : list R,
         AI.cosineSimilarity (A := RArith) a b
         = AI.cosineSimilarity (A := RArith) b a)
  /\ (forall (a b : list R) (k : R),
         Spec.nonZero a -> Spec.nonZero b -> (0 < k)%R ->
         List.length a = List.length b ->
         AI.cosineSimilarity (A := RArith) (List.map (Rmult k) a) b
         = AI.cosineSimilarity (A := RArith) a b)
  /\ AI.cosineSimilarity (A := F64Arith)
                         (List.map (PrimFloat.mul 3) Sample.ones64)
                         Sample.ones64
     = 1%float
  /\ AI.cosineSimilarity (A := F64Arith) Sample.ones64 Sample.ones64
     = 0x1.0000000000001p+0%float.
Proof.
  split; [|split; [|split; [|split]]].
  - intros a b. apply (@cosineSimilarity_swap F64Arith). exact mul_comm64.
  - intros a b. apply (@cosineSimilarity_swap RArith). exact Rmult_comm.
  - intros a b k. apply cosineSimilarity_scale.
  - vm_compute. reflexivity.
  - vm_compute. reflexivity.
Qed.

(** ** More on the chunker *)

Section TrimFacts.

Lemma trimStart_suffix (s : jsstring) : exists w, s = w ++ trimStart s.
Proof.
  induction s as [|c s [w IH]]; [now exists []|].
  cbn [trimStart]. destruct (isWhiteSpace c).
  - exists (c :: w). cbn [app]. now rewrite <- IH.
  - now exists [].
Qed.

Lemma trimEnd_prefix (s : jsstring) : exists w, s = trimEnd s ++ w.
Proof.
  unfold trimEnd. destruct (trimStart_suffix (rev s)) as [w Hw].
  exists (rev w). rewrite <- rev_app_distr, <- Hw. now rewrite rev_involutive.
Qed.

Lemma trim_infix (s : jsstring) : Inv.infix (trim s) s.
Proof.
  unfold trim. destruct (trimStart_suffix s) as [w Hw].
  destruct (trimEnd_prefix (trimStart s)) as [w' Hw'].
  exists w, w'. rewrite <- Hw'. exact Hw.
Qed.

Lemma trimStart_head (s : jsstring) (c : N) (r : jsstring) :
  trimStart s = c :: r -> isWhiteSpace c = false.
Proof.
  induction s as [|d s IH]; cbn [trimStart]; [discriminate|].
  destruct (isWhiteSpace d) eqn:E; [exact IH|].
  intros [= <- _]. exact E.
Qed.

Lemma trimStart_solid (c : N) (r : jsstring) :
  isWhiteSpace c = false -> trimStart (c :: r) = c :: r.
Proof. intros H. cbn [trimStart]. now rewrite H. Qed.

(** Trimming at the start stops at the latest before a code unit that is
    no white space. *)
Lemma trimStart_before (a : jsstring) (c : N) (r : jsstring) :
  isWhiteSpace c = false ->
  exists a', trimStart (a ++ c :: r) = a' ++ c :: r.
Proof.
  intros Hc. induction a as [|x a [a' IH]].
  - exists []. now apply trimStart_solid.
  - cbn [app trimStart]. destruct (isWhiteSpace x).
    + now exists a'.
    + now exists (x :: a).
Qed.

Lemma trimEnd_after (r : jsstring) (c : N) (b : jsstring) :
  isWhiteSpace c = false ->
  exists b', trimEnd (r ++ c :: b) = r ++ c :: b'.
Proof.
  intros Hc. unfold trimEnd.
  rewrite rev_app_distr. cbn [rev]. rewrite <- app_assoc. cbn [app].
  destruct (@trimStart_before (rev b) c (rev r) Hc) as [b' Hb'].
  rewrite Hb'. exists (rev b').
  rewrite rev_app_distr. cbn [rev]. rewrite rev_involutive.
  now rewrite <- app_assoc.
Qed.

(** A trimmed text that is not empty begins and ends with a code unit
    that is no white space. *)
Lemma trim_solid (s : jsstring) :
  trim s <> [] ->
  (exists c r, trim s = c :: r /\ isWhiteSpace c = false)
  /\ (exists r c, trim s = r ++ [c] /\ isWhiteSpace c = false).
Proof.
  intros Hne. split.
  - destruct (trim s) as [|c r] eqn:E; [congruence|].
    exists c, r. split; [reflexivity|].
    unfold trim in E. destruct (trimEnd_prefix (trimStart s)) as [w Hw].
    rewrite E in Hw. cbn [app] in Hw. now apply trimStart_head in Hw.
  - unfold trim, trimEnd in *.
    destruct (trimStart (rev (trimStart s))) as [|c r] eqn:E;
      [now contradiction Hne|].
    exists (rev r), c. split; [reflexivity|].
    now apply trimStart_head in E.
Qed.

(** What is left of a text after trimming stays in a longer text after
    trimming. *)
Lemma infix_trim (s cur : jsstring) :
  trim s <> [] -> Inv.infix (trim s) cur -> Inv.infix (trim s) (trim cur).
Proof.
  intros Hne [a [b ->]].
  destruct (@trim_solid s Hne) as [[c0 [r0 [E0 H0]]] [r1 [c1 [E1 H1]]]].
  unfold trim at 2.
  assert (Hs : exists a', trimStart (a ++ trim s ++ b) = a' ++ trim s ++ b).
  { rewrite E0. cbn [app]. now apply trimStart_before. }
  destruct Hs as [a' ->].
  assert (He : exists b',
             trimEnd (a' ++ trim s ++ b) = a' ++ trim s ++ b').
  { rewrite E1. rewrite <- !app_assoc. cbn [app].
    destruct (@trimEnd_after (a' ++ r1) c1 b H1) as [b' Hb'].
    exists b'. rewrite <- app_assoc in Hb'. rewrite Hb'.
    now rewrite <- !app_assoc. }
  destruct He as [b' ->]. now exists a', b'.
Qed.

End TrimFacts.

Section CoverageFacts.

Import AI.

Local Open Scope Z_scope.

Lemma chunkStep_kept (chunkSize overlap : Z) (done : list jsstring)
      (st : list jsstring * jsstring) (sentence : jsstring) :
  Chunks.kept done st ->
  Chunks.kept (done ++ [sentence]) (chunkStep chunkSize overlap st sentence).
Proof.
  destruct st as [chunks cur]. intros Hkept s Hin Hne.
  unfold chunkStep. apply in_app_iff in Hin.
  destruct Hin as [Hin | [<-|[]]].
  - destruct (Hkept s Hin Hne) as [[c [Hc Hi]] | Hi]; cbn [fst snd] in *.
    + left. exists c. split; [|exact Hi].
      destruct (closes chunkSize cur sentence); cbn [fst]; [|exact Hc].
      apply in_app_iff. now left.
    + destruct (closes chunkSize cur sentence); cbn [fst snd].
      * left. exists (trim cur). split; [|now apply infix_trim].
        apply in_app_iff. right. now left.
      * right. now apply infix_app_r.
  - right. destruct (closes chunkSize cur sentence); cbn [snd];
      apply infix_app_l, infix_app_r, trim_infix.
Qed.

Lemma chunkLoop_kept (chunkSize overlap : Z) (sentences : list jsstring) :
  Chunks.kept sentences (chunkLoop chunkSize overlap sentences).
Proof.
  unfold chunkLoop.
  assert (H : forall done st,
             Chunks.kept done st ->
             Chunks.kept (done ++ sentences)
               (fold_left (chunkStep chunkSize overlap) sentences st)).
  { induction sentences as [|x l IH]; intros done st Hst.
    - now rewrite app_nil_r.
    - cbn [fold_left].
      replace (done ++ x :: l) with ((done ++ [x]) ++ l)
        by (now rewrite <- app_assoc).
      apply IH. now apply chunkStep_kept. }
  apply (H [] ([], [])). intros s [].
Qed.

Lemma infix_nonempty (x y : jsstring) : x <> [] -> Inv.infix x y -> y <> [].
Proof.
  intros Hx [a [b ->]] H. apply app_eq_nil in H. destruct H as [_ H].
  apply app_eq_nil in H. tauto.
Qed.

Lemma accumulated_kept (text : jsstring) (chunkSize overlap : Z)
      (s : jsstring) :
  In s (sentencesOf text) ->
  exists c, In c (accumulated text chunkSize overlap)
            /\ Inv.infix (trim s) c.
Proof.
  intros Hin.
  assert (Hne : trim s <> []).
  { unfold sentencesOf in Hin. apply filter_In in Hin.
    now apply truthy_true. }
  pose proof (chunkLoop_kept chunkSize overlap (sentencesOf text) s Hin Hne)
    as H.
  unfold accumulated.
  destruct (chunkLoop chunkSize overlap (sentencesOf text)) as [chunks cur].
  cbn [fst snd] in H. destruct H as [[c [Hc Hi]] | Hi].
  - exists c. split; [|exact Hi].
    destruct (truthy (trim cur)); [apply in_app_iff; now left | exact Hc].
  - apply (@infix_trim s cur Hne) in Hi.
    assert (Ht : truthy (trim cur) = true)
      by (apply truthy_true; now apply (@infix_nonempty (trim s))).
    rewrite Ht. exists (trim cur). split; [|exact Hi].
    apply in_app_iff. right. now left.
Qed.

(** The loop closes at most one chunk per sentence, and none at the
    first. *)
Lemma chunkLoop_count (chunkSize overlap : Z) (sentences : list jsstring) :
  forall st,
    (List.length (fst (fold_left (chunkStep chunkSize overlap) sentences st))
     <= List.length (fst st) + List.length sentences)%nat.
Proof.
  induction sentences as [|x l IH]; intros st; cbn [fold_left List.length];
    [lia|].
  etransitivity; [apply IH|].
  destruct st as [chunks cur]. unfold chunkStep.
  destruct (closes chunkSize cur x); cbn [fst];
    rewrite ?length_app; cbn [List.length]; lia.
Qed.

Lemma accumulated_count (text : jsstring) (chunkSize overlap : Z) :
  (List.length (accumulated text chunkSize overlap)
   <= List.length (sentencesOf text))%nat.
Proof.
  unfold accumulated, chunkLoop.
  destruct (sentencesOf text) as [|x l]; [cbn; lia|].
  cbn [fold_left]. unfold chunkStep at 2.
  assert (E : closes chunkSize [] x = false)
    by (unfold closes; cbn [truthy]; apply andb_false_r).
  rewrite E.
  pose proof (chunkLoop_count chunkSize overlap l
                ([], [] ++ x ++ sentenceEnd)) as H.
  destruct (fold_left _ l _) as [chunks cur]. cbn [fst List.length] in *.
  destruct (truthy (trim cur)); rewrite ?length_app; cbn [List.length]; lia.
Qed.

(** While the sentences left fit in the chunk size with the buffer, the
    loop closes no chunk. *)
Lemma chunkLoop_fits (chunkSize overlap : Z) (sentences : list jsstring) :
  forall chunks cur,
    JsString.length (cur ++ Chunks.paragraph sentences) <= chunkSize ->
    fold_left (chunkStep chunkSize overlap) sentences (chunks, cur)
    = (chunks, cur ++ Chunks.paragraph sentences).
Proof.
  unfold Chunks.paragraph.
  induction sentences as [|x l IH]; intros chunks cur Hfit;
    cbn [fold_left List.map List.concat].
  - now rewrite app_nil_r.
  - unfold chunkStep at 2.
    assert (E : closes chunkSize cur x = false).
    { unfold closes. apply andb_false_iff. left.
      rewrite Z.gtb_ltb. apply Z.ltb_ge.
      revert Hfit. cbn [List.map List.concat]. unfold JsString.length.
      rewrite !length_app. lia. }
    rewrite E. rewrite IH.
    + f_equal. now rewrite <- !app_assoc.
    + revert Hfit. cbn [List.map List.concat]. now rewrite <- !app_assoc.
Qed.

End CoverageFacts.

(** X15.  The chunker loses no sentence: every sentence of the text,
    trimmed, is found in one of the chunks. *)
Theorem splitIntoChunks_keeps_every_sentence
        (text : jsstring) (chunkSize overlap : Z) (s : jsstring) :
  In s (AI.sentencesOf text) ->
  exists c, In c (AI.splitIntoChunks text chunkSize overlap)
            /\ Inv.infix (trim s) c.
Proof.
  intros Hin.
  destruct (accumulated_kept text chunkSize overlap s Hin) as [c [Hc Hi]].
  exists c. split; [|exact Hi]. unfold AI.splitIntoChunks.
  destruct (AI.accumulated text chunkSize overlap); [destruct Hc|exact Hc].
Qed.

Lemma splitIntoChunks_keeps_every_sentence_witness :
  In (str " Two") (AI.sentencesOf (str "One. Two"))
  /\ exists c, In c (AI.splitIntoChunks (str "One. Two") 5 50)
               /\ Inv.infix (trim (str " Two")) c.
Proof.
  assert (H : In (str " Two") (AI.sentencesOf (str "One. Two")))
    by (vm_compute; tauto).
  split; [exact H|].
  exact (@splitIntoChunks_keeps_every_sentence (str "One. Two") 5 50
           (str " Two") H).
Defined.

(** X16.  The chunker returns at least one chunk and at most one chunk per
    sentence of the text, whatever the chunk size and the overlap. *)
Theorem splitIntoChunks_count
        (text : jsstring) (chunkSize overlap : Z) :
  (1 <= List.length (AI.splitIntoChunks text chunkSize overlap)
   <= Nat.max 1 (List.length (AI.sentencesOf text)))%nat.
Proof.
  pose proof (accumulated_count text chunkSize overlap) as H.
  unfold AI.splitIntoChunks.
  destruct (AI.accumulated text chunkSize overlap) as [|c l];
    cbn [List.length Nat.ltb Nat.leb] in *; lia.
Qed.

(** X17.  When the sentences of the text, each followed by a full stop and
    a space, fit together in the chunk size, the chunker returns one chunk:
    those sentences in a row, each with the full stop and the space the
    loop gives it, trimmed. *)
Theorem splitIntoChunks_single_chunk
        (text : jsstring) (chunkSize overlap : Z) :
  AI.sentencesOf text <> [] ->
  (JsString.length (Chunks.paragraph (AI.sentencesOf text)) <= chunkSize)%Z ->
  AI.splitIntoChunks text chunkSize overlap
  = [trim (Chunks.paragraph (AI.sentencesOf text))].
Proof.
  intros Hne Hfit. unfold AI.splitIntoChunks, AI.accumulated, AI.chunkLoop.
  rewrite chunkLoop_fits by exact Hfit. cbn [app].
  assert (Ht : truthy (trim (Chunks.paragraph (AI.sentencesOf text))) = true).
  { apply truthy_true, trim_full_stop.
    destruct (AI.sentencesOf text) as [|x l]; [congruence|].
    unfold Chunks.paragraph. cbn [List.map List.concat].
    rewrite !in_app_iff. left. right. now left. }
  rewrite Ht. reflexivity.
Qed.

Lemma splitIntoChunks_single_chunk_witness :
  AI.sentencesOf (str "One! Two") <> []
  /\ (JsString.length (Chunks.paragraph (AI.sentencesOf (str "One! Two")))
      <= 500)%Z
  /\ AI.splitIntoChunks (str "One! Two") 500 50 = [str "One.  Two."].
Proof.
  assert (H : AI.sentencesOf (str "One! Two") <> [])
    by (vm_compute; discriminate).
  assert (H' : (JsString.length
                  (Chunks.paragraph (AI.sentencesOf (str "One! Two")))
                <= 500)%Z) by (vm_compute; discriminate).
  split; [exact H | split; [exact H'|]].
  exact (@splitIntoChunks_single_chunk (str "One! Two") 500 50 H H').
Defined.

(** ** More on the document service *)

Section ListingFacts.

Import Docs.

Local Open Scope Z_scope.

Lemma insert_newestFirst (x : Document) (l : list Document) :
  Whole.newestFirst l -> Whole.newestFirst (JsArray.insert newerFirst x l).
Proof.
  unfold Whole.newestFirst.
  induction 1 as [|y l Hsorted IH Hy]; cbn [JsArray.insert].
  - constructor; constructor.
  - unfold newerFirst at 1. destruct (Z.ltb_spec (lastUpdated x - lastUpdated y) 0).
    + constructor; [exact IH|]. apply Forall_forall. intros z Hz.
      apply (Permutation_in _ (insert_perm newerFirst x l)) in Hz.
      destruct Hz as [<-|Hz]; [lia|].
      rewrite Forall_forall in Hy. now apply Hy.
    + constructor; [now constructor|].
      constructor; [lia|]. apply Forall_forall. intros z Hz.
      rewrite Forall_forall in Hy. specialize (Hy z Hz). lia.
Qed.

Lemma sort_newestFirst (l : list Document) :
  Whole.newestFirst (JsArray.sort newerFirst l).
Proof.
  induction l as [|x l IH]; cbn [JsArray.sort].
  - constructor.
  - now apply insert_newestFirst.
Qed.

Lemma splitOn_no_separator (sep : N) (s : jsstring) :
  forall cur, ~ In sep s -> splitOn sep s cur = [cur ++ s].
Proof.
  induction s as [|c s IH]; intros cur Hn; cbn [splitOn].
  - now rewrite app_nil_r.
  - destruct (N.eqb_spec c sep) as [->|Hne].
    + exfalso. apply Hn. now left.
    + rewrite IH.
      * now rewrite <- app_assoc.
      * intros H. apply Hn. now right.
Qed.

Lemma includes_empty (hay : jsstring) : includes hay [] = true.
Proof. destruct hay; reflexivity. Qed.

End ListingFacts.

(** X18.  [getAllDocuments] lists every document of the set once, the
    most recently updated first. *)
Theorem getAllDocuments_newest_first (ds : Docs.DocumentService) :
  Permutation (Docs.getAllDocuments ds) (JsMap.values (Docs.documents ds))
  /\ Whole.newestFirst (Docs.getAllDocuments ds).
Proof.
  unfold Docs.getAllDocuments. split.
  - apply sort_perm.
  - apply sort_newestFirst.
Qed.

(** X19.  The file type is never the empty string; a name with no full
    stop in it is its own extension: the type is the whole name in lower
    case. *)
Theorem getFileType_never_empty
        (toLowerCase : jsstring -> jsstring) (file : Docs.File) :
  Docs.getFileType toLowerCase file <> []
  /\ (~ In 46%N (Docs.name file) ->
      toLowerCase (Docs.name file) <> [] ->
      Docs.getFileType toLowerCase file = toLowerCase (Docs.name file)).
Proof.
  unfold Docs.getFileType. split.
  - destruct (truthy _) eqn:E; [now apply truthy_true | discriminate].
  - intros Hdot Hne. rewrite splitOn_no_separator by exact Hdot.
    cbn [app last]. apply truthy_true in Hne. now rewrite Hne.
Qed.

(** X20.  Extraction fails only when reading the file fails: for a plain
    text type with the failure of the reading, for a type it does not
    know with an error that names the type, and never for a PDF or DOCX
    file. *)
Theorem extractContent_fails_only_on_read
        (toLowerCase : jsstring -> jsstring)
        (pdfPlaceholder docxPlaceholder : Docs.File -> jsstring)
        (file : Docs.File) :
  let fileType := Docs.getFileType toLowerCase file in
  let outcome :=
    Docs.extractContent toLowerCase pdfPlaceholder docxPlaceholder file in
  (forall c, Docs.text file = Docs.Returned c ->
             exists c', outcome = Docs.Returned c')
  /\ (forall e, outcome = Docs.Threw e ->
        fileType <> str "pdf" /\ fileType <> str "docx"
        /\ exists e', Docs.text file = Docs.Threw e'
           /\ (e = e' /\ Docs.plainText fileType = true
               \/ e = Docs.ErrorObject (str "Unsupported file type: "
                                            ++ fileType)
                  /\ Docs.plainText fileType = false)).
Proof.
  intros fileType outcome. unfold outcome, Docs.extractContent.
  fold fileType. split.
  - intros c Hc. rewrite Hc.
    destruct (Docs.plainText fileType); [now exists c|].
    destruct (JsString.eqb fileType (str "pdf")); [eauto|].
    destruct (JsString.eqb fileType (str "docx")); eauto.
  - intros e.
    destruct (Docs.plainText fileType) eqn:P.
    + intros He. split; [|split].
      * intros E. rewrite E in P. vm_compute in P. discriminate.
      * intros E. rewrite E in P. vm_compute in P. discriminate.
      * exists e. split; [exact He | left; now split].
    + destruct (JsString.eqb fileType (str "pdf")) eqn:E1; [discriminate|].
      destruct (JsString.eqb fileType (str "docx")) eqn:E2; [discriminate|].
      destruct (Docs.text file) as [c|e'] eqn:T; [discriminate|].
      intros [= <-]. apply eqb_neq in E1, E2.
      split; [exact E1 | split; [exact E2|]].
      exists e'. split; [reflexivity | right; now split].
Qed.

(** X21.  A title search with the empty query returns every document, as
    [getAllDocuments] lists them, when lower-casing the empty string gives
    the empty string. *)
Theorem searchByTitle_empty_query
        (toLowerCase : jsstring -> jsstring) (ds : Docs.DocumentService) :
  toLowerCase [] = [] ->
  Docs.searchByTitle toLowerCase ds [] = Docs.getAllDocuments ds.
Proof.
  intros H. unfold Docs.searchByTitle. rewrite H.
  apply filter_all. intros d _. apply includes_empty.
Qed.

Lemma searchByTitle_empty_query_witness :
  Sample.asciiLower [] = []
  /\ Docs.searchByTitle Sample.asciiLower (Docs.docs Sample.emptySystem) []
     = Docs.getAllDocuments (Docs.docs Sample.emptySystem).
Proof.
  assert (H : Sample.asciiLower [] = []) by reflexivity.
  split; [exact H|].
  exact (@searchByTitle_empty_query Sample.asciiLower
           (Docs.docs Sample.emptySystem) H).
Defined.

(** ** The two services together *)

Section PartialIndexFacts.

Context {A : Arith} {S : Sine A}.
Variable fetchEmbedding : jsstring -> jsstring -> option (@AI.EmbeddingResult A).

Import AI.

Lemma indexChunks_fold (document : IndexRequest) (turns : nat)
      (svc : AIService) :
  apiKey (indexChunks fetchEmbedding document turns svc) = apiKey svc
  /\ vectorStore (indexChunks fetchEmbedding document turns svc)
     = fold_left (fun m e => JsMap.set m (fst e) (snd e))
                 (firstn turns (Indexed.entriesOf fetchEmbedding document svc))
                 (vectorStore svc).
Proof.
  unfold indexChunks, Indexed.entriesOf. rewrite firstn_map.
  apply index_fold.
Qed.

(** A chunk of the store after a run of the indexing loop, complete or
    not, was there before or is a chunk of the split content of the
    document. *)
Lemma indexChunks_In (document : IndexRequest) (turns : nat)
      (svc : AIService) (e : jsstring * DocumentChunk) :
  In e (vectorStore (indexChunks fetchEmbedding document turns svc)) ->
  In e (vectorStore svc)
  \/ (documentId (snd e) = req_id document
      /\ In (chunk_content (snd e))
            (splitIntoChunks (req_content document) 500 defaultOverlap)
      /\ totalChunks (metadata (snd e))
         = Z.of_nat (List.length
                       (splitIntoChunks (req_content document) 500
                                        defaultOverlap))).
Proof.
  destruct (indexChunks_fold document turns svc) as [_ Hs]. rewrite Hs.
  intros H. apply set_all_In in H. destruct H as [H|H]; [|now left].
  right. apply In_firstn in H. unfold Indexed.entriesOf in H.
  apply in_map_iff in H. destruct H as [[i t] [<- Hin]].
  apply numbered_In in Hin. apply nth_error_In in Hin.
  cbn [fst snd Indexed.chunkAt documentId chunk_content metadata totalChunks].
  split; [reflexivity | split; [exact Hin | reflexivity]].
Qed.

Lemma indexChunks_appends (document : IndexRequest) (turns : nat)
      (svc : AIService) :
  Inv.wellKeyed (vectorStore svc) ->
  Inv.absent (req_id document) (vectorStore svc) ->
  vectorStore (indexChunks fetchEmbedding document turns svc)
  = vectorStore svc
    ++ firstn turns (Indexed.entriesOf fetchEmbedding document svc).
Proof.
  intros Hwk Habs.
  destruct (indexChunks_fold document turns svc) as [_ Hs].
  rewrite Hs. apply set_all_fresh.
  - rewrite <- firstn_map. apply NoDup_firstn, entriesOf_NoDup.
  - intros k Hk Hin. rewrite <- firstn_map in Hk. apply In_firstn in Hk.
    unfold JsMap.keys in Hin. apply in_map_iff in Hin.
    destruct Hin as [e [<- He]].
    apply (Habs (snd e)).
    + unfold JsMap.values. now apply in_map.
    + now apply (@entriesOf_fresh _ _ fetchEmbedding document svc).
Qed.

(** Removing the document undoes a run of the indexing loop, complete or
    not. *)
Lemma removeDocument_undoes_indexChunks (document : IndexRequest)
      (turns : nat) (svc : AIService) :
  Inv.wellKeyed (vectorStore svc) ->
  Inv.absent (req_id document) (vectorStore svc) ->
  removeDocument (indexChunks fetchEmbedding document turns svc)
                 (req_id document)
  = svc.
Proof.
  intros Hwk Habs.
  destruct (indexChunks_fold document turns svc) as [Hk Hs].
  apply service_eq; [exact Hk|].
  rewrite removeDocument_filter.
  - rewrite indexChunks_appends by assumption.
    rewrite filter_app, filter_all, filter_none.
    + apply app_nil_r.
    + intros e He. apply In_firstn in He. apply negb_false_iff, eqb_eq.
      apply (@entriesOf_document _ _ fetchEmbedding document svc) in He.
      tauto.
    + intros e He. apply negb_true_iff, eqb_neq. apply Habs.
      unfold JsMap.values. now apply in_map.
  - rewrite Hs. apply set_all_NoDup, Hwk.
Qed.

End PartialIndexFacts.

Section MapFacts2.

Variable V : Type.

Lemma has_set_same (m : JsMap.t V) (k : jsstring) (v : V) :
  JsMap.has (JsMap.set m k v) k = true.
Proof. unfold JsMap.has. now rewrite get_set_same. Qed.

Lemma has_set_keep (m : JsMap.t V) (k k' : jsstring) (v : V) :
  JsMap.has m k' = true -> JsMap.has (JsMap.set m k v) k' = true.
Proof.
  intros H. destruct (JsString.eqb k' k) eqn:E.
  - apply eqb_eq in E. subst k'. apply has_set_same.
  - apply eqb_neq in E. unfold JsMap.has in *. now rewrite get_set_other.
Qed.

Lemma set_set (m : JsMap.t V) (k : jsstring) (v v' : V) :
  JsMap.set (JsMap.set m k v) k v' = JsMap.set m k v'.
Proof.
  induction m as [|[k0 v0] m IH]; cbn [JsMap.set].
  - now rewrite eqb_refl.
  - destruct (JsString.eqb k0 k) eqn:E; cbn [JsMap.set]; rewrite E.
    + reflexivity.
    + now rewrite IH.
Qed.

Lemma get_delete (m : JsMap.t V) (k k' : jsstring) :
  JsMap.get (JsMap.delete m k) k'
  = if JsString.eqb k' k then None else JsMap.get m k'.
Proof.
  unfold JsMap.delete.
  induction m as [|[k0 v0] m IH]; cbn [filter JsMap.get fst].
  - now destruct (JsString.eqb k' k).
  - destruct (JsString.eqb k0 k) eqn:E; cbn [negb JsMap.get].
    + rewrite IH. apply eqb_eq in E. subst k0.
      rewrite (eqb_sym k k'). now destruct (JsString.eqb k' k).
    + rewrite IH. destruct (JsString.eqb k0 k') eqn:E'; [|reflexivity].
      apply eqb_eq in E'. subst k0. now rewrite E.
Qed.

Lemma delete_set_fresh (m : JsMap.t V) (k : jsstring) (v : V) :
  JsMap.get m k = None -> JsMap.delete (JsMap.set m k v) k = m.
Proof.
  intros H. rewrite set_absent by exact H. unfold JsMap.delete.
  rewrite filter_app. cbn [filter fst]. rewrite eqb_refl. cbn [negb].
  rewrite app_nil_r. apply filter_all. intros e He.
  apply negb_true_iff, eqb_neq. intros <-.
  apply get_None_keys in H. apply H. unfold JsMap.keys. now apply in_map.
Qed.

End MapFacts2.

Section SystemFacts.

Context {A : Arith} {S : Sine A}.
Variable fetchEmbedding : jsstring -> jsstring -> option (@AI.EmbeddingResult A).
Variable toLowerCase : jsstring -> jsstring.
Variables pdfPlaceholder docxPlaceholder : Docs.File -> jsstring.

Import Docs.

Lemma uploadFile_documents
      (newId : jsstring) (tUploaded tUpdated tIndexed : Z)
      (fault : option (nat * Thrown)) (file : File) (sys : System) :
  exists document,
    id document = newId
    /\ documents
         (docs (fst (uploadFile fetchEmbedding toLowerCase pdfPlaceholder
                                docxPlaceholder newId tUploaded tUpdated
                                tIndexed fault file sys)))
       = JsMap.set (documents (docs sys)) newId document.
Proof.
  unfold uploadFile.
  destruct (extractContent toLowerCase pdfPlaceholder docxPlaceholder file)
    as [c|e].
  - destruct fault as [[turns e]|]; cbn; rewrite !set_set;
      eexists; (split; [|reflexivity]); reflexivity.
  - cbn. rewrite !set_set. eexists; (split; [|reflexivity]); reflexivity.
Qed.

Lemma uploadFile_ai
      (newId : jsstring) (tUploaded tUpdated tIndexed : Z)
      (fault : option (nat * Thrown)) (file : File) (sys : System) :
  let after :=
    ai (fst (uploadFile fetchEmbedding toLowerCase pdfPlaceholder
                        docxPlaceholder newId tUploaded tUpdated tIndexed
                        fault file sys)) in
  after = ai sys
  \/ exists turns c,
       after = AI.indexChunks fetchEmbedding (Whole.uploadRequest toLowerCase newId file c)
                              turns (ai sys).
Proof.
  cbv zeta. unfold uploadFile.
  destruct (extractContent toLowerCase pdfPlaceholder docxPlaceholder file)
    as [c|e]; [|now left].
  right. destruct fault as [[turns e]|]; cbn.
  - now exists turns, c.
  - eexists. exists c. reflexivity.
Qed.

Lemma updateDocument_documents
      (now : Z) (fault : option (nat * Thrown)) (docId content : jsstring)
      (sys : System) (old : Document) :
  JsMap.get (documents (docs sys)) docId = Some old ->
  exists document,
    id document = id old
    /\ documents
         (docs (fst (updateDocument fetchEmbedding now fault docId content
                                    sys)))
       = JsMap.set (documents (docs sys)) docId document.
Proof.
  intros H. unfold updateDocument. rewrite H.
  destruct fault as [[turns e]|]; cbn; rewrite !set_set;
    eexists; (split; [|reflexivity]); reflexivity.
Qed.

Lemma updateDocument_ai
      (now : Z) (fault : option (nat * Thrown)) (docId content : jsstring)
      (sys : System) (old : Document) :
  JsMap.get (documents (docs sys)) docId = Some old ->
  exists turns,
    ai (fst (updateDocument fetchEmbedding now fault docId content sys))
    = AI.indexChunks fetchEmbedding (Whole.updateRequest old content) turns
                     (AI.removeDocument (ai sys) docId).
Proof.
  intros H. unfold updateDocument. rewrite H.
  destruct fault as [[turns e]|]; cbn.
  - now exists turns.
  - eexists. reflexivity.
Qed.

Lemma keyedById_set (ds m : DocumentService)
      (key : jsstring) (document : Document) :
  Whole.keyedById ds -> id document = key ->
  documents m = JsMap.set (documents ds) key document ->
  Whole.keyedById m.
Proof.
  intros Hk Hid Hm k d. rewrite Hm.
  destruct (list_eq_dec N.eq_dec k key) as [->|Hne].
  - rewrite get_set_same. now intros [= <-].
  - rewrite get_set_other by exact Hne. apply Hk.
Qed.

Lemma values_In (V : Type) (m : JsMap.t V) (v : V) :
  In v (JsMap.values m) <-> exists e, In e m /\ snd e = v.
Proof.
  unfold JsMap.values. rewrite in_map_iff. split; intros [e [H1 H2]];
    exists e; tauto.
Qed.

End SystemFacts.

Section ConsistencyFacts.

Context {A : Arith} {S : Sine A}.
Variable fetchEmbedding : jsstring -> jsstring -> option (@AI.EmbeddingResult A).
Variable toLowerCase : jsstring -> jsstring.
Variables pdfPlaceholder docxPlaceholder : Docs.File -> jsstring.

Import Docs.

(** A run of the indexing loop for a document of the set leaves no chunk
    without a document. *)
Lemma noOrphan_indexChunks
      (request : AI.IndexRequest) (turns : nat) (svc : AI.AIService)
      (m m' : JsMap.t Document) (document : Document) :
  (forall c, In c (JsMap.values (AI.vectorStore svc)) ->
             JsMap.has m (AI.documentId c) = true) ->
  m' = JsMap.set m (AI.req_id request) document ->
  forall c,
    In c (JsMap.values
            (AI.vectorStore
               (AI.indexChunks fetchEmbedding request turns svc))) ->
    JsMap.has m' (AI.documentId c) = true.
Proof.
  intros Hold -> c Hc. apply values_In in Hc. destruct Hc as [e [He <-]].
  apply indexChunks_In in He. destruct He as [He | [Hd _]].
  - apply has_set_keep. apply Hold. apply values_In. now exists e.
  - rewrite Hd. apply has_set_same.
Qed.

Lemma consistent_uploadFile
      (newId : jsstring) (tUploaded tUpdated tIndexed : Z)
      (fault : option (nat * Thrown)) (file : File) (sys : System) :
  Whole.consistent sys ->
  Whole.consistent
    (fst (uploadFile fetchEmbedding toLowerCase pdfPlaceholder
                     docxPlaceholder newId tUploaded tUpdated tIndexed
                     fault file sys)).
Proof.
  intros [Hk Ho].
  destruct (uploadFile_documents fetchEmbedding toLowerCase pdfPlaceholder
              docxPlaceholder newId tUploaded tUpdated tIndexed fault file
              sys) as [d [Hid Hdocs]].
  pose proof (uploadFile_ai fetchEmbedding toLowerCase pdfPlaceholder
                docxPlaceholder newId tUploaded tUpdated tIndexed fault file
                sys) as Hai.
  cbv zeta in Hai. split.
  - eapply keyedById_set; [exact Hk | exact Hid | exact Hdocs].
  - unfold Whole.noOrphan. rewrite Hdocs.
    destruct Hai as [-> | [turns [c ->]]].
    + intros ch Hch. apply has_set_keep. now apply Ho.
    + now apply (@noOrphan_indexChunks
                   (Whole.uploadRequest toLowerCase newId file c) turns
                   (ai sys) (documents (docs sys)) _ d).
Qed.

Lemma consistent_updateDocument
      (now : Z) (fault : option (nat * Thrown)) (docId content : jsstring)
      (sys : System) :
  Whole.consistent sys ->
  Whole.consistent
    (fst (updateDocument fetchEmbedding now fault docId content sys)).
Proof.
  intros [Hk Ho].
  destruct (JsMap.get (documents (docs sys)) docId) as [old|] eqn:E.
  - destruct (updateDocument_documents fetchEmbedding now fault docId content
                sys E) as [d [Hid Hdocs]].
    destruct (updateDocument_ai fetchEmbedding now fault docId content sys E)
      as [turns Hai].
    pose proof (Hk docId old E) as Hold. split.
    + eapply keyedById_set; [exact Hk | | exact Hdocs]. congruence.
    + unfold Whole.noOrphan. rewrite Hdocs, Hai.
      apply (@noOrphan_indexChunks (Whole.updateRequest old content) turns
               (AI.removeDocument (ai sys) docId) (documents (docs sys)) _ d).
      * intros c Hc. apply Ho. apply values_In in Hc.
        destruct Hc as [e [He <-]]. apply values_In. exists e.
        split; [|reflexivity].
        unfold AI.removeDocument in He. cbn [AI.vectorStore AI.withStore] in He.
        apply delete_all_In in He. tauto.
      * cbn [AI.req_id Whole.updateRequest]. now rewrite Hold.
  - unfold updateDocument. rewrite E. now split.
Qed.

Lemma consistent_deleteDocument (docId : jsstring) (sys : System) :
  Whole.consistent sys ->
  Whole.consistent (fst (deleteDocument docId sys)).
Proof.
  intros [Hk Ho]. unfold deleteDocument. cbn [fst]. split.
  - intros k d. cbn. rewrite get_delete.
    destruct (JsString.eqb k docId); [discriminate | apply Hk].
  - intros c Hc. cbn [ai docs] in Hc |- *.
    cbn [documents notifyUpdate saveDocuments withDocuments].
    pose proof (@removeDocument_none_left _ (ai sys) docId c Hc) as Hne.
    assert (Hin : In c (JsMap.values (AI.vectorStore (ai sys)))).
    { apply values_In in Hc. destruct Hc as [e [He <-]].
      apply values_In. exists e. split; [|reflexivity].
      unfold AI.removeDocument in He.
      cbn [AI.vectorStore AI.withStore] in He.
      apply delete_all_In in He. tauto. }
    specialize (Ho c Hin). unfold JsMap.has in *. rewrite get_delete.
    apply eqb_neq in Hne. now rewrite Hne.
Qed.

(** Calls that run one after the other keep the two services in step. *)
Lemma consistent_performAll (calls : list Whole.Call) :
  forall sys : System,
    Whole.consistent sys ->
    Whole.consistent
      (Whole.performAll fetchEmbedding toLowerCase pdfPlaceholder
                        docxPlaceholder calls sys).
Proof.
  induction calls as [|call calls IH]; intros sys H; [exact H|].
  unfold Whole.performAll. cbn [fold_left]. apply IH.
  destruct call; cbn [Whole.perform].
  - now apply consistent_uploadFile.
  - now apply consistent_updateDocument.
  - now apply consistent_deleteDocument.
  - split.
    + intros k d. cbn. discriminate.
    + intros c [].
Qed.

Lemma write_held (ds : DocumentService) (key : jsstring)
      (held document : Document) :
  id document = key ->
  Whole.write (store ds key held) document
  = store (store ds key held) key document.
Proof.
  intros <-. unfold Whole.write, JsMap.has, store at 1.
  cbn [documents withDocuments]. now rewrite get_set_same.
Qed.

(** With no call in between, the two parts of [uploadFile] are the
    whole of it. *)
Lemma uploadFile_in_two_parts
      (newId : jsstring) (tUploaded tUpdated tIndexed : Z)
      (fault : option (nat * Thrown)) (file : File) (sys : System) :
  uploadFile fetchEmbedding toLowerCase pdfPlaceholder docxPlaceholder
             newId tUploaded tUpdated tIndexed fault file sys
  = Whole.uploadResume
      fetchEmbedding toLowerCase pdfPlaceholder docxPlaceholder tIndexed
      fault file
      (snd (Whole.uploadBegin toLowerCase newId tUploaded tUpdated file sys))
      (fst (Whole.uploadBegin toLowerCase newId tUploaded tUpdated file sys)).
Proof.
  unfold uploadFile, Whole.uploadResume, Whole.uploadBegin.
  cbn [fst snd docs ai].
  assert (Hheld : forall ds held document,
             id document = newId ->
             Whole.write (publish ds newId held) document
             = store (publish ds newId held) newId document).
  { intros ds held document <-. unfold Whole.write, JsMap.has, publish.
    cbn [documents notifyUpdate saveDocuments store withDocuments].
    now rewrite get_set_same. }
  destruct (extractContent toLowerCase pdfPlaceholder docxPlaceholder file)
    as [c|e].
  - rewrite Hheld by reflexivity.
    destruct (awaitIndex fetchEmbedding fault _ (ai sys)) as [svc [u|e]].
    + unfold Whole.announce. rewrite write_held by reflexivity.
      reflexivity.
    + unfold Whole.announce, failed. rewrite write_held by reflexivity.
      reflexivity.
  - unfold Whole.announce, failed. rewrite Hheld by reflexivity.
    reflexivity.
Qed.

(** A [deleteDocument] that runs while [uploadFile] waits for the text of
    its file leaves the chunks of the upload in the store, and no document
    for them. *)
Lemma uploadWithDelete_orphan
      (newId : jsstring) (tUploaded tUpdated tIndexed : Z) (file : File)
      (c : jsstring) (sys : System) :
  extractContent toLowerCase pdfPlaceholder docxPlaceholder file
  = Returned c ->
  let after :=
    Whole.uploadWithDelete fetchEmbedding toLowerCase pdfPlaceholder
                           docxPlaceholder newId tUploaded tUpdated tIndexed
                           None file sys in
  JsMap.has (documents (docs after)) newId = false
  /\ exists chunk, In chunk (JsMap.values (AI.vectorStore (ai after)))
                   /\ AI.documentId chunk = newId.
Proof.
  intros Hc after. unfold after, Whole.uploadWithDelete, Whole.uploadBegin,
    Whole.uploadResume.
  rewrite Hc. cbn [awaitIndex fst snd docs ai deleteDocument].
  assert (Hgone : forall ds : DocumentService,
             JsMap.has
               (documents
                  (notifyUpdate
                     (saveDocuments
                        (withDocuments ds
                           (JsMap.delete (documents ds) newId))))) newId
             = false).
  { intros ds. cbn [documents notifyUpdate saveDocuments withDocuments].
    unfold JsMap.has. now rewrite get_delete, eqb_refl. }
  assert (Hkept : forall ds document,
             JsMap.has (documents ds) (id document) = false ->
             Whole.write ds document = ds).
  { intros ds document H. unfold Whole.write. now rewrite H. }
  split.
  - unfold Whole.announce.
    rewrite (Hkept _ (withContent _ c)) by exact (Hgone _).
    rewrite Hkept by exact (Hgone _).
    exact (Hgone _).
  - set (document := withContent _ c).
    set (svc := AI.removeDocument (ai sys) newId).
    pose proof (@splitIntoChunks_never_empty
                  (AI.req_content (requestOf document)) 500
                  AI.defaultOverlap) as Hne.
    destruct (AI.splitIntoChunks (AI.req_content (requestOf document)) 500
                                 AI.defaultOverlap) as [|text rest] eqn:E;
      [congruence|].
    pose proof (@indexDocument_lookup _ _ fetchEmbedding
                  (requestOf document) svc 0%nat text) as Hget.
    rewrite E in Hget. specialize (Hget eq_refl).
    apply get_In_values in Hget.
    eexists. split; [exact Hget | reflexivity].
Qed.

End ConsistencyFacts.

(** X22.  Calls of [uploadFile], [updateDocument], [deleteDocument] and
    [clearAll] that run one after the other, each to its end before the
    next one starts, leave no chunk without its document: when every
    document is under its own identifier and every chunk of the store
    belongs to a document of the set, the same holds after the calls,
    however each of them ends.  Calls that overlap do not keep it: a
    [deleteDocument] that runs while [uploadFile] waits for the text of
    its file leaves the chunks of the upload in the store and no document
    for them, where [uploadFile] is taken in two parts, before and after
    that wait, which with no call in between are the whole of it. *)
Theorem system_stays_consistent
        (A : Arith) (S : Sine A)
        (fetchEmbedding : jsstring -> jsstring -> option AI.EmbeddingResult)
        (toLowerCase : jsstring -> jsstring)
        (pdfPlaceholder docxPlaceholder : Docs.File -> jsstring) :
  (forall (calls : list Whole.Call) (sys : Docs.System),
      Whole.consistent sys ->
      Whole.consistent
        (Whole.performAll fetchEmbedding toLowerCase pdfPlaceholder
                          docxPlaceholder calls sys))
  /\ (forall newId tUploaded tUpdated tIndexed fault file
             (sys : Docs.System),
         Docs.uploadFile fetchEmbedding toLowerCase pdfPlaceholder
                         docxPlaceholder newId tUploaded tUpdated tIndexed
                         fault file sys
         = Whole.uploadResume
             fetchEmbedding toLowerCase pdfPlaceholder docxPlaceholder
             tIndexed fault file
             (snd (Whole.uploadBegin toLowerCase newId tUploaded tUpdated
                                     file sys))
             (fst (Whole.uploadBegin toLowerCase newId tUploaded tUpdated
                                     file sys)))
  /\ (forall newId tUploaded tUpdated tIndexed file c (sys : Docs.System),
         Docs.extractContent toLowerCase pdfPlaceholder docxPlaceholder file
         = Docs.Returned c ->
         ~ Whole.noOrphan
             (Whole.uploadWithDelete
                fetchEmbedding toLowerCase pdfPlaceholder docxPlaceholder
                newId tUploaded tUpdated tIndexed None file sys)).
Proof.
  split; [|split].
  - intros calls sys. apply consistent_performAll.
  - intros. apply uploadFile_in_two_parts.
  - intros newId tUploaded tUpdated tIndexed file c sys Hc Horphan.
    destruct (@uploadWithDelete_orphan
                A S fetchEmbedding toLowerCase pdfPlaceholder
                docxPlaceholder newId tUploaded tUpdated tIndexed file c sys
                Hc) as [Hgone [chunk [Hin Hdoc]]].
    specialize (Horphan chunk Hin). rewrite Hdoc in Horphan. congruence.
Qed.

Lemma system_stays_consistent_witness :
  Whole.consistent Sample.emptySystem
  /\ Whole.consistent
       (Whole.performAll
          Sample.offline Sample.asciiLower Sample.placeholder
          Sample.placeholder
          [Whole.Upload (str "d1") 1 1 2 None Cases.readable;
           Whole.Update 3 None (str "d1") (str "Three");
           Whole.Delete (str "d1")]
          Sample.emptySystem)
  /\ ~ Whole.noOrphan
         (Whole.uploadWithDelete
            Sample.offline Sample.asciiLower Sample.placeholder
            Sample.placeholder (str "d1") 1 1 2 None Cases.readable
            Sample.emptySystem).
Proof.
  assert (H : Whole.consistent Sample.emptySystem).
  { split; [intros k d; cbn; discriminate | intros c []]. }
  split; [exact H|]. split.
  - exact (proj1 (@system_stays_consistent RArith RSine Sample.offline
                    Sample.asciiLower Sample.placeholder Sample.placeholder)
                 _ Sample.emptySystem H).
  - exact (proj2 (proj2 (@system_stays_consistent
                           RArith RSine Sample.offline Sample.asciiLower
                           Sample.placeholder Sample.placeholder))
                 (str "d1") 1%Z 1%Z 2%Z Cases.readable (str "One. Two")
                 Sample.emptySystem eq_refl).
Defined.

(** X23.  Deleting a document right after its upload undoes the upload,
    however the upload ended: when the identifier was new to the document
    set and to the store, the document set and the index are what they
    were before the upload. *)
Theorem deleteDocument_undoes_uploadFile
        (A : Arith) (S : Sine A)
        (fetchEmbedding : jsstring -> jsstring -> option AI.EmbeddingResult)
        (toLowerCase : jsstring -> jsstring)
        (pdfPlaceholder docxPlaceholder : Docs.File -> jsstring)
        (newId : jsstring) (tUploaded tUpdated tIndexed : Z)
        (fault : option (nat * Docs.Thrown)) (file : Docs.File)
        (sys : Docs.System) :
  JsMap.get (Docs.documents (Docs.docs sys)) newId = None ->
  Inv.wellKeyed (AI.vectorStore (Docs.ai sys)) ->
  Inv.absent newId (AI.vectorStore (Docs.ai sys)) ->
  let uploaded :=
    fst (Docs.uploadFile fetchEmbedding toLowerCase pdfPlaceholder
                         docxPlaceholder newId tUploaded tUpdated tIndexed
                         fault file sys) in
  let after := fst (Docs.deleteDocument newId uploaded) in
  Docs.documents (Docs.docs after) = Docs.documents (Docs.docs sys)
  /\ Docs.ai after = Docs.ai sys.
Proof.
  intros Hnew Hwk Habs uploaded after.
  destruct (uploadFile_documents fetchEmbedding toLowerCase pdfPlaceholder
              docxPlaceholder newId tUploaded tUpdated tIndexed fault file
              sys) as [d [Hid Hdocs]].
  pose proof (uploadFile_ai fetchEmbedding toLowerCase pdfPlaceholder
                docxPlaceholder newId tUploaded tUpdated tIndexed fault file
                sys) as Hai.
  cbv zeta in Hai. fold uploaded in Hdocs, Hai.
  unfold after, Docs.deleteDocument.
  cbn [fst Docs.docs Docs.ai Docs.documents Docs.notifyUpdate
       Docs.saveDocuments Docs.withDocuments].
  split.
  - rewrite Hdocs. now apply delete_set_fresh.
  - destruct Hai as [-> | [turns [c ->]]].
    + now apply removeDocument_absent.
    + now apply (@removeDocument_undoes_indexChunks _ _ fetchEmbedding
                   (Whole.uploadRequest toLowerCase newId file c)).
Qed.

Lemma deleteDocument_undoes_uploadFile_witness :
  JsMap.get (Docs.documents (Docs.docs Sample.emptySystem)) (str "d1") = None
  /\ Inv.wellKeyed (AI.vectorStore (Docs.ai Sample.emptySystem))
  /\ Inv.absent (str "d1") (AI.vectorStore (Docs.ai Sample.emptySystem))
  /\ Docs.ai
       (fst (Docs.deleteDocument (str "d1")
               (fst (Docs.uploadFile Sample.offline Sample.asciiLower
                                     Sample.placeholder Sample.placeholder
                                     (str "d1") 1 1 2 None Cases.readable
                                     Sample.emptySystem))))
     = Docs.ai Sample.emptySystem.
Proof.
  assert (H1 : JsMap.get (Docs.documents (Docs.docs Sample.emptySystem))
                         (str "d1") = None) by reflexivity.
  assert (H2 : Inv.wellKeyed (AI.vectorStore (Docs.ai Sample.emptySystem))).
  { split; [constructor | intros e []]. }
  assert (H3 : Inv.absent (str "d1")
                          (AI.vectorStore (Docs.ai Sample.emptySystem))).
  { intros c []. }
  split; [exact H1 | split; [exact H2 | split; [exact H3|]]].
  exact (proj2 (@deleteDocument_undoes_uploadFile RArith RSine Sample.offline
                  Sample.asciiLower Sample.placeholder Sample.placeholder
                  (str "d1") 1%Z 1%Z 2%Z None Cases.readable
                  Sample.emptySystem H1 H2 H3)).
Defined.

(** X24.  After [updateDocument], however it ends, no chunk of the
    previous content of the document is left in the store: every chunk of
    the document is a chunk of the new content.  When the update returns,
    the document is stored as [indexed] with the new content and the time
    of the update; its identifier, title, file type, file size, time of
    upload and recorded error are those it had. *)
Theorem updateDocument_replaces_chunks
        (A : Arith) (S : Sine A)
        (fetchEmbedding : jsstring -> jsstring -> option AI.EmbeddingResult)
        (now : Z) (fault : option (nat * Docs.Thrown))
        (docId content : jsstring) (sys : Docs.System)
        (old : Docs.Document) :
  JsMap.get (Docs.documents (Docs.docs sys)) docId = Some old ->
  let result := Docs.updateDocument fetchEmbedding now fault docId content sys in
  (forall c,
      In c (JsMap.values (AI.vectorStore (Docs.ai (fst result)))) ->
      AI.documentId c = docId ->
      In (AI.chunk_content c)
         (AI.splitIntoChunks content 500 AI.defaultOverlap))
  /\ (fault = None ->
      exists document,
        snd result = Docs.Returned document
        /\ JsMap.get (Docs.documents (Docs.docs (fst result))) docId
           = Some document
        /\ Docs.status document = Docs.indexed
        /\ Docs.content document = content
        /\ Docs.lastUpdated document = now
        /\ Docs.id document = Docs.id old
        /\ Docs.title document = Docs.title old
        /\ Docs.fileType document = Docs.fileType old
        /\ Docs.fileSize document = Docs.fileSize old
        /\ Docs.uploadedAt document = Docs.uploadedAt old
        /\ Docs.errorText document = Docs.errorText old).
Proof.
  intros Hget result. split.
  - intros c Hc Hdoc.
    destruct (updateDocument_ai fetchEmbedding now fault docId content sys
                Hget) as [turns Hai].
    fold result in Hai. rewrite Hai in Hc.
    apply values_In in Hc. destruct Hc as [e [He <-]].
    apply indexChunks_In in He. destruct He as [He | [_ [Hin _]]].
    + exfalso.
      apply (@removeDocument_none_left _ (Docs.ai sys) docId (snd e));
        [|exact Hdoc].
      apply values_In. now exists e.
    + exact Hin.
  - intros ->. unfold result, Docs.updateDocument. rewrite Hget.
    cbn [Docs.awaitIndex fst snd Docs.docs].
    eexists. split; [reflexivity|]. split.
    + unfold Docs.publish. cbn. apply get_set_same.
    + repeat split; reflexivity.
Qed.

Lemma updateDocument_replaces_chunks_witness :
  JsMap.get (Docs.documents (Docs.docs Cases.oneDoc)) (str "d1")
  = Some Cases.doc1
  /\ forall c,
       In c (JsMap.values
               (AI.vectorStore
                  (Docs.ai
                     (fst (Docs.updateDocument Sample.offline 3 None
                             (str "d1") (str "Three") Cases.oneDoc))))) ->
       AI.documentId c = str "d1" ->
       In (AI.chunk_content c)
          (AI.splitIntoChunks (str "Three") 500 AI.defaultOverlap).
Proof.
  assert (H : JsMap.get (Docs.documents (Docs.docs Cases.oneDoc)) (str "d1")
              = Some Cases.doc1) by reflexivity.
  split; [exact H|].
  exact (proj1 (@updateDocument_replaces_chunks RArith RSine Sample.offline
                  3%Z None (str "d1") (str "Three") Cases.oneDoc
                  Cases.doc1 H)).
Defined.

(** X25.  An upload whose file can be read and whose indexing does not
    fail returns the document as it is stored under the new identifier:
    [indexed], with the extracted text, the name, type and size of the
    file and the times of the upload and of the indexing, and no error.
    The store then holds the first chunk of the text under the
    identifier of the document and 0.  The subscribers were told three
    times: of the document as [pending], as [processing] with no content
    yet, and as returned. *)
Theorem uploadFile_success
        (A : Arith) (S : Sine A)
        (fetchEmbedding : jsstring -> jsstring -> option AI.EmbeddingResult)
        (toLowerCase : jsstring -> jsstring)
        (pdfPlaceholder docxPlaceholder : Docs.File -> jsstring)
        (newId : jsstring) (tUploaded tUpdated tIndexed : Z)
        (file : Docs.File) (sys : Docs.System) (c : jsstring) :
  Docs.extractContent toLowerCase pdfPlaceholder docxPlaceholder file
  = Docs.Returned c ->
  let result :=
    Docs.uploadFile fetchEmbedding toLowerCase pdfPlaceholder docxPlaceholder
                    newId tUploaded tUpdated tIndexed None file sys in
  let document :=
    {| Docs.id := newId;
       Docs.title := Docs.name file;
       Docs.content := c;
       Docs.fileType := Docs.getFileType toLowerCase file;
       Docs.fileSize := Docs.size file;
       Docs.uploadedAt := tUploaded;
       Docs.lastUpdated := tIndexed;
       Docs.status := Docs.indexed;
       Docs.chunkCount := None;
       Docs.errorText := None |} in
  snd result = Docs.Returned document
  /\ JsMap.get (Docs.documents (Docs.docs (fst result))) newId
     = Some document
  /\ (exists first chunk,
         nth_error (AI.splitIntoChunks c 500 AI.defaultOverlap) 0
         = Some first
         /\ JsMap.get (AI.vectorStore (Docs.ai (fst result)))
                      (AI.chunkKey newId 0)
            = Some chunk
         /\ AI.documentId chunk = newId
         /\ AI.chunk_content chunk = first)
  /\ (exists told1 told2 told3 d1 d2,
         Docs.notified (Docs.docs (fst result))
         = Docs.notified (Docs.docs sys) ++ [told1; told2; told3]
         /\ In d1 told1 /\ Docs.id d1 = newId
         /\ Docs.status d1 = Docs.pending
         /\ In d2 told2 /\ Docs.id d2 = newId
         /\ Docs.status d2 = Docs.processing /\ Docs.content d2 = []
         /\ In document told3).
Proof.
  intros Hread result document.
  unfold result, Docs.uploadFile. rewrite Hread.
  cbn [Docs.awaitIndex fst snd Docs.docs Docs.ai].
  split; [reflexivity|]. split; [|split].
  - unfold Docs.publish. cbn. apply get_set_same.
  - destruct (AI.splitIntoChunks c 500 AI.defaultOverlap) as [|first rest]
      eqn:E.
    + now apply splitIntoChunks_never_empty in E.
    + exists first. eexists. split; [reflexivity|]. split; [|split].
      * apply indexDocument_lookup. cbn [AI.req_content Docs.requestOf
          Docs.content Docs.withContent]. rewrite E. reflexivity.
      * reflexivity.
      * reflexivity.
  - unfold Docs.publish, Docs.notifyUpdate, Docs.saveDocuments, Docs.store,
      Docs.withDocuments.
    cbn [Docs.notified Docs.documents Docs.saved].
    rewrite <- !app_assoc. cbn [app].
    do 3 eexists.
    exists {| Docs.id := newId;
              Docs.title := Docs.name file;
              Docs.content := [];
              Docs.fileType := Docs.getFileType toLowerCase file;
              Docs.fileSize := Docs.size file;
              Docs.uploadedAt := tUploaded;
              Docs.lastUpdated := tUpdated;
              Docs.status := Docs.pending;
              Docs.chunkCount := None;
              Docs.errorText := None |}.
    exists {| Docs.id := newId;
              Docs.title := Docs.name file;
              Docs.content := [];
              Docs.fileType := Docs.getFileType toLowerCase file;
              Docs.fileSize := Docs.size file;
              Docs.uploadedAt := tUploaded;
              Docs.lastUpdated := tUpdated;
              Docs.status := Docs.processing;
              Docs.chunkCount := None;
              Docs.errorText := None |}.
    split; [reflexivity|].
    split; [apply (@listed _ newId); cbn; apply get_set_same|].
    split; [reflexivity|]. split; [reflexivity|].
    split; [apply (@listed _ newId); cbn; apply get_set_same|].
    split; [reflexivity|]. split; [reflexivity|]. split; [reflexivity|].
    apply (@listed _ newId). cbn. apply get_set_same.
Qed.

Lemma uploadFile_success_witness :
  Docs.extractContent Sample.asciiLower Sample.placeholder Sample.placeholder
                      Cases.readable
  = Docs.Returned (str "One. Two")
  /\ JsMap.get
       (Docs.documents
          (Docs.docs
             (fst (Docs.uploadFile Sample.offline Sample.asciiLower
                                   Sample.placeholder Sample.placeholder
                                   (str "d1") 1 1 2 None Cases.readable
                                   Sample.emptySystem))))
       (str "d1")
     = Some Cases.doc1.
Proof.
  assert (H : Docs.extractContent Sample.asciiLower Sample.placeholder
                                  Sample.placeholder Cases.readable
              = Docs.Returned (str "One. Two")) by reflexivity.
  split; [exact H|].
  exact (proj1 (proj2 (@uploadFile_success RArith RSine Sample.offline
                         Sample.asciiLower Sample.placeholder
                         Sample.placeholder (str "d1") 1%Z 1%Z 2%Z
                         Cases.readable Sample.emptySystem
                         (str "One. Two") H))).
Defined.

(** ** The remaining paths *)

Section OfflineFacts.

Context {A : Arith} {S : Sine A}.
Variable fetchEmbedding : jsstring -> jsstring -> option (@AI.EmbeddingResult A).

Import AI.

Lemma entriesOf_same_embeddings (document : IndexRequest)
      (s1 s2 : AIService) :
  (forall text, generateEmbedding fetchEmbedding s1 text
                = generateEmbedding fetchEmbedding s2 text) ->
  Indexed.entriesOf fetchEmbedding document s1
  = Indexed.entriesOf fetchEmbedding document s2.
Proof.
  intros H. unfold Indexed.entriesOf. apply map_ext. intros [i t].
  unfold Indexed.chunkAt. now rewrite H.
Qed.

Lemma generateEmbedding_offline (svc : AIService) (text : jsstring) :
  fetchEmbedding (apiKey svc) text = None ->
  generateEmbedding fetchEmbedding svc text
  = generateEmbedding fetchEmbedding (setApiKey svc []) text.
Proof.
  intros H. unfold generateEmbedding, setApiKey. cbn [apiKey truthy negb].
  rewrite H. now destruct (negb _).
Qed.

End OfflineFacts.

(** X26.  A remote embedding service that fails every request of the key
    is not told from a missing key: indexing a document writes the same
    store, and a search returns the same records, as after
    [setApiKey('')]. *)
Theorem offline_is_unkeyed
        (A : Arith) (S : Sine A)
        (fetchEmbedding : jsstring -> jsstring -> option AI.EmbeddingResult)
        (place : nat -> nat)
        (clock : nat -> Z) (svc : AI.AIService) :
  (forall text, fetchEmbedding (AI.apiKey svc) text = None) ->
  (forall document,
      AI.vectorStore (AI.indexDocument fetchEmbedding document svc)
      = AI.vectorStore
          (AI.indexDocument fetchEmbedding document (AI.setApiKey svc [])))
  /\ (forall query topK,
         AI.searchDocuments fetchEmbedding place clock svc query topK
         = AI.searchDocuments fetchEmbedding place clock (AI.setApiKey svc [])
                              query topK).
Proof.
  intros Hdown.
  assert (E : forall text,
             AI.generateEmbedding fetchEmbedding svc text
             = AI.generateEmbedding fetchEmbedding (AI.setApiKey svc []) text).
  { intros text. apply generateEmbedding_offline, Hdown. }
  split.
  - intros document.
    destruct (indexDocument_fold fetchEmbedding document svc) as [_ ->].
    destruct (indexDocument_fold fetchEmbedding document
                (AI.setApiKey svc [])) as [_ ->].
    now rewrite (entriesOf_same_embeddings fetchEmbedding document _ _ E).
  - intros query topK. unfold AI.searchDocuments, AI.topResults.
    now rewrite E.
Qed.

Lemma offline_is_unkeyed_witness :
  (forall text, Sample.offline (AI.apiKey Sample.threeDocs) text = None)
  /\ (forall query topK,
         AI.searchDocuments Sample.offline Sample.place Sample.ticks Sample.threeDocs
                            query topK
         = AI.searchDocuments Sample.offline Sample.place Sample.ticks
                              (AI.setApiKey Sample.threeDocs []) query topK).
Proof.
  assert (H : forall text,
             Sample.offline (AI.apiKey Sample.threeDocs) text = None)
    by reflexivity.
  split; [exact H|].
  exact (proj2 (@offline_is_unkeyed RArith RSine Sample.offline Sample.place Sample.ticks
                  Sample.threeDocs H)).
Defined.

Section TitleFacts.

Import Docs.

Lemma filter_newestFirst (f : Document -> bool) (l : list Document) :
  Whole.newestFirst l -> Whole.newestFirst (filter f l).
Proof.
  unfold Whole.newestFirst.
  induction 1 as [|y l Hsorted IH Hy]; cbn [filter]; [constructor|].
  destruct (f y); [|exact IH]. constructor; [exact IH|].
  apply Forall_forall. intros z Hz. apply filter_In in Hz.
  rewrite Forall_forall in Hy. apply Hy. tauto.
Qed.

End TitleFacts.

(** X27.  The documents a title search returns are documents of the set
    whose title, in lower case, contains the query in lower case; they
    come the most recently updated first, and a document is returned as
    often as it is listed. *)
Theorem searchByTitle_newest_first
        (toLowerCase : jsstring -> jsstring) (ds : Docs.DocumentService)
        (query : jsstring) :
  let found := Docs.searchByTitle toLowerCase ds query in
  Whole.newestFirst found
  /\ (forall document,
         In document found
         <-> In document (JsMap.values (Docs.documents ds))
             /\ includes (toLowerCase (Docs.title document))
                         (toLowerCase query) = true)
  /\ (List.length found <= List.length (Docs.documents ds))%nat.
Proof.
  intros found. unfold found, Docs.searchByTitle. split; [|split].
  - apply filter_newestFirst, sort_newestFirst.
  - intros document. rewrite filter_In. unfold Docs.getAllDocuments.
    now rewrite sort_In.
  - etransitivity; [apply filter_length_le|].
    unfold Docs.getAllDocuments. rewrite sort_length.
    unfold JsMap.values. now rewrite length_map.
Qed.

(** X28.  After [clearAll] nothing is left: the list of documents is
    empty, no chunk is indexed, every search returns nothing, and the
    subscribers were last told of the empty list. *)
Theorem clearAll_leaves_nothing
        (A : Arith) (S : Sine A)
        (fetchEmbedding : jsstring -> jsstring -> option AI.EmbeddingResult)
        (place : nat -> nat)
        (toLowerCase : jsstring -> jsstring)
        (clock : nat -> Z) (sys : Docs.System) :
  let after := Docs.clearAll sys in
  Docs.getAllDocuments (Docs.docs after) = []
  /\ Docs.saved (Docs.docs after) = []
  /\ last (Docs.notified (Docs.docs after))
          (Docs.getAllDocuments (Docs.docs sys))
     = []
  /\ AI.getIndexedCount (Docs.ai after) = 0%Z
  /\ AI.apiKey (Docs.ai after) = AI.apiKey (Docs.ai sys)
  /\ (forall docId, Docs.getDocument (Docs.docs after) docId = None)
  /\ (forall query topK,
         AI.searchDocuments fetchEmbedding place clock (Docs.ai after) query topK
         = [])
  /\ (forall query, Docs.searchByTitle toLowerCase (Docs.docs after) query
                    = []).
Proof.
  intros after. unfold after, Docs.clearAll.
  cbn [Docs.docs Docs.ai]. repeat split; try reflexivity.
  - unfold Docs.notifyUpdate. cbn [Docs.notified]. now rewrite last_last.
  - intros query topK. unfold AI.searchDocuments, AI.topResults, AI.clearIndex.
    cbn [AI.vectorStore AI.withStore]. unfold JsArray.slice. cbn.
    now rewrite firstn_nil.
Qed.

Section CountFacts.

Lemma nodup_length_remove (l l' : list jsstring) (d : jsstring) :
  (forall x, In x l' <-> x <> d /\ In x l) ->
  List.length (nodup (list_eq_dec N.eq_dec) l)
  = (List.length (nodup (list_eq_dec N.eq_dec) l')
     + if in_dec (list_eq_dec N.eq_dec) d l then 1 else 0)%nat.
Proof.
  intros H. destruct (in_dec (list_eq_dec N.eq_dec) d l) as [Hin|Hout].
  - rewrite Nat.add_1_r.
    change (Datatypes.S (List.length (nodup (list_eq_dec N.eq_dec) l')))
      with (List.length (d :: nodup (list_eq_dec N.eq_dec) l')).
    apply Permutation_length. apply NoDup_Permutation.
    + apply NoDup_nodup.
    + constructor; [|apply NoDup_nodup].
      rewrite nodup_In, H. tauto.
    + intros x. cbn [In]. rewrite !nodup_In, H.
      destruct (list_eq_dec N.eq_dec d x) as [->|Hne]; [tauto|].
      split.
      * intros Hx. right. split; [|exact Hx].
        intros E. apply Hne. now symmetry.
      * intros [Heq|[_ Hx]]; [now contradiction Hne | exact Hx].
  - rewrite Nat.add_0_r. apply nodup_length_same. intros x. rewrite H.
    split; [|tauto]. intros Hx. split; [|exact Hx].
    intros ->. contradiction.
Qed.

End CountFacts.

(** X29.  In a store with no key twice, [removeDocument] lowers the count
    of indexed documents by one when the store had a chunk of the
    document, and leaves it as it was otherwise. *)
Theorem removeDocument_count
        (A : Arith) (svc : AI.AIService) (docId : jsstring) :
  NoDup (JsMap.keys (AI.vectorStore svc)) ->
  AI.getIndexedCount (AI.removeDocument svc docId)
  = (AI.getIndexedCount svc
     - if existsb (fun c => JsString.eqb (AI.documentId c) docId)
                  (JsMap.values (AI.vectorStore svc))
       then 1 else 0)%Z.
Proof.
  intros Hnd. unfold AI.getIndexedCount.
  rewrite (@nodup_length_remove
             (List.map AI.documentId (JsMap.values (AI.vectorStore svc)))
             (List.map AI.documentId
                (JsMap.values (AI.vectorStore (AI.removeDocument svc docId))))
             docId).
  - destruct (in_dec _ _ _) as [Hin|Hout];
      destruct (existsb _ _) eqn:E; try lia.
    + exfalso. apply in_map_iff in Hin. destruct Hin as [c [Hc Hin]].
      assert (X : existsb (fun c => JsString.eqb (AI.documentId c) docId)
                          (JsMap.values (AI.vectorStore svc)) = true).
      { apply existsb_exists. exists c. split; [exact Hin | now apply eqb_eq]. }
      congruence.
    + exfalso. apply existsb_exists in E. destruct E as [c [Hin Hc]].
      apply eqb_eq in Hc. apply Hout. apply in_map_iff. now exists c.
  - intros x. rewrite removeDocument_filter by exact Hnd.
    unfold JsMap.values. rewrite !map_map, !in_map_iff. split.
    + intros [e [<- He]]. apply filter_In in He. destruct He as [He Hd].
      apply negb_true_iff, eqb_neq in Hd. split; [exact Hd|]. now exists e.
    + intros [Hne [e [<- He]]]. exists e. split; [reflexivity|].
      apply filter_In. split; [exact He|]. now apply negb_true_iff, eqb_neq.
Qed.

Lemma removeDocument_count_witness :
  NoDup (JsMap.keys (AI.vectorStore Sample.threeDocs))
  /\ AI.getIndexedCount (AI.removeDocument Sample.threeDocs (str "b"))
     = (AI.getIndexedCount Sample.threeDocs
        - if existsb (fun c => JsString.eqb (AI.documentId c) (str "b"))
                     (JsMap.values (AI.vectorStore Sample.threeDocs))
          then 1 else 0)%Z.
Proof.
  assert (H : NoDup (JsMap.keys (AI.vectorStore Sample.threeDocs))).
  { vm_compute. repeat constructor; simpl; intuition discriminate. }
  split; [exact H|].
  exact (@removeDocument_count RArith Sample.threeDocs (str "b") H).
Defined.
